(** * clickhouse-sql-parser: the token scanner and the expression / type grammar

    A shallow embedding of [parser/lexer.go] and [parser/parser_column.go].

    - Go [string] is a byte sequence: Rocq [string] (a list of 8-bit [ascii]).
    - Go [int] is a 64-bit two's complement integer: [Z] with the wrap-around
      of [+] written out ([addi]).
    - An index or slice expression out of range, and a nil pointer
      dereference, panic: the outcome [Panic].
    - A Go loop is a [Fixpoint] on a fuel counter; a loop that has not left
      after [fuel] iterations yields [Timeout].
    - The scanner is a mutable object: every method takes the scanner state
      and returns the state it leaves behind. *)

From Stdlib Require Import ZArith List Bool String Ascii Lia.
Import ListNotations.

Open Scope string_scope.
Open Scope Z_scope.

(** ** Outcomes of running Go code *)

Inductive outcome (A : Type) : Type :=
| Done (a : A)   (* the call returned *)
| Panic          (* runtime panic: index out of range, nil dereference *)
| Timeout.       (* the fuel ran out before the call returned *)

Arguments Done {A} a.
Arguments Panic {A}.
Arguments Timeout {A}.

Definition bind {A B : Type} (m : outcome A) (k : A -> outcome B) : outcome B :=
  match m with
  | Done a => k a
  | Panic => Panic
  | Timeout => Timeout
  end.

Notation "x <- m ;; k" := (bind m (fun x => k))
  (at level 61, m at next level, right associativity).
Notation "' p <- m ;; k" := (bind m (fun x => match x with p => k end))
  (at level 61, p pattern, m at next level, right associativity).

(** Go's short-circuit [&&] and [||] over operands that may panic. *)
Definition and_then (a b : outcome bool) : outcome bool :=
  x <- a ;; if x then b else Done false.
Definition or_else (a b : outcome bool) : outcome bool :=
  x <- a ;; if x then Done true else b.

Infix "&&&" := and_then (at level 40, left associativity).
Infix "|||" := or_else (at level 50, left associativity).

(** ** Go integers, bytes and strings *)

Definition wrap64 (z : Z) : Z := (z + 2 ^ 63) mod 2 ^ 64 - 2 ^ 63.

(** [a + b] on Go [int]. *)
Definition addi (a b : Z) : Z := wrap64 (a + b).

Definition byte := ascii.

Definition code (c : byte) : Z := Z.of_N (N_of_ascii c).

Definition len (s : string) : Z := Z.of_nat (String.length s).

(** [s[k]] *)
Definition index (s : string) (k : Z) : outcome byte :=
  if 0 <=? k then
    match String.get (Z.to_nat k) s with
    | Some c => Done c
    | None => Panic
    end
  else Panic.

(** [s[a:b]] *)
Definition substr (s : string) (a b : Z) : outcome string :=
  if (0 <=? a) && (a <=? b) && (b <=? len s)
  then Done (substring (Z.to_nat a) (Z.to_nat (b - a)) s)
  else Panic.

(** [strings.ToUpper] and [strings.EqualFold] (Go standard library), on
    ASCII: a byte outside [a-z] is left as it is.  The scanner and the
    grammar apply them to the text of unquoted identifiers, keywords and
    operators, which is ASCII.  The grammar also applies [strings.ToUpper]
    to the text of an identifier between backticks, which may hold other
    bytes: there Go maps the letters outside ASCII too, and these
    definitions do not follow it.  A property that depends on the
    upper-casing of such a text assumes that the text is ASCII. *)
Definition upper_byte (c : byte) : byte :=
  if (97 <=? code c) && (code c <=? 122)
  then ascii_of_N (N_of_ascii c - 32) else c.

Fixpoint ToUpper (s : string) : string :=
  match s with
  | EmptyString => EmptyString
  | String c r => String (upper_byte c) (ToUpper r)
  end.

Definition EqualFold (s t : string) : bool := String.eqb (ToUpper s) (ToUpper t).

(** *** [unicode/utf8] and [unicode] (Go standard library) *)

Definition RuneError : Z := 65533.

(** [utf8.DecodeRuneInString]: the first rune of [s] and its width in bytes;
    [(RuneError, 0)] on the empty string, [(RuneError, 1)] on an invalid
    encoding. *)
Definition DecodeRuneInString (s : string) : Z * Z :=
  match s with
  | EmptyString => (RuneError, 0)
  | String c0 r0 =>
    let s0 := code c0 in
    if s0 <? 128 then (s0, 1)
    else if (s0 <? 194) || (244 <? s0) then (RuneError, 1)
    else
      let sz := if s0 <? 224 then 2 else if s0 <? 240 then 3 else 4 in
      let lo := if s0 =? 224 then 160 else if s0 =? 240 then 144 else 128 in
      let hi := if s0 =? 237 then 159 else if s0 =? 244 then 143 else 191 in
      if len s <? sz then (RuneError, 1)
      else
        match r0 with
        | EmptyString => (RuneError, 1)
        | String c1 r1 =>
          let s1 := code c1 in
          if (s1 <? lo) || (hi <? s1) then (RuneError, 1)
          else if sz <=? 2 then
            (Z.lor (Z.shiftl (Z.land s0 31) 6) (Z.land s1 63), 2)
          else
            match r1 with
            | EmptyString => (RuneError, 1)
            | String c2 r2 =>
              let s2 := code c2 in
              if (s2 <? 128) || (191 <? s2) then (RuneError, 1)
              else if sz <=? 3 then
                (Z.lor (Z.lor (Z.shiftl (Z.land s0 15) 12)
                              (Z.shiftl (Z.land s1 63) 6))
                       (Z.land s2 63), 3)
              else
                match r2 with
                | EmptyString => (RuneError, 1)
                | String c3 _ =>
                  let s3 := code c3 in
                  if (s3 <? 128) || (191 <? s3) then (RuneError, 1)
                  else
                    (Z.lor (Z.lor (Z.lor (Z.shiftl (Z.land s0 7) 18)
                                         (Z.shiftl (Z.land s1 63) 12))
                                  (Z.shiftl (Z.land s2 63) 6))
                           (Z.land s3 63), 4)
                end
            end
        end
  end.

Definition memZ (x : Z) (xs : list Z) : bool := existsb (Z.eqb x) xs.

(** [unicode.IsSpace]: the Latin-1 spaces, and the property White_Space
    beyond Latin-1. *)
Definition IsSpace (r : Z) : bool :=
  if r <=? 255 then memZ r [9; 10; 11; 12; 13; 32; 133; 160]
  else (r =? 5760) || ((8192 <=? r) && (r <=? 8202))
       || memZ r [8232; 8233; 8239; 8287; 12288].

(** ** Tokens and the scanner state ([lexer.go]) *)

Definition Pos := Z.
Definition TokenKind := string.

Definition TokenEOF : TokenKind := "<eof>".
Definition TokenIdent : TokenKind := "<ident>".
Definition TokenKeyword : TokenKind := "<keyword>".
Definition TokenInt : TokenKind := "<int>".
Definition TokenFloat : TokenKind := "<float>".
Definition TokenString : TokenKind := "<string>".
Definition TokenCast : TokenKind := "<cast>".
Definition TokenArrow : TokenKind := "<arrow>".

(** [Token]; the fields [Pos], [End] and [String] are [TokPos], [TokEnd]
    and [TokString] here. *)
Record Token : Type := mkToken {
  TokPos : Pos;
  TokEnd : Pos;
  Kind : TokenKind;
  TokString : string;
  Base : Z;
  Unquoted : bool
}.

(** [Lexer]; [lastToken] is a nilable pointer. *)
Record Lexer : Type := mkLexer {
  input : string;
  current : Z;
  lastToken : option Token
}.

Definition NewLexer (buf : string) : Lexer :=
  {| input := buf; current := 0; lastToken := None |}.

Definition setCurrent (l : Lexer) (c : Z) : Lexer :=
  {| input := input l; current := c; lastToken := lastToken l |}.

Definition setLastToken (l : Lexer) (t : option Token) : Lexer :=
  {| input := input l; current := current l; lastToken := t |}.

(** The errors of the scanner and of the grammar, one constructor per
    message. *)
Inductive error : Type :=
| errInvalidNumber                         (* "invalid number" *)
| errExponent                              (* "exponent part should contain at least one digit" *)
| errUnclosedQuotedIdent (s : string)      (* "unclosed quoted identifier: %s" *)
| errInvalidString                         (* "invalid string" *)
| errDotAfterIdent (got : TokenKind)       (* "'.' should be after an Ident, but got <%q>" *)
| errDotFollowIdent (got : TokenKind)      (* "'.' should follow with an Ident, but got <%q>" *)
| errExpectedInLikeIlike (got : TokenKind) (* "expected IN, LIKE or ILIKE after NOT, got %s" *)
| errUnexpectedTokenKind (got : TokenKind) (* "unexpected token kind: %s" *)
| errUnknownIntervalType (name : string)   (* "unknown interval type: <%q>" *)
| errExpectedTokenKind (want got : TokenKind)
| errExpectedKeyword (want : string) (got : TokenKind)
| errExpectedLiteral (got : TokenKind)
| errExternal (msg : string).

(** *** Character classes and the keyword table *)

(** Modelled from the spec: the character classes [IsDigit], [IsHexDigit],
    [IsIdentStart] and [IsIdentPart] are not in the two source files.  Digits
    in base 10 and 16; an identifier starts with a letter or [_] and
    continues with letters, digits and [_]. *)
Definition IsDigit (c : byte) : bool := (48 <=? code c) && (code c <=? 57).

Definition IsHexDigit (c : byte) : bool :=
  IsDigit c || ((97 <=? code c) && (code c <=? 102))
            || ((65 <=? code c) && (code c <=? 70)).

Definition IsIdentStart (c : byte) : bool :=
  ((97 <=? code c) && (code c <=? 122))
  || ((65 <=? code c) && (code c <=? 90))
  || (code c =? 95).

Definition IsIdentPart (c : byte) : bool := IsIdentStart c || IsDigit c.

Definition KeywordAnd := "AND".
Definition KeywordAs := "AS".
Definition KeywordCase := "CASE".
Definition KeywordCast := "CAST".
Definition KeywordDate := "DATE".
Definition KeywordDistinct := "DISTINCT".
Definition KeywordElse := "ELSE".
Definition KeywordEnd := "END".
Definition KeywordExtract := "EXTRACT".
Definition KeywordFrom := "FROM".
Definition KeywordGlobal := "GLOBAL".
Definition KeywordIlike := "ILIKE".
Definition KeywordIn := "IN".
Definition KeywordInterval := "INTERVAL".
Definition KeywordIs := "IS".
Definition KeywordLike := "LIKE".
Definition KeywordNot := "NOT".
Definition KeywordNull := "NULL".
Definition KeywordOr := "OR".
Definition KeywordSelect := "SELECT".
Definition KeywordThen := "THEN".
Definition KeywordTimestamp := "TIMESTAMP".
Definition KeywordWhen := "WHEN".

(** Modelled from the spec: the keyword table ("a fixed, case-insensitive set
    of reserved words") is not in the two source files; it holds at least
    the reserved words the grammar of [parser_column.go] names. *)
Definition keywords : list string :=
  [ KeywordAnd; KeywordAs; KeywordCase; KeywordCast; KeywordDate;
    KeywordDistinct; KeywordElse; KeywordEnd; KeywordExtract; KeywordFrom;
    KeywordGlobal; KeywordIlike; KeywordIn; KeywordInterval; KeywordIs;
    KeywordLike; KeywordNot; KeywordNull; KeywordOr; KeywordSelect;
    KeywordThen; KeywordTimestamp; KeywordWhen;
    "ALIAS"; "CODEC"; "COMMENT"; "DEFAULT"; "MATERIALIZED" ].

Definition Contains (set : list string) (s : string) : bool :=
  existsb (String.eqb s) set.

(** *** Cursor primitives *)

Definition skipN (l : Lexer) (n : Z) : Lexer :=
  setCurrent l (addi (current l) n).

Definition slice (l : Lexer) (i j : Z) : outcome string :=
  substr (input l) (addi (current l) i) (addi (current l) j).

Definition peekN (l : Lexer) (n : Z) : outcome byte :=
  index (input l) (addi (current l) n).

Definition peekOk (l : Lexer) (n : Z) : bool :=
  addi (current l) n <? len (input l).

Definition isKeyword (ident : string) : bool := Contains keywords ident.

Definition isEOF (l : Lexer) : bool := current l >=? len (input l).

(** [l.peekN(n) == c] *)
Definition peekIs (l : Lexer) (n : Z) (c : byte) : outcome bool :=
  x <- peekN l n ;; Done (Ascii.eqb x c).

Arguments peekIs l n c%_char.

(** [P(l.peekN(n))] *)
Definition peekHas (l : Lexer) (n : Z) (P : byte -> bool) : outcome bool :=
  x <- peekN l n ;; Done (P x).

Definition notb (b : outcome bool) : outcome bool := x <- b ;; Done (negb x).

(** *** Numbers *)

(** The digit loop of [consumeNumber]: either the function returns early
    with an error ([inl]), or the loop is left with the index, the token kind
    and [hasNumberPart] ([inr]). *)
Fixpoint consumeNumber_loop (fuel : nat) (l : Lexer) (base i : Z)
    (hasExp : bool) (tokenKind : TokenKind) (hasNumberPart : bool)
    : outcome (error + Z * TokenKind * bool) :=
  match fuel with
  | O => Timeout
  | S fuel' =>
    if negb (peekOk l i) then Done (inr (i, tokenKind, hasNumberPart))
    else
      c <- peekN l i ;;
      if (base =? 10) && IsDigit c then
        consumeNumber_loop fuel' l base (addi i 1) hasExp tokenKind true
      else if (base =? 16) && IsHexDigit c then
        consumeNumber_loop fuel' l base (addi i 1) hasExp tokenKind true
      else if Ascii.eqb c "." then
        consumeNumber_loop fuel' l base (addi i 1) hasExp TokenFloat true
      else if negb (base =? 16)
              && (Ascii.eqb c "e" || Ascii.eqb c "E"
                  || Ascii.eqb c "p" || Ascii.eqb c "P") then
        if hasExp then Done (inl errInvalidNumber)
        else
          let i := addi i 1 in
          sign <- Done (peekOk l i) &&& (peekIs l i "+" ||| peekIs l i "-") ;;
          let i := if sign then addi i 1 else i in
          bad <- Done (negb (peekOk l i)) ||| notb (peekHas l i IsDigit) ;;
          if bad then Done (inl errExponent)
          else consumeNumber_loop fuel' l base i true tokenKind true
      else Done (inr (i, tokenKind, true))
  end.

Definition consumeNumber (fuel : nat) (l : Lexer) : outcome (option error * Lexer) :=
  sign <- peekIs l 0 "+" ||| peekIs l 0 "-" ;;
  let i := if sign then addi 0 1 else 0 in
  hex <- peekIs l 0 "0" &&& Done (peekOk l 1) &&& peekIs l 1 "x" ;;
  let i := if hex then addi i 2 else i in
  let base := if hex then 16 else 10 in
  r <- consumeNumber_loop fuel l base i false TokenInt false ;;
  match r with
  | inl e => Done (Some e, l)
  | inr (i, tokenKind, hasNumberPart) =>
    bad <- (Done (peekOk l i) &&& peekHas l i IsIdentPart)
           ||| Done (negb hasNumberPart) ;;
    if bad then Done (Some errInvalidNumber, l)
    else
      s <- slice l 0 i ;;
      let l := setLastToken l (Some {|
                 Kind := tokenKind;
                 TokString := s;
                 TokPos := current l;
                 TokEnd := addi (current l) i;
                 Base := base;
                 Unquoted := false |}) in
      Done (None, skipN l i)
  end.

(** *** Identifiers *)

(** [for l.peekOk(i) && P(l.peekN(i)) { i++ }] *)
Fixpoint scan_while (fuel : nat) (l : Lexer) (P : byte -> bool) (i : Z)
    : outcome Z :=
  match fuel with
  | O => Timeout
  | S fuel' =>
    b <- Done (peekOk l i) &&& peekHas l i P ;;
    if b then scan_while fuel' l P (addi i 1) else Done i
  end.

Definition consumeIdent (fuel : nat) (l : Lexer) : outcome (option error * Lexer) :=
  backtick <- Done (peekOk l 0) &&& peekIs l 0 "`" ;;
  let isUnquoted := backtick in
  let l := if backtick then skipN l 1 else l in
  r <- (if negb isUnquoted then
          dollar <- peekIs l 0 "$" ;;
          i <- scan_while fuel l IsIdentPart (if dollar then addi 0 1 else 0) ;;
          Done (inr i)
        else
          i <- scan_while fuel l (fun c => negb (Ascii.eqb c "`")) 0 ;;
          bad <- Done (negb (peekOk l i)) ||| notb (peekIs l i "`") ;;
          if bad then s <- slice l 0 i ;; Done (inl (errUnclosedQuotedIdent s))
          else Done (inr i)) ;;
  match r with
  | inl e => Done (Some e, l)
  | inr i =>
    s <- slice l 0 i ;;
    let kind := if negb isUnquoted && isKeyword (ToUpper s)
                then TokenKeyword else TokenIdent in
    let token := {|
          Kind := kind;
          TokPos := current l;
          TokEnd := addi (current l) i;
          TokString := s;
          Base := 0;
          Unquoted := isUnquoted |} in
    let l := setLastToken l (Some token) in
    let l := skipN l i in
    let l := if isUnquoted then skipN l 1 else l in
    Done (None, l)
  end.

(** *** Comments *)

Definition consumeSingleLineComment (fuel : nat) (l : Lexer) : outcome Lexer :=
  let l := skipN l 2 in
  i <- scan_while fuel l
         (fun c => negb (Ascii.eqb c "013") && negb (Ascii.eqb c "010")) 0 ;;
  Done (skipN l (addi i 1)).

(** The loop of [consumeMultiLineComment]; its guard [!l.isEOF()] reads
    [l.current], which the loop does not change. *)
Fixpoint consumeMultiLineComment_loop (fuel : nat) (l : Lexer) (i : Z)
    : outcome Z :=
  match fuel with
  | O => Timeout
  | S fuel' =>
    if negb (isEOF l) then
      close <- Done (peekOk l (addi i 1))
               &&& peekIs l i "*" &&& peekIs l (addi i 1) "/" ;;
      if close then Done (addi i 2)
      else consumeMultiLineComment_loop fuel' l (addi i 1)
    else Done i
  end.

Definition consumeMultiLineComment (fuel : nat) (l : Lexer) : outcome Lexer :=
  let l := skipN l 2 in
  i <- consumeMultiLineComment_loop fuel l 0 ;;
  Done (skipN l i).

(** *** Strings *)

Definition consumeString (fuel : nat) (l : Lexer) (isSingleQuote : bool)
    : outcome (option error * Lexer) :=
  let endChar : byte := if isSingleQuote then "'"%char else "034"%char in
  i <- scan_while fuel l (fun c => negb (Ascii.eqb c endChar)) 1 ;;
  if negb (peekOk l i) then Done (Some errInvalidString, l)
  else
    s <- slice l 1 i ;;
    let l := setLastToken l (Some {|
               Kind := TokenString;
               TokString := s;
               TokPos := addi (current l) 1;
               TokEnd := addi (current l) i;
               Base := 0;
               Unquoted := false |}) in
    Done (None, skipN l (addi i 1)).

Fixpoint skipComments (fuel : nat) (l : Lexer) : outcome Lexer :=
  match fuel with
  | O => Timeout
  | S fuel' =>
    if negb (isEOF l) then
      c <- peekN l 0 ;;
      if Ascii.eqb c "-" then
        b <- Done (peekOk l 1) &&& peekIs l 1 "-" ;;
        if b then l <- consumeSingleLineComment fuel' l ;; skipComments fuel' l
        else Done l
      else if Ascii.eqb c "/" then
        b <- Done (peekOk l 1) &&& peekIs l 1 "*" ;;
        if b then l <- consumeMultiLineComment fuel' l ;; skipComments fuel' l
        else Done l
      else if Ascii.eqb c "013" || Ascii.eqb c "010" then
        skipComments fuel' (skipN l 1)
      else Done l
    else Done l
  end.

Fixpoint skipSpace (fuel : nat) (l : Lexer) : outcome Lexer :=
  match fuel with
  | O => Timeout
  | S fuel' =>
    if negb (isEOF l) then
      rest <- substr (input l) (current l) (len (input l)) ;;
      let '(r, size) := DecodeRuneInString rest in
      if negb (IsSpace r) then Done l
      else skipSpace fuel' (setCurrent l (addi (current l) size))
    else Done l
  end.

(** *** [consumeToken] and [peekToken] *)

(** A two-byte token; its kind is [kind], or its own text. *)
Definition twoByteToken (l : Lexer) (kind : option TokenKind)
    : outcome (option error * Lexer) :=
  s <- slice l 0 2 ;;
  let l := setLastToken l (Some {|
             TokString := s;
             Kind := match kind with Some k => k | None => s end;
             TokPos := current l;
             TokEnd := addi (current l) 2;
             Base := 0;
             Unquoted := false |}) in
  Done (None, skipN l 2).

(** The last lines of [consumeToken]: an identifier, or a one-byte token. *)
Definition consumeToken_emit (fuel : nat) (l : Lexer)
    : outcome (option error * Lexer) :=
  start <- peekHas l 0 IsIdentStart ;;
  if start then consumeIdent fuel l
  else
    s <- substr (input l) (current l) (addi (current l) 1) ;;
    let token := {|
          TokPos := current l;
          TokEnd := addi (current l) 1;
          TokString := s;
          Kind := s;
          Base := 0;
          Unquoted := false |} in
    let l := skipN l 1 in
    Done (None, setLastToken l (Some token)).

(** What follows the [switch] of [consumeToken]. *)
Definition consumeToken_tail (fuel : nat) (l : Lexer)
    : outcome (option error * Lexer) :=
  (* The subsequent lastToken after the dot should be an Ident. *)
  match lastToken l with
  | Some t =>
    bad <- Done (String.eqb (Kind t) ".") &&& notb (peekHas l 0 IsIdentStart) ;;
    if bad then Done (Some (errDotFollowIdent (Kind t)), l)
    else consumeToken_emit fuel l
  | None => consumeToken_emit fuel l
  end.

Definition consumeToken (fuel : nat) (l : Lexer) : outcome (option error * Lexer) :=
  l <- skipSpace fuel l ;;
  (* clear last token *)
  let l := setLastToken l None in
  l <- skipComments fuel l ;;
  l <- skipSpace fuel l ;;
  if isEOF l then Done (None, l)
  else
    c <- peekN l 0 ;;
    if Ascii.eqb c ">" || Ascii.eqb c "<" || Ascii.eqb c "!"
       || Ascii.eqb c "=" || Ascii.eqb c "|" then
      two <- (peekIs l 0 "|" &&& Done (peekOk l 1) &&& peekIs l 1 "|")
             ||| (peekIs l 0 "<" &&& Done (peekOk l 1) &&& peekIs l 1 ">")
             ||| (peekIs l 0 "=" &&& Done (peekOk l 1) &&& peekIs l 1 "=")
             ||| (notb (peekIs l 0 "|") &&& Done (peekOk l 1) &&& peekIs l 1 "=") ;;
      if two then twoByteToken l None
      else consumeToken_tail fuel l
    else if Ascii.eqb c "+" || Ascii.eqb c "-" then
      digit <- Done (peekOk l 1) &&& peekHas l 1 IsDigit ;;
      if digit then consumeNumber fuel l
      else
        arrow <- Done (peekOk l 1) &&& peekIs l 1 ">" ;;
        if arrow then twoByteToken l (Some TokenArrow)
        else consumeToken_tail fuel l
    else if IsDigit c then consumeNumber fuel l
    else if Ascii.eqb c "`" || Ascii.eqb c "$" then consumeIdent fuel l
    else if Ascii.eqb c "'" then consumeString fuel l true
    else if Ascii.eqb c "034" then consumeString fuel l false
    else if Ascii.eqb c ":" then
      cast <- Done (peekOk l 1) &&& peekIs l 1 ":" ;;
      if cast then twoByteToken l (Some TokenCast)
      else consumeToken_tail fuel l
    else if Ascii.eqb c "." then
      (* check if the next token is a number *)
      digit <- Done (peekOk l 1) &&& peekHas l 1 IsDigit ;;
      if digit then consumeNumber fuel l
      else
        (* check if the previous lastToken is an Ident *)
        match lastToken l with
        | Some t =>
          if negb (String.eqb (Kind t) TokenIdent)
          then Done (Some (errDotAfterIdent (Kind t)), l)
          else consumeToken_tail fuel l
        | None => consumeToken_tail fuel l
        end
    else consumeToken_tail fuel l.

(** [peekToken] returns the token (a nilable pointer) and the error. *)
Definition peekToken (fuel : nat) (l : Lexer)
    : outcome (option Token * option error * Lexer) :=
  let saveToken := lastToken l in
  let saveCurrent := current l in
  '(err, l) <- consumeToken fuel l ;;
  match err with
  | Some e => Done (None, Some e, l)
  | None =>
    let token := lastToken l in
    let l := setLastToken l saveToken in
    let l := setCurrent l saveCurrent in
    Done (token, None, l)
  end.

(** ** The grammar driver *)

(** A Go function returning [(T, error)]. *)
Inductive result (A : Type) : Type :=
| Ok (a : A)
| Err (e : error).

Arguments Ok {A} a.
Arguments Err {A} e.

(** [x, err := f(...); if err != nil { return nil, err }] *)
Notation "'try' ( x , l ) <- m ;; k" :=
  (bind m (fun p => match p with
                    | (Ok x, l) => k
                    | (Err e, l) => Done (Err e, l)
                    end))
  (at level 61, x name, l name, m at next level, right associativity).

(** [_ = p.lexer.consumeToken()] *)
Definition advance (fuel : nat) (l : Lexer) : outcome Lexer :=
  '(_, l) <- consumeToken fuel l ;; Done l.

(** *** The syntax tree *)

Record Ident : Type := mkIdent {
  NamePos : Pos;
  NameEnd : Pos;
  Name : string
}.

Record NumberLiteral : Type := mkNumberLiteral {
  NumPos : Pos;
  NumEnd : Pos;
  NumLiteral : string;
  NumBase : Z
}.

Record StringLiteral : Type := mkStringLiteral {
  LiteralPos : Pos;
  LiteralEnd : Pos;
  Literal : string
}.

(** The interface [Literal]: a number or a string. *)
Inductive LiteralValue : Type :=
| LitNumber (n : NumberLiteral)
| LitString (s : StringLiteral).

Record EnumValueExpr : Type := mkEnumValueExpr {
  EnumName : StringLiteral;
  EnumValue : NumberLiteral
}.

Set Warnings "-register-all".

Section Grammar.

(** The nodes built by the two collaborators outside this core (the
    statement parser and the column-definition-list parser). *)
Context {External : Type}.

(** The interface [Expr], one constructor per node type of
    [parser_column.go]; the arguments are the fields the source sets. *)
Inductive Expr : Type :=
| EIdent (i : Ident)
| ENumber (n : NumberLiteral)
| EString (s : StringLiteral)
| AliasExpr (AliasPos : Pos) (Expr_ : Expr) (Alias : Ident)
| BinaryExpr (LeftExpr : Expr) (HasNot HasGlobal : bool)
             (Operation : TokenKind) (RightExpr : Expr)
| NotExpr (NotPos : Pos) (Expr_ : Expr)
| IsNotNullExpr (IsPos : Pos) (Expr_ : Expr)
| IsNullExpr (IsPos : Pos) (Expr_ : Expr)
| ObjectParams (Object : Expr) (Params : ArrayParamList)
| TernaryExpr (Condition TrueExpr FalseExpr : Expr)
| ExtractExpr (ExtractPos : Pos) (Interval : Ident) (FromPos : Pos)
              (FromExpr : Expr)
| UnaryExpr (UnaryPos : Pos) (Kind_ : TokenKind) (Expr_ : Expr)
| CastExpr (CastPos AsPos : Pos) (Expr_ : Expr) (AsType : Expr)
| CaseExpr (CasePos : Pos) (Expr_ : Expr) (Whens : list WhenExpr)
           (ElsePos : Pos) (Else : option Expr)
| IntervalExpr (IntervalPos : Pos) (Expr_ : Expr) (Unit : Ident)
| FunctionExpr (Name_ : Ident) (Params : ParamExprList)
| EParamExprList (p : ParamExprList)
| EArrayParamList (a : ArrayParamList)
| SubQuery (q : External)
| ScalarTypeExpr (Name_ : Ident)
| ComplexTypeExpr (LeftParenPos RightParenPos : Pos) (Name_ : Ident)
                  (Params : list Expr)
| TypeWithParamsExpr (Name_ : Ident) (LeftParenPos RightParenPos : Pos)
                     (Params : list LiteralValue)
| NestedTypeExpr (LeftParenPos RightParenPos : Pos) (Name_ : Ident)
                 (Columns : list External)
| EnumValueExprList (ListPos ListEnd : Pos) (Enums : list EnumValueExpr)
with ColumnExprList : Type :=
| mkColumnExprList (ListPos ListEnd : Pos) (HasDistinct : bool)
                   (Items : list Expr)
with ColumnArgList : Type :=
| mkColumnArgList (LeftParenPos RightParenPos : Pos) (Distinct : bool)
                  (Items : list Expr)
with ParamExprList : Type :=
| mkParamExprList (LeftParenPos RightParenPos : Pos) (Items : ColumnExprList)
                  (ColumnArgList_ : option ColumnArgList)
with ArrayParamList : Type :=
| mkArrayParamList (LeftBracketPos RightBracketPos : Pos)
                   (Items : ColumnExprList)
with WhenExpr : Type :=
| mkWhenExpr (WhenPos ThenPos : Pos) (When Then : Expr).

(** A parsing method: it reads and moves the scanner, and returns a node or
    an error, unless it panics or runs out of fuel. *)
Definition parsing (A : Type) : Type := outcome (result A * Lexer).

(** What the grammar calls and this core does not define: the statement
    parser's sub-query entry point (its node is kept under [SubQuery]), the
    column-definition-list parser, and the method [End()] of the nodes. *)
Record Collaborators : Type := mkCollaborators {
  parseSelectQuery : Lexer -> Pos -> parsing External;
  parseTableColumns : Lexer -> parsing (list External);
  End_ : Expr -> Pos
}.

Variable ext : Collaborators.

(** *** Token-level helpers *)

(** Modelled from the spec: the driver's token helpers ([last],
    [lastTokenKind], [Pos], [matchTokenKind], [matchKeyword],
    [tryConsumeTokenKind], [consumeTokenKind], [tryConsumeKeyword],
    [consumeKeyword]) are not in the two source files.  The driver holds the
    scanner, whose cached last token is the one-token lookahead: a match
    reads that token, a consume returns it and scans the next one; keywords
    are matched case-insensitively. *)
Definition last (l : Lexer) : option Token := lastToken l.

Definition lastTokenKind (l : Lexer) : TokenKind :=
  match last l with
  | None => TokenEOF
  | Some t => Kind t
  end.

(** [p.Pos()] *)
Definition ParserPos (l : Lexer) : Pos :=
  match last l with
  | None => current l
  | Some t => TokPos t
  end.

Definition matchTokenKind (l : Lexer) (kind : TokenKind) : bool :=
  String.eqb (lastTokenKind l) kind.

Definition matchKeyword (l : Lexer) (keyword : string) : bool :=
  matchTokenKind l TokenKeyword &&
  match last l with
  | Some t => EqualFold (TokString t) keyword
  | None => false
  end.

Definition tryConsumeTokenKind (fuel : nat) (l : Lexer) (kind : TokenKind)
    : outcome (option Token * Lexer) :=
  match last l with
  | Some t =>
    if String.eqb (Kind t) kind
    then l <- advance fuel l ;; Done (Some t, l)
    else Done (None, l)
  | None => Done (None, l)
  end.

Definition consumeTokenKind (fuel : nat) (l : Lexer) (kind : TokenKind)
    : parsing Token :=
  '(t, l) <- tryConsumeTokenKind fuel l kind ;;
  match t with
  | Some t => Done (Ok t, l)
  | None => Done (Err (errExpectedTokenKind kind (lastTokenKind l)), l)
  end.

Definition tryConsumeKeyword (fuel : nat) (l : Lexer) (keyword : string)
    : outcome (option Token * Lexer) :=
  if matchKeyword l keyword
  then let t := last l in l <- advance fuel l ;; Done (t, l)
  else Done (None, l).

Definition consumeKeyword (fuel : nat) (l : Lexer) (keyword : string)
    : parsing unit :=
  '(t, l) <- tryConsumeKeyword fuel l keyword ;;
  match t with
  | Some _ => Done (Ok tt, l)
  | None => Done (Err (errExpectedKeyword keyword (lastTokenKind l)), l)
  end.

(** Modelled from the spec: [parseIdent], [parseNumber], [parseString] and
    [parseLiteral] are not in the two source files.  Each takes the current
    token of its kind, builds the leaf node from the token's text and span,
    and moves to the next token. *)
Definition parseIdent (fuel : nat) (l : Lexer) : parsing Ident :=
  try (t, l) <- consumeTokenKind fuel l TokenIdent ;;
  Done (Ok {| NamePos := TokPos t; NameEnd := TokEnd t; Name := TokString t |}, l).

Definition parseNumber (fuel : nat) (l : Lexer) (pos : Pos)
    : parsing NumberLiteral :=
  if matchTokenKind l TokenInt || matchTokenKind l TokenFloat then
    try (t, l) <- consumeTokenKind fuel l (lastTokenKind l) ;;
    Done (Ok {| NumPos := pos; NumEnd := TokEnd t;
                NumLiteral := TokString t; NumBase := Base t |}, l)
  else Done (Err (errExpectedLiteral (lastTokenKind l)), l).

Definition parseString (fuel : nat) (l : Lexer) (pos : Pos)
    : parsing StringLiteral :=
  try (t, l) <- consumeTokenKind fuel l TokenString ;;
  Done (Ok {| LiteralPos := pos; LiteralEnd := TokEnd t;
              Literal := TokString t |}, l).

Definition parseLiteral (fuel : nat) (l : Lexer) (pos : Pos)
    : parsing LiteralValue :=
  if matchTokenKind l TokenInt || matchTokenKind l TokenFloat then
    try (n, l) <- parseNumber fuel l pos ;; Done (Ok (LitNumber n), l)
  else if matchTokenKind l TokenString then
    try (s, l) <- parseString fuel l pos ;; Done (Ok (LitString s), l)
  else Done (Err (errExpectedLiteral (lastTokenKind l)), l).

(** Modelled from the spec: the operator tags and the interval-unit table
    ("a fixed, case-insensitive set of valid time-unit names") are not in
    the two source files. *)
Definition opTypeOr : TokenKind := "OR".
Definition opTypeAnd : TokenKind := "AND".
Definition opTypePlus : TokenKind := "+".
Definition opTypeMinus : TokenKind := "-".
Definition opTypeMul : TokenKind := "*".
Definition opTypeDiv : TokenKind := "/".
Definition opTypeMod : TokenKind := "%".
Definition opTypeEQ : TokenKind := "=".
Definition opTypeLT : TokenKind := "<".
Definition opTypeLE : TokenKind := "<=".
Definition opTypeGE : TokenKind := ">=".
Definition opTypeGT : TokenKind := ">".
Definition opTypeDoubleEQ : TokenKind := "==".
Definition opTypeNE : TokenKind := "!=".
Definition opTypeQuery : TokenKind := "?".

Definition intervalType : list string :=
  [ "SECOND"; "MINUTE"; "HOUR"; "DAY"; "WEEK"; "MONTH"; "QUARTER"; "YEAR" ].

(** Go's [append(s, x)]. *)
Definition append1 {A : Type} (s : list A) (x : A) : list A := (s ++ [x])%list.

(** *** The type grammar *)

Definition parseNestedType (fuel : nat) (l : Lexer) (name : Ident) (pos : Pos)
    : parsing Expr :=
  try (columns, l) <- parseTableColumns ext l ;;
  let rightParenPos := ParserPos l in
  try (_t, l) <- consumeTokenKind fuel l ")" ;;
  Done (Ok (NestedTypeExpr pos rightParenPos name columns), l).

Definition parseEnumValueExpr (fuel : nat) (l : Lexer) (pos : Pos)
    : parsing EnumValueExpr :=
  try (_t, l) <- consumeTokenKind fuel l TokenString ;;
  try (name, l) <- parseString fuel l pos ;;
  try (_t, l) <- consumeTokenKind fuel l "=" ;;
  try (value, l) <- parseNumber fuel l (ParserPos l) ;;
  Done (Ok {| EnumName := name; EnumValue := value |}, l).

(** The loop of [parseEnumExpr]; [enums] is [expr.Enums]. *)
Fixpoint parseEnumExpr_loop (fuel : nat) (l : Lexer) (enums : list EnumValueExpr)
    : parsing (list EnumValueExpr) :=
  match fuel with
  | O => Timeout
  | S fuel' =>
    if negb (isEOF l) && negb (matchTokenKind l ")") then
      try (enumValueExpr, l) <- parseEnumValueExpr fuel' l (ParserPos l) ;;
      let enums := append1 enums enumValueExpr in
      '(comma, l) <- tryConsumeTokenKind fuel' l "," ;;
      match comma with
      | None => Done (Ok enums, l)
      | Some _ => parseEnumExpr_loop fuel' l enums
      end
    else Done (Ok enums, l)
  end.

Definition parseEnumExpr (fuel : nat) (l : Lexer) (pos : Pos) : parsing Expr :=
  try (enums, l) <- parseEnumExpr_loop fuel l [] ;;
  let listEnd := match List.last (map Some enums) None with
                 | Some e => NumEnd (EnumValue e)
                 | None => 0
                 end in
  try (_t, l) <- consumeTokenKind fuel l ")" ;;
  Done (Ok (EnumValueExprList pos listEnd enums), l).

(** The loop of [parseColumnTypeWithParams]. *)
Fixpoint parseColumnTypeWithParams_loop (fuel : nat) (l : Lexer)
    (params : list LiteralValue) : parsing (list LiteralValue) :=
  match fuel with
  | O => Timeout
  | S fuel' =>
    if negb (isEOF l) then
      '(comma, l) <- tryConsumeTokenKind fuel' l "," ;;
      match comma with
      | Some _ =>
        try (size, l) <- parseLiteral fuel' l (ParserPos l) ;;
        parseColumnTypeWithParams_loop fuel' l (append1 params size)
      | None => Done (Ok params, l)
      end
    else Done (Ok params, l)
  end.

Definition parseColumnTypeWithParams (fuel : nat) (l : Lexer) (name : Ident)
    (pos : Pos) : parsing Expr :=
  try (param, l) <- parseLiteral fuel l pos ;;
  try (params, l) <- parseColumnTypeWithParams_loop fuel l [param] ;;
  let rightParenPos := ParserPos l in
  try (_t, l) <- consumeTokenKind fuel l ")" ;;
  Done (Ok (TypeWithParamsExpr name pos rightParenPos params), l).

Fixpoint parseColumnType (fuel : nat) (l : Lexer) {struct fuel} : parsing Expr :=
  match fuel with
  | O => Timeout
  | S fuel' =>
    try (ident, l) <- parseIdent fuel' l ;;
    '(paren, l) <- tryConsumeTokenKind fuel' l "(" ;;
    match paren with
    | Some _ =>
      if matchTokenKind l TokenIdent then
        if String.eqb (Name ident) "Nested"
        then parseNestedType fuel' l ident (ParserPos l)
        else parseComplexType fuel' l ident (ParserPos l)
      else if matchTokenKind l TokenString then
        '(peek, err, l) <- peekToken fuel' l ;;
        match err with
        | None =>
          match peek with
          | None => Panic (* peekToken.Kind on a nil token *)
          | Some t =>
            if String.eqb (Kind t) "="
            then (* enum values *) parseEnumExpr fuel' l (ParserPos l)
            else parseColumnTypeWithParams fuel' l ident (ParserPos l)
          end
        | Some _ =>
          (* like Datetime('Asia/Dubai') *)
          parseColumnTypeWithParams fuel' l ident (ParserPos l)
        end
      else if matchTokenKind l TokenInt then
        (* fixed size *)
        parseColumnTypeWithParams fuel' l ident (ParserPos l)
      else Done (Err (errUnexpectedTokenKind (lastTokenKind l)), l)
    | None => Done (Ok (ScalarTypeExpr ident), l)
    end
  end

with parseComplexType (fuel : nat) (l : Lexer) (name : Ident) (pos : Pos)
    {struct fuel} : parsing Expr :=
  match fuel with
  | O => Timeout
  | S fuel' =>
    try (subTypes, l) <- parseComplexType_loop fuel' l [] ;;
    let rightParenPos := ParserPos l in
    try (_t, l) <- consumeTokenKind fuel' l ")" ;;
    Done (Ok (ComplexTypeExpr pos rightParenPos name subTypes), l)
  end

(** The loop of [parseComplexType]. *)
with parseComplexType_loop (fuel : nat) (l : Lexer) (subTypes : list Expr)
    {struct fuel} : parsing (list Expr) :=
  match fuel with
  | O => Timeout
  | S fuel' =>
    if negb (isEOF l) && negb (matchTokenKind l ")") then
      try (subExpr, l) <- parseColumnType fuel' l ;;
      let subTypes := append1 subTypes subExpr in
      '(comma, l) <- tryConsumeTokenKind fuel' l "," ;;
      match comma with
      | None => Done (Ok subTypes, l)
      | Some _ => parseComplexType_loop fuel' l subTypes
      end
    else Done (Ok subTypes, l)
  end.

(** *** The expression grammar *)

Definition parseColumnStar (fuel : nat) (l : Lexer) (pos : Pos) : parsing Expr :=
  try (_t, l) <- consumeTokenKind fuel l "*" ;;
  Done (Ok (EIdent {| NamePos := pos; NameEnd := pos; Name := "*" |}), l).

(** [ListEnd] of a [ColumnExprList]: [End()] of the last item, when there
    is one. *)
Definition listEnd (pos : Pos) (columnList : list Expr) : Pos :=
  match List.last (map Some columnList) None with
  | Some e => End_ ext e
  | None => pos
  end.

Fixpoint parseExpr (fuel : nat) (l : Lexer) (pos : Pos) {struct fuel}
    : parsing Expr :=
  match fuel with
  | O => Timeout
  | S fuel' =>
    try (orExpr, l) <- parseOrExpr fuel' l pos ;;
    if matchKeyword l KeywordAs then
      (* syntax: columnExpr (alias | AS identifier) *)
      let aliasPos := ParserPos l in
      l <- advance fuel' l ;;
      try (asIdent, l) <- parseIdent fuel' l ;;
      Done (Ok (AliasExpr aliasPos orExpr asIdent), l)
    else Done (Ok orExpr, l)
  end

with parseOrExpr (fuel : nat) (l : Lexer) (pos : Pos) {struct fuel}
    : parsing Expr :=
  match fuel with
  | O => Timeout
  | S fuel' =>
    try (expr, l) <- parseAndExpr fuel' l pos ;;
    parseOrExpr_loop fuel' l expr
  end

with parseOrExpr_loop (fuel : nat) (l : Lexer) (expr : Expr) {struct fuel}
    : parsing Expr :=
  match fuel with
  | O => Timeout
  | S fuel' =>
    '(t, l) <- tryConsumeKeyword fuel' l KeywordOr ;;
    match t with
    | None => Done (Ok expr, l)
    | Some _ =>
      try (rightExpr, l) <- parseAndExpr fuel' l (ParserPos l) ;;
      parseOrExpr_loop fuel' l (BinaryExpr expr false false opTypeOr rightExpr)
    end
  end

with parseAndExpr (fuel : nat) (l : Lexer) (pos : Pos) {struct fuel}
    : parsing Expr :=
  match fuel with
  | O => Timeout
  | S fuel' =>
    try (expr, l) <- parseNotExpr fuel' l pos ;;
    parseAndExpr_loop fuel' l expr
  end

with parseAndExpr_loop (fuel : nat) (l : Lexer) (expr : Expr) {struct fuel}
    : parsing Expr :=
  match fuel with
  | O => Timeout
  | S fuel' =>
    '(t, l) <- tryConsumeKeyword fuel' l KeywordAnd ;;
    match t with
    | None => Done (Ok expr, l)
    | Some _ =>
      try (rightExpr, l) <- parseNotExpr fuel' l (ParserPos l) ;;
      parseAndExpr_loop fuel' l (BinaryExpr expr false false opTypeAnd rightExpr)
    end
  end

with parseNotExpr (fuel : nat) (l : Lexer) (pos : Pos) {struct fuel}
    : parsing Expr :=
  match fuel with
  | O => Timeout
  | S fuel' =>
    '(t, l) <- tryConsumeKeyword fuel' l KeywordNot ;;
    match t with
    | None => parseIsOrNotNull fuel' l (ParserPos l)
    | Some _ =>
      try (notExpr, l) <- parseNotExpr fuel' l (ParserPos l) ;;
      Done (Ok (NotExpr pos notExpr), l)
    end
  end

with parseIsOrNotNull (fuel : nat) (l : Lexer) (pos : Pos) {struct fuel}
    : parsing Expr :=
  match fuel with
  | O => Timeout
  | S fuel' =>
    try (expr, l) <- parseCompareExpr fuel' l (ParserPos l) ;;
    '(t, l) <- tryConsumeKeyword fuel' l KeywordIs ;;
    match t with
    | None => Done (Ok expr, l)
    | Some _ =>
      '(t, l) <- tryConsumeKeyword fuel' l KeywordNot ;;
      let isNotNull := match t with Some _ => true | None => false end in
      try (_u, l) <- consumeKeyword fuel' l KeywordNull ;;
      if isNotNull then Done (Ok (IsNotNullExpr pos expr), l)
      else Done (Ok (IsNullExpr pos expr), l)
    end
  end

with parseCompareExpr (fuel : nat) (l : Lexer) (pos : Pos) {struct fuel}
    : parsing Expr :=
  match fuel with
  | O => Timeout
  | S fuel' =>
    try (expr, l) <- parseAddSubExpr fuel' l pos ;;
    if matchTokenKind l "[" then
      try (params, l) <- parseArrayParams fuel' l pos ;;
      Done (Ok (ObjectParams expr params), l)
    else
      (* the other cases of the switch: [inl (hasNot, hasGlobal)] goes on
         to the operator, [inr] returns *)
      '(sel, l) <-
        (if matchTokenKind l opTypeEQ
            || matchTokenKind l opTypeLT
            || matchTokenKind l opTypeLE
            || matchTokenKind l opTypeGE
            || matchTokenKind l opTypeGT
            || matchTokenKind l opTypeDoubleEQ
            || matchTokenKind l opTypeNE
            || matchTokenKind l "<>"
            || matchTokenKind l opTypeQuery
            || matchKeyword l KeywordIn
            || matchKeyword l KeywordLike
            || matchKeyword l KeywordIlike
         then Done (inl (false, false), l)
         else if matchKeyword l KeywordGlobal then
           l <- advance fuel' l ;;
           Done (inl (false, true), l)
         else if matchKeyword l KeywordNot then
           l <- advance fuel' l ;;
           if matchKeyword l KeywordIn
              || matchKeyword l KeywordLike
              || matchKeyword l KeywordIlike
           then Done (inl (true, false), l)
           else Done (inr (Err (errExpectedInLikeIlike (lastTokenKind l))), l)
         else Done (inr (Ok expr), l)) ;;
      match sel with
      | inr r => Done (r, l)
      | inl (hasNot, hasGlobal) =>
        match last l with
        | None => Panic (* p.last().String on a nil token *)
        | Some t =>
          let op := ToUpper (TokString t) in
          l <- advance fuel' l ;;
          try (rightExpr, l) <- parseAddSubExpr fuel' l (ParserPos l) ;;
          Done (Ok (BinaryExpr expr hasNot hasGlobal op rightExpr), l)
        end
      end
  end

with parseAddSubExpr (fuel : nat) (l : Lexer) (pos : Pos) {struct fuel}
    : parsing Expr :=
  match fuel with
  | O => Timeout
  | S fuel' =>
    try (expr, l) <- parseMulDivModExpr fuel' l pos ;;
    parseAddSubExpr_loop fuel' l expr
  end

with parseAddSubExpr_loop (fuel : nat) (l : Lexer) (expr : Expr) {struct fuel}
    : parsing Expr :=
  match fuel with
  | O => Timeout
  | S fuel' =>
    if matchTokenKind l opTypePlus || matchTokenKind l opTypeMinus then
      let op := lastTokenKind l in
      l <- advance fuel' l ;;
      try (rightExpr, l) <- parseMulDivModExpr fuel' l (ParserPos l) ;;
      parseAddSubExpr_loop fuel' l (BinaryExpr expr false false op rightExpr)
    else Done (Ok expr, l)
  end

with parseTernaryExpr (fuel : nat) (l : Lexer) (condition : Expr) {struct fuel}
    : parsing Expr :=
  match fuel with
  | O => Timeout
  | S fuel' =>
    try (_t, l) <- consumeTokenKind fuel' l "?" ;;
    try (trueExpr, l) <- parseExpr fuel' l (ParserPos l) ;;
    try (_t, l) <- consumeTokenKind fuel' l ":" ;;
    try (falseExpr, l) <- parseExpr fuel' l (ParserPos l) ;;
    Done (Ok (TernaryExpr condition trueExpr falseExpr), l)
  end

with parseMulDivModExpr (fuel : nat) (l : Lexer) (pos : Pos) {struct fuel}
    : parsing Expr :=
  match fuel with
  | O => Timeout
  | S fuel' =>
    try (expr, l) <- parseUnaryExpr fuel' l pos ;;
    parseMulDivModExpr_loop fuel' l expr
  end

with parseMulDivModExpr_loop (fuel : nat) (l : Lexer) (expr : Expr)
    {struct fuel} : parsing Expr :=
  match fuel with
  | O => Timeout
  | S fuel' =>
    if matchTokenKind l opTypeQuery then parseTernaryExpr fuel' l expr
    else if matchTokenKind l opTypeMul
            || matchTokenKind l opTypeDiv
            || matchTokenKind l opTypeMod
            || matchTokenKind l TokenArrow
            || matchTokenKind l TokenCast then
      let op := lastTokenKind l in
      l <- advance fuel' l ;;
      try (rightExpr, l) <- parseUnaryExpr fuel' l (ParserPos l) ;;
      parseMulDivModExpr_loop fuel' l (BinaryExpr expr false false op rightExpr)
    else Done (Ok expr, l)
  end

with parseColumnExtractExpr (fuel : nat) (l : Lexer) (pos : Pos) {struct fuel}
    : parsing Expr :=
  match fuel with
  | O => Timeout
  | S fuel' =>
    try (_u, l) <- consumeKeyword fuel' l KeywordExtract ;;
    try (_t, l) <- consumeTokenKind fuel' l "(" ;;
    (* parse interval *)
    try (ident, l) <- parseIdent fuel' l ;;
    if negb (Contains intervalType (ToUpper (Name ident)))
    then Done (Err (errUnknownIntervalType (Name ident)), l)
    else
      let fromPos := ParserPos l in
      try (_u, l) <- consumeKeyword fuel' l KeywordFrom ;;
      try (expr, l) <- parseExpr fuel' l (ParserPos l) ;;
      try (_u, l) <- consumeKeyword fuel' l ")" ;;
      Done (Ok (ExtractExpr pos ident fromPos expr), l)
  end

with parseUnaryExpr (fuel : nat) (l : Lexer) (pos : Pos) {struct fuel}
    : parsing Expr :=
  match fuel with
  | O => Timeout
  | S fuel' =>
    let kind := last l in
    if matchTokenKind l opTypePlus
       || matchTokenKind l opTypeMinus
       || matchKeyword l KeywordNot then
      l <- advance fuel' l ;;
      try (expr, l) <-
        (if matchTokenKind l TokenIdent || matchTokenKind l "("
         then parseExpr fuel' l (ParserPos l)
         else parseColumnExpr fuel' l (ParserPos l)) ;;
      match kind with
      | None => Panic (* kind.Kind on a nil token *)
      | Some k => Done (Ok (UnaryExpr pos (Kind k) expr), l)
      end
    else parseColumnExpr fuel' l pos
  end

with parseColumnExpr (fuel : nat) (l : Lexer) (pos : Pos) {struct fuel}
    : parsing Expr :=
  match fuel with
  | O => Timeout
  | S fuel' =>
    if matchKeyword l KeywordInterval then parseColumnExprInterval fuel' l pos
    else if matchKeyword l KeywordDate || matchKeyword l KeywordTimestamp then
      '(nextToken, err, l) <- peekToken fuel' l ;;
      match err with
      | Some e => Done (Err e, l)
      | None =>
        match nextToken with
        | None => Panic (* nextToken.Kind on a nil token *)
        | Some t =>
          if String.eqb (Kind t) TokenString then
            try (s, l) <- parseString fuel' l pos ;; Done (Ok (EString s), l)
          else parseIdentOrFunction fuel' l pos
        end
      end
    else if matchKeyword l KeywordCast then parseColumnCastExpr fuel' l pos
    else if matchKeyword l KeywordCase then parseColumnCaseExpr fuel' l pos
    else if matchKeyword l KeywordExtract then parseColumnExtractExpr fuel' l pos
    else if matchTokenKind l TokenIdent then parseIdentOrFunction fuel' l pos
    else if matchTokenKind l TokenString then
      (* string literal *)
      try (s, l) <- parseString fuel' l pos ;; Done (Ok (EString s), l)
    else if matchTokenKind l TokenInt || matchTokenKind l TokenFloat then
      (* number literal *)
      try (n, l) <- parseNumber fuel' l pos ;; Done (Ok (ENumber n), l)
    else if matchTokenKind l "(" then
      '(peek, _err, l) <- peekToken fuel' l ;;
      match peek with
      | Some t =>
        if String.eqb (Kind t) TokenKeyword
           && EqualFold (TokString t) KeywordSelect
        then
          try (q, l) <- parseSelectQuery ext l pos ;; Done (Ok (SubQuery q), l)
        else
          try (params, l) <- parseFunctionParams fuel' l pos ;;
          Done (Ok (EParamExprList params), l)
      | None =>
        try (params, l) <- parseFunctionParams fuel' l pos ;;
        Done (Ok (EParamExprList params), l)
      end
    else if matchTokenKind l "*" then parseColumnStar fuel' l pos
    else if matchTokenKind l "[" then
      try (params, l) <- parseArrayParams fuel' l pos ;;
      Done (Ok (EArrayParamList params), l)
    else Done (Err (errUnexpectedTokenKind (lastTokenKind l)), l)
  end

(** Modelled from the spec: [parseIdentOrFunction] is not in the two source
    files.  "A bare identifier, optionally immediately followed by a
    parenthesized argument list (function call), itself optionally followed
    by a second parenthesized argument list" (the second list is read by
    [parseFunctionParams]). *)
with parseIdentOrFunction (fuel : nat) (l : Lexer) (pos : Pos) {struct fuel}
    : parsing Expr :=
  match fuel with
  | O => Timeout
  | S fuel' =>
    try (ident, l) <- parseIdent fuel' l ;;
    if matchTokenKind l "(" then
      try (params, l) <- parseFunctionParams fuel' l (ParserPos l) ;;
      Done (Ok (FunctionExpr ident params), l)
    else Done (Ok (EIdent ident), l)
  end

with parseColumnCastExpr (fuel : nat) (l : Lexer) (pos : Pos) {struct fuel}
    : parsing Expr :=
  match fuel with
  | O => Timeout
  | S fuel' =>
    try (_u, l) <- consumeKeyword fuel' l KeywordCast ;;
    try (_t, l) <- consumeTokenKind fuel' l "(" ;;
    try (columnExpr, l) <- parseExpr fuel' l (ParserPos l) ;;
    let asPos := ParserPos l in
    try (_u, l) <- consumeKeyword fuel' l KeywordAs ;;
    try (asColumnType, l) <- parseColumnType fuel' l ;;
    try (_t, l) <- consumeTokenKind fuel' l ")" ;;
    Done (Ok (CastExpr pos asPos columnExpr asColumnType), l)
  end

with parseColumnExprListWithTerm (fuel : nat) (l : Lexer) (term : TokenKind)
    (pos : Pos) {struct fuel} : parsing ColumnExprList :=
  match fuel with
  | O => Timeout
  | S fuel' =>
    '(t, l) <- tryConsumeKeyword fuel' l KeywordDistinct ;;
    let hasDistinct := match t with Some _ => true | None => false end in
    try (columnList, l) <- parseColumnExprListWithTerm_loop fuel' l term pos [] ;;
    Done (Ok (mkColumnExprList pos (listEnd pos columnList) hasDistinct
                               columnList), l)
  end

(** The loop of [parseColumnExprListWithTerm].  A parsed expression is
    never nil, so the test [columnExpr == nil] does not leave the loop. *)
with parseColumnExprListWithTerm_loop (fuel : nat) (l : Lexer)
    (term : TokenKind) (pos : Pos) (columnList : list Expr) {struct fuel}
    : parsing (list Expr) :=
  match fuel with
  | O => Timeout
  | S fuel' =>
    if negb (isEOF l) || (match last l with Some _ => true | None => false end)
    then
      if negb (String.eqb term EmptyString) && matchTokenKind l term
      then Done (Ok columnList, l)
      else
        try (columnExpr, l) <- parseExpr fuel' l pos ;;
        let columnList := append1 columnList columnExpr in
        '(comma, l) <- tryConsumeTokenKind fuel' l "," ;;
        match comma with
        | None => Done (Ok columnList, l)
        | Some _ => parseColumnExprListWithTerm_loop fuel' l term pos columnList
        end
    else Done (Ok columnList, l)
  end

(* Syntax: INTERVAL expr interval *)
with parseColumnExprInterval (fuel : nat) (l : Lexer) (pos : Pos) {struct fuel}
    : parsing Expr :=
  match fuel with
  | O => Timeout
  | S fuel' =>
    try (_u, l) <- consumeKeyword fuel' l KeywordInterval ;;
    try (columnExpr, l) <- parseExpr fuel' l (ParserPos l) ;;
    (* parse interval *)
    try (ident, l) <- parseIdent fuel' l ;;
    if negb (Contains intervalType (ToUpper (Name ident)))
    then Done (Err (errUnknownIntervalType (Name ident)), l)
    else Done (Ok (IntervalExpr pos columnExpr ident), l)
  end

with parseColumnArgList (fuel : nat) (l : Lexer) (pos : Pos) {struct fuel}
    : parsing ColumnArgList :=
  match fuel with
  | O => Timeout
  | S fuel' =>
    try (_t, l) <- consumeTokenKind fuel' l "(" ;;
    '(t, l) <- tryConsumeKeyword fuel' l KeywordDistinct ;;
    let distinct := match t with Some _ => true | None => false end in
    try (items, l) <- parseColumnArgList_loop fuel' l [] ;;
    let rightParenPos := ParserPos l in
    try (_t, l) <- consumeTokenKind fuel' l ")" ;;
    Done (Ok (mkColumnArgList pos rightParenPos distinct items), l)
  end

with parseColumnArgList_loop (fuel : nat) (l : Lexer) (items : list Expr)
    {struct fuel} : parsing (list Expr) :=
  match fuel with
  | O => Timeout
  | S fuel' =>
    if negb (isEOF l) && negb (matchTokenKind l ")") then
      try (item, l) <- parseExpr fuel' l (ParserPos l) ;;
      let items := append1 items item in
      '(comma, l) <- tryConsumeTokenKind fuel' l "," ;;
      match comma with
      | None => Done (Ok items, l)
      | Some _ => parseColumnArgList_loop fuel' l items
      end
    else Done (Ok items, l)
  end

with parseFunctionParams (fuel : nat) (l : Lexer) (pos : Pos) {struct fuel}
    : parsing ParamExprList :=
  match fuel with
  | O => Timeout
  | S fuel' =>
    try (_t, l) <- consumeTokenKind fuel' l "(" ;;
    try (params, l) <- parseColumnExprListWithTerm fuel' l ")" (ParserPos l) ;;
    let rightParenPos := ParserPos l in
    try (_t, l) <- consumeTokenKind fuel' l ")" ;;
    (* try to parse column arg list *)
    if matchTokenKind l "(" then
      try (columnArgList, l) <- parseColumnArgList fuel' l (ParserPos l) ;;
      Done (Ok (mkParamExprList pos rightParenPos params (Some columnArgList)), l)
    else Done (Ok (mkParamExprList pos rightParenPos params None), l)
  end

with parseArrayParams (fuel : nat) (l : Lexer) (pos : Pos) {struct fuel}
    : parsing ArrayParamList :=
  match fuel with
  | O => Timeout
  | S fuel' =>
    try (_t, l) <- consumeTokenKind fuel' l "[" ;;
    try (params, l) <- parseColumnExprListWithTerm fuel' l "]" (ParserPos l) ;;
    let rightBracketPos := ParserPos l in
    try (_t, l) <- consumeTokenKind fuel' l "]" ;;
    Done (Ok (mkArrayParamList pos rightBracketPos params), l)
  end

with parseColumnCaseExpr (fuel : nat) (l : Lexer) (pos : Pos) {struct fuel}
    : parsing Expr :=
  match fuel with
  | O => Timeout
  | S fuel' =>
    (* CASE expr *)
    try (_u, l) <- consumeKeyword fuel' l KeywordCase ;;
    try (expr, l) <- parseExpr fuel' l (ParserPos l) ;;
    (* WHEN expr THEN expr *)
    try (whenExprs, l) <- parseColumnCaseExpr_loop fuel' l [] ;;
    (* ELSE expr *)
    '(elseToken, l) <- tryConsumeKeyword fuel' l KeywordElse ;;
    match elseToken with
    | Some t =>
      try (elseExpr, l) <- parseExpr fuel' l (ParserPos l) ;;
      try (_u, l) <- consumeKeyword fuel' l KeywordEnd ;;
      Done (Ok (CaseExpr pos expr whenExprs (TokPos t) (Some elseExpr)), l)
    | None =>
      try (_u, l) <- consumeKeyword fuel' l KeywordEnd ;;
      Done (Ok (CaseExpr pos expr whenExprs 0 None), l)
    end
  end

with parseColumnCaseExpr_loop (fuel : nat) (l : Lexer) (whenExprs : list WhenExpr)
    {struct fuel} : parsing (list WhenExpr) :=
  match fuel with
  | O => Timeout
  | S fuel' =>
    if matchKeyword l KeywordWhen then
      let whenPos := ParserPos l in
      l <- advance fuel' l ;;
      try (whenCondition, l) <- parseExpr fuel' l (ParserPos l) ;;
      let thenPos := ParserPos l in
      try (_u, l) <- consumeKeyword fuel' l KeywordThen ;;
      try (thenCondition, l) <- parseExpr fuel' l (ParserPos l) ;;
      parseColumnCaseExpr_loop fuel' l
        (append1 whenExprs (mkWhenExpr whenPos thenPos whenCondition thenCondition))
    else Done (Ok whenExprs, l)
  end.

End Grammar.

Arguments Expr : clear implicits.
Arguments ColumnExprList : clear implicits.
Arguments ColumnArgList : clear implicits.
Arguments ParamExprList : clear implicits.
Arguments ArrayParamList : clear implicits.
Arguments WhenExpr : clear implicits.
Arguments Collaborators : clear implicits.

(** ** Running the driver on a source text *)

(** Modelled from the spec: the driver's constructor and its callers are not
    in the two source files.  A parse starts from a fresh scanner over the
    text, with the first token read into the lookahead, at that token's
    position. *)
Definition parseExprOn {External : Type} (ext : Collaborators External)
    (fuel : nat) (buf : string) : parsing (Expr External) :=
  l <- advance fuel (NewLexer buf) ;;
  parseExpr ext fuel l (ParserPos l).

Definition parseColumnTypeOn {External : Type} (ext : Collaborators External)
    (fuel : nat) (buf : string) : parsing (Expr External) :=
  l <- advance fuel (NewLexer buf) ;;
  parseColumnType ext fuel l.

(** The scanner after [n] calls of [consumeToken] on [buf]. *)
Fixpoint scanned (fuel : nat) (buf : string) (n : nat) : outcome Lexer :=
  match n with
  | O => Done (NewLexer buf)
  | S n' => l <- scanned fuel buf n' ;; advance fuel l
  end.

(** Collaborators for texts that hold no sub-query and no nested column
    list: both sub-parsers refuse. *)
Definition noCollaborators : Collaborators Empty_set :=
  {| parseSelectQuery := fun l _ => Done (Err (errExternal "sub-query"), l);
     parseTableColumns := fun l => Done (Err (errExternal "column list"), l);
     End_ := fun _ => 0 |}.

(** ** Function calls and compression codecs *)

(** Modelled from the spec: the constant [KeywordCodec] is not in the two
    source files; it names the reserved word CODEC of the keyword table. *)
Definition KeywordCodec := "CODEC".

Record CompressionCodec : Type := mkCompressionCodec {
  CodecPos : Pos;
  CodecRightParenPos : Pos;
  CodecName : Ident;
  CodecLevel : option NumberLiteral
}.

Definition parseFunctionExpr {External : Type} (ext : Collaborators External)
    (fuel : nat) (l : Lexer) (_pos : Pos) : parsing (Expr External) :=
  try (_t, l) <- consumeTokenKind fuel l TokenIdent ;;
  (* parse function name *)
  try (name, l) <- parseIdent fuel l ;;
  (* parse function params *)
  try (params, l) <- parseFunctionParams ext fuel l (ParserPos l) ;;
  Done (Ok (FunctionExpr name params), l).

(** [tryParseCompressionLevel]; the result is a nilable pointer. *)
Definition tryParseCompressionLevel (fuel : nat) (l : Lexer) (pos : Pos)
    : parsing (option NumberLiteral) :=
  '(t, l) <- tryConsumeTokenKind fuel l "(" ;;
  match t with
  | None => Done (Ok None, l)
  | Some _ =>
    try (num, l) <- parseNumber fuel l pos ;;
    try (_t, l) <- consumeTokenKind fuel l ")" ;;
    Done (Ok (Some num), l)
  end.

(** [tryParseCompressionCodecs]; the result is a nilable pointer. *)
Definition tryParseCompressionCodecs (fuel : nat) (l : Lexer) (pos : Pos)
    : parsing (option CompressionCodec) :=
  '(t, l) <- tryConsumeKeyword fuel l KeywordCodec ;;
  match t with
  | None => Done (Ok None, l)
  | Some _ =>
    try (_t, l) <- consumeTokenKind fuel l "(" ;;
    (* parse codec name *)
    try (name, l) <- parseIdent fuel l ;;
    try (level, l) <-
      (if String.eqb (ToUpper (Name name)) "ZSTD"
          || String.eqb (ToUpper (Name name)) "LZ4HC"
       then tryParseCompressionLevel fuel l (ParserPos l)
       else Done (Ok None, l)) ;;
    match last l with
    | None => Panic (* p.last().End on a nil token *)
    | Some t =>
      let rightParenPos := TokEnd t in
      try (_t, l) <- consumeTokenKind fuel l ")" ;;
      Done (Ok (Some {| CodecPos := pos;
                        CodecRightParenPos := rightParenPos;
                        CodecName := name;
                        CodecLevel := level |}), l)
    end
  end.

(** * Properties *)

(** The first sections are tools: fuel, a notation for results, and what a
    call leaves behind.  Then, in this order: operator precedence; an
    unterminated comment; numbers with several dots; [peekToken] on an
    error; misplaced dots; NOT, then GLOBAL, at the comparison level; the
    type grammar at the end of input; a sign that abuts a digit; peek/next
    agreement. *)

(** ** More fuel does not change a result *)

(** [approx a b]: [a] ran out of fuel, or [a] and [b] are the same outcome. *)
Definition approx {A : Type} (a b : outcome A) : Prop := a = Timeout \/ a = b.

Lemma approx_refl {A : Type} (a : outcome A) : approx a a.
Proof. now right. Qed.

Lemma approx_Timeout {A : Type} (b : outcome A) : approx Timeout b.
Proof. now left. Qed.

Lemma approx_bind {A B : Type} (a a' : outcome A) (k k' : A -> outcome B) :
  approx a a' -> (forall x, approx (k x) (k' x)) -> approx (bind a k) (bind a' k').
Proof.
  intros [-> | <-] Hk; [apply approx_Timeout|].
  destruct a as [x| |]; simpl; [apply Hk | apply approx_refl | apply approx_refl].
Qed.

Lemma approx_Done {A : Type} (a b : outcome A) (x : A) :
  approx a b -> a = Done x -> b = Done x.
Proof. intros [-> | <-]; [discriminate | trivial]. Qed.

Create HintDb fuel.

#[local] Hint Resolve approx_refl approx_Timeout : fuel.

(** One step of a proof that a body is monotone in its fuel. *)
Ltac approx_step :=
  first
    [ apply approx_refl
    | apply approx_Timeout
    | assumption
    | apply approx_bind; [ | intros ? ]
    | match goal with
      | |- approx (match ?x with _ => _ end) _ => destruct x
      | |- approx (if ?x then _ else _) _ => destruct x
      end ].

Ltac approx_auto := repeat (approx_step; eauto with fuel).

Lemma scan_while_mono (l : Lexer) (P : byte -> bool) (n m : nat) :
  (n <= m)%nat -> forall i, approx (scan_while n l P i) (scan_while m l P i).
Proof.
  revert m; induction n as [|n IH]; intros m Hnm i; [apply approx_Timeout|].
  destruct m as [|m]; [lia|].
  simpl. assert (Hi := IH m ltac:(lia)).
  approx_auto.
Qed.

Lemma consumeNumber_loop_mono (l : Lexer) (base : Z) (n m : nat) :
  (n <= m)%nat ->
  forall i hasExp kind hasNum,
    approx (consumeNumber_loop n l base i hasExp kind hasNum)
           (consumeNumber_loop m l base i hasExp kind hasNum).
Proof.
  revert m; induction n as [|n IH]; intros m Hnm i hasExp kind hasNum;
    [apply approx_Timeout|].
  destruct m as [|m]; [lia|].
  simpl. assert (Hi := IH m ltac:(lia)).
  approx_auto.
Qed.

Lemma consumeMultiLineComment_loop_mono (l : Lexer) (n m : nat) :
  (n <= m)%nat ->
  forall i, approx (consumeMultiLineComment_loop n l i)
                   (consumeMultiLineComment_loop m l i).
Proof.
  revert m; induction n as [|n IH]; intros m Hnm i; [apply approx_Timeout|].
  destruct m as [|m]; [lia|].
  simpl. assert (Hi := IH m ltac:(lia)).
  approx_auto.
Qed.

#[local] Hint Resolve scan_while_mono consumeNumber_loop_mono
  consumeMultiLineComment_loop_mono : fuel.

Lemma consumeNumber_mono (l : Lexer) (n m : nat) :
  (n <= m)%nat -> approx (consumeNumber n l) (consumeNumber m l).
Proof. intros; unfold consumeNumber; approx_auto. Qed.

Lemma consumeIdent_mono (l : Lexer) (n m : nat) :
  (n <= m)%nat -> approx (consumeIdent n l) (consumeIdent m l).
Proof. intros; unfold consumeIdent; approx_auto. Qed.

Lemma consumeString_mono (l : Lexer) (q : bool) (n m : nat) :
  (n <= m)%nat -> approx (consumeString n l q) (consumeString m l q).
Proof. intros; unfold consumeString; approx_auto. Qed.

Lemma consumeSingleLineComment_mono (l : Lexer) (n m : nat) :
  (n <= m)%nat ->
  approx (consumeSingleLineComment n l) (consumeSingleLineComment m l).
Proof. intros; unfold consumeSingleLineComment; approx_auto. Qed.

Lemma consumeMultiLineComment_mono (l : Lexer) (n m : nat) :
  (n <= m)%nat ->
  approx (consumeMultiLineComment n l) (consumeMultiLineComment m l).
Proof. intros; unfold consumeMultiLineComment; approx_auto. Qed.

#[local] Hint Resolve consumeNumber_mono consumeIdent_mono consumeString_mono
  consumeSingleLineComment_mono consumeMultiLineComment_mono : fuel.

Lemma skipComments_mono (n m : nat) :
  (n <= m)%nat -> forall l, approx (skipComments n l) (skipComments m l).
Proof.
  revert m; induction n as [|n IH]; intros m Hnm l; [apply approx_Timeout|].
  destruct m as [|m]; [lia|].
  simpl. assert (Hi := IH m ltac:(lia)). assert (Hle : (n <= m)%nat) by lia.
  approx_auto.
Qed.

Lemma skipSpace_mono (n m : nat) :
  (n <= m)%nat -> forall l, approx (skipSpace n l) (skipSpace m l).
Proof.
  revert m; induction n as [|n IH]; intros m Hnm l; [apply approx_Timeout|].
  destruct m as [|m]; [lia|].
  simpl. assert (Hi := IH m ltac:(lia)).
  approx_auto.
Qed.

#[local] Hint Resolve skipComments_mono skipSpace_mono : fuel.

Lemma consumeToken_mono (l : Lexer) (n m : nat) :
  (n <= m)%nat -> approx (consumeToken n l) (consumeToken m l).
Proof.
  intros; unfold consumeToken, consumeToken_tail, consumeToken_emit, twoByteToken.
  approx_auto.
Qed.

#[local] Hint Resolve consumeToken_mono : fuel.

Lemma peekToken_mono (l : Lexer) (n m : nat) :
  (n <= m)%nat -> approx (peekToken n l) (peekToken m l).
Proof. intros; unfold peekToken; approx_auto. Qed.

Lemma advance_mono (l : Lexer) (n m : nat) :
  (n <= m)%nat -> approx (advance n l) (advance m l).
Proof. intros; unfold advance; approx_auto. Qed.

#[local] Hint Resolve peekToken_mono advance_mono : fuel.

Section GrammarFuel.

Context {External : Type} (ext : Collaborators External).

Lemma tryConsumeTokenKind_mono (l : Lexer) (k : TokenKind) (n m : nat) :
  (n <= m)%nat -> approx (tryConsumeTokenKind n l k) (tryConsumeTokenKind m l k).
Proof. intros; unfold tryConsumeTokenKind; approx_auto. Qed.

Lemma tryConsumeKeyword_mono (l : Lexer) (k : string) (n m : nat) :
  (n <= m)%nat -> approx (tryConsumeKeyword n l k) (tryConsumeKeyword m l k).
Proof. intros; unfold tryConsumeKeyword; approx_auto. Qed.

#[local] Hint Resolve tryConsumeTokenKind_mono tryConsumeKeyword_mono : fuel.

Lemma consumeTokenKind_mono (l : Lexer) (k : TokenKind) (n m : nat) :
  (n <= m)%nat -> approx (consumeTokenKind n l k) (consumeTokenKind m l k).
Proof. intros; unfold consumeTokenKind; approx_auto. Qed.

Lemma consumeKeyword_mono (l : Lexer) (k : string) (n m : nat) :
  (n <= m)%nat -> approx (consumeKeyword n l k) (consumeKeyword m l k).
Proof. intros; unfold consumeKeyword; approx_auto. Qed.

#[local] Hint Resolve consumeTokenKind_mono consumeKeyword_mono : fuel.

Lemma parseIdent_mono (l : Lexer) (n m : nat) :
  (n <= m)%nat -> approx (parseIdent n l) (parseIdent m l).
Proof. intros; unfold parseIdent; approx_auto. Qed.

Lemma parseNumber_mono (l : Lexer) (pos : Pos) (n m : nat) :
  (n <= m)%nat -> approx (parseNumber n l pos) (parseNumber m l pos).
Proof. intros; unfold parseNumber; approx_auto. Qed.

Lemma parseString_mono (l : Lexer) (pos : Pos) (n m : nat) :
  (n <= m)%nat -> approx (parseString n l pos) (parseString m l pos).
Proof. intros; unfold parseString; approx_auto. Qed.

#[local] Hint Resolve parseIdent_mono parseNumber_mono parseString_mono : fuel.

Lemma parseLiteral_mono (l : Lexer) (pos : Pos) (n m : nat) :
  (n <= m)%nat -> approx (parseLiteral n l pos) (parseLiteral m l pos).
Proof. intros; unfold parseLiteral; approx_auto. Qed.

Lemma parseNestedType_mono (l : Lexer) (name : Ident) (pos : Pos) (n m : nat) :
  (n <= m)%nat ->
  approx (parseNestedType ext n l name pos) (parseNestedType ext m l name pos).
Proof. intros; unfold parseNestedType; approx_auto. Qed.

Lemma parseEnumValueExpr_mono (l : Lexer) (pos : Pos) (n m : nat) :
  (n <= m)%nat -> approx (parseEnumValueExpr n l pos) (parseEnumValueExpr m l pos).
Proof. intros; unfold parseEnumValueExpr; approx_auto. Qed.

#[local] Hint Resolve parseLiteral_mono parseNestedType_mono parseEnumValueExpr_mono : fuel.

Lemma parseEnumExpr_loop_mono (n m : nat) :
  (n <= m)%nat ->
  forall l enums, approx (parseEnumExpr_loop n l enums) (parseEnumExpr_loop m l enums).
Proof.
  revert m; induction n as [|n IH]; intros m Hnm l enums; [apply approx_Timeout|].
  destruct m as [|m]; [lia|].
  simpl. assert (Hi := IH m ltac:(lia)). assert (Hle : (n <= m)%nat) by lia.
  approx_auto.
Qed.

Lemma parseColumnTypeWithParams_loop_mono (n m : nat) :
  (n <= m)%nat ->
  forall l ps, approx (parseColumnTypeWithParams_loop n l ps)
                      (parseColumnTypeWithParams_loop m l ps).
Proof.
  revert m; induction n as [|n IH]; intros m Hnm l ps; [apply approx_Timeout|].
  destruct m as [|m]; [lia|].
  simpl. assert (Hi := IH m ltac:(lia)). assert (Hle : (n <= m)%nat) by lia.
  approx_auto.
Qed.

#[local] Hint Resolve parseEnumExpr_loop_mono parseColumnTypeWithParams_loop_mono : fuel.

Lemma parseEnumExpr_mono (l : Lexer) (pos : Pos) (n m : nat) :
  (n <= m)%nat -> approx (parseEnumExpr (External := External) n l pos)
                         (parseEnumExpr m l pos).
Proof. intros; unfold parseEnumExpr; approx_auto. Qed.

Lemma parseColumnTypeWithParams_mono (l : Lexer) (name : Ident) (pos : Pos)
    (n m : nat) :
  (n <= m)%nat ->
  approx (parseColumnTypeWithParams (External := External) n l name pos)
         (parseColumnTypeWithParams m l name pos).
Proof. intros; unfold parseColumnTypeWithParams; approx_auto. Qed.

#[local] Hint Resolve parseEnumExpr_mono parseColumnTypeWithParams_mono : fuel.

Lemma type_grammar_mono (n : nat) :
  forall m, (n <= m)%nat ->
    (forall l, approx (parseColumnType ext n l) (parseColumnType ext m l))
    /\ (forall l name pos, approx (parseComplexType ext n l name pos)
                                  (parseComplexType ext m l name pos))
    /\ (forall l ts, approx (parseComplexType_loop ext n l ts)
                            (parseComplexType_loop ext m l ts)).
Proof.
  induction n as [|n IH]; intros m Hnm;
    [repeat split; intros; apply approx_Timeout|].
  destruct m as [|m]; [lia|].
  assert (Hle : (n <= m)%nat) by lia.
  destruct (IH m Hle) as (IH1 & IH2 & IH3).
  repeat split; intros; simpl.
  all: approx_auto.
Qed.

Lemma parseColumnType_mono (l : Lexer) (n m : nat) :
  (n <= m)%nat -> approx (parseColumnType ext n l) (parseColumnType ext m l).
Proof. intros H; apply (type_grammar_mono n m H). Qed.

Lemma parseColumnStar_mono (l : Lexer) (pos : Pos) (n m : nat) :
  (n <= m)%nat ->
  approx (parseColumnStar (External := External) n l pos) (parseColumnStar m l pos).
Proof. intros; unfold parseColumnStar; approx_auto. Qed.

#[local] Hint Resolve parseColumnType_mono parseColumnStar_mono : fuel.

(** Every method of the expression grammar, run with fuel [n] and with
    fuel [m]. *)
Definition expr_grammar_approx (n m : nat) : Prop :=
  (forall l pos, approx (parseExpr ext n l pos) (parseExpr ext m l pos))
  /\ (forall l pos, approx (parseOrExpr ext n l pos) (parseOrExpr ext m l pos))
  /\ (forall l pos, approx (parseAndExpr ext n l pos) (parseAndExpr ext m l pos))
  /\ (forall l pos, approx (parseNotExpr ext n l pos) (parseNotExpr ext m l pos))
  /\ (forall l pos, approx (parseIsOrNotNull ext n l pos) (parseIsOrNotNull ext m l pos))
  /\ (forall l pos, approx (parseCompareExpr ext n l pos) (parseCompareExpr ext m l pos))
  /\ (forall l pos, approx (parseAddSubExpr ext n l pos) (parseAddSubExpr ext m l pos))
  /\ (forall l pos, approx (parseMulDivModExpr ext n l pos) (parseMulDivModExpr ext m l pos))
  /\ (forall l pos, approx (parseColumnExtractExpr ext n l pos) (parseColumnExtractExpr ext m l pos))
  /\ (forall l pos, approx (parseUnaryExpr ext n l pos) (parseUnaryExpr ext m l pos))
  /\ (forall l pos, approx (parseColumnExpr ext n l pos) (parseColumnExpr ext m l pos))
  /\ (forall l pos, approx (parseIdentOrFunction ext n l pos) (parseIdentOrFunction ext m l pos))
  /\ (forall l pos, approx (parseColumnCastExpr ext n l pos) (parseColumnCastExpr ext m l pos))
  /\ (forall l pos, approx (parseColumnExprInterval ext n l pos) (parseColumnExprInterval ext m l pos))
  /\ (forall l pos, approx (parseColumnArgList ext n l pos) (parseColumnArgList ext m l pos))
  /\ (forall l pos, approx (parseFunctionParams ext n l pos) (parseFunctionParams ext m l pos))
  /\ (forall l pos, approx (parseArrayParams ext n l pos) (parseArrayParams ext m l pos))
  /\ (forall l pos, approx (parseColumnCaseExpr ext n l pos) (parseColumnCaseExpr ext m l pos))
  /\ (forall l e, approx (parseOrExpr_loop ext n l e) (parseOrExpr_loop ext m l e))
  /\ (forall l e, approx (parseAndExpr_loop ext n l e) (parseAndExpr_loop ext m l e))
  /\ (forall l e, approx (parseAddSubExpr_loop ext n l e) (parseAddSubExpr_loop ext m l e))
  /\ (forall l e, approx (parseTernaryExpr ext n l e) (parseTernaryExpr ext m l e))
  /\ (forall l e, approx (parseMulDivModExpr_loop ext n l e) (parseMulDivModExpr_loop ext m l e))
  /\ (forall l term pos,
      approx (parseColumnExprListWithTerm ext n l term pos)
             (parseColumnExprListWithTerm ext m l term pos))
  /\ (forall l term pos es,
      approx (parseColumnExprListWithTerm_loop ext n l term pos es)
             (parseColumnExprListWithTerm_loop ext m l term pos es))
  /\ (forall l es, approx (parseColumnArgList_loop ext n l es)
                         (parseColumnArgList_loop ext m l es))
  /\ (forall l ws, approx (parseColumnCaseExpr_loop ext n l ws)
                         (parseColumnCaseExpr_loop ext m l ws)).

Lemma expr_grammar_mono (n : nat) :
  forall m, (n <= m)%nat -> expr_grammar_approx n m.
Proof.
  induction n as [|n IH]; intros m Hnm;
    [unfold expr_grammar_approx; repeat split; intros; apply approx_Timeout|].
  destruct m as [|m]; [lia|].
  assert (Hle : (n <= m)%nat) by lia.
  specialize (IH m Hle). unfold expr_grammar_approx in IH.
  repeat match goal with H : _ /\ _ |- _ => destruct H end.
  unfold expr_grammar_approx; repeat split; intros; simpl; approx_auto.
Qed.

End GrammarFuel.

Lemma parseExprOn_mono {External : Type} (ext : Collaborators External)
    (buf : string) (n m : nat) :
  (n <= m)%nat -> approx (parseExprOn ext n buf) (parseExprOn ext m buf).
Proof.
  intros H. unfold parseExprOn.
  apply approx_bind; [now apply advance_mono|].
  intros l. now apply (expr_grammar_mono ext n m H).
Qed.

Lemma parseColumnTypeOn_mono {External : Type} (ext : Collaborators External)
    (buf : string) (n m : nat) :
  (n <= m)%nat ->
  approx (parseColumnTypeOn ext n buf) (parseColumnTypeOn ext m buf).
Proof.
  intros H. unfold parseColumnTypeOn.
  apply approx_bind; [now apply advance_mono|].
  intros l. now apply parseColumnType_mono.
Qed.

Lemma scanned_mono (buf : string) (k n m : nat) :
  (n <= m)%nat -> approx (scanned n buf k) (scanned m buf k).
Proof.
  intros H. induction k as [|k IH]; simpl; [apply approx_refl|].
  apply approx_bind; [exact IH|]. intros l. now apply advance_mono.
Qed.

(** [b] is the outcome from fuel [n] on. *)
Lemma enough_fuel {A : Type} (f : nat -> outcome A) (n : nat) (x : A) :
  (forall m, (n <= m)%nat -> approx (f n) (f m)) ->
  f n = Done x -> forall m, (n <= m)%nat -> f m = Done x.
Proof. intros Hf Hn m Hm. exact (approx_Done _ _ _ (Hf m Hm) Hn). Qed.

Lemma enough_fuel_Panic {A : Type} (f : nat -> outcome A) (n : nat) :
  (forall m, (n <= m)%nat -> approx (f n) (f m)) ->
  f n = Panic -> forall m, (n <= m)%nat -> f m = Panic.
Proof.
  intros Hf Hn m Hm. destruct (Hf m Hm) as [H | H]; congruence.
Qed.

(** ** Results and scanner states, written down *)

Section Shapes.

Context {External : Type}.


(** The identifier [name] read at [pos, pos + len name). *)
Definition ident (pos : Pos) (name : string) : Expr External :=
  EIdent {| NamePos := pos; NameEnd := pos + len name; Name := name |}.

(** The base-10 literal [text] read at [pos, pos + len text). *)
Definition number (pos : Pos) (text : string) : Expr External :=
  ENumber {| NumPos := pos; NumEnd := pos + len text;
             NumLiteral := text; NumBase := 10 |}.

End Shapes.

(** The scanner that has read all of [buf]. *)
Definition atEnd (buf : string) : Lexer :=
  {| input := buf; current := len buf; lastToken := None |}.

(** The token of kind [kind] and text [text] read at [pos, pos + len text). *)
Definition tok (pos : Pos) (kind : TokenKind) (text : string) : Token :=
  {| TokPos := pos; TokEnd := pos + len text; Kind := kind; TokString := text;
     Base := 0; Unquoted := false |}.

(** The scanner over [buf] whose current token is [t], the cursor at
    [cur]. *)
Definition at_token (buf : string) (cur : Z) (t : Token) : Lexer :=
  {| input := buf; current := cur; lastToken := Some t |}.

(** ** What a call leaves behind *)

(** [post a Q]: if the call returns, its result satisfies [Q]. *)
Definition post {A : Type} (a : outcome A) (Q : A -> Prop) : Prop :=
  forall x, a = Done x -> Q x.

Lemma post_Done {A : Type} (x : A) (Q : A -> Prop) : Q x -> post (Done x) Q.
Proof. intros H y [= <-]. exact H. Qed.

Lemma post_Panic {A : Type} (Q : A -> Prop) : post Panic Q.
Proof. intros y [=]. Qed.

Lemma post_Timeout {A : Type} (Q : A -> Prop) : post Timeout Q.
Proof. intros y [=]. Qed.

Lemma post_any {A : Type} (a : outcome A) : post a (fun _ => True).
Proof. intros y _. exact I. Qed.

Lemma post_bind {A B : Type} (a : outcome A) (k : A -> outcome B)
    (P : A -> Prop) (Q : B -> Prop) :
  post a P -> (forall x, P x -> post (k x) Q) -> post (bind a k) Q.
Proof.
  intros Ha Hk y. destruct a as [x| |]; simpl; [|discriminate|discriminate].
  apply Hk, Ha. reflexivity.
Qed.

Lemma post_weaken {A : Type} (a : outcome A) (P Q : A -> Prop) :
  post a P -> (forall x, P x -> Q x) -> post a Q.
Proof. intros Ha HPQ y Hy. apply HPQ, Ha, Hy. Qed.

Lemma post_bind_assoc {A B C : Type} (a : outcome A) (k : A -> outcome B)
    (k' : B -> outcome C) (Q : C -> Prop) :
  post (bind a (fun x => bind (k x) k')) Q -> post (bind (bind a k) k') Q.
Proof. destruct a; exact (fun H => H). Qed.

Create HintDb frame.

(** One step through the body of a method: the rule of its head. *)
Ltac post_step :=
  lazymatch goal with
  | |- post (Done _) _ => apply post_Done
  | |- post Panic _ => apply post_Panic
  | |- post Timeout _ => apply post_Timeout
  | |- post (bind (Done _) _) _ => cbn [bind]
  | |- post (bind (bind _ _) _) _ => apply post_bind_assoc
  | |- post (bind (match ?x with _ => _ end) _) _ => destruct x
  | |- post (bind _ _) _ =>
    eapply post_bind;
    [ first [ solve [eauto with frame] | apply post_any ] | intros ? ? ]
  | |- post (match ?x with _ => _ end) _ => destruct x
  | |- post _ _ => solve [eauto with frame]
  end.

Ltac post_auto := repeat post_step.

(** *** What the scanner keeps *)

(** The two errors about a misplaced [.]. *)
Definition dot_error (e : option error) : Prop :=
  match e with
  | Some (errDotAfterIdent _) | Some (errDotFollowIdent _) => True
  | _ => False
  end.

(** A scanning method keeps the input, and does not report a misplaced
    [.]. *)
Definition scan_post (l : Lexer) (r : option error * Lexer) : Prop :=
  input (snd r) = input l /\ ~ dot_error (fst r).

(** A skipping method keeps the input and the cached token. *)
Definition skip_post (l l' : Lexer) : Prop :=
  input l' = input l /\ lastToken l' = lastToken l.

Ltac frame_done :=
  lazymatch goal with
  | |- post _ _ => idtac
  | _ =>
    unfold scan_post, skip_post, dot_error in *; simpl in *;
    repeat match goal with
           | H : _ /\ _ |- _ => destruct H
           | |- context [if ?b then _ else _] => destruct b; simpl
           end;
    repeat split; try congruence; auto
  end.

Lemma consumeNumber_loop_error (n : nat) (l : Lexer) (base : Z) :
  forall i hasExp kind hasNum,
    post (consumeNumber_loop n l base i hasExp kind hasNum)
         (fun r => match r with
                   | inl e => ~ dot_error (Some e)
                   | inr _ => True
                   end).
Proof.
  induction n as [|n IH]; intros i hasExp kind hasNum; simpl;
    [apply post_Timeout|].
  post_auto; frame_done.
Qed.

#[local] Hint Resolve consumeNumber_loop_error : frame.

Lemma consumeNumber_post (n : nat) (l : Lexer) :
  post (consumeNumber n l) (scan_post l).
Proof. unfold consumeNumber. post_auto; frame_done. Qed.

Lemma consumeIdent_post (n : nat) (l : Lexer) :
  post (consumeIdent n l) (scan_post l).
Proof. unfold consumeIdent. post_auto; frame_done. Qed.

Lemma consumeString_post (n : nat) (l : Lexer) (q : bool) :
  post (consumeString n l q) (scan_post l).
Proof. unfold consumeString. post_auto; frame_done. Qed.

Lemma twoByteToken_post (l : Lexer) (k : option TokenKind) :
  post (twoByteToken l k) (scan_post l).
Proof. unfold twoByteToken. post_auto; frame_done. Qed.

#[local] Hint Resolve consumeNumber_post consumeIdent_post
  consumeString_post twoByteToken_post : frame.

Lemma consumeSingleLineComment_post (n : nat) (l : Lexer) :
  post (consumeSingleLineComment n l) (skip_post l).
Proof. unfold consumeSingleLineComment. post_auto; frame_done. Qed.

Lemma consumeMultiLineComment_post (n : nat) (l : Lexer) :
  post (consumeMultiLineComment n l) (skip_post l).
Proof. unfold consumeMultiLineComment. post_auto; frame_done. Qed.

#[local] Hint Resolve consumeSingleLineComment_post
  consumeMultiLineComment_post : frame.

Lemma skipComments_post (n : nat) :
  forall l, post (skipComments n l) (skip_post l).
Proof.
  induction n as [|n IH]; intros l; simpl; [apply post_Timeout|].
  post_auto; frame_done.
  all: eapply post_weaken; [apply IH|]; intros; frame_done.
Qed.

Lemma skipSpace_post (n : nat) :
  forall l, post (skipSpace n l) (skip_post l).
Proof.
  induction n as [|n IH]; intros l; simpl; [apply post_Timeout|].
  post_auto; frame_done.
  all: eapply post_weaken; [apply IH|]; intros; frame_done.
Qed.

#[local] Hint Resolve skipComments_post skipSpace_post : frame.

Lemma consumeToken_emit_post (n : nat) (l : Lexer) :
  post (consumeToken_emit n l) (scan_post l).
Proof. unfold consumeToken_emit. post_auto; frame_done. Qed.

#[local] Hint Resolve consumeToken_emit_post : frame.

(** With no cached token, the check after the [switch] of [consumeToken]
    cannot fail. *)
Lemma consumeToken_tail_post (n : nat) (l : Lexer) :
  lastToken l = None -> post (consumeToken_tail n l) (scan_post l).
Proof.
  intros Hlast. unfold consumeToken_tail. rewrite Hlast.
  apply consumeToken_emit_post.
Qed.

Lemma consumeToken_post (n : nat) (l : Lexer) :
  post (consumeToken n l) (scan_post l).
Proof.
  unfold consumeToken.
  eapply post_bind; [apply skipSpace_post|]. intros l1 [Hi1 _].
  eapply post_bind; [apply skipComments_post|]. intros l2 [Hi2 Hl2].
  eapply post_bind; [apply skipSpace_post|]. intros l3 [Hi3 Hl3].
  simpl in Hi2, Hl2.
  assert (Hin : input l3 = input l) by congruence.
  assert (Hlast : lastToken l3 = None) by congruence.
  assert (Hweak : forall a, post a (scan_post l3) -> post a (scan_post l)).
  { intros a Ha. eapply post_weaken; [exact Ha|].
    intros r [? ?]; split; congruence. }
  assert (Htail : post (consumeToken_tail n l3) (scan_post l)).
  { apply Hweak, consumeToken_tail_post, Hlast. }
  rewrite Hlast.
  post_auto; frame_done.
Qed.

(** The scanner never changes its input. *)
Lemma consumeToken_input (n : nat) (l : Lexer) (e : option error) (l' : Lexer) :
  consumeToken n l = Done (e, l') -> input l' = input l.
Proof. intros H. exact (proj1 (consumeToken_post n l _ H)). Qed.

(** *** The current token *)

(** What [matchKeyword] tells about the current token. *)
Lemma matchKeyword_inv (l : Lexer) (keyword : string) :
  matchKeyword l keyword = true ->
  exists t, last l = Some t /\ Kind t = TokenKeyword
            /\ ToUpper (TokString t) = ToUpper keyword.
Proof.
  unfold matchKeyword, matchTokenKind, lastTokenKind.
  destruct (last l) as [t|]; rewrite andb_true_iff; intros [Hk Hs];
    [|discriminate].
  exists t. apply String.eqb_eq in Hk. apply String.eqb_eq in Hs. auto.
Qed.

(** ** Integers and strings *)

Lemma wrap64_small (z : Z) : - 2 ^ 63 <= z < 2 ^ 63 -> wrap64 z = z.
Proof.
  intros H. unfold wrap64. rewrite Z.mod_small; lia.
Qed.

Lemma get_beyond (s : string) :
  forall n, (String.length s <= n)%nat -> String.get n s = None.
Proof.
  induction s as [|c s IH]; intros n Hn; [reflexivity|].
  destruct n as [|n]; simpl in *; [lia|]. apply IH. lia.
Qed.

Lemma index_beyond (s : string) (k : Z) : len s <= k -> index s k = Panic.
Proof.
  intros H. unfold index. unfold len in H.
  destruct (0 <=? k) eqn:E; [|reflexivity].
  rewrite get_beyond; [reflexivity|]. lia.
Qed.

Lemma len_nonneg (s : string) : 0 <= len s.
Proof. unfold len. lia. Qed.

Lemma len_String (c : byte) (s : string) : len (String c s) = len s + 1.
Proof. unfold len. simpl String.length. lia. Qed.

Lemma len_append (s t : string) : len (s ++ t) = len s + len t.
Proof.
  induction s as [|c s IH]; [reflexivity|].
  simpl append. rewrite !len_String, IH. lia.
Qed.

Lemma append_String_assoc (s : string) (c : byte) (t : string) :
  (s ++ String c t)%string = ((s ++ String c EmptyString) ++ t)%string.
Proof. induction s as [|d s IH]; simpl; [reflexivity | now rewrite IH]. Qed.

Lemma get_append (s : string) (c : byte) (t : string) :
  String.get (String.length s) (s ++ String c t) = Some c.
Proof. induction s as [|d s IH]; simpl; [reflexivity | exact IH]. Qed.

Lemma index_append (s : string) (c : byte) (t : string) :
  index (s ++ String c t) (len s) = Done c.
Proof.
  unfold index, len.
  destruct (0 <=? Z.of_nat (String.length s)) eqn:E;
    [|apply Z.leb_gt in E; lia].
  now rewrite Nat2Z.id, get_append.
Qed.

Lemma substring_full (s : string) : substring 0 (String.length s) s = s.
Proof. induction s as [|c s IH]; simpl; [reflexivity | now rewrite IH]. Qed.

Lemma substr_full (s : string) : substr s 0 (len s) = Done s.
Proof.
  unfold substr. pose proof (len_nonneg s).
  replace ((0 <=? 0) && (0 <=? len s) && (len s <=? len s)) with true
    by (symmetry; rewrite !andb_true_iff; repeat split; lia).
  unfold len. now rewrite Z.sub_0_r, Nat2Z.id, substring_full.
Qed.

Lemma addi_0_l (z : Z) : - 2 ^ 63 <= z < 2 ^ 63 -> addi 0 z = z.
Proof. intros H. unfold addi. now rewrite wrap64_small. Qed.

Lemma addi_small (a b : Z) : - 2 ^ 63 <= a + b < 2 ^ 63 -> addi a b = a + b.
Proof. intros H. unfold addi. now rewrite wrap64_small. Qed.

Lemma wrap64_range (z : Z) : - 2 ^ 63 <= wrap64 z < 2 ^ 63.
Proof.
  unfold wrap64. pose proof (Z.mod_pos_bound (z + 2 ^ 63) (2 ^ 64)). lia.
Qed.

Lemma wrap64_idem (z : Z) : wrap64 (wrap64 z + 0) = wrap64 z.
Proof. rewrite Z.add_0_r. apply wrap64_small, wrap64_range. Qed.

Lemma wrap64_cases (z : Z) : exists k, wrap64 z = z + 2 ^ 64 * k.
Proof.
  unfold wrap64. exists (- ((z + 2 ^ 63) / 2 ^ 64)).
  pose proof (Z.div_mod (z + 2 ^ 63) (2 ^ 64)). lia.
Qed.

Lemma substring_one (s : string) :
  forall n c, String.get n s = Some c -> substring n 1 s = String c EmptyString.
Proof.
  induction s as [|d s IH]; intros n c H; [discriminate|].
  destruct n as [|n]; simpl in *.
  - injection H as ->. now destruct s.
  - now apply IH.
Qed.

Lemma substring_length (s : string) :
  forall n m, (n + m <= String.length s)%nat ->
              String.length (substring n m s) = m.
Proof.
  induction s as [|d s IH]; intros n m H.
  - simpl in H. assert (n = O) by lia. assert (m = O) by lia. now subst.
  - destruct n as [|n]; simpl in *.
    + destruct m as [|m]; [reflexivity|]. simpl. f_equal. apply IH. simpl. lia.
    + apply IH. lia.
Qed.

(** The one-byte token text is the byte under the cursor. *)
Lemma substr_one (s : string) (a : Z) (x : string) (c : byte) :
  substr s a (addi a 1) = Done x -> index s (addi a 0) = Done c ->
  x = String c EmptyString.
Proof.
  unfold substr, index, addi. intros Hx Hc.
  destruct ((0 <=? a) && (a <=? wrap64 (a + 1)) && (wrap64 (a + 1) <=? len s))
    eqn:E; [|discriminate].
  apply andb_true_iff in E as [E E3]. apply andb_true_iff in E as [E1 E2].
  apply Z.leb_le in E1, E2, E3.
  pose proof (wrap64_range (a + 1)) as Hr.
  assert (Ha : wrap64 (a + 0) = a) by (rewrite Z.add_0_r; apply wrap64_small; lia).
  assert (Hb : wrap64 (a + 1) = a + 1).
  { destruct (Z.eq_dec (a + 1) (2 ^ 63)) as [Heq | Hne].
    - exfalso. rewrite Heq in E2. change (wrap64 (2 ^ 63)) with (- 2 ^ 63) in E2.
      lia.
    - apply wrap64_small. lia. }
  rewrite Ha in Hc. rewrite Hb in Hx.
  replace (0 <=? a) with true in Hc by (symmetry; now apply Z.leb_le).
  destruct (String.get (Z.to_nat a) s) as [d|] eqn:G; [|discriminate].
  injection Hc as ->. injection Hx as <-.
  replace (a + 1 - a) with 1 by lia. now apply substring_one.
Qed.

(** A two-byte token text has two bytes. *)
Lemma substr_two (s : string) (a : Z) (x : string) :
  substr s (addi a 0) (addi a 2) = Done x -> String.length x = 2%nat.
Proof.
  unfold substr, addi. intros Hx.
  destruct ((0 <=? wrap64 (a + 0)) && (wrap64 (a + 0) <=? wrap64 (a + 2))
            && (wrap64 (a + 2) <=? len s)) eqn:E; [|discriminate].
  apply andb_true_iff in E as [E E3]. apply andb_true_iff in E as [E1 E2].
  apply Z.leb_le in E1, E2, E3.
  pose proof (wrap64_range (a + 0)) as R0.
  pose proof (wrap64_range (a + 2)) as R2.
  destruct (wrap64_cases (a + 0)) as [k0 W0].
  destruct (wrap64_cases (a + 2)) as [k2 W2].
  assert (Hd : wrap64 (a + 2) - wrap64 (a + 0) = 2) by lia.
  injection Hx as <-. rewrite Hd. apply substring_length.
  unfold len in E3. lia.
Qed.

Lemma index_not_Timeout (s : string) (k : Z) : index s k <> Timeout.
Proof.
  unfold index. destruct (0 <=? k); [|discriminate].
  destruct (String.get (Z.to_nat k) s); discriminate.
Qed.

Lemma index_skip2 (a b : byte) (s : string) (i : Z) :
  0 <= i -> index (String a (String b s)) (2 + i) = index s i.
Proof.
  intros Hi. unfold index.
  replace (0 <=? 2 + i) with true by (symmetry; apply Z.leb_le; lia).
  replace (0 <=? i) with true by (symmetry; now apply Z.leb_le).
  replace (Z.to_nat (2 + i)) with (S (S (Z.to_nat i))) by lia.
  reflexivity.
Qed.

(** ** Operator precedence *)


Section Precedence.

Context {External : Type} (ext : Collaborators External).


Lemma parseUnaryExpr_fuel (n m : nat) (l : Lexer) (pos : Pos)
    (r : result (Expr External) * Lexer) :
  parseUnaryExpr ext n l pos = Done r -> (n <= m)%nat ->
  parseUnaryExpr ext m l pos = Done r.
Proof.
  intros H Hnm. refine (approx_Done _ _ _ _ H).
  apply (expr_grammar_mono ext n m Hnm).
Qed.

Lemma advance_fuel (n m : nat) (l l' : Lexer) :
  advance n l = Done l' -> (n <= m)%nat -> advance m l = Done l'.
Proof. intros H Hnm. exact (approx_Done _ _ _ (advance_mono l n m Hnm) H). Qed.













(** The current token is an operator of the multiplicative tier, or [?]. *)
Definition mulTier (l : Lexer) : bool :=
  matchTokenKind l opTypeQuery
  || matchTokenKind l opTypeMul || matchTokenKind l opTypeDiv
  || matchTokenKind l opTypeMod || matchTokenKind l TokenArrow
  || matchTokenKind l TokenCast.

(** The current token is an operator of the additive tier. *)
Definition addTier (l : Lexer) : bool :=
  matchTokenKind l opTypePlus || matchTokenKind l opTypeMinus.

Lemma parseAddSubExpr_S (fuel : nat) (l : Lexer) (pos : Pos) :
  parseAddSubExpr ext (S fuel) l pos
  = (try (expr, l) <- parseMulDivModExpr ext fuel l pos ;;
     parseAddSubExpr_loop ext fuel l expr).
Proof. reflexivity. Qed.

Lemma parseAddSubExpr_loop_S (fuel : nat) (l : Lexer) (expr : Expr External) :
  parseAddSubExpr_loop ext (S fuel) l expr
  = (if addTier l then
       let op := lastTokenKind l in
       l <- advance fuel l ;;
       try (rightExpr, l) <- parseMulDivModExpr ext fuel l (ParserPos l) ;;
       parseAddSubExpr_loop ext fuel l (BinaryExpr expr false false op rightExpr)
     else Done (Ok expr, l)).
Proof. reflexivity. Qed.

Lemma parseMulDivModExpr_S (fuel : nat) (l : Lexer) (pos : Pos) :
  parseMulDivModExpr ext (S fuel) l pos
  = (try (expr, l) <- parseUnaryExpr ext fuel l pos ;;
     parseMulDivModExpr_loop ext fuel l expr).
Proof. reflexivity. Qed.

Lemma parseMulDivModExpr_loop_stop (fuel : nat) (l : Lexer)
    (expr : Expr External) :
  mulTier l = false ->
  parseMulDivModExpr_loop ext (S fuel) l expr = Done (Ok expr, l).
Proof.
  unfold mulTier. rewrite !orb_false_iff.
  intros [[[[[H1 H2] H3] H4] H5] H6]. simpl.
  now rewrite H1, H2, H3, H4, H5, H6.
Qed.


Lemma parseMulDivModExpr_fuel (n m : nat) (l : Lexer) (pos : Pos)
    (r : result (Expr External) * Lexer) :
  parseMulDivModExpr ext n l pos = Done r -> (n <= m)%nat ->
  parseMulDivModExpr ext m l pos = Done r.
Proof.
  intros H Hnm. refine (approx_Done _ _ _ _ H).
  apply (expr_grammar_mono ext n m Hnm).
Qed.





End Precedence.

(** ** Chains of operators *)


Section Chains.

Context {External : Type} (ext : Collaborators External).

(** The node that a tier builds from its left operand and the operators and
    right operands that follow, in the order of the text. *)
Definition left_nested (x : Expr External)
    (ops : list (TokenKind * Expr External)) : Expr External :=
  fold_left (fun acc p => BinaryExpr acc false false (fst p) (snd p)) ops x.




(** From the state [l], the text goes on with the operators and operands
    [ops] of the additive tier, each operand read by [parseMulDivModExpr],
    and then with a token that is no operator of the tier, in the state
    [l']. *)
Inductive add_chain (f : nat) :
    Lexer -> list (TokenKind * Expr External) -> Lexer -> Prop :=
| add_chain_end (l : Lexer) :
    addTier l = false -> add_chain f l [] l
| add_chain_more (l l1 l2 : Lexer) (e : Expr External)
    (ops : list (TokenKind * Expr External)) (l' : Lexer) :
    addTier l = true -> advance f l = Done l1 ->
    parseMulDivModExpr ext f l1 (ParserPos l1) = Done (Ok e, l2) ->
    add_chain f l2 ops l' ->
    add_chain f l ((lastTokenKind l, e) :: ops) l'.

Lemma parseAddSubExpr_loop_chain (f : nat) (l : Lexer)
    (ops : list (TokenKind * Expr External)) (l' : Lexer) :
  add_chain f l ops l' ->
  forall acc fuel, (f + List.length ops + 1 <= fuel)%nat ->
    parseAddSubExpr_loop ext fuel l acc = Done (Ok (left_nested acc ops), l').
Proof.
  induction 1 as [l Hno | l l1 l2 e ops l' Hop Hadv He Hrest IH];
    intros acc fuel Hfuel; (destruct fuel as [|fuel]; [lia|]);
    rewrite parseAddSubExpr_loop_S.
  - rewrite Hno. reflexivity.
  - rewrite Hop. cbv zeta. cbn [List.length] in Hfuel.
    rewrite (advance_fuel _ fuel _ _ Hadv) by lia. cbn [bind].
    rewrite (parseMulDivModExpr_fuel ext _ fuel _ _ _ He) by lia. cbn [bind].
    rewrite IH by lia. reflexivity.
Qed.

(** The same for the multiplicative tier, whose operands are read by
    [parseUnaryExpr]; its operators are [*], [/], [%], [->] and [::]. *)
Definition mulOp (l : Lexer) : bool :=
  negb (matchTokenKind l opTypeQuery)
  && (matchTokenKind l opTypeMul || matchTokenKind l opTypeDiv
      || matchTokenKind l opTypeMod || matchTokenKind l TokenArrow
      || matchTokenKind l TokenCast).

Inductive mul_chain (f : nat) :
    Lexer -> list (TokenKind * Expr External) -> Lexer -> Prop :=
| mul_chain_end (l : Lexer) :
    mulTier l = false -> mul_chain f l [] l
| mul_chain_more (l l1 l2 : Lexer) (e : Expr External)
    (ops : list (TokenKind * Expr External)) (l' : Lexer) :
    mulOp l = true -> advance f l = Done l1 ->
    parseUnaryExpr ext f l1 (ParserPos l1) = Done (Ok e, l2) ->
    mul_chain f l2 ops l' ->
    mul_chain f l ((lastTokenKind l, e) :: ops) l'.

Lemma parseMulDivModExpr_loop_S (fuel : nat) (l : Lexer)
    (expr : Expr External) :
  mulOp l = true ->
  parseMulDivModExpr_loop ext (S fuel) l expr
  = (l0 <- advance fuel l ;;
     try (rightExpr, l1) <- parseUnaryExpr ext fuel l0 (ParserPos l0) ;;
     parseMulDivModExpr_loop ext fuel l1
       (BinaryExpr expr false false (lastTokenKind l) rightExpr)).
Proof.
  unfold mulOp. intros H. apply andb_true_iff in H as [Hq Hop].
  apply negb_true_iff in Hq. simpl. rewrite Hq.
  change (matchTokenKind l "*" || matchTokenKind l "/" || matchTokenKind l "%"
          || matchTokenKind l TokenArrow || matchTokenKind l TokenCast)
    with (matchTokenKind l opTypeMul || matchTokenKind l opTypeDiv
          || matchTokenKind l opTypeMod || matchTokenKind l TokenArrow
          || matchTokenKind l TokenCast).
  rewrite Hop. reflexivity.
Qed.

Lemma parseMulDivModExpr_loop_chain (f : nat) (l : Lexer)
    (ops : list (TokenKind * Expr External)) (l' : Lexer) :
  mul_chain f l ops l' ->
  forall acc fuel, (f + List.length ops + 1 <= fuel)%nat ->
    parseMulDivModExpr_loop ext fuel l acc
    = Done (Ok (left_nested acc ops), l').
Proof.
  induction 1 as [l Hno | l l1 l2 e ops l' Hop Hadv He Hrest IH];
    intros acc fuel Hfuel; (destruct fuel as [|fuel]; [lia|]).
  - now apply parseMulDivModExpr_loop_stop.
  - rewrite (parseMulDivModExpr_loop_S _ _ _ Hop).
    cbn [List.length] in Hfuel.
    rewrite (advance_fuel _ fuel _ _ Hadv) by lia. cbn [bind].
    rewrite (parseUnaryExpr_fuel ext _ fuel _ _ _ He) by lia. cbn [bind].
    rewrite IH by lia. reflexivity.
Qed.



End Chains.




(** ** An unterminated comment *)

(** No [*/] in [body]. *)
Definition unterminated (body : string) : Prop :=
  forall i, ~ (index body i = Done "*"%char /\ index body (i + 1) = Done "/"%char).

(** The scanner inside the comment of ["/*" ++ body]: past the opening
    [/*]. *)
Definition in_comment (body : string) : Lexer :=
  {| input := String "/" (String "*" body); current := 2; lastToken := None |}.

(** The loop of [consumeMultiLineComment] never leaves an unterminated
    comment that has a body: the index grows until the addition wraps
    around, and the next byte read is out of range. *)
Lemma consumeMultiLineComment_loop_stuck (body : string) (fuel : nat) :
  body <> EmptyString -> unterminated body -> len body < 2 ^ 62 ->
  forall i, 0 <= i <= 2 ^ 63 - 3 ->
    consumeMultiLineComment_loop fuel (in_comment body) i = Timeout
    \/ consumeMultiLineComment_loop fuel (in_comment body) i = Panic.
Proof.
  intros Hbody Hopen Hlen.
  assert (Hpos : 1 <= len body).
  { destruct body; [congruence|]. rewrite len_String.
    pose proof (len_nonneg body). lia. }
  assert (Hinput : len (input (in_comment body)) = len body + 2).
  { unfold in_comment; cbn [input]. rewrite !len_String. lia. }
  induction fuel as [|fuel IH]; intros i Hi; [now left|].
  cbn [consumeMultiLineComment_loop].
  unfold isEOF. rewrite Hinput. change (current (in_comment body)) with 2.
  replace (2 >=? len body + 2) with false
    by (symmetry; rewrite Z.geb_leb; apply Z.leb_gt; lia).
  cbn [negb]. unfold peekOk, peekIs, peekN. rewrite Hinput.
  change (current (in_comment body)) with 2.
  change (input (in_comment body)) with (String "/" (String "*" body)).
  unfold addi.
  destruct (Z.eq_dec i (2 ^ 63 - 3)) as [-> | Himax].
  - right. rewrite (wrap64_small (2 ^ 63 - 3 + 1)) by lia.
    replace (wrap64 (2 + (2 ^ 63 - 3 + 1))) with (- 2 ^ 63)
      by (vm_compute; reflexivity).
    replace (- 2 ^ 63 <? len body + 2) with true
      by (symmetry; apply Z.ltb_lt; lia).
    rewrite (wrap64_small (2 + (2 ^ 63 - 3))) by lia.
    rewrite index_beyond by (rewrite !len_String; lia).
    reflexivity.
  - rewrite (wrap64_small (i + 1)) by lia.
    rewrite (wrap64_small (2 + (i + 1))) by lia.
    rewrite (wrap64_small (2 + i)) by lia.
    rewrite !index_skip2 by lia.
    assert (Hclose :
      Done (2 + (i + 1) <? len body + 2)
      &&& (x <- index body i ;; Done (Ascii.eqb x "*"))
      &&& (x <- index body (i + 1) ;; Done (Ascii.eqb x "/"))
      = Done false \/
      Done (2 + (i + 1) <? len body + 2)
      &&& (x <- index body i ;; Done (Ascii.eqb x "*"))
      &&& (x <- index body (i + 1) ;; Done (Ascii.eqb x "/"))
      = Panic).
    { destruct (2 + (i + 1) <? len body + 2); [|now left].
      cbn [and_then bind]. specialize (Hopen i).
      pose proof (index_not_Timeout body i) as Hi1.
      pose proof (index_not_Timeout body (i + 1)) as Hi2.
      destruct (index body i) as [c| |]; cbn [bind];
        [|now right|congruence].
      destruct (Ascii.eqb_spec c "*") as [-> | Hc]; [|now left].
      destruct (index body (i + 1)) as [d| |]; cbn [bind];
        [|now right|congruence].
      destruct (Ascii.eqb_spec d "/") as [-> | Hd]; [|now left].
      now destruct Hopen. }
    destruct Hclose as [-> | ->]; [|now right].
    cbn [bind]. apply IH. lia.
Qed.

(** C2 (the code at the failing inputs).  On a comment that is not closed
    and is not at the very end of the input, the scanner does not return,
    whatever the fuel: it is still in the loop of [consumeMultiLineComment]
    when the fuel runs out, or panics there.  "/* a" is such an input. *)
Theorem unterminated_comment_never_returns (body : string) (fuel : nat) :
  body <> EmptyString -> unterminated body -> len body < 2 ^ 62 ->
  consumeToken fuel (NewLexer (String "/" (String "*" body))) = Timeout
  \/ consumeToken fuel (NewLexer (String "/" (String "*" body))) = Panic.
Proof.
  intros Hbody Hopen Hlen.
  destruct fuel as [|fuel]; [now left|].
  assert (Hinput : 2 <= len (String "/" (String "*" body))).
  { rewrite !len_String. pose proof (len_nonneg body). lia. }
  assert (Heof : isEOF (NewLexer (String "/" (String "*" body))) = false).
  { unfold isEOF. cbn [current input NewLexer].
    rewrite Z.geb_leb. apply Z.leb_gt. lia. }
  assert (Hspace : skipSpace (S fuel) (NewLexer (String "/" (String "*" body)))
                   = Done (NewLexer (String "/" (String "*" body)))).
  { cbn [skipSpace]. rewrite Heof. cbn [negb].
    cbn [NewLexer input current]. rewrite substr_full. reflexivity. }
  unfold consumeToken. rewrite Hspace. cbn [bind].
  change (setLastToken (NewLexer (String "/" (String "*" body))) None)
    with (NewLexer (String "/" (String "*" body))).
  assert (Hcomments :
    skipComments (S fuel) (NewLexer (String "/" (String "*" body)))
    = (l <- consumeMultiLineComment fuel
              (NewLexer (String "/" (String "*" body))) ;;
       skipComments fuel l)).
  { cbn [skipComments]. rewrite Heof. cbn [negb].
    unfold peekN, peekIs, peekN, peekOk. cbn [NewLexer input current].
    change (addi 0 0) with 0. change (addi 0 1) with 1.
    replace (1 <? len (String "/" (String "*" body))) with true
      by (symmetry; apply Z.ltb_lt; lia).
    reflexivity. }
  rewrite Hcomments. unfold consumeMultiLineComment.
  change (skipN (NewLexer (String "/" (String "*" body))) 2)
    with (in_comment body).
  destruct (consumeMultiLineComment_loop_stuck body fuel Hbody Hopen Hlen 0
              ltac:(lia)) as [-> | ->]; [now left | now right].
Qed.

Lemma unterminated_comment_never_returns_witness :
  (String " " (String "a" EmptyString) <> EmptyString
   /\ unterminated " a"
   /\ len " a" < 2 ^ 62)
  /\ (consumeToken 32 (NewLexer "/* a") = Timeout
      \/ consumeToken 32 (NewLexer "/* a") = Panic).
Proof.
  assert (H1 : String " " (String "a" EmptyString) <> EmptyString)
    by discriminate.
  assert (H2 : unterminated " a").
  { intros i [Hi _]. unfold index in Hi.
    destruct (0 <=? i); [|discriminate].
    destruct (Z.to_nat i) as [|[|[|n]]]; simpl in Hi; discriminate. }
  assert (H3 : len " a" < 2 ^ 62) by (vm_compute; reflexivity).
  split; [now repeat split|].
  exact (unterminated_comment_never_returns " a" 32 H1 H2 H3).
Defined.

(** ** Numbers with several dots *)

Fixpoint all_bytes (P : byte -> bool) (s : string) : bool :=
  match s with
  | EmptyString => true
  | String c r => P c && all_bytes P r
  end.

Fixpoint some_byte (P : byte -> bool) (s : string) : bool :=
  match s with
  | EmptyString => false
  | String c r => P c || some_byte P r
  end.

Definition is_dot (c : byte) : bool := Ascii.eqb c ".".

Definition digit_or_dot (c : byte) : bool := IsDigit c || is_dot c.

(** A text of base-10 digits and dots that starts with a digit. *)
Definition dotted_number (s : string) : bool :=
  match s with
  | EmptyString => false
  | String c _ => IsDigit c && all_bytes digit_or_dot s
  end.

Lemma IsDigit_code (c : byte) : IsDigit c = true -> 48 <= code c <= 57.
Proof. unfold IsDigit. rewrite andb_true_iff. lia. Qed.

Lemma eqb_code (c d : byte) : code c <> code d -> Ascii.eqb c d = false.
Proof.
  intros H. apply Ascii.eqb_neq. intros ->. now apply H.
Qed.

(** The digit loop of [consumeNumber] over digits and dots: it runs to the
    end of the input, and every dot makes the token a float. *)
Lemma consumeNumber_loop_dotted (lt : option Token) (rest : string) :
  forall (pre : string) (fuel : nat) (hasExp : bool) (kind : TokenKind)
         (hasNum : bool),
    all_bytes digit_or_dot rest = true ->
    len (pre ++ rest) < 2 ^ 63 ->
    (String.length rest < fuel)%nat ->
    consumeNumber_loop fuel
      {| input := pre ++ rest; current := 0; lastToken := lt |}
      10 (len pre) hasExp kind hasNum
    = Done (inr (len (pre ++ rest),
                 if some_byte is_dot rest then TokenFloat else kind,
                 match rest with EmptyString => hasNum | _ => true end)).
Proof.
  induction rest as [|c rest IH]; intros pre fuel hasExp kind hasNum Hall Hlen Hfuel.
  - destruct fuel as [|fuel]; [simpl in Hfuel; lia|].
    cbn [consumeNumber_loop]. unfold peekOk. cbn [current input].
    pose proof (len_nonneg pre).
    rewrite len_append in *. change (len EmptyString) with 0 in *.
    rewrite addi_0_l by lia.
    replace (len pre <? len pre + 0) with false by (symmetry; apply Z.ltb_ge; lia).
    cbn. now rewrite Z.add_0_r.
  - destruct fuel as [|fuel]; [simpl in Hfuel; lia|].
    simpl in Hall. apply andb_true_iff in Hall as [Hc Hall].
    pose proof (len_nonneg pre). pose proof (len_nonneg rest).
    assert (Hl : len (pre ++ String c rest) = len pre + len rest + 1)
      by (rewrite len_append, len_String; lia).
    cbn [consumeNumber_loop]. unfold peekOk, peekN. cbn [current input].
    rewrite addi_0_l by lia.
    replace (len pre <? len (pre ++ String c rest)) with true
      by (symmetry; apply Z.ltb_lt; lia).
    cbn [negb]. rewrite index_append. cbn [bind].
    change (10 =? 10) with true. change (10 =? 16) with false. cbn [andb negb].
    assert (Hnext :
      forall k, consumeNumber_loop fuel
        {| input := pre ++ String c rest; current := 0; lastToken := lt |}
        10 (addi (len pre) 1) hasExp k true
      = Done (inr (len (pre ++ String c rest),
                   if some_byte is_dot rest then TokenFloat else k, true))).
    { intros k. rewrite addi_small by lia.
      rewrite append_String_assoc.
      replace (len pre + 1) with (len (pre ++ String c EmptyString))
        by (rewrite len_append, len_String; reflexivity).
      rewrite IH.
      - destruct rest; reflexivity.
      - exact Hall.
      - rewrite <- append_String_assoc. exact Hlen.
      - simpl in Hfuel. lia. }
    unfold digit_or_dot in Hc. simpl some_byte.
    destruct (IsDigit c) eqn:Hd.
    + rewrite Hnext. unfold is_dot.
      rewrite eqb_code; [reflexivity|].
      apply IsDigit_code in Hd. change (code "."%char) with 46. lia.
    + simpl in Hc. unfold is_dot in *. rewrite Hc. rewrite Hnext.
      simpl. now destruct (some_byte _ rest).
Qed.

Lemma eqb_class (P : byte -> bool) (c d : byte) :
  P c = true -> P d = false -> Ascii.eqb c d = false.
Proof. intros Hc Hd. apply Ascii.eqb_neq. intros ->. congruence. Qed.

Lemma IsSpace_digit (c : byte) : IsDigit c = true -> IsSpace (code c) = false.
Proof.
  intros H. apply IsDigit_code in H. unfold IsSpace, memZ. simpl existsb.
  replace (code c <=? 255) with true by (symmetry; apply Z.leb_le; lia).
  repeat (rewrite (proj2 (Z.eqb_neq (code c) _)) by lia). reflexivity.
Qed.

(** The byte [c] of class [P] (by [H]) is none of the bytes outside [P]
    that the goal compares it with. *)
Ltac not_that_byte P H :=
  repeat match goal with
         | |- context [Ascii.eqb ?c ?d] =>
           rewrite (eqb_class P c d H (eq_refl false))
         end.

(** Before a digit there is no space to skip. *)
Lemma skipSpace_digit (fuel : nat) (c : byte) (r : string) (lt : option Token) :
  IsDigit c = true ->
  skipSpace (S fuel) {| input := String c r; current := 0; lastToken := lt |}
  = Done {| input := String c r; current := 0; lastToken := lt |}.
Proof.
  intros H. cbn [skipSpace]. unfold isEOF. cbn [current input].
  pose proof (len_nonneg r).
  replace (0 >=? len (String c r)) with false
    by (symmetry; rewrite Z.geb_leb; apply Z.leb_gt; rewrite len_String; lia).
  cbn [negb]. rewrite substr_full. cbn [bind].
  unfold DecodeRuneInString.
  replace (code c <? 128) with true
    by (symmetry; apply Z.ltb_lt; apply IsDigit_code in H; lia).
  now rewrite IsSpace_digit.
Qed.

(** Before a digit there is no comment to skip. *)
Lemma skipComments_digit (fuel : nat) (c : byte) (r : string)
    (lt : option Token) :
  IsDigit c = true ->
  skipComments (S fuel) {| input := String c r; current := 0; lastToken := lt |}
  = Done {| input := String c r; current := 0; lastToken := lt |}.
Proof.
  intros H. cbn [skipComments]. unfold isEOF. cbn [current input].
  pose proof (len_nonneg r).
  replace (0 >=? len (String c r)) with false
    by (symmetry; rewrite Z.geb_leb; apply Z.leb_gt; rewrite len_String; lia).
  cbn [negb]. unfold peekN. cbn [current input].
  change (addi 0 0) with 0. change (index (String c r) 0) with (Done c).
  cbn [bind].
  not_that_byte IsDigit H. reflexivity.
Qed.

(** The [0x] prefix is not met in a text of digits and dots. *)
Lemma no_hex_prefix (c : byte) (r : string) (lt : option Token) :
  all_bytes digit_or_dot r = true ->
  let l := {| input := String c r; current := 0; lastToken := lt |} in
  peekIs l 0 "0" &&& Done (peekOk l 1) &&& peekIs l 1 "x" = Done false.
Proof.
  intros Hall l. unfold peekIs, peekN, peekOk. cbn [current input l].
  change (addi 0 0) with 0. change (addi 0 1) with 1.
  change (index (String c r) 0) with (Done c). cbn [bind and_then].
  destruct (Ascii.eqb c "0"); [|reflexivity].
  destruct r as [|d r].
  - reflexivity.
  - destruct (1 <? len (String c (String d r))); [|reflexivity].
    change (index (String c (String d r)) 1) with (Done d). cbn [bind].
    simpl in Hall. apply andb_true_iff in Hall as [Hd _].
    not_that_byte digit_or_dot Hd. reflexivity.
Qed.

(** C3 (amended).  A numeric literal may hold any number of dots: scanning a
    text of base-10 digits and dots that starts with a digit and holds a dot
    returns no error and produces one float token spanning the whole text,
    every dot included. *)
Theorem dotted_number_is_one_float (s : string) (fuel : nat) :
  dotted_number s = true ->
  some_byte is_dot s = true ->
  len s < 2 ^ 63 ->
  (String.length s < fuel)%nat ->
  consumeToken fuel (NewLexer s)
  = Done (None,
          {| input := s;
             current := len s;
             lastToken := Some {| TokPos := 0; TokEnd := len s;
                                  Kind := TokenFloat; TokString := s;
                                  Base := 10; Unquoted := false |} |}).
Proof.
  intros Hnum Hdot Hlen Hfuel.
  destruct s as [|c r]; [discriminate|].
  unfold dotted_number in Hnum. apply andb_true_iff in Hnum as [Hc Hall].
  destruct fuel as [|fuel]; [simpl in Hfuel; lia|].
  pose proof (len_nonneg r) as Hr.
  assert (Hs : len (String c r) = len r + 1) by apply len_String.
  unfold consumeToken, NewLexer.
  rewrite skipSpace_digit by exact Hc. cbn [bind].
  change (setLastToken {| input := String c r; current := 0; lastToken := None |} None)
    with {| input := String c r; current := 0; lastToken := None |}.
  rewrite skipComments_digit by exact Hc. cbn [bind].
  rewrite skipSpace_digit by exact Hc. cbn [bind].
  unfold isEOF. cbn [current input].
  replace (0 >=? len (String c r)) with false
    by (symmetry; rewrite Z.geb_leb; apply Z.leb_gt; lia).
  unfold peekN at 1. cbn [current input]. change (addi 0 0) with 0.
  change (index (String c r) 0) with (Done c). cbn [bind].
  not_that_byte IsDigit Hc. cbn [orb].
  rewrite Hc.
  (* consumeNumber *)
  unfold consumeNumber.
  replace (peekIs {| input := String c r; current := 0; lastToken := None |} 0 "+"
           ||| peekIs {| input := String c r; current := 0; lastToken := None |} 0 "-")
    with (Done false).
  2:{ unfold peekIs, peekN. cbn [current input]. change (addi 0 0) with 0.
      change (index (String c r) 0) with (Done c). cbn [bind or_else].
      not_that_byte IsDigit Hc. reflexivity. }
  cbn [bind].
  simpl in Hall. apply andb_true_iff in Hall as [Hc' Hall].
  rewrite (no_hex_prefix c r None Hall). cbn [bind].
  pose proof (consumeNumber_loop_dotted None (String c r) EmptyString (S fuel)
                false TokenInt false) as Hloop.
  cbn [append] in Hloop. change (len EmptyString) with 0 in Hloop.
  rewrite Hloop; [|simpl; now rewrite Hc', Hall|exact Hlen|exact Hfuel].
  cbn [bind]. rewrite Hdot.
  unfold peekOk, slice. cbn [current input].
  rewrite addi_0_l by lia. change (addi 0 0) with 0.
  replace (len (String c r) <? len (String c r)) with false
    by (symmetry; apply Z.ltb_irrefl).
  cbn [and_then or_else bind negb]. rewrite substr_full. cbn [bind].
  unfold skipN, setLastToken, setCurrent. cbn [current input lastToken].
  rewrite addi_0_l by lia. reflexivity.
Qed.

Lemma dotted_number_is_one_float_witness :
  (dotted_number "1.2.3" = true
   /\ some_byte is_dot "1.2.3" = true
   /\ len "1.2.3" < 2 ^ 63
   /\ (String.length "1.2.3" < 32)%nat)
  /\ consumeToken 32 (NewLexer "1.2.3")
     = Done (None,
             {| input := "1.2.3";
                current := len "1.2.3";
                lastToken := Some {| TokPos := 0; TokEnd := len "1.2.3";
                                     Kind := TokenFloat; TokString := "1.2.3";
                                     Base := 10; Unquoted := false |} |}).
Proof.
  assert (H1 : dotted_number "1.2.3" = true) by reflexivity.
  assert (H2 : some_byte is_dot "1.2.3" = true) by reflexivity.
  assert (H3 : len "1.2.3" < 2 ^ 63) by (vm_compute; reflexivity).
  assert (H4 : (String.length "1.2.3" < 32)%nat) by (simpl; lia).
  split; [now repeat split|].
  exact (dotted_number_is_one_float "1.2.3" 32 H1 H2 H3 H4).
Defined.

(** C3 (counterexample).  Scanning "1.2.3" returns no error: it produces
    the single float token "1.2.3", spanning both dots. *)
Lemma two_dots_one_float :
  consumeToken 32 (NewLexer "1.2.3")
  = Done (None,
          {| input := "1.2.3";
             current := 5;
             lastToken := Some {| TokPos := 0; TokEnd := 5;
                                  Kind := TokenFloat; TokString := "1.2.3";
                                  Base := 10; Unquoted := false |} |}).
Proof. vm_compute. reflexivity. Qed.

(** ** [peekToken] on an error *)

(** The call returns no error, or leaves no cached token. *)
Definition error_clears (r : option error * Lexer) : Prop :=
  fst r <> None -> lastToken (snd r) = None.

Ltac clears_done Hnone :=
  lazymatch goal with
  | |- post _ _ => idtac
  | _ =>
    unfold error_clears; simpl;
    repeat match goal with
           | |- context [if ?b then _ else _] => destruct b; simpl
           end;
    first [ exact (fun _ => Hnone)
          | let Hne := fresh "Hne" in intros Hne; now destruct Hne ]
  end.

Lemma consumeNumber_clears (n : nat) (l : Lexer) :
  lastToken l = None -> post (consumeNumber n l) error_clears.
Proof. intros Hnone. unfold consumeNumber. post_auto; clears_done Hnone. Qed.

Lemma consumeIdent_clears (n : nat) (l : Lexer) :
  lastToken l = None -> post (consumeIdent n l) error_clears.
Proof. intros Hnone. unfold consumeIdent. post_auto; clears_done Hnone. Qed.

Lemma consumeString_clears (n : nat) (l : Lexer) (q : bool) :
  lastToken l = None -> post (consumeString n l q) error_clears.
Proof. intros Hnone. unfold consumeString. post_auto; clears_done Hnone. Qed.

Lemma twoByteToken_clears (l : Lexer) (k : option TokenKind) :
  post (twoByteToken l k) error_clears.
Proof. unfold twoByteToken. post_auto. intros Hne; now destruct Hne. Qed.

(** When [consumeToken] returns an error, the cached token is nil. *)
Lemma consumeToken_clears (n : nat) (l : Lexer) :
  post (consumeToken n l) error_clears.
Proof.
  unfold consumeToken.
  eapply post_bind; [apply skipSpace_post|]. intros l1 [_ _].
  eapply post_bind; [apply skipComments_post|]. intros l2 [_ Hl2].
  eapply post_bind; [apply skipSpace_post|]. intros l3 [_ Hl3].
  simpl in Hl2.
  assert (Hlast : lastToken l3 = None) by congruence.
  rewrite Hlast. unfold consumeToken_tail, consumeToken_emit. rewrite Hlast.
  post_auto.
  all: try (clears_done Hlast).
  all: first [ apply consumeNumber_clears, Hlast
             | apply consumeIdent_clears, Hlast
             | apply consumeString_clears, Hlast
             | apply twoByteToken_clears ].
Qed.

(** C4 (the code at the failing input).  When [consumeToken] fails,
    [peekToken] returns the error at once, without restoring the scanner: it
    leaves the scanner where [consumeToken] left it, the cached token nil.
    On "a 'b", once "a" is the current token (cursor 1), the lookahead meets
    an unterminated string: the cursor has moved to 2 and the cached token
    is gone. *)
Theorem peekToken_error_not_restored (fuel : nat) :
  (forall l t e l',
      peekToken fuel l = Done (t, Some e, l') ->
      consumeToken fuel l = Done (Some e, l') /\ lastToken l' = None)
  /\ ((32 <= fuel)%nat ->
      scanned fuel "a 'b" 1 = Done (at_token "a 'b" 1 (tok 0 TokenIdent "a"))
      /\ peekToken fuel (at_token "a 'b" 1 (tok 0 TokenIdent "a"))
         = Done (None, Some errInvalidString,
                 {| input := "a 'b"; current := 2; lastToken := None |})).
Proof.
  split.
  - intros l t e l' H. unfold peekToken in H.
    destruct (consumeToken fuel l) as [[e1 l1]| |] eqn:E; simpl in H;
      try discriminate.
    destruct e1 as [e1|]; [|discriminate].
    injection H as <- <- <-. split; [reflexivity|].
    apply (consumeToken_clears fuel l _ E). discriminate.
  - intros Hfuel. split.
    + apply (enough_fuel (fun n => scanned n _ 1) 32);
        [intros; now apply scanned_mono | vm_compute; reflexivity
        | exact Hfuel].
    + apply (enough_fuel (fun n => peekToken n _) 32);
        [intros; now apply peekToken_mono | vm_compute; reflexivity
        | exact Hfuel].
Qed.

Lemma peekToken_error_not_restored_witness :
  (32 <= 32)%nat
  /\ peekToken 32 (at_token "a 'b" 1 (tok 0 TokenIdent "a"))
     = Done (None, Some errInvalidString,
             {| input := "a 'b"; current := 2; lastToken := None |}).
Proof.
  split; [apply le_n|].
  exact (proj2 (proj2 (peekToken_error_not_restored 32) (le_n 32))).
Defined.

(** ** Misplaced dots *)

(** C5 (the code at the failing inputs).  [consumeToken] clears the cached
    token before it reads it, so neither check on the placement of a [.]
    can fail: in "1 .x" the [.] after the integer 1 is returned as a token,
    in "a.+" the [+] after the [.] is returned as a token, and no call of
    [consumeToken], from any scanner state, reports a misplaced [.]. *)
Theorem misplaced_dot_accepted (fuel : nat) :
  (32 <= fuel)%nat ->
  scanned fuel "1 .x" 2
    = Done {| input := "1 .x"; current := 3;
              lastToken := Some {| TokPos := 2; TokEnd := 3; Kind := ".";
                                   TokString := "."; Base := 0;
                                   Unquoted := false |} |}
  /\ scanned fuel "a.+" 3
    = Done {| input := "a.+"; current := 3;
              lastToken := Some {| TokPos := 2; TokEnd := 3; Kind := "+";
                                   TokString := "+"; Base := 0;
                                   Unquoted := false |} |}
  /\ forall l e l', consumeToken fuel l = Done (e, l') -> ~ dot_error e.
Proof.
  intros Hfuel. split; [|split].
  - apply (enough_fuel (fun n => scanned n _ 2) 32);
      [intros; now apply scanned_mono | vm_compute; reflexivity | exact Hfuel].
  - apply (enough_fuel (fun n => scanned n _ 3) 32);
      [intros; now apply scanned_mono | vm_compute; reflexivity | exact Hfuel].
  - intros l e l' H. exact (proj2 (consumeToken_post fuel l _ H)).
Qed.

Lemma misplaced_dot_accepted_witness :
  (32 <= 32)%nat
  /\ scanned 32 "1 .x" 2
     = Done {| input := "1 .x"; current := 3;
               lastToken := Some {| TokPos := 2; TokEnd := 3; Kind := ".";
                                    TokString := "."; Base := 0;
                                    Unquoted := false |} |}.
Proof.
  split; [apply le_n|].
  exact (proj1 (misplaced_dot_accepted 32 (le_n 32))).
Defined.

(** ** NOT at the comparison level *)

(** The current token is one of the keywords IN, LIKE, ILIKE. *)
Definition isInLikeIlike (l : Lexer) : bool :=
  matchKeyword l KeywordIn || matchKeyword l KeywordLike
  || matchKeyword l KeywordIlike.

Section Comparison.

Context {External : Type} (ext : Collaborators External).

(** A node that is not a binary node carrying the not flag. *)
Definition plain (e : Expr External) : Prop :=
  match e with
  | BinaryExpr _ true _ _ _ => False
  | _ => True
  end.

Definition returns_plain {St : Type} (r : result (Expr External) * St) : Prop :=
  match fst r with
  | Ok e => plain e
  | Err _ => True
  end.

Ltac plain_done :=
  lazymatch goal with
  | |- post _ _ => idtac
  | _ => unfold returns_plain, plain in *; simpl in *; auto
  end.

Lemma parseColumnStar_plain (fuel : nat) (l : Lexer) (pos : Pos) :
  post (parseColumnStar fuel l pos) returns_plain.
Proof. unfold parseColumnStar. post_auto; plain_done. Qed.

Lemma parseColumnExprInterval_plain (fuel : nat) (l : Lexer) (pos : Pos) :
  post (parseColumnExprInterval ext fuel l pos) returns_plain.
Proof. destruct fuel; simpl; post_auto; plain_done. Qed.

Lemma parseIdentOrFunction_plain (fuel : nat) (l : Lexer) (pos : Pos) :
  post (parseIdentOrFunction ext fuel l pos) returns_plain.
Proof. destruct fuel; simpl; post_auto; plain_done. Qed.

Lemma parseColumnCastExpr_plain (fuel : nat) (l : Lexer) (pos : Pos) :
  post (parseColumnCastExpr ext fuel l pos) returns_plain.
Proof. destruct fuel; simpl; post_auto; plain_done. Qed.

Lemma parseColumnCaseExpr_plain (fuel : nat) (l : Lexer) (pos : Pos) :
  post (parseColumnCaseExpr ext fuel l pos) returns_plain.
Proof. destruct fuel; simpl; post_auto; plain_done. Qed.

Lemma parseColumnExtractExpr_plain (fuel : nat) (l : Lexer) (pos : Pos) :
  post (parseColumnExtractExpr ext fuel l pos) returns_plain.
Proof. destruct fuel; simpl; post_auto; plain_done. Qed.

Hint Resolve parseColumnStar_plain parseColumnExprInterval_plain
  parseIdentOrFunction_plain parseColumnCastExpr_plain
  parseColumnCaseExpr_plain parseColumnExtractExpr_plain : frame.

Lemma parseColumnExpr_plain (fuel : nat) (l : Lexer) (pos : Pos) :
  post (parseColumnExpr ext fuel l pos) returns_plain.
Proof. destruct fuel; simpl; post_auto; plain_done. Qed.

Hint Resolve parseColumnExpr_plain : frame.

Lemma parseUnaryExpr_plain (fuel : nat) (l : Lexer) (pos : Pos) :
  post (parseUnaryExpr ext fuel l pos) returns_plain.
Proof. destruct fuel; simpl; post_auto; plain_done. Qed.

Lemma parseTernaryExpr_plain (fuel : nat) (l : Lexer) (c : Expr External) :
  post (parseTernaryExpr ext fuel l c) returns_plain.
Proof. destruct fuel; simpl; post_auto; plain_done. Qed.

Hint Resolve parseUnaryExpr_plain parseTernaryExpr_plain : frame.

Lemma parseMulDivModExpr_loop_plain (fuel : nat) :
  forall l e, plain e -> post (parseMulDivModExpr_loop ext fuel l e) returns_plain.
Proof.
  induction fuel as [|fuel IH]; intros l e He; simpl; [apply post_Timeout|].
  post_auto; plain_done.
  all: apply IH; exact I.
Qed.

Lemma parseMulDivModExpr_plain (fuel : nat) (l : Lexer) (pos : Pos) :
  post (parseMulDivModExpr ext fuel l pos) returns_plain.
Proof.
  destruct fuel; simpl; [apply post_Timeout|].
  eapply post_bind; [apply parseUnaryExpr_plain|].
  intros [[e|e] l'] H; [|apply post_Done; exact I].
  apply parseMulDivModExpr_loop_plain. exact H.
Qed.

Hint Resolve parseMulDivModExpr_plain : frame.

Lemma parseAddSubExpr_loop_plain (fuel : nat) :
  forall l e, plain e -> post (parseAddSubExpr_loop ext fuel l e) returns_plain.
Proof.
  induction fuel as [|fuel IH]; intros l e He; simpl; [apply post_Timeout|].
  post_auto; plain_done.
  all: apply IH; exact I.
Qed.

(** The additive level never returns a binary node with the not flag. *)
Lemma parseAddSubExpr_plain (fuel : nat) (l : Lexer) (pos : Pos) :
  post (parseAddSubExpr ext fuel l pos) returns_plain.
Proof.
  destruct fuel; simpl; [apply post_Timeout|].
  eapply post_bind; [apply parseMulDivModExpr_plain|].
  intros [[e|e] l'] H; [|apply post_Done; exact I].
  apply parseAddSubExpr_loop_plain. exact H.
Qed.

Lemma isInLikeIlike_inv (l : Lexer) :
  isInLikeIlike l = true ->
  exists t, last l = Some t
            /\ In (ToUpper (TokString t)) [KeywordIn; KeywordLike; KeywordIlike].
Proof.
  unfold isInLikeIlike. rewrite !orb_true_iff.
  intros [[H | H] | H]; apply matchKeyword_inv in H as (t & Ht & _ & Hs);
    exists t; (split; [exact Ht|]); rewrite Hs; simpl; auto.
Qed.

(** What [parseCompareExpr] does once the left operand [expr] is parsed and
    the current token is the keyword NOT. *)
Lemma parseCompareExpr_at_NOT (fuel : nat) (l : Lexer) (pos : Pos)
    (expr : Expr External) (l1 : Lexer) :
  parseAddSubExpr ext fuel l pos = Done (Ok expr, l1) ->
  matchKeyword l1 KeywordNot = true ->
  parseCompareExpr ext (S fuel) l pos
  = (l2 <- advance fuel l1 ;;
     if isInLikeIlike l2 then
       match last l2 with
       | None => Panic
       | Some t =>
         l3 <- advance fuel l2 ;;
         try (rightExpr, l4) <- parseAddSubExpr ext fuel l3 (ParserPos l3) ;;
         Done (Ok (BinaryExpr expr true false (ToUpper (TokString t)) rightExpr),
               l4)
       end
     else Done (Err (errExpectedInLikeIlike (lastTokenKind l2)), l2)).
Proof.
  intros Hleft Hnot. simpl. rewrite Hleft. cbn [bind].
  destruct (matchKeyword_inv _ _ Hnot) as (t & Ht & Hk & Hs).
  unfold matchTokenKind, matchKeyword, matchTokenKind, lastTokenKind, EqualFold.
  rewrite Ht, Hk, Hs. cbn -[advance parseAddSubExpr].
  destruct (advance fuel l1) as [l2| |]; cbn [bind]; try reflexivity.
  unfold isInLikeIlike, matchKeyword, matchTokenKind, lastTokenKind, EqualFold.
  destruct (_ || _ || _); reflexivity.
Qed.

(** A binary node with the not flag comes from NOT followed by IN, LIKE or
    ILIKE. *)
Lemma parseCompareExpr_not_flag_inv (fuel : nat) (l : Lexer) (pos : Pos)
    (expr : Expr External) (l1 : Lexer) (e : Expr External) (g : bool)
    (op : TokenKind) (r : Expr External) (l' : Lexer) :
  parseAddSubExpr ext fuel l pos = Done (Ok expr, l1) ->
  parseCompareExpr ext (S fuel) l pos = Done (Ok (BinaryExpr e true g op r), l') ->
  matchKeyword l1 KeywordNot = true
  /\ exists l2, advance fuel l1 = Done l2 /\ isInLikeIlike l2 = true
                /\ e = expr /\ g = false
                /\ In op [KeywordIn; KeywordLike; KeywordIlike].
Proof.
  intros Hleft H.
  pose proof (parseAddSubExpr_plain fuel l pos _ Hleft) as Hplain.
  unfold returns_plain in Hplain; simpl in Hplain.
  destruct (matchKeyword l1 KeywordNot) eqn:Hnot.
  - split; [reflexivity|].
    rewrite (parseCompareExpr_at_NOT _ _ _ _ _ Hleft Hnot) in H.
    destruct (advance fuel l1) as [l2| |]; cbn [bind] in H; try discriminate.
    exists l2. split; [reflexivity|].
    destruct (isInLikeIlike l2) eqn:Hin; [|discriminate].
    destruct (isInLikeIlike_inv _ Hin) as (t & Ht & Hop).
    rewrite Ht in H.
    destruct (advance fuel l2) as [l3| |]; cbn [bind] in H; try discriminate.
    destruct (parseAddSubExpr ext fuel l3 (ParserPos l3)) as [[[re|err] l4]| |];
      cbn [bind] in H; try discriminate.
    injection H as <- <- <- <- <-. auto.
  - exfalso. simpl in H. rewrite Hleft in H. cbn [bind] in H. rewrite Hnot in H.
    destruct (matchTokenKind l1 "[").
    + destruct (parseArrayParams ext fuel l1 pos) as [[[ps|err] l4]| |];
        cbn [bind] in H; discriminate.
    + repeat match type of H with
             | context [if ?b then _ else _] =>
               destruct b; cbn [bind] in H
             end.
      all: unfold bind in H.
      all: repeat match type of H with
             | context [match ?x with _ => _ end] =>
               lazymatch x with
               | context [match _ with _ => _ end] => fail
               | _ => destruct x; try discriminate
               end
             end.
      all: injection H as -> _; exact Hplain.
Qed.

End Comparison.

(** C6. At the comparison level, once the left operand [expr] is parsed and
    the current token is the keyword NOT, that NOT is consumed and must be
    followed by IN, LIKE or ILIKE: if it is, [parseCompareExpr] goes on to
    the right operand and builds the binary node of that operator with the
    not flag (and without the global flag); if it is not, whatever the token,
    [parseCompareExpr] returns the error "expected IN, LIKE or ILIKE after
    NOT".  And these are the only binary nodes with the not flag that
    [parseCompareExpr] returns. *)
Theorem not_at_comparison_level {External : Type}
    (ext : Collaborators External) (fuel : nat) (l : Lexer) (pos : Pos)
    (expr : Expr External) (l1 : Lexer) :
  parseAddSubExpr ext fuel l pos = Done (Ok expr, l1) ->
  (matchKeyword l1 KeywordNot = true ->
   forall l2, advance fuel l1 = Done l2 ->
     (isInLikeIlike l2 = true ->
      exists t,
        last l2 = Some t
        /\ In (ToUpper (TokString t)) [KeywordIn; KeywordLike; KeywordIlike]
        /\ parseCompareExpr ext (S fuel) l pos
           = (l3 <- advance fuel l2 ;;
              try (rightExpr, l4) <- parseAddSubExpr ext fuel l3 (ParserPos l3) ;;
              Done (Ok (BinaryExpr expr true false (ToUpper (TokString t))
                                   rightExpr), l4)))
     /\ (isInLikeIlike l2 = false ->
         parseCompareExpr ext (S fuel) l pos
         = Done (Err (errExpectedInLikeIlike (lastTokenKind l2)), l2)))
  /\ (forall e g op r l',
        parseCompareExpr ext (S fuel) l pos
        = Done (Ok (BinaryExpr e true g op r), l') ->
        matchKeyword l1 KeywordNot = true
        /\ exists l2, advance fuel l1 = Done l2 /\ isInLikeIlike l2 = true
                      /\ e = expr /\ g = false
                      /\ In op [KeywordIn; KeywordLike; KeywordIlike]).
Proof.
  intros Hleft. split.
  - intros Hnot l2 Hadv.
    pose proof (parseCompareExpr_at_NOT ext _ _ _ _ _ Hleft Hnot) as H.
    rewrite Hadv in H. cbn [bind] in H. split; intros Hin; rewrite Hin in H.
    + destruct (isInLikeIlike_inv _ Hin) as (t & Ht & Hop).
      exists t. rewrite Ht in H. auto.
    + exact H.
  - intros e g op r l' H.
    exact (parseCompareExpr_not_flag_inv ext _ _ _ _ _ _ _ _ _ _ Hleft H).
Qed.

(** On "a NOT x": the scanner once "a" is the current token, once NOT is,
    and once "x" is. *)
Definition a_NOT_x (cur : Z) (t : Token) : Lexer := at_token "a NOT x" cur t.

Lemma not_at_comparison_level_witness :
  (parseAddSubExpr noCollaborators 32 (a_NOT_x 1 (tok 0 TokenIdent "a")) 0
   = Done (Ok (ident 0 "a"), a_NOT_x 5 (tok 2 TokenKeyword "NOT"))
   /\ matchKeyword (a_NOT_x 5 (tok 2 TokenKeyword "NOT")) KeywordNot = true
   /\ advance 32 (a_NOT_x 5 (tok 2 TokenKeyword "NOT"))
      = Done (a_NOT_x 7 (tok 6 TokenIdent "x"))
   /\ isInLikeIlike (a_NOT_x 7 (tok 6 TokenIdent "x")) = false)
  /\ parseCompareExpr noCollaborators 33 (a_NOT_x 1 (tok 0 TokenIdent "a")) 0
     = Done (Err (errExpectedInLikeIlike TokenIdent),
             a_NOT_x 7 (tok 6 TokenIdent "x")).
Proof.
  assert (H1 : parseAddSubExpr noCollaborators 32
                 (a_NOT_x 1 (tok 0 TokenIdent "a")) 0
               = Done (Ok (ident 0 "a"), a_NOT_x 5 (tok 2 TokenKeyword "NOT")))
    by (vm_compute; reflexivity).
  assert (H2 : matchKeyword (a_NOT_x 5 (tok 2 TokenKeyword "NOT")) KeywordNot
               = true) by reflexivity.
  assert (H3 : advance 32 (a_NOT_x 5 (tok 2 TokenKeyword "NOT"))
               = Done (a_NOT_x 7 (tok 6 TokenIdent "x")))
    by (vm_compute; reflexivity).
  assert (H4 : isInLikeIlike (a_NOT_x 7 (tok 6 TokenIdent "x")) = false)
    by reflexivity.
  split; [now repeat split|].
  exact (proj2 (proj1 (not_at_comparison_level noCollaborators 32 _ 0 _ _ H1)
                      H2 _ H3) H4).
Defined.

(** The two inputs of the property: "a NOT x" is an error,
    "a NOT IN b" is the comparison IN with the not flag. *)
Lemma parseExpr_NOT_examples {External : Type} (ext : Collaborators External)
    (fuel : nat) :
  (32 <= fuel)%nat ->
  parseExprOn ext fuel "a NOT x"
    = Done (Err (errExpectedInLikeIlike TokenIdent),
            a_NOT_x 7 (tok 6 TokenIdent "x"))
  /\ parseExprOn ext fuel "a NOT IN b"
    = Done (Ok (BinaryExpr (ident 0 "a") true false "IN" (ident 9 "b")),
            atEnd "a NOT IN b").
Proof.
  intros Hfuel.
  split;
    (apply (enough_fuel (fun n => parseExprOn ext n _) 32);
     [intros; now apply parseExprOn_mono | vm_compute; reflexivity | exact Hfuel]).
Qed.

(** ** GLOBAL at the comparison level *)

(** What [parseCompareExpr] does once the left operand [expr] is parsed and
    the current token is the keyword GLOBAL: the token after GLOBAL is taken
    as the operator, whatever it is. *)
Lemma parseCompareExpr_at_GLOBAL {External : Type}
    (ext : Collaborators External) (fuel : nat) (l : Lexer) (pos : Pos)
    (expr : Expr External) (l1 : Lexer) :
  parseAddSubExpr ext fuel l pos = Done (Ok expr, l1) ->
  matchKeyword l1 KeywordGlobal = true ->
  parseCompareExpr ext (S fuel) l pos
  = (l2 <- advance fuel l1 ;;
     match last l2 with
     | None => Panic
     | Some t =>
       l3 <- advance fuel l2 ;;
       try (rightExpr, l4) <- parseAddSubExpr ext fuel l3 (ParserPos l3) ;;
       Done (Ok (BinaryExpr expr false true (ToUpper (TokString t)) rightExpr),
             l4)
     end).
Proof.
  intros Hleft Hglobal. simpl. rewrite Hleft. cbn [bind].
  destruct (matchKeyword_inv _ _ Hglobal) as (t & Ht & Hk & Hs).
  unfold matchTokenKind, matchKeyword, matchTokenKind, lastTokenKind, EqualFold.
  rewrite Ht, Hk, Hs. cbn -[advance parseAddSubExpr].
  destruct (advance fuel l1) as [l2| |]; reflexivity.
Qed.

(** C7 (the code at the failing input).  After GLOBAL the grammar checks
    nothing: whatever token comes next is taken as the operator.  So
    "a GLOBAL b c" is accepted as a comparison whose operator is "B", with
    the global flag; and "a GLOBAL", where no token comes next, panics on
    the nil token. *)
Theorem parseExpr_global_any_operator {External : Type}
    (ext : Collaborators External) (fuel : nat) :
  (32 <= fuel)%nat ->
  parseExprOn ext fuel "a GLOBAL b c"
    = Done (Ok (BinaryExpr (ident 0 "a") false true "B" (ident 11 "c")),
            atEnd "a GLOBAL b c")
  /\ parseExprOn ext fuel "a GLOBAL" = Panic.
Proof.
  intros Hfuel. split.
  - apply (enough_fuel (fun n => parseExprOn ext n _) 32);
      [intros; now apply parseExprOn_mono | vm_compute; reflexivity
      | exact Hfuel].
  - apply (enough_fuel_Panic (fun n => parseExprOn ext n _) 32);
      [intros; now apply parseExprOn_mono | vm_compute; reflexivity
      | exact Hfuel].
Qed.

Lemma parseExpr_global_any_operator_witness :
  (32 <= 32)%nat
  /\ parseExprOn noCollaborators 32 "a GLOBAL b c"
     = Done (Ok (BinaryExpr (ident 0 "a") false true "B" (ident 11 "c")),
             atEnd "a GLOBAL b c").
Proof.
  split; [apply le_n|].
  exact (proj1 (parseExpr_global_any_operator noCollaborators 32 (le_n 32))).
Defined.

(** ** The type grammar at the end of input *)

(** C8 (the code at the failing input).  On "T('a'" the lookahead after
    the string is the end of input: [peekToken] returns a nil token and no
    error, and [parseColumnType] reads the kind of that nil token. *)
Theorem parseColumnType_string_then_eof {External : Type}
    (ext : Collaborators External) (fuel : nat) :
  (32 <= fuel)%nat ->
  parseColumnTypeOn ext fuel "T('a'" = Panic.
Proof.
  intros Hfuel.
  apply (enough_fuel_Panic (fun n => parseColumnTypeOn ext n _) 32);
    [intros; now apply parseColumnTypeOn_mono | vm_compute; reflexivity
    | exact Hfuel].
Qed.

Lemma parseColumnType_string_then_eof_witness :
  (32 <= 32)%nat /\ parseColumnTypeOn noCollaborators 32 "T('a'" = Panic.
Proof.
  split; [apply le_n|].
  exact (parseColumnType_string_then_eof noCollaborators 32 (le_n 32)).
Defined.

(** The type grammar on complete texts: a bare name, a list of types, a
    list of literals; and an enum, where [parseEnumValueExpr] has consumed
    the label before [parseString] looks for it. *)
Lemma parseColumnType_examples {External : Type} (ext : Collaborators External)
    (fuel : nat) :
  (32 <= fuel)%nat ->
  parseColumnTypeOn ext fuel "Int32"
    = Done (Ok (ScalarTypeExpr (mkIdent 0 5 "Int32")), atEnd "Int32")
  /\ parseColumnTypeOn ext fuel "Array(Int32)"
    = Done (Ok (ComplexTypeExpr 6 11 (mkIdent 0 5 "Array")
                  [ScalarTypeExpr (mkIdent 6 11 "Int32")]),
            atEnd "Array(Int32)")
  /\ parseColumnTypeOn ext fuel "FixedString(16)"
    = Done (Ok (TypeWithParamsExpr (mkIdent 0 11 "FixedString") 12 14
                  [LitNumber (mkNumberLiteral 12 14 "16" 10)]),
            atEnd "FixedString(16)")
  /\ parseColumnTypeOn ext fuel "Enum8('a'=1,'b'=2)"
    = Done (Err (errExpectedTokenKind TokenString "="),
            at_token "Enum8('a'=1,'b'=2)" 10 (tok 9 "=" "=")).
Proof.
  intros Hfuel.
  repeat split;
    (apply (enough_fuel (fun n => parseColumnTypeOn ext n _) 32);
     [intros; now apply parseColumnTypeOn_mono | vm_compute; reflexivity
     | exact Hfuel]).
Qed.

(** ** A sign that abuts a digit *)

(** The text "1 -2": the literal 1, then the unconsumed literal "-2". *)
Lemma signed_literal_example {External : Type}
    (ext : Collaborators External) (fuel : nat) :
  (32 <= fuel)%nat ->
  parseExprOn ext fuel "1 -2"
    = Done (Ok (number 0 "1"),
            {| input := "1 -2";
               current := 4;
               lastToken := Some {| TokPos := 2; TokEnd := 4; Kind := TokenInt;
                                    TokString := "-2"; Base := 10;
                                    Unquoted := false |} |}).
Proof.
  intros Hfuel.
  apply (enough_fuel (fun n => parseExprOn ext n _) 32);
    [intros; now apply parseExprOn_mono | vm_compute; reflexivity | exact Hfuel].
Qed.

Lemma post_bind_eq {A B : Type} (a : outcome A) (k : A -> outcome B)
    (Q : B -> Prop) :
  (forall x, a = Done x -> post (k x) Q) -> post (bind a k) Q.
Proof.
  intros Hk y. destruct a as [x| |]; simpl; [|discriminate|discriminate].
  now apply Hk.
Qed.

(** As [post_step], keeping the equation of every test and every call. *)
Ltac post_step_eq :=
  lazymatch goal with
  | |- post (Done _) _ => apply post_Done
  | |- post Panic _ => apply post_Panic
  | |- post Timeout _ => apply post_Timeout
  | |- post (bind (Done _) _) _ => cbn [bind]
  | |- post (bind (bind _ _) _) _ => apply post_bind_assoc
  | |- post (bind (match ?x with _ => _ end) _) _ => destruct x eqn:?
  | |- post (bind _ _) _ =>
    first [ eapply post_bind; [ solve [eauto with frame] | intros ? ? ]
          | apply post_bind_eq; intros ? ? ]
  | |- post (match ?x with _ => _ end) _ => destruct x eqn:?
  | |- post _ _ => solve [eauto with frame]
  end.

Ltac post_auto_eq := repeat post_step_eq.

(** The kind of the operator tokens [+] and [-]. *)
Definition sign_kind (k : TokenKind) : Prop := k = opTypePlus \/ k = opTypeMinus.

(** The byte under the cursor is a digit. *)
Definition digit_next (l : Lexer) : Prop :=
  peekOk l 0 = true /\ peekHas l 0 IsDigit = Done true.

(** The call caches no token of kind [+] or [-]. *)
Definition no_sign_token (r : option error * Lexer) : Prop :=
  forall t, lastToken (snd r) = Some t -> ~ sign_kind (Kind t).

(** If the call caches a token of kind [+] or [-], no digit follows it. *)
Definition sign_apart (r : option error * Lexer) : Prop :=
  forall t, lastToken (snd r) = Some t -> sign_kind (Kind t) ->
            ~ digit_next (snd r).

Lemma no_sign_apart (r : option error * Lexer) : no_sign_token r -> sign_apart r.
Proof. intros H t Ht Hk. now destruct (H t Ht). Qed.

Definition numeric (k : TokenKind) : Prop := k = TokenInt \/ k = TokenFloat.

Lemma consumeNumber_loop_kind (n : nat) (l : Lexer) (base : Z) :
  forall i hasExp kind hasNum,
    numeric kind ->
    post (consumeNumber_loop n l base i hasExp kind hasNum)
         (fun r => match r with
                   | inl _ => True
                   | inr (_, k, _) => numeric k
                   end).
Proof.
  induction n as [|n IH]; intros i hasExp kind hasNum Hk; simpl;
    [apply post_Timeout|].
  post_auto; auto.
  all: apply IH; auto; now right.
Qed.

(** Closes a goal [no_sign_token _] on a state whose token is known. *)
Ltac sign_done Hnone :=
  lazymatch goal with
  | |- post _ _ => idtac
  | _ =>
    unfold no_sign_token, sign_kind, numeric in *; simpl in *;
    repeat match goal with
           | |- context [if ?b then _ else _] => destruct b; simpl
           end;
    let t := fresh "t" in
    let Ht := fresh "Ht" in
    intros t Ht;
    first [ rewrite Hnone in Ht; discriminate
          | injection Ht as <-; simpl;
            repeat match goal with
                   | |- context [if ?b then _ else _] => destruct b
                   end;
            intuition (subst; try discriminate; try congruence) ]
  end.

Lemma consumeNumber_kind (n : nat) (l : Lexer) :
  lastToken l = None -> post (consumeNumber n l) no_sign_token.
Proof.
  intros Hnone. unfold consumeNumber.
  post_step. post_step. 
  eapply post_bind;
    [apply consumeNumber_loop_kind; now left | intros [e | [[i k] hasNum]] Hk].
  all: post_auto; sign_done Hnone.
Qed.

Lemma consumeIdent_kind (n : nat) (l : Lexer) :
  lastToken l = None -> post (consumeIdent n l) no_sign_token.
Proof.
  intros Hnone. unfold consumeIdent. post_auto; sign_done Hnone.
Qed.

Lemma consumeString_kind (n : nat) (l : Lexer) (q : bool) :
  lastToken l = None -> post (consumeString n l q) no_sign_token.
Proof.
  intros Hnone. unfold consumeString. post_auto; sign_done Hnone.
Qed.

Lemma twoByteToken_kind (l : Lexer) (k : option TokenKind) :
  match k with Some k => ~ sign_kind k | None => True end ->
  post (twoByteToken l k) no_sign_token.
Proof.
  intros Hk. unfold twoByteToken, slice.
  apply post_bind_eq. intros s Hs. apply post_Done.
  intros t [= <-]. simpl. destruct k as [k|]; [exact Hk|].
  apply substr_two in Hs. intros [-> | ->]; discriminate.
Qed.

(** The one-byte token: when it is [+] or [-], it is the byte that was under
    the cursor, and the scanner has stepped over it. *)
Lemma consumeToken_emit_sign (n : nat) (l : Lexer) :
  lastToken l = None ->
  (forall c, peekN l 0 = Done c -> c = "+"%char \/ c = "-"%char ->
             ~ (peekOk l 1 = true /\ peekHas l 1 IsDigit = Done true)) ->
  post (consumeToken_emit n l) sign_apart.
Proof.
  intros Hnone Hsign. unfold consumeToken_emit.
  apply post_bind_eq. intros start Hstart. destruct start.
  - eapply post_weaken; [apply consumeIdent_kind, Hnone | apply no_sign_apart].
  - apply post_bind_eq. intros s Hs. apply post_Done.
    intros t [= <-] Hk. cbn [Kind snd] in *.
    unfold peekHas in Hstart.
    destruct (peekN l 0) as [c| |] eqn:Hc; try discriminate.
    pose proof (substr_one _ _ _ _ Hs Hc) as ->.
    assert (Hc' : c = "+"%char \/ c = "-"%char)
      by (destruct Hk as [[= ->] | [= ->]]; auto).
    specialize (Hsign c eq_refl Hc').
    unfold digit_next, peekOk, peekHas, peekN, skipN, setLastToken, setCurrent
      in *.
    cbn [current input] in *. unfold addi in *. now rewrite wrap64_idem.
Qed.

(** Closes the leaves of [consumeToken] that cache a token of another
    kind. *)
Ltac other_kind Hlast :=
  eapply post_weaken;
  [ first [ apply consumeNumber_kind, Hlast
          | apply consumeIdent_kind, Hlast
          | apply consumeString_kind, Hlast
          | apply twoByteToken_kind; try exact I;
            intros [? | ?]; discriminate ]
  | apply no_sign_apart ].

Lemma consumeToken_sign (n : nat) (l : Lexer) :
  post (consumeToken n l) sign_apart.
Proof.
  unfold consumeToken.
  eapply post_bind; [apply skipSpace_post|]. intros l1 [_ _].
  eapply post_bind; [apply skipComments_post|]. intros l2 [_ Hl2].
  eapply post_bind; [apply skipSpace_post|]. intros l3 [_ Hl3].
  simpl in Hl2.
  assert (Hlast : lastToken l3 = None) by congruence.
  destruct (isEOF l3).
  { apply post_Done. intros t Ht. simpl in Ht. congruence. }
  apply post_bind_eq. intros c Hc. rewrite Hlast.
  unfold consumeToken_tail. rewrite Hlast.
  post_auto_eq.
  all: try (other_kind Hlast).
  all: apply consumeToken_emit_sign; [exact Hlast|].
  all: intros c' Hc' Hsign; rewrite Hc in Hc'; injection Hc' as <-.
  all: try (destruct Hsign as [-> | ->]; simpl in *; discriminate).
  all: intros [Hok Hdigit].
  all: repeat match goal with
              | H : Done (peekOk _ 1) &&& _ = Done _ |- _ =>
                rewrite Hok in H; cbn [and_then bind] in H
              end.
  all: congruence.
Qed.

(** C9. The scanner folds a [+] or [-] that abuts a digit into a signed
    numeric literal, in every context: whatever the scanner state, a token
    of kind [+] or [-] returned by [consumeToken] is never followed at once
    by a digit, so no binary operator abuts the digits of its right operand.
    With enough fuel, [parseExpr] on "1 -2" returns the integer literal 1,
    not a subtraction, and leaves the token "-2" (an integer literal
    spanning the sign) as the unconsumed current token. *)
Theorem parseExpr_signed_literal {External : Type}
    (ext : Collaborators External) :
  (forall fuel l e l' t,
      consumeToken fuel l = Done (e, l') -> lastToken l' = Some t ->
      sign_kind (Kind t) -> ~ digit_next l')
  /\ (forall fuel, (32 <= fuel)%nat ->
      parseExprOn ext fuel "1 -2"
      = Done (Ok (number 0 "1"),
              {| input := "1 -2";
                 current := 4;
                 lastToken := Some {| TokPos := 2; TokEnd := 4;
                                      Kind := TokenInt; TokString := "-2";
                                      Base := 10; Unquoted := false |} |})).
Proof.
  split.
  - intros fuel l e l' t H Ht Hk.
    exact (consumeToken_sign fuel l _ H t Ht Hk).
  - intros fuel Hfuel. exact (signed_literal_example ext fuel Hfuel).
Qed.

(** In "1 - 2" the [-] is an operator token: a space follows it. *)
Lemma parseExpr_signed_literal_witness :
  (consumeToken 32 (at_token "1 - 2" 1 (tok 0 TokenInt "1"))
   = Done (None, at_token "1 - 2" 3 (tok 2 opTypeMinus "-"))
   /\ lastToken (at_token "1 - 2" 3 (tok 2 opTypeMinus "-"))
      = Some (tok 2 opTypeMinus "-")
   /\ sign_kind (Kind (tok 2 opTypeMinus "-")))
  /\ ~ digit_next (at_token "1 - 2" 3 (tok 2 opTypeMinus "-")).
Proof.
  assert (H1 : consumeToken 32 (at_token "1 - 2" 1 (tok 0 TokenInt "1"))
               = Done (None, at_token "1 - 2" 3 (tok 2 opTypeMinus "-")))
    by (vm_compute; reflexivity).
  assert (H2 : lastToken (at_token "1 - 2" 3 (tok 2 opTypeMinus "-"))
               = Some (tok 2 opTypeMinus "-")) by reflexivity.
  assert (H3 : sign_kind (Kind (tok 2 opTypeMinus "-"))) by (now right).
  split; [now repeat split|].
  exact (proj1 (parseExpr_signed_literal noCollaborators) 32%nat _ _ _ _
               H1 H2 H3).
Defined.

(** ** Peek/next agreement *)

(** When [peekToken] returns a token, the scanner is back in the state of
    the call. *)
Lemma peekToken_ok_restores (n : nat) (l : Lexer) (t : option Token)
    (l' : Lexer) :
  peekToken n l = Done (t, None, l') ->
  l' = l /\ exists l1, consumeToken n l = Done (None, l1) /\ lastToken l1 = t.
Proof.
  unfold peekToken. intros H.
  destruct (consumeToken n l) as [[e l1]| |] eqn:E; simpl in H;
    try discriminate.
  destruct e as [e|]; [discriminate|].
  injection H as <- <-. split; [|now exists l1].
  apply consumeToken_input in E.
  destruct l as [i c t]; destruct l1 as [i1 c1 t1]; simpl in *.
  unfold setCurrent, setLastToken; simpl. now subst.
Qed.

(** C10. Peek/next agreement: if [peekToken] succeeds and returns the token
    [t] (nil at the end of input), then [consumeToken], called next with at
    least as much fuel, succeeds too and caches a token equal to [t] in
    every field. *)
Theorem peek_next_agree (fuel : nat) (l : Lexer) (t : option Token)
    (l' : Lexer) :
  peekToken fuel l = Done (t, None, l') ->
  forall fuel', (fuel <= fuel')%nat ->
    exists l'', consumeToken fuel' l' = Done (None, l'') /\ lastToken l'' = t.
Proof.
  intros H fuel' Hfuel.
  destruct (peekToken_ok_restores _ _ _ _ H) as (-> & l1 & Hl1 & Ht).
  exists l1. split; [|exact Ht].
  exact (approx_Done _ _ _ (consumeToken_mono l fuel fuel' Hfuel) Hl1).
Qed.

Lemma peek_next_agree_witness :
  peekToken 32 (NewLexer "x = 1")
    = Done (Some {| TokPos := 0; TokEnd := 1; Kind := TokenIdent;
                    TokString := "x"; Base := 0; Unquoted := false |},
            None, NewLexer "x = 1")
  /\ exists l'',
       consumeToken 32 (NewLexer "x = 1") = Done (None, l'')
       /\ lastToken l'' = Some {| TokPos := 0; TokEnd := 1; Kind := TokenIdent;
                                  TokString := "x"; Base := 0;
                                  Unquoted := false |}.
Proof.
  assert (H : peekToken 32 (NewLexer "x = 1")
              = Done (Some {| TokPos := 0; TokEnd := 1; Kind := TokenIdent;
                              TokString := "x"; Base := 0; Unquoted := false |},
                      None, NewLexer "x = 1")) by (vm_compute; reflexivity).
  split; [exact H|].
  exact (peek_next_agree 32 _ _ _ H 32 (le_n 32)).
Defined.

(** * More of the scanner *)

(** The rest of the development goes through the scanner method by method:
    what each kind of text is scanned as (strings, words, quoted
    identifiers, numbers, white space, comments, two-byte tokens); what
    every call keeps (the cursor in range, the span and the kind of each
    token); that the scanner returns.  It ends with what the grammar keeps
    of the scanner, chains of operators, and the methods of the grammar that
    consume a token twice or read the lookahead without a test. *)

(** ** A scanner in the middle of its input *)

(** The scanner over [pre ++ s] with the cursor after [pre], the cached
    token [lt]. *)
Definition scanner_at (pre s : string) (lt : option Token) : Lexer :=
  {| input := pre ++ s; current := len pre; lastToken := lt |}.

(** The length of the longest prefix of [s] whose bytes all satisfy [P]. *)
Fixpoint run (P : byte -> bool) (s : string) : nat :=
  match s with
  | String c r => if P c then S (run P r) else O
  | EmptyString => O
  end.

(** The first byte of [s], if any, does not satisfy [P]. *)
Definition stops (P : byte -> bool) (s : string) : bool :=
  match s with
  | String c _ => negb (P c)
  | EmptyString => true
  end.

Lemma append_assoc_s (a b c : string) :
  ((a ++ b) ++ c)%string = (a ++ (b ++ c))%string.
Proof. induction a as [|x a IH]; simpl; [reflexivity | now rewrite IH]. Qed.

(** Concatenations, nested to the right. *)
Ltac assoc_norm :=
  repeat first [ rewrite append_assoc_s | progress cbn [append] ].

Lemma append_empty_r (a : string) : (a ++ EmptyString)%string = a.
Proof. induction a as [|x a IH]; simpl; [reflexivity | now rewrite IH]. Qed.

Lemma get_shift (pre s : string) (n : nat) :
  String.get (String.length pre + n) (pre ++ s) = String.get n s.
Proof. induction pre as [|x pre IH]; simpl; [reflexivity | exact IH]. Qed.

Lemma index_at (pre s : string) (i : Z) :
  0 <= i -> index (pre ++ s) (len pre + i) = index s i.
Proof.
  intros Hi. unfold index, len.
  replace (0 <=? Z.of_nat (String.length pre) + i) with true
    by (symmetry; apply Z.leb_le; lia).
  replace (0 <=? i) with true by (symmetry; now apply Z.leb_le).
  replace (Z.to_nat (Z.of_nat (String.length pre) + i))
    with (String.length pre + Z.to_nat i)%nat by lia.
  now rewrite get_shift.
Qed.

Lemma substring_shift (pre s : string) (n m : nat) :
  substring (String.length pre + n) m (pre ++ s) = substring n m s.
Proof. induction pre as [|x pre IH]; simpl; [reflexivity | exact IH]. Qed.

Lemma substring_prefix (a b : string) :
  substring 0 (String.length a) (a ++ b) = a.
Proof.
  induction a as [|x a IH]; simpl; [now destruct b | now rewrite IH].
Qed.

(** [(pre ++ a ++ b)[len pre : len pre + len a]] is [a]. *)
Lemma substr_at (pre a b : string) :
  substr (pre ++ a ++ b) (len pre) (len pre + len a) = Done a.
Proof.
  unfold substr. pose proof (len_nonneg pre). pose proof (len_nonneg a).
  pose proof (len_nonneg b).
  replace ((0 <=? len pre) && (len pre <=? len pre + len a)
           && (len pre + len a <=? len (pre ++ a ++ b))) with true
    by (symmetry; rewrite !andb_true_iff, !Z.leb_le, !len_append; lia).
  unfold len.
  replace (Z.to_nat (Z.of_nat (String.length pre)))
    with (String.length pre + 0)%nat by lia.
  replace (Z.to_nat (Z.of_nat (String.length pre) + Z.of_nat (String.length a)
                     - Z.of_nat (String.length pre)))
    with (String.length a) by lia.
  now rewrite substring_shift, substring_prefix.
Qed.

(** Lengths of concatenations, as sums. *)
Ltac len_norm :=
  repeat first [ rewrite len_append | rewrite len_String
               | progress change (len EmptyString) with 0 ].

Ltac len_norm_in H :=
  repeat first [ rewrite len_append in H | rewrite len_String in H
               | progress change (len EmptyString) with 0 in H ].

(** Removes the wrap-around from the additions that stay in range. *)
Ltac addi_simpl :=
  repeat match goal with
         | |- context [addi ?a ?b] => rewrite (addi_small a b) by lia
         end.

Section At.

Variables (pre s : string) (lt : option Token).
Hypothesis Hlen : len (pre ++ s) < 2 ^ 62.

Lemma peekOk_at (i : Z) :
  0 <= i <= 2 ^ 62 -> peekOk (scanner_at pre s lt) i = (i <? len s).
Proof.
  intros Hi. unfold peekOk, scanner_at. cbn [current input].
  pose proof (len_nonneg pre). pose proof (len_nonneg s).
  rewrite len_append in *. rewrite addi_small by lia.
  destruct (Z.ltb_spec i (len s)); [apply Z.ltb_lt | apply Z.ltb_ge]; lia.
Qed.

Lemma peekN_at (i : Z) :
  0 <= i <= 2 ^ 62 -> peekN (scanner_at pre s lt) i = index s i.
Proof.
  intros Hi. unfold peekN, scanner_at. cbn [current input].
  pose proof (len_nonneg pre). pose proof (len_nonneg s).
  rewrite len_append in *. rewrite addi_small by lia.
  apply index_at. lia.
Qed.

End At.

Lemma index_0 (c : byte) (s : string) : index (String c s) 0 = Done c.
Proof. reflexivity. Qed.

Lemma index_len (a : string) (c : byte) (b : string) :
  index (a ++ String c b) (len a) = Done c.
Proof. apply index_append. Qed.

(** [slice] of a scanner in the middle of its input. *)
Lemma slice_at (pre a b rest : string) (lt : option Token) :
  len (pre ++ a ++ b ++ rest) < 2 ^ 62 ->
  slice (scanner_at pre (a ++ b ++ rest) lt) (len a) (len a + len b) = Done b.
Proof.
  intros Hlen. unfold slice, scanner_at. cbn [current input].
  pose proof (len_nonneg pre). pose proof (len_nonneg a).
  pose proof (len_nonneg b). pose proof (len_nonneg rest).
  rewrite !len_append in Hlen.
  rewrite !addi_small by lia.
  rewrite <- (append_assoc_s pre a).
  replace (len pre + len a) with (len (pre ++ a)) by apply len_append.
  replace (len (pre ++ a) + len b) with (len (pre ++ a) + len b) by lia.
  rewrite Z.add_assoc. rewrite <- len_append.
  apply substr_at.
Qed.

Lemma run_all (P : byte -> bool) (a b : string) :
  all_bytes P a = true -> stops P b = true ->
  run P (a ++ b) = String.length a.
Proof.
  intros Ha Hb. induction a as [|c a IH]; simpl in *.
  - destruct b as [|d b]; [reflexivity|]. simpl in Hb |- *.
    destruct (P d); [discriminate Hb | reflexivity].
  - apply andb_true_iff in Ha as [Hc Ha]. rewrite Hc. f_equal. now apply IH.
Qed.

Lemma all_bytes_ext (P Q : byte -> bool) (s : string) :
  (forall c, P c = Q c) -> all_bytes P s = all_bytes Q s.
Proof.
  intros H. induction s as [|c s IH]; simpl; [reflexivity|].
  now rewrite H, IH.
Qed.

Lemma run_whole (P : byte -> bool) (a : string) :
  all_bytes P a = true -> run P a = String.length a.
Proof.
  intros Ha. rewrite <- (append_empty_r a) at 1. now apply run_all.
Qed.

(** The loop [for l.peekOk(i) && P(l.peekN(i)) { i++ }] runs over the
    bytes that satisfy [P]. *)
Lemma scan_while_at (P : byte -> bool) (lt : option Token) (todo : string) :
  forall (done pre : string) (fuel : nat),
    len (pre ++ done ++ todo) < 2 ^ 62 ->
    (run P todo < fuel)%nat ->
    scan_while fuel (scanner_at pre (done ++ todo) lt) P (len done)
    = Done (len done + Z.of_nat (run P todo)).
Proof.
  induction todo as [|c todo IH]; intros done pre fuel Hlen Hfuel;
    (destruct fuel as [|fuel]; [simpl in Hfuel; lia|]);
    pose proof (len_nonneg pre); pose proof (len_nonneg done);
    cbn [scan_while].
  - assert (Hl : len done + len pre < 2 ^ 62).
    { rewrite !len_append in Hlen. change (len EmptyString) with 0 in Hlen. lia. }
    rewrite peekOk_at; [|exact Hlen|lia].
    rewrite append_empty_r, Z.ltb_irrefl. cbn. now rewrite Z.add_0_r.
  - pose proof (len_nonneg todo).
    assert (Hl : len done + len todo + 1 + len pre < 2 ^ 62)
      by (rewrite !len_append, len_String in Hlen; lia).
    rewrite peekOk_at; [|exact Hlen|lia].
    replace (len done <? len (done ++ String c todo)) with true
      by (symmetry; apply Z.ltb_lt; rewrite len_append, len_String; lia).
    unfold peekHas. rewrite peekN_at; [|exact Hlen|lia].
    rewrite index_len. cbn [and_then bind run].
    destruct (P c) eqn:Hc; [|now rewrite Z.add_0_r].
    rewrite addi_small by lia.
    replace (len done + 1) with (len (done ++ String c EmptyString))
      by (rewrite len_append, len_String; reflexivity).
    rewrite (append_String_assoc done c todo).
    rewrite IH.
    + f_equal. rewrite len_append, len_String. change (len EmptyString) with 0.
      lia.
    + now rewrite <- append_String_assoc.
    + simpl in Hfuel. rewrite Hc in Hfuel. lia.
Qed.

(** ** Where a token starts *)

Lemma substr_rest (pre s : string) :
  substr (pre ++ s) (len pre) (len (pre ++ s)) = Done s.
Proof.
  pose proof (substr_at pre s EmptyString) as H.
  rewrite append_empty_r in H. now rewrite len_append.
Qed.

Lemma isEOF_at (pre : string) (c : byte) (s : string) (lt : option Token) :
  isEOF (scanner_at pre (String c s) lt) = false.
Proof.
  unfold isEOF, scanner_at. cbn [current input].
  rewrite Z.geb_leb. apply Z.leb_gt. rewrite len_append, len_String.
  pose proof (len_nonneg s). lia.
Qed.

(** No space is skipped before an ASCII byte that is no space. *)
Lemma skipSpace_at (fuel : nat) (pre : string) (c : byte) (s : string)
    (lt : option Token) :
  code c < 128 -> IsSpace (code c) = false ->
  skipSpace (S fuel) (scanner_at pre (String c s) lt)
  = Done (scanner_at pre (String c s) lt).
Proof.
  intros Hc Hs. cbn [skipSpace]. rewrite isEOF_at. cbn [negb].
  unfold scanner_at at 1 2 3. cbn [input current].
  rewrite substr_rest. cbn [bind]. unfold DecodeRuneInString.
  replace (code c <? 128) with true by (symmetry; now apply Z.ltb_lt).
  now rewrite Hs.
Qed.

(** No comment is skipped before a byte that is none of [-], [/], CR, LF. *)
Lemma skipComments_at (fuel : nat) (pre : string) (c : byte) (s : string)
    (lt : option Token) :
  len (pre ++ String c s) < 2 ^ 62 ->
  Ascii.eqb c "-" = false -> Ascii.eqb c "/" = false ->
  Ascii.eqb c "013" = false -> Ascii.eqb c "010" = false ->
  skipComments (S fuel) (scanner_at pre (String c s) lt)
  = Done (scanner_at pre (String c s) lt).
Proof.
  intros Hlen H1 H2 H3 H4. cbn [skipComments]. rewrite isEOF_at. cbn [negb].
  rewrite peekN_at by (exact Hlen || lia). rewrite index_0. cbn [bind].
  now rewrite H1, H2, H3, H4.
Qed.

(** The byte [c] under the cursor starts a token: [consumeToken] skips
    nothing and reads [c]. *)
Definition token_start (c : byte) : bool :=
  (code c <? 128) && negb (IsSpace (code c))
  && negb (Ascii.eqb c "-") && negb (Ascii.eqb c "/").

Lemma token_start_inv (c : byte) :
  token_start c = true ->
  code c < 128 /\ IsSpace (code c) = false
  /\ Ascii.eqb c "-" = false /\ Ascii.eqb c "/" = false
  /\ Ascii.eqb c "013" = false /\ Ascii.eqb c "010" = false.
Proof.
  unfold token_start. rewrite !andb_true_iff, !negb_true_iff, Z.ltb_lt.
  intros [[[H1 H2] H3] H4]. repeat split; try assumption.
  - destruct (Ascii.eqb_spec c "013") as [-> |]; [discriminate H2 | reflexivity].
  - destruct (Ascii.eqb_spec c "010") as [-> |]; [discriminate H2 | reflexivity].
Qed.

Lemma setLastToken_at (pre s : string) (lt lt' : option Token) :
  setLastToken (scanner_at pre s lt) lt' = scanner_at pre s lt'.
Proof. reflexivity. Qed.

(** Brings [consumeToken] on a scanner whose next byte [c] starts a token
    to the [switch] on [c]. *)
Ltac enter_token Hlen Hstart :=
  let H1 := fresh in let H2 := fresh in let H3 := fresh in
  let H4 := fresh in let H5 := fresh in let H6 := fresh in
  destruct (token_start_inv _ Hstart) as (H1 & H2 & H3 & H4 & H5 & H6);
  unfold consumeToken;
  rewrite skipSpace_at by assumption; cbn [bind];
  rewrite setLastToken_at;
  rewrite skipComments_at by assumption; cbn [bind];
  rewrite skipSpace_at by assumption; cbn [bind];
  rewrite isEOF_at;
  rewrite peekN_at by (exact Hlen || lia); rewrite index_0; cbn [bind];
  clear H1 H2 H3 H4 H5 H6.

(** ** String literals *)

(** The byte that closes a string literal. *)
Definition quote (isSingleQuote : bool) : byte :=
  if isSingleQuote then "'"%char else "034"%char.

Definition differs (q : byte) (c : byte) : bool := negb (Ascii.eqb c q).

(** The body of [consumeString] once the closing byte [q] is chosen. *)
Lemma consumeString_S (fuel : nat) (l : Lexer) (isSingleQuote : bool) :
  consumeString fuel l isSingleQuote
  = (i <- scan_while fuel l (differs (quote isSingleQuote)) 1 ;;
     if negb (peekOk l i) then Done (Some errInvalidString, l)
     else
       s <- slice l 1 i ;;
       Done (None,
             skipN (setLastToken l (Some {|
                      Kind := TokenString; TokString := s;
                      TokPos := addi (current l) 1;
                      TokEnd := addi (current l) i;
                      Base := 0; Unquoted := false |})) (addi i 1))).
Proof. reflexivity. Qed.

Lemma consumeString_closed (isSingleQuote : bool) (pre body rest : string)
    (lt : option Token) (fuel : nat) :
  all_bytes (differs (quote isSingleQuote)) body = true ->
  len (pre ++ String (quote isSingleQuote)
                (body ++ String (quote isSingleQuote) rest)) < 2 ^ 62 ->
  (String.length body < fuel)%nat ->
  consumeString fuel
    (scanner_at pre (String (quote isSingleQuote)
                       (body ++ String (quote isSingleQuote) rest)) lt)
    isSingleQuote
  = Done (None,
          {| input := pre ++ String (quote isSingleQuote)
                        (body ++ String (quote isSingleQuote) rest);
             current := len pre + len body + 2;
             lastToken := Some (tok (len pre + 1) TokenString body) |}).
Proof.
  intros Hbody Hlen Hfuel. rewrite consumeString_S.
  set (q := quote isSingleQuote) in *.
  pose proof (len_nonneg pre). pose proof (len_nonneg body).
  pose proof (len_nonneg rest).
  assert (Hl : len pre + len body + len rest + 2 < 2 ^ 62).
  { rewrite len_append, len_String, len_append, len_String in Hlen. lia. }
  pose proof (scan_while_at (differs q) lt (body ++ String q rest)
                (String q EmptyString) pre fuel) as Hscan.
  cbn [append] in Hscan. change (len (String q EmptyString)) with 1 in Hscan.
  rewrite run_all in Hscan;
    [|exact Hbody|unfold stops, differs; now rewrite Ascii.eqb_refl].
  rewrite Hscan by (exact Hlen || lia).
  cbn [bind]. fold (len body).
  rewrite peekOk_at by (exact Hlen || lia).
  replace (1 + len body <? len (String q (body ++ String q rest))) with true
    by (symmetry; apply Z.ltb_lt; rewrite len_String, len_append, len_String;
        lia).
  cbn [negb].
  pose proof (slice_at pre (String q EmptyString) body (String q rest) lt) as Hs.
  cbn [append] in Hs. change (len (String q EmptyString)) with 1 in Hs.
  rewrite Hs by exact Hlen. cbn [bind].
  unfold skipN, setLastToken, setCurrent, scanner_at, tok.
  cbn [input current lastToken].
  addi_simpl. do 3 f_equal; [lia|]. do 2 f_equal. lia.
Qed.

(** Decides the tests of the [switch] of [consumeToken] on a known byte. *)
Ltac dispatch :=
  repeat match goal with
         | |- (if ?b then _ else _) = _ =>
           let v := eval vm_compute in b in
           change b with v; cbv iota
         end.

Lemma consumeString_open (isSingleQuote : bool) (pre body : string)
    (lt : option Token) (fuel : nat) :
  all_bytes (differs (quote isSingleQuote)) body = true ->
  len (pre ++ String (quote isSingleQuote) body) < 2 ^ 62 ->
  (String.length body < fuel)%nat ->
  consumeString fuel
    (scanner_at pre (String (quote isSingleQuote) body) lt) isSingleQuote
  = Done (Some errInvalidString,
          scanner_at pre (String (quote isSingleQuote) body) lt).
Proof.
  intros Hbody Hlen Hfuel. rewrite consumeString_S.
  set (q := quote isSingleQuote) in *.
  pose proof (len_nonneg pre). pose proof (len_nonneg body).
  assert (Hl : len pre + len body + 1 < 2 ^ 62).
  { rewrite len_append, len_String in Hlen. lia. }
  pose proof (scan_while_at (differs q) lt body (String q EmptyString) pre fuel)
    as Hscan.
  cbn [append] in Hscan. change (len (String q EmptyString)) with 1 in Hscan.
  rewrite run_whole in Hscan by exact Hbody.
  rewrite Hscan by (exact Hlen || lia).
  cbn [bind]. fold (len body).
  rewrite peekOk_at by (exact Hlen || lia).
  replace (1 + len body <? len (String q body)) with false
    by (symmetry; apply Z.ltb_ge; rewrite len_String; lia).
  reflexivity.
Qed.

(** X1. A string literal runs from its opening quote to the next quote of
    the same kind, whatever bytes lie between (a backslash does not escape
    a quote).  Anywhere in the input, scanning ['body'] or ["body"] returns
    one token of kind [<string>] whose text is [body] and whose span is the
    text between the quotes, and leaves the cursor after the closing
    quote. *)
Theorem string_literal_scanned (isSingleQuote : bool)
    (pre body rest : string) (lt : option Token) (fuel : nat) :
  all_bytes (differs (quote isSingleQuote)) body = true ->
  len (pre ++ String (quote isSingleQuote)
                (body ++ String (quote isSingleQuote) rest)) < 2 ^ 62 ->
  (String.length body + 1 < fuel)%nat ->
  consumeToken fuel
    (scanner_at pre (String (quote isSingleQuote)
                       (body ++ String (quote isSingleQuote) rest)) lt)
  = Done (None,
          {| input := pre ++ String (quote isSingleQuote)
                        (body ++ String (quote isSingleQuote) rest);
             current := len pre + len body + 2;
             lastToken := Some (tok (len pre + 1) TokenString body) |}).
Proof.
  intros Hbody Hlen Hfuel.
  destruct fuel as [|fuel]; [lia|].
  assert (Hstart : token_start (quote isSingleQuote) = true)
    by (now destruct isSingleQuote).
  enter_token Hlen Hstart.
  rewrite <- (consumeString_closed isSingleQuote pre body rest None (S fuel))
    by (assumption || lia).
  destruct isSingleQuote; cbn [quote]; dispatch; reflexivity.
Qed.

(** The text [it\'s'] after [x = ']: the literal ends at the quote that
    follows the backslash. *)
Lemma string_literal_scanned_witness :
  let body := String "i" (String "t" (String "092" EmptyString)) in
  (all_bytes (differs (quote true)) body = true
   /\ len ("x = " ++ String (quote true) (body ++ String (quote true) "s'"))
      < 2 ^ 62
   /\ (String.length body + 1 < 8)%nat)
  /\ consumeToken 8 (scanner_at "x = "
                       (String (quote true) (body ++ String (quote true) "s'"))
                       None)
     = Done (None,
             {| input := "x = " ++ String (quote true)
                                    (body ++ String (quote true) "s'");
                current := len "x = " + len body + 2;
                lastToken := Some (tok (len "x = " + 1) TokenString body) |}).
Proof.
  intros body.
  assert (H1 : all_bytes (differs (quote true)) body = true) by reflexivity.
  assert (H2 : len ("x = " ++ String (quote true)
                               (body ++ String (quote true) "s'")) < 2 ^ 62)
    by (vm_compute; reflexivity).
  assert (H3 : (String.length body + 1 < 8)%nat) by (simpl; lia).
  split; [now repeat split|].
  exact (string_literal_scanned true "x = " body "s'" None 8 H1 H2 H3).
Defined.

(** X2. A string literal that is not closed before the end of the input is
    the error "invalid string": the scanner stays at the opening quote and
    caches no token. *)
Theorem unterminated_string_rejected (isSingleQuote : bool)
    (pre body : string) (lt : option Token) (fuel : nat) :
  all_bytes (differs (quote isSingleQuote)) body = true ->
  len (pre ++ String (quote isSingleQuote) body) < 2 ^ 62 ->
  (String.length body + 1 < fuel)%nat ->
  consumeToken fuel (scanner_at pre (String (quote isSingleQuote) body) lt)
  = Done (Some errInvalidString,
          scanner_at pre (String (quote isSingleQuote) body) None).
Proof.
  intros Hbody Hlen Hfuel.
  destruct fuel as [|fuel]; [lia|].
  assert (Hstart : token_start (quote isSingleQuote) = true)
    by (now destruct isSingleQuote).
  enter_token Hlen Hstart.
  rewrite <- (consumeString_open isSingleQuote pre body None (S fuel))
    by (assumption || lia).
  destruct isSingleQuote; cbn [quote]; dispatch; reflexivity.
Qed.

Lemma unterminated_string_rejected_witness :
  (all_bytes (differs (quote false)) "abc" = true
   /\ len ("f(" ++ String (quote false) "abc") < 2 ^ 62
   /\ (String.length "abc" + 1 < 8)%nat)
  /\ consumeToken 8 (scanner_at "f(" (String (quote false) "abc")
                       (Some (tok 1 "(" "(")))
     = Done (Some errInvalidString,
             scanner_at "f(" (String (quote false) "abc") None).
Proof.
  assert (H1 : all_bytes (differs (quote false)) "abc" = true) by reflexivity.
  assert (H2 : len ("f(" ++ String (quote false) "abc") < 2 ^ 62)
    by (vm_compute; reflexivity).
  assert (H3 : (String.length "abc" + 1 < 8)%nat) by (simpl; lia).
  split; [now repeat split|].
  exact (unterminated_string_rejected false "f(" "abc" _ 8 H1 H2 H3).
Defined.

(** ** Identifiers and keywords *)

Lemma skipN_at (pre a b : string) (lt : option Token) :
  len (pre ++ a ++ b) < 2 ^ 62 ->
  skipN (scanner_at pre (a ++ b) lt) (len a) = scanner_at (pre ++ a) b lt.
Proof.
  intros Hlen. unfold skipN, setCurrent, scanner_at. cbn [input current lastToken].
  pose proof (len_nonneg pre). pose proof (len_nonneg a). pose proof (len_nonneg b).
  rewrite !len_append in Hlen. rewrite addi_small by lia.
  now rewrite append_assoc_s, len_append.
Qed.

Lemma IsIdentStart_code (c : byte) :
  IsIdentStart c = true ->
  97 <= code c <= 122 \/ 65 <= code c <= 90 \/ code c = 95.
Proof.
  unfold IsIdentStart. rewrite !orb_true_iff, !andb_true_iff, !Z.leb_le, Z.eqb_eq.
  tauto.
Qed.

Lemma IsIdentStart_no_digit (c : byte) : IsIdentStart c = true -> IsDigit c = false.
Proof.
  intros H. apply IsIdentStart_code in H. unfold IsDigit.
  apply andb_false_iff. rewrite !Z.leb_gt. lia.
Qed.

Lemma IsIdentStart_part (c : byte) : IsIdentStart c = true -> IsIdentPart c = true.
Proof. intros H. unfold IsIdentPart. now rewrite H. Qed.

Lemma IsIdentStart_token_start (c : byte) :
  IsIdentStart c = true -> token_start c = true.
Proof.
  intros H. unfold token_start.
  not_that_byte IsIdentStart H.
  apply IsIdentStart_code in H.
  replace (code c <? 128) with true by (symmetry; apply Z.ltb_lt; lia).
  unfold IsSpace, memZ. simpl existsb.
  replace (code c <=? 255) with true by (symmetry; apply Z.leb_le; lia).
  repeat (rewrite (proj2 (Z.eqb_neq (code c) _)) by lia). reflexivity.
Qed.

(** The token of an identifier or keyword read without quotes. *)
Definition word_token (pos : Pos) (w : string) : Token :=
  {| TokPos := pos; TokEnd := pos + len w;
     Kind := if isKeyword (ToUpper w) then TokenKeyword else TokenIdent;
     TokString := w; Base := 0; Unquoted := false |}.

Lemma consumeIdent_word (pre : string) (c : byte) (w rest : string)
    (lt : option Token) (fuel : nat) :
  IsIdentStart c = true -> all_bytes IsIdentPart w = true ->
  stops IsIdentPart rest = true ->
  len (pre ++ String c w ++ rest) < 2 ^ 62 ->
  (String.length w + 1 < fuel)%nat ->
  consumeIdent fuel (scanner_at pre (String c w ++ rest) lt)
  = Done (None,
          {| input := pre ++ String c w ++ rest;
             current := len pre + len (String c w);
             lastToken := Some (word_token (len pre) (String c w)) |}).
Proof.
  intros Hc Hw Hrest Hlen Hfuel.
  pose proof (len_nonneg pre). pose proof (len_nonneg w).
  pose proof (len_nonneg rest).
  assert (Hl : len pre + len w + len rest + 1 < 2 ^ 62).
  { rewrite len_append, len_append, len_String in Hlen. lia. }
  unfold consumeIdent.
  rewrite peekOk_at by (exact Hlen || lia).
  unfold peekIs. rewrite peekN_at by (exact Hlen || lia).
  cbn [append]. rewrite index_0. cbn [and_then bind].
  not_that_byte IsIdentStart Hc.
  destruct (0 <? len (String c (w ++ rest))); cbn [bind negb].
  all: rewrite peekN_at by (exact Hlen || lia); rewrite index_0; cbn [bind].
  all: not_that_byte IsIdentStart Hc.
  all: assert (Hrun : run IsIdentPart (String c (w ++ rest))
                      = String.length (String c w))
         by (apply (run_all IsIdentPart (String c w) rest);
             [simpl; now rewrite (IsIdentStart_part c Hc) | exact Hrest]).
  all: pose proof (scan_while_at IsIdentPart lt (String c (w ++ rest))
                     EmptyString pre fuel) as Hscan.
  all: rewrite Hrun in Hscan.
  all: cbn [append] in Hscan; change (len EmptyString) with 0 in Hscan.
  all: rewrite Hscan by (exact Hlen || simpl; lia); cbn [bind].
  all: pose proof (slice_at pre EmptyString (String c w) rest lt) as Hs.
  all: cbn [append] in Hs; change (len EmptyString) with 0 in Hs.
  all: change (Z.of_nat (String.length (String c w))) with (len (String c w)).
  all: rewrite Hs by exact Hlen; cbn [bind andb negb].
  all: unfold skipN, setLastToken, setCurrent, scanner_at, word_token.
  all: cbn [input current lastToken].
  all: rewrite len_String; addi_simpl; rewrite ?Z.add_0_l.
  all: destruct (isKeyword (ToUpper (String c w))); reflexivity.
Qed.

(** X3. A word (a letter or [_], then letters, digits and [_]) is scanned as
    one token up to the first byte that cannot continue it.  The token is a
    keyword exactly when the upper-cased word is in the keyword table, and
    an identifier otherwise; its text is the word as written, case kept. *)
Theorem word_scanned (pre : string) (c : byte) (w rest : string)
    (lt : option Token) (fuel : nat) :
  IsIdentStart c = true -> all_bytes IsIdentPart w = true ->
  stops IsIdentPart rest = true ->
  len (pre ++ String c w ++ rest) < 2 ^ 62 ->
  (String.length w + 2 < fuel)%nat ->
  consumeToken fuel (scanner_at pre (String c w ++ rest) lt)
  = Done (None,
          {| input := pre ++ String c w ++ rest;
             current := len pre + len (String c w);
             lastToken := Some (word_token (len pre) (String c w)) |}).
Proof.
  intros Hc Hw Hrest Hlen Hfuel.
  destruct fuel as [|fuel]; [lia|].
  pose proof (IsIdentStart_token_start c Hc) as Hstart.
  cbn [append] in *.
  enter_token Hlen Hstart.
  pose proof (consumeIdent_word pre c w rest None (S fuel) Hc Hw Hrest Hlen
                ltac:(lia)) as Hid.
  cbn [append] in Hid. rewrite <- Hid.
  not_that_byte IsIdentStart Hc. cbn [orb].
  rewrite (IsIdentStart_no_digit c Hc).
  unfold consumeToken_tail, scanner_at at 1. cbn [lastToken].
  unfold consumeToken_emit, peekHas.
  rewrite peekN_at by (exact Hlen || lia). rewrite index_0. cbn [bind].
  now rewrite Hc.
Qed.

Lemma word_scanned_witness :
  (IsIdentStart "S"%char = true /\ all_bytes IsIdentPart "elect" = true
   /\ stops IsIdentPart " 1" = true
   /\ len ("(" ++ "Select" ++ " 1") < 2 ^ 62
   /\ (String.length "elect" + 2 < 8)%nat)
  /\ consumeToken 8 (scanner_at "(" ("Select" ++ " 1") None)
     = Done (None,
             {| input := "(" ++ "Select" ++ " 1";
                current := len "(" + len "Select";
                lastToken := Some (word_token (len "(") "Select") |}).
Proof.
  assert (H1 : IsIdentStart "S"%char = true) by reflexivity.
  assert (H2 : all_bytes IsIdentPart "elect" = true) by reflexivity.
  assert (H3 : stops IsIdentPart " 1" = true) by reflexivity.
  assert (H4 : len ("(" ++ "Select" ++ " 1") < 2 ^ 62)
    by (vm_compute; reflexivity).
  assert (H5 : (String.length "elect" + 2 < 8)%nat) by (simpl; lia).
  split; [now repeat split|].
  exact (word_scanned "(" "S"%char "elect" " 1" None 8 H1 H2 H3 H4 H5).
Defined.

(** *** Identifiers between backticks *)

Definition backtick : byte := "`"%char.

(** The body of [consumeIdent] on an opening backtick. *)
Lemma consumeIdent_backtick (fuel : nat) (l : Lexer) :
  peekOk l 0 = true -> peekN l 0 = Done backtick ->
  consumeIdent fuel l
  = (let l := skipN l 1 in
     i <- scan_while fuel l (differs backtick) 0 ;;
     bad <- Done (negb (peekOk l i)) ||| notb (peekIs l i backtick) ;;
     if bad then s <- slice l 0 i ;; Done (Some (errUnclosedQuotedIdent s), l)
     else
       s <- slice l 0 i ;;
       Done (None,
             skipN (skipN (setLastToken l (Some {|
                      Kind := TokenIdent; TokPos := current l;
                      TokEnd := addi (current l) i; TokString := s;
                      Base := 0; Unquoted := true |})) i) 1)).
Proof.
  intros Hok Hc. unfold consumeIdent, peekIs at 1. rewrite Hok, Hc.
  cbn [and_then bind]. change (Ascii.eqb backtick "`"%char) with true.
  cbv iota. cbn [negb andb].
  change (fun c : byte => negb (Ascii.eqb c "`")) with (differs backtick).
  destruct (scan_while _ _ _ _) as [i| |]; cbn [bind]; try reflexivity.
  destruct (or_else _ _) as [[|]| |]; cbn [bind]; try reflexivity.
  destruct (slice _ _ _); reflexivity.
Qed.

(** The token of an identifier read between backticks. *)
Definition quoted_token (pos : Pos) (body : string) : Token :=
  {| TokPos := pos; TokEnd := pos + len body; Kind := TokenIdent;
     TokString := body; Base := 0; Unquoted := true |}.

Lemma skip_backtick (pre s : string) (lt : option Token) :
  len (pre ++ String backtick s) < 2 ^ 62 ->
  skipN (scanner_at pre (String backtick s) lt) 1
  = scanner_at (pre ++ String backtick EmptyString) s lt.
Proof.
  intros Hlen.
  exact (skipN_at pre (String backtick EmptyString) s lt Hlen).
Qed.

Lemma consumeIdent_quoted (pre body rest : string) (lt : option Token)
    (fuel : nat) :
  all_bytes (differs backtick) body = true ->
  len (pre ++ String backtick (body ++ String backtick rest)) < 2 ^ 62 ->
  (String.length body < fuel)%nat ->
  consumeIdent fuel
    (scanner_at pre (String backtick (body ++ String backtick rest)) lt)
  = Done (None,
          {| input := pre ++ String backtick (body ++ String backtick rest);
             current := len pre + len body + 2;
             lastToken := Some (quoted_token (len pre + 1) body) |}).
Proof.
  intros Hbody Hlen Hfuel.
  pose proof (len_nonneg pre). pose proof (len_nonneg body).
  pose proof (len_nonneg rest).
  assert (Hl : len pre + len body + len rest + 2 < 2 ^ 62).
  { rewrite len_append, len_String, len_append, len_String in Hlen. lia. }
  rewrite consumeIdent_backtick;
    [|rewrite peekOk_at by (exact Hlen || lia); apply Z.ltb_lt;
      rewrite len_String, len_append, len_String; lia
     |rewrite peekN_at by (exact Hlen || lia); reflexivity].
  cbv zeta. rewrite skip_backtick by exact Hlen.
  set (pre' := (pre ++ String backtick EmptyString)%string).
  assert (Hpre : len pre' = len pre + 1)
    by (unfold pre'; rewrite len_append; reflexivity).
  assert (Hin : (pre' ++ body ++ String backtick rest)%string
                = (pre ++ String backtick (body ++ String backtick rest))%string)
    by (unfold pre'; now rewrite <- append_String_assoc).
  assert (Hlen' : len (pre' ++ body ++ String backtick rest) < 2 ^ 62)
    by (now rewrite Hin).
  pose proof (scan_while_at (differs backtick) lt (body ++ String backtick rest)
                EmptyString pre' fuel) as Hscan.
  cbn [append] in Hscan. change (len EmptyString) with 0 in Hscan.
  rewrite run_all in Hscan; [|exact Hbody|reflexivity].
  rewrite Hscan by (exact Hlen' || lia). cbn [bind]. fold (len body).
  rewrite Z.add_0_l.
  rewrite peekOk_at by (exact Hlen' || lia).
  replace (len body <? len (body ++ String backtick rest)) with true
    by (symmetry; apply Z.ltb_lt; rewrite len_append, len_String; lia).
  unfold peekIs. rewrite peekN_at by (exact Hlen' || lia).
  rewrite index_len. cbn [or_else notb bind negb].
  change (Ascii.eqb backtick backtick) with true. cbn [bind negb].
  pose proof (slice_at pre' EmptyString body (String backtick rest) lt) as Hs.
  cbn [append] in Hs. change (len EmptyString) with 0 in Hs.
  rewrite Z.add_0_l in Hs. rewrite Hs by exact Hlen'. cbn [bind].
  unfold skipN, setLastToken, setCurrent, scanner_at, quoted_token.
  cbn [input current lastToken]. rewrite Hin, Hpre.
  addi_simpl. do 3 f_equal. lia.
Qed.

Lemma consumeIdent_unclosed (pre body : string) (lt : option Token)
    (fuel : nat) :
  all_bytes (differs backtick) body = true ->
  len (pre ++ String backtick body) < 2 ^ 62 ->
  (String.length body < fuel)%nat ->
  consumeIdent fuel (scanner_at pre (String backtick body) lt)
  = Done (Some (errUnclosedQuotedIdent body),
          {| input := pre ++ String backtick body;
             current := len pre + 1;
             lastToken := lt |}).
Proof.
  intros Hbody Hlen Hfuel.
  pose proof (len_nonneg pre). pose proof (len_nonneg body).
  assert (Hl : len pre + len body + 1 < 2 ^ 62).
  { rewrite len_append, len_String in Hlen. lia. }
  rewrite consumeIdent_backtick;
    [|rewrite peekOk_at by (exact Hlen || lia); apply Z.ltb_lt;
      rewrite len_String; lia
     |rewrite peekN_at by (exact Hlen || lia); reflexivity].
  cbv zeta. rewrite skip_backtick by exact Hlen.
  set (pre' := (pre ++ String backtick EmptyString)%string).
  assert (Hpre : len pre' = len pre + 1)
    by (unfold pre'; rewrite len_append; reflexivity).
  assert (Hin : (pre' ++ body)%string = (pre ++ String backtick body)%string)
    by (unfold pre'; now rewrite <- append_String_assoc).
  assert (Hlen' : len (pre' ++ body) < 2 ^ 62) by (now rewrite Hin).
  pose proof (scan_while_at (differs backtick) lt body EmptyString pre' fuel)
    as Hscan.
  cbn [append] in Hscan. change (len EmptyString) with 0 in Hscan.
  rewrite run_whole in Hscan by exact Hbody.
  rewrite Hscan by (exact Hlen' || lia). cbn [bind]. fold (len body).
  rewrite Z.add_0_l.
  rewrite peekOk_at by (exact Hlen' || lia).
  rewrite Z.ltb_irrefl. cbn [or_else bind negb].
  pose proof (slice_at pre' EmptyString body EmptyString lt) as Hs.
  cbn [append] in Hs. change (len EmptyString) with 0 in Hs.
  rewrite Z.add_0_l, append_empty_r in Hs. rewrite Hs by exact Hlen'.
  cbn [bind]. unfold scanner_at. now rewrite Hin, Hpre.
Qed.

(** X4. An identifier between backticks is scanned up to the closing
    backtick, whatever bytes lie between: the token is of kind [<ident>]
    with the flag [Unquoted] set, its text and span are the text between
    the backticks, and it is an identifier even when that text is a
    reserved word. *)
Theorem quoted_identifier_scanned (pre body rest : string)
    (lt : option Token) (fuel : nat) :
  all_bytes (differs backtick) body = true ->
  len (pre ++ String backtick (body ++ String backtick rest)) < 2 ^ 62 ->
  (String.length body + 1 < fuel)%nat ->
  consumeToken fuel
    (scanner_at pre (String backtick (body ++ String backtick rest)) lt)
  = Done (None,
          {| input := pre ++ String backtick (body ++ String backtick rest);
             current := len pre + len body + 2;
             lastToken := Some (quoted_token (len pre + 1) body) |}).
Proof.
  intros Hbody Hlen Hfuel.
  destruct fuel as [|fuel]; [lia|].
  assert (Hstart : token_start backtick = true) by reflexivity.
  enter_token Hlen Hstart.
  rewrite <- (consumeIdent_quoted pre body rest None (S fuel))
    by (assumption || lia).
  dispatch. reflexivity.
Qed.

Lemma quoted_identifier_scanned_witness :
  (all_bytes (differs backtick) "select" = true
   /\ len ("a." ++ String backtick ("select" ++ String backtick " b"))
      < 2 ^ 62
   /\ (String.length "select" + 1 < 8)%nat)
  /\ consumeToken 8
       (scanner_at "a." (String backtick ("select" ++ String backtick " b"))
                   None)
     = Done (None,
             {| input := "a." ++ String backtick
                                   ("select" ++ String backtick " b");
                current := len "a." + len "select" + 2;
                lastToken := Some (quoted_token (len "a." + 1) "select") |}).
Proof.
  assert (H1 : all_bytes (differs backtick) "select" = true) by reflexivity.
  assert (H2 : len ("a." ++ String backtick
                              ("select" ++ String backtick " b")) < 2 ^ 62)
    by (vm_compute; reflexivity).
  assert (H3 : (String.length "select" + 1 < 8)%nat) by (simpl; lia).
  split; [now repeat split|].
  exact (quoted_identifier_scanned "a." "select" " b" None 8 H1 H2 H3).
Defined.

(** X5. A backtick that is not closed before the end of the input is the
    error "unclosed quoted identifier", which carries the text after the
    backtick.  The scanner has by then stepped over the backtick: the cursor
    is left one byte further than where the call found it, and no token is
    cached. *)
Theorem unclosed_backtick_rejected (pre body : string) (lt : option Token)
    (fuel : nat) :
  all_bytes (differs backtick) body = true ->
  len (pre ++ String backtick body) < 2 ^ 62 ->
  (String.length body + 1 < fuel)%nat ->
  consumeToken fuel (scanner_at pre (String backtick body) lt)
  = Done (Some (errUnclosedQuotedIdent body),
          {| input := pre ++ String backtick body;
             current := len pre + 1;
             lastToken := None |}).
Proof.
  intros Hbody Hlen Hfuel.
  destruct fuel as [|fuel]; [lia|].
  assert (Hstart : token_start backtick = true) by reflexivity.
  enter_token Hlen Hstart.
  rewrite <- (consumeIdent_unclosed pre body None (S fuel))
    by (assumption || lia).
  dispatch. reflexivity.
Qed.

Lemma unclosed_backtick_rejected_witness :
  (all_bytes (differs backtick) "ab" = true
   /\ len ("x " ++ String backtick "ab") < 2 ^ 62
   /\ (String.length "ab" + 1 < 8)%nat)
  /\ consumeToken 8 (scanner_at "x " (String backtick "ab") None)
     = Done (Some (errUnclosedQuotedIdent "ab"),
             {| input := "x " ++ String backtick "ab";
                current := len "x " + 1;
                lastToken := None |}).
Proof.
  assert (H1 : all_bytes (differs backtick) "ab" = true) by reflexivity.
  assert (H2 : len ("x " ++ String backtick "ab") < 2 ^ 62)
    by (vm_compute; reflexivity).
  assert (H3 : (String.length "ab" + 1 < 8)%nat) by (simpl; lia).
  split; [now repeat split|].
  exact (unclosed_backtick_rejected "x " "ab" None 8 H1 H2 H3).
Defined.

(** ** Integer literals *)

Lemma eqb_outside (P : byte -> bool) (c d : byte) :
  P c = false -> P d = true -> Ascii.eqb c d = false.
Proof. intros Hc Hd. apply Ascii.eqb_neq. intros ->. congruence. Qed.

(** The byte [c] outside the class [P] (by [H]) is none of the bytes of [P]
    that the goal compares it with. *)
Ltac outside_byte P H :=
  repeat match goal with
         | |- context [Ascii.eqb ?c ?d] =>
           rewrite (eqb_outside P c d H (eq_refl true))
         end.

(** The digits of a literal in base [base]. *)
Definition digit_of (base : Z) (c : byte) : bool :=
  if base =? 16 then IsHexDigit c else IsDigit c.

(** A byte that can continue a number or an identifier. *)
Definition number_more (c : byte) : bool := IsIdentPart c || Ascii.eqb c ".".

Lemma IsHexDigit_part (c : byte) : IsHexDigit c = true -> IsIdentPart c = true.
Proof.
  unfold IsHexDigit, IsIdentPart, IsIdentStart, IsDigit.
  rewrite !orb_true_iff, !andb_true_iff, !Z.leb_le, Z.eqb_eq. lia.
Qed.

Lemma number_more_false (c : byte) :
  number_more c = false ->
  IsIdentPart c = false /\ IsDigit c = false /\ IsHexDigit c = false
  /\ Ascii.eqb c "." = false.
Proof.
  unfold number_more. rewrite orb_false_iff. intros [Hp Hd].
  repeat split; try assumption.
  - unfold IsIdentPart in Hp. apply orb_false_iff in Hp. tauto.
  - destruct (IsHexDigit c) eqn:E; [|reflexivity].
    apply IsHexDigit_part in E. congruence.
Qed.

(** One more byte is seen by the digit loop. *)
Definition seen (s : string) (hasNum : bool) : bool :=
  match s with
  | EmptyString => hasNum
  | _ => true
  end.

(** The digit loop of [consumeNumber] runs over the digits [todo]. *)
Lemma consumeNumber_loop_run (base : Z) (lt : option Token) (rest : string)
    (todo : string) :
  base = 10 \/ base = 16 ->
  forall (done pre : string) (n : nat) (hasExp : bool) (kind : TokenKind)
         (hasNum : bool),
    all_bytes (digit_of base) todo = true ->
    len (pre ++ done ++ todo ++ rest) < 2 ^ 62 ->
    consumeNumber_loop (String.length todo + n)
      (scanner_at pre (done ++ todo ++ rest) lt)
      base (len done) hasExp kind hasNum
    = consumeNumber_loop n (scanner_at pre (done ++ todo ++ rest) lt)
        base (len done + len todo) hasExp kind (seen todo hasNum).
Proof.
  intros Hbase.
  induction todo as [|c todo IH];
    intros done pre n hasExp kind hasNum Hall Hlen.
  - cbn [String.length Nat.add seen]. change (len EmptyString) with 0.
    now rewrite Z.add_0_r.
  - pose proof (len_nonneg pre). pose proof (len_nonneg done).
    pose proof (len_nonneg rest). pose proof (len_nonneg todo).
    assert (Hl : len pre + len done + len todo + len rest + 1 < 2 ^ 62)
      by (len_norm_in Hlen; lia).
    simpl in Hall. apply andb_true_iff in Hall as [Hc Hall].
    cbn [String.length Nat.add consumeNumber_loop append seen].
    rewrite peekOk_at by (exact Hlen || lia).
    replace (len done <? len (done ++ String c (todo ++ rest))) with true
      by (symmetry; apply Z.ltb_lt; len_norm; lia).
    cbn [negb]. rewrite peekN_at by (exact Hlen || lia).
    rewrite index_len. cbn [bind].
    assert (Hnext :
      consumeNumber_loop (String.length todo + n)
        (scanner_at pre (done ++ String c (todo ++ rest)) lt)
        base (addi (len done) 1) hasExp kind true
      = consumeNumber_loop n
          (scanner_at pre (done ++ String c (todo ++ rest)) lt)
          base (len done + len (String c todo)) hasExp kind true).
    { rewrite addi_small by lia.
      rewrite (append_String_assoc done c (todo ++ rest)).
      replace (len done + 1) with (len (done ++ String c EmptyString))
        by (len_norm; lia).
      rewrite IH; [|exact Hall|now rewrite <- append_String_assoc].
      replace (len (done ++ String c EmptyString) + len todo)
        with (len done + len (String c todo)) by (len_norm; lia).
      now destruct todo. }
    unfold digit_of in Hc.
    destruct Hbase as [-> | ->].
    + change (10 =? 16) with false in Hc. change (10 =? 10) with true.
      rewrite Hc. cbn [andb]. exact Hnext.
    + change (16 =? 16) with true in Hc. change (16 =? 10) with false.
      change (16 =? 16) with true. rewrite Hc. cbn [andb]. exact Hnext.
Qed.

(** A byte at which the digit loop of [consumeNumber] goes on. *)
Definition loop_more (base : Z) (c : byte) : bool :=
  digit_of base c || Ascii.eqb c "."
  || (negb (base =? 16)
      && (Ascii.eqb c "e" || Ascii.eqb c "E" || Ascii.eqb c "p" || Ascii.eqb c "P")).

(** The digit loop stops at a byte at which it does not go on, and at the
    end of the input. *)
Lemma consumeNumber_loop_stop (base : Z) (lt : option Token)
    (pre done rest : string) (n : nat) (hasExp : bool) (kind : TokenKind)
    (hasNum : bool) :
  base = 10 \/ base = 16 ->
  stops (loop_more base) rest = true ->
  len (pre ++ done ++ rest) < 2 ^ 62 ->
  consumeNumber_loop (S n) (scanner_at pre (done ++ rest) lt)
    base (len done) hasExp kind hasNum
  = Done (inr (len done, kind, seen rest hasNum)).
Proof.
  intros Hbase Hrest Hlen.
  pose proof (len_nonneg pre). pose proof (len_nonneg done).
  pose proof (len_nonneg rest).
  assert (Hl : len pre + len done + len rest < 2 ^ 62)
    by (len_norm_in Hlen; lia).
  cbn [consumeNumber_loop]. rewrite peekOk_at by (exact Hlen || lia).
  destruct rest as [|d rest].
  - rewrite append_empty_r, Z.ltb_irrefl. reflexivity.
  - replace (len done <? len (done ++ String d rest)) with true
      by (symmetry; apply Z.ltb_lt; len_norm; pose proof (len_nonneg rest); lia).
    cbn [negb]. rewrite peekN_at by (exact Hlen || lia).
    rewrite index_len. cbn [bind seen].
    simpl in Hrest. apply negb_true_iff in Hrest. unfold loop_more in Hrest.
    apply orb_false_iff in Hrest as [Hrest Hexp].
    apply orb_false_iff in Hrest as [Hdig Hdot].
    rewrite Hdot. unfold digit_of in Hdig.
    destruct Hbase as [-> | ->].
    + change (10 =? 16) with false in *. change (10 =? 10) with true.
      cbn [negb andb] in *. now rewrite Hdig, Hexp.
    + change (16 =? 16) with true in *. change (16 =? 10) with false.
      cbn [negb andb] in *. now rewrite Hdig.
Qed.

Lemma number_more_loop (base : Z) (rest : string) :
  stops number_more rest = true -> stops (loop_more base) rest = true.
Proof.
  destruct rest as [|d rest]; [trivial|]. simpl. rewrite !negb_true_iff.
  intros H. destruct (number_more_false d H) as (Hp & Hd & Hh & Hdot).
  unfold loop_more, digit_of. rewrite Hdot, Hd, Hh.
  outside_byte IsIdentPart Hp. now destruct (base =? 16).
Qed.

(** The digit loop over a run of digits that ends the number. *)
Lemma consumeNumber_loop_digits (base : Z) (lt : option Token) (rest : string)
    (todo : string) :
  base = 10 \/ base = 16 ->
  stops number_more rest = true ->
  forall (done pre : string) (fuel : nat) (hasExp : bool) (kind : TokenKind)
         (hasNum : bool),
    all_bytes (digit_of base) todo = true ->
    len (pre ++ done ++ todo ++ rest) < 2 ^ 62 ->
    (String.length todo < fuel)%nat ->
    consumeNumber_loop fuel (scanner_at pre (done ++ todo ++ rest) lt)
      base (len done) hasExp kind hasNum
    = Done (inr (len done + len todo, kind,
                 match (todo ++ rest)%string with
                 | EmptyString => hasNum
                 | _ => true
                 end)).
Proof.
  intros Hbase Hrest done pre fuel hasExp kind hasNum Hall Hlen Hfuel.
  replace fuel with (String.length todo + S (fuel - String.length todo - 1))%nat
    by lia.
  rewrite consumeNumber_loop_run by assumption.
  rewrite <- len_append, <- append_assoc_s.
  rewrite consumeNumber_loop_stop;
    [|exact Hbase|now apply number_more_loop|now rewrite append_assoc_s].
  destruct todo; [reflexivity|]. now destruct rest.
Qed.

(** The token of a number of base [base] and kind [kind]. *)
Definition number_token (pos : Pos) (kind : TokenKind) (base : Z)
    (text : string) : Token :=
  {| TokPos := pos; TokEnd := pos + len text; Kind := kind;
     TokString := text; Base := base; Unquoted := false |}.

(** An optional sign. *)
Definition is_sign (sg : string) : Prop := sg = EmptyString \/ sg = "+" \/ sg = "-".

Lemma stops_not_x (rest : string) :
  stops number_more rest = true ->
  match rest with
  | String d _ => Ascii.eqb d "x" = false
  | EmptyString => True
  end.
Proof.
  destruct rest as [|d rest]; [trivial|]. simpl. intros H.
  apply negb_true_iff in H. destruct (number_more_false d H) as (Hp & _).
  now apply (eqb_outside IsIdentPart).
Qed.

(** After the last digit: nothing that could continue an identifier. *)
Lemma after_number (pre text rest : string) (lt : option Token) :
  stops number_more rest = true ->
  len (pre ++ text ++ rest) < 2 ^ 62 ->
  (Done (peekOk (scanner_at pre (text ++ rest) lt) (len text))
   &&& peekHas (scanner_at pre (text ++ rest) lt) (len text) IsIdentPart)
  = Done false.
Proof.
  intros Hrest Hlen.
  pose proof (len_nonneg pre). pose proof (len_nonneg text).
  pose proof (len_nonneg rest).
  assert (Hl : len pre + len text + len rest < 2 ^ 62)
    by (len_norm_in Hlen; lia).
  rewrite peekOk_at by (exact Hlen || lia).
  destruct rest as [|d rest].
  - rewrite append_empty_r, Z.ltb_irrefl. reflexivity.
  - replace (len text <? len (text ++ String d rest)) with true
      by (symmetry; apply Z.ltb_lt; len_norm; pose proof (len_nonneg rest); lia).
    unfold peekHas. rewrite peekN_at by (exact Hlen || lia).
    rewrite index_len. cbn [and_then bind].
    simpl in Hrest. apply negb_true_iff in Hrest.
    destruct (number_more_false d Hrest) as (Hp & _). now rewrite Hp.
Qed.

(** [slice(0, len text)] before [rest]. *)
Lemma slice_text (pre text rest : string) (lt : option Token) :
  len (pre ++ text ++ rest) < 2 ^ 62 ->
  slice (scanner_at pre (text ++ rest) lt) 0 (len text) = Done text.
Proof.
  intros Hlen.
  pose proof (slice_at pre EmptyString text rest lt) as Hs.
  cbn [append] in Hs. change (len EmptyString) with 0 in Hs.
  rewrite Z.add_0_l in Hs. now apply Hs.
Qed.

(** The two tests at the head of [consumeNumber]. *)
Lemma sign_test (pre : string) (c : byte) (s : string) (lt : option Token) :
  len (pre ++ String c s) < 2 ^ 62 ->
  peekIs (scanner_at pre (String c s) lt) 0 "+"
  ||| peekIs (scanner_at pre (String c s) lt) 0 "-"
  = Done (Ascii.eqb c "+" || Ascii.eqb c "-").
Proof.
  intros Hlen. unfold peekIs. rewrite !peekN_at by (exact Hlen || lia).
  rewrite index_0. cbn [bind or_else]. now destruct (Ascii.eqb c "+").
Qed.

(** The text starts with [0x]. *)
Definition hex_prefix (s : string) : bool :=
  match s with
  | String c (String d _) => Ascii.eqb c "0" && Ascii.eqb d "x"
  | _ => false
  end.

Lemma hex_test (pre : string) (c : byte) (s : string) (lt : option Token) :
  len (pre ++ String c s) < 2 ^ 62 ->
  peekIs (scanner_at pre (String c s) lt) 0 "0"
  &&& Done (peekOk (scanner_at pre (String c s) lt) 1)
  &&& peekIs (scanner_at pre (String c s) lt) 1 "x"
  = Done (hex_prefix (String c s)).
Proof.
  intros Hlen. unfold peekIs. rewrite !peekN_at by (exact Hlen || lia).
  rewrite peekOk_at by (exact Hlen || lia).
  rewrite index_0. cbn [bind and_then hex_prefix].
  destruct (Ascii.eqb c "0"); cbn [bind andb]; [|now destruct s].
  destruct s as [|d s].
  - reflexivity.
  - replace (1 <? len (String c (String d s))) with true
      by (symmetry; apply Z.ltb_lt; len_norm; pose proof (len_nonneg s); lia).
    reflexivity.
Qed.

(** [consumeNumber] once its two tests are decided. *)
Lemma consumeNumber_S (fuel : nat) (l : Lexer) (sign hex : bool) :
  peekIs l 0 "+" ||| peekIs l 0 "-" = Done sign ->
  peekIs l 0 "0" &&& Done (peekOk l 1) &&& peekIs l 1 "x" = Done hex ->
  consumeNumber fuel l
  = (let i := if sign then addi 0 1 else 0 in
     let i := if hex then addi i 2 else i in
     let base := if hex then 16 else 10 in
     r <- consumeNumber_loop fuel l base i false TokenInt false ;;
     match r with
     | inl e => Done (Some e, l)
     | inr (i, tokenKind, hasNumberPart) =>
       bad <- (Done (peekOk l i) &&& peekHas l i IsIdentPart)
              ||| Done (negb hasNumberPart) ;;
       if bad then Done (Some errInvalidNumber, l)
       else
         s <- slice l 0 i ;;
         Done (None,
               skipN (setLastToken l (Some {|
                        Kind := tokenKind; TokString := s;
                        TokPos := current l; TokEnd := addi (current l) i;
                        Base := base; Unquoted := false |})) i)
     end).
Proof. intros Hs Hh. unfold consumeNumber. rewrite Hs, Hh. reflexivity. Qed.

Lemma digits_no_hex_prefix (c : byte) (ds rest : string) :
  all_bytes IsDigit ds = true -> stops number_more rest = true ->
  hex_prefix (String c (ds ++ rest)) = false.
Proof.
  intros Hds Hrest. unfold hex_prefix.
  destruct ds as [|d ds]; cbn [append].
  - pose proof (stops_not_x rest Hrest) as Hx.
    destruct rest as [|d rest]; [reflexivity|]. rewrite Hx. apply andb_false_r.
  - simpl in Hds. apply andb_true_iff in Hds as [Hd _].
    not_that_byte IsDigit Hd. apply andb_false_r.
Qed.

Lemma consumeNumber_decimal (pre sg : string) (c : byte) (ds rest : string)
    (lt : option Token) (fuel : nat) :
  is_sign sg -> IsDigit c = true -> all_bytes IsDigit ds = true ->
  stops number_more rest = true ->
  len (pre ++ sg ++ String c ds ++ rest) < 2 ^ 62 ->
  (String.length ds + 1 < fuel)%nat ->
  consumeNumber fuel (scanner_at pre (sg ++ String c ds ++ rest) lt)
  = Done (None,
          {| input := pre ++ sg ++ String c ds ++ rest;
             current := len pre + len (sg ++ String c ds);
             lastToken := Some (number_token (len pre) TokenInt 10
                                             (sg ++ String c ds)) |}).
Proof.
  intros Hsg Hc Hds Hrest Hlen Hfuel.
  pose proof (len_nonneg pre). pose proof (len_nonneg ds).
  pose proof (len_nonneg rest). pose proof (len_nonneg sg).
  assert (Hl : len pre + len sg + len ds + len rest + 1 < 2 ^ 62)
    by (len_norm_in Hlen; lia).
  pose proof (after_number pre (sg ++ String c ds) rest lt Hrest) as Hafter.
  pose proof (slice_text pre (sg ++ String c ds) rest lt) as Hslice.
  rewrite append_assoc_s in Hafter, Hslice.
  specialize (Hafter Hlen). specialize (Hslice Hlen).
  assert (Hall : all_bytes (digit_of 10) (String c ds) = true).
  { rewrite (all_bytes_ext _ IsDigit) by reflexivity. simpl. now rewrite Hc. }
  pose proof (consumeNumber_loop_digits 10 lt rest (String c ds)
                (or_introl eq_refl) Hrest sg pre fuel false TokenInt false
                Hall Hlen ltac:(simpl; lia)) as Hloop.
  rewrite <- len_append in Hloop. cbn [append] in Hloop.
  pose proof (digits_no_hex_prefix c ds rest Hds Hrest) as Hnohex.
  destruct Hsg as [-> | [-> | ->]]; cbn [append] in *.
  - rewrite (consumeNumber_S _ _ false false);
      [|rewrite sign_test by exact Hlen; now not_that_byte IsDigit Hc
       |rewrite hex_test by exact Hlen; now rewrite Hnohex].
    cbv zeta iota. change (len EmptyString) with 0 in Hloop.
    rewrite Hloop. cbn [bind]. rewrite Hafter. cbn [or_else bind negb].
    rewrite Hslice. cbn [bind].
    unfold skipN, setLastToken, setCurrent, scanner_at, number_token.
    cbn [input current lastToken]. len_norm. addi_simpl. reflexivity.
  - rewrite (consumeNumber_S _ _ true false);
      [|now rewrite sign_test by exact Hlen
       |now rewrite hex_test by exact Hlen].
    cbv zeta iota. change (addi 0 1) with (len "+"). rewrite Hloop.
    cbn [bind]. rewrite Hafter. cbn [or_else bind negb].
    rewrite Hslice. cbn [bind].
    unfold skipN, setLastToken, setCurrent, scanner_at, number_token.
    cbn [input current lastToken]. len_norm. addi_simpl. reflexivity.
  - rewrite (consumeNumber_S _ _ true false);
      [|now rewrite sign_test by exact Hlen
       |now rewrite hex_test by exact Hlen].
    cbv zeta iota. change (addi 0 1) with (len "-"). rewrite Hloop.
    cbn [bind]. rewrite Hafter. cbn [or_else bind negb].
    rewrite Hslice. cbn [bind].
    unfold skipN, setLastToken, setCurrent, scanner_at, number_token.
    cbn [input current lastToken]. len_norm. addi_simpl. reflexivity.
Qed.

Lemma IsDigit_token_start (c : byte) : IsDigit c = true -> token_start c = true.
Proof.
  intros H. unfold token_start. not_that_byte IsDigit H.
  rewrite (IsSpace_digit c H). apply IsDigit_code in H.
  replace (code c <? 128) with true by (symmetry; apply Z.ltb_lt; lia).
  reflexivity.
Qed.

(** No comment starts at a [-] that is not followed by a second [-]. *)
Lemma skipComments_minus (fuel : nat) (pre : string) (d : byte) (s : string)
    (lt : option Token) :
  len (pre ++ String "-" (String d s)) < 2 ^ 62 ->
  Ascii.eqb d "-" = false ->
  skipComments (S fuel) (scanner_at pre (String "-" (String d s)) lt)
  = Done (scanner_at pre (String "-" (String d s)) lt).
Proof.
  intros Hlen Hd. cbn [skipComments]. rewrite isEOF_at. cbn [negb].
  rewrite peekN_at by (exact Hlen || lia). rewrite index_0. cbn [bind].
  change (Ascii.eqb "-" "-") with true. cbv iota.
  rewrite peekOk_at by (exact Hlen || lia).
  unfold peekIs. rewrite peekN_at by (exact Hlen || lia).
  change (index (String "-" (String d s)) 1) with (Done d).
  destruct (1 <? len (String "-" (String d s))); cbn [and_then bind];
    [now rewrite Hd | reflexivity].
Qed.

(** The second byte of the text under the cursor is the digit [c]. *)
Lemma digit_follows (pre : string) (a c : byte) (s : string)
    (lt : option Token) :
  len (pre ++ String a (String c s)) < 2 ^ 62 -> IsDigit c = true ->
  Done (peekOk (scanner_at pre (String a (String c s)) lt) 1)
  &&& peekHas (scanner_at pre (String a (String c s)) lt) 1 IsDigit
  = Done true.
Proof.
  intros Hlen Hc. rewrite peekOk_at by (exact Hlen || lia).
  replace (1 <? len (String a (String c s))) with true
    by (symmetry; apply Z.ltb_lt; len_norm; pose proof (len_nonneg s); lia).
  unfold peekHas. rewrite peekN_at by (exact Hlen || lia).
  change (index (String a (String c s)) 1) with (Done c).
  cbn [and_then bind]. now rewrite Hc.
Qed.

(** At a digit, or at a sign that abuts a digit, [consumeToken] reads a
    number. *)
Lemma consumeToken_number (fuel : nat) (pre sg : string) (c : byte)
    (s : string) (lt : option Token) :
  is_sign sg -> IsDigit c = true ->
  len (pre ++ sg ++ String c s) < 2 ^ 62 ->
  consumeToken (S fuel) (scanner_at pre (sg ++ String c s) lt)
  = consumeNumber (S fuel) (scanner_at pre (sg ++ String c s) None).
Proof.
  intros Hsg Hc Hlen.
  destruct Hsg as [-> | [-> | ->]]; cbn [append] in *.
  - pose proof (IsDigit_token_start c Hc) as Hstart.
    enter_token Hlen Hstart.
    not_that_byte IsDigit Hc. cbn [orb]. now rewrite Hc.
  - assert (Hstart : token_start "+"%char = true) by reflexivity.
    enter_token Hlen Hstart. dispatch.
    rewrite digit_follows by assumption. reflexivity.
  - unfold consumeToken.
    rewrite skipSpace_at by (reflexivity || (vm_compute; reflexivity)).
    cbn [bind]. rewrite setLastToken_at.
    rewrite skipComments_minus by (exact Hlen || now not_that_byte IsDigit Hc).
    cbn [bind].
    rewrite skipSpace_at by (reflexivity || (vm_compute; reflexivity)).
    cbn [bind]. rewrite isEOF_at.
    rewrite peekN_at by (exact Hlen || lia). rewrite index_0. cbn [bind].
    dispatch. rewrite digit_follows by assumption. reflexivity.
Qed.

(** X6. An integer literal: an optional sign that abuts the digits, then
    base-10 digits, up to a byte that can continue neither a number nor an
    identifier (or to the end of the input).  It is scanned as one token of
    kind [<int>] and base 10 whose text is the literal, sign included. *)
Theorem integer_scanned (pre sg : string) (c : byte) (ds rest : string)
    (lt : option Token) (fuel : nat) :
  is_sign sg -> IsDigit c = true -> all_bytes IsDigit ds = true ->
  stops number_more rest = true ->
  len (pre ++ sg ++ String c ds ++ rest) < 2 ^ 62 ->
  (String.length ds + 2 < fuel)%nat ->
  consumeToken fuel (scanner_at pre (sg ++ String c ds ++ rest) lt)
  = Done (None,
          {| input := pre ++ sg ++ String c ds ++ rest;
             current := len pre + len (sg ++ String c ds);
             lastToken := Some (number_token (len pre) TokenInt 10
                                             (sg ++ String c ds)) |}).
Proof.
  intros Hsg Hc Hds Hrest Hlen Hfuel.
  destruct fuel as [|fuel]; [lia|].
  cbn [append] in Hlen |- *.
  rewrite consumeToken_number by assumption.
  apply consumeNumber_decimal; (assumption || lia).
Qed.

Lemma integer_scanned_witness :
  (is_sign "-" /\ IsDigit "4"%char = true /\ all_bytes IsDigit "2" = true
   /\ stops number_more ")" = true
   /\ len ("f(" ++ "-" ++ "42" ++ ")") < 2 ^ 62
   /\ (String.length "2" + 2 < 8)%nat)
  /\ consumeToken 8 (scanner_at "f(" ("-" ++ "42" ++ ")") None)
     = Done (None,
             {| input := "f(" ++ "-" ++ "42" ++ ")";
                current := len "f(" + len ("-" ++ "42");
                lastToken := Some (number_token (len "f(") TokenInt 10
                                                ("-" ++ "42")) |}).
Proof.
  assert (H1 : is_sign "-") by (right; now right).
  assert (H2 : IsDigit "4"%char = true) by reflexivity.
  assert (H3 : all_bytes IsDigit "2" = true) by reflexivity.
  assert (H4 : stops number_more ")" = true) by reflexivity.
  assert (H5 : len ("f(" ++ "-" ++ "42" ++ ")") < 2 ^ 62)
    by (vm_compute; reflexivity).
  assert (H6 : (String.length "2" + 2 < 8)%nat) by (simpl; lia).
  split; [now repeat split|].
  exact (integer_scanned "f(" "-" "4"%char "2" ")" None 8 H1 H2 H3 H4 H5 H6).
Defined.

(** ** Hexadecimal literals *)

Lemma seen_append (a b : string) (hasNum : bool) :
  seen b (seen a hasNum) = seen (a ++ b) hasNum.
Proof. destruct a; [reflexivity|]. now destruct b. Qed.

Lemma consumeNumber_hex (pre hs rest : string) (lt : option Token)
    (fuel : nat) :
  all_bytes IsHexDigit hs = true -> stops number_more rest = true ->
  len (pre ++ "0x" ++ hs ++ rest) < 2 ^ 62 ->
  (String.length hs < fuel)%nat ->
  consumeNumber fuel (scanner_at pre ("0x" ++ hs ++ rest) lt)
  = if seen (hs ++ rest) false then
      Done (None,
            {| input := pre ++ "0x" ++ hs ++ rest;
               current := len pre + len ("0x" ++ hs);
               lastToken := Some (number_token (len pre) TokenInt 16
                                               ("0x" ++ hs)) |})
    else Done (Some errInvalidNumber, scanner_at pre ("0x" ++ hs ++ rest) lt).
Proof.
  intros Hhs Hrest Hlen Hfuel.
  pose proof (len_nonneg pre). pose proof (len_nonneg hs).
  pose proof (len_nonneg rest).
  assert (Hl : len pre + len hs + len rest + 2 < 2 ^ 62)
    by (len_norm_in Hlen; lia).
  pose proof (after_number pre ("0x" ++ hs) rest lt Hrest) as Hafter.
  pose proof (slice_text pre ("0x" ++ hs) rest lt) as Hslice.
  rewrite append_assoc_s in Hafter, Hslice.
  specialize (Hafter Hlen). specialize (Hslice Hlen).
  assert (Hall : all_bytes (digit_of 16) hs = true).
  { now rewrite (all_bytes_ext _ IsHexDigit) by reflexivity. }
  pose proof (consumeNumber_loop_run 16 lt rest hs (or_intror eq_refl)
                "0x" pre (S (fuel - String.length hs - 1)) false TokenInt false
                Hall Hlen) as Hrun.
  replace (String.length hs + S (fuel - String.length hs - 1))%nat with fuel
    in Hrun by lia.
  pose proof (consumeNumber_loop_stop 16 lt pre ("0x" ++ hs) rest
                (fuel - String.length hs - 1) false TokenInt (seen hs false)
                (or_intror eq_refl) (number_more_loop 16 rest Hrest)) as Hstop.
  rewrite append_assoc_s in Hstop. specialize (Hstop Hlen).
  rewrite len_append in Hstop. rewrite Hstop in Hrun. clear Hstop.
  rewrite seen_append in Hrun.
  rewrite (consumeNumber_S _ _ false true);
    [|cbn [append] in *; now rewrite sign_test by exact Hlen
     |cbn [append] in *; now rewrite hex_test by exact Hlen].
  cbv zeta iota. change (addi (0) 2) with (len "0x"). rewrite Hrun.
  cbn [bind]. rewrite <- len_append, Hafter. cbn [or_else bind].
  destruct (seen (hs ++ rest) false); cbn [negb]; [|reflexivity].
  rewrite Hslice. cbn [bind].
  unfold skipN, setLastToken, setCurrent, scanner_at, number_token.
  cbn [input current lastToken]. len_norm. addi_simpl. reflexivity.
Qed.

(** X7. A hexadecimal literal is [0x] and hexadecimal digits, up to a byte
    that is no letter, digit, underscore or dot (or to the end of the
    input): one token of kind [<int>] and base 16 whose text holds the
    prefix.  The digits may be missing: before such a byte the token is the
    bare prefix [0x], and at the end of the input the bare prefix is the
    error "invalid number".  (Before a letter, an underscore or a dot the
    scan goes another way, which is not stated here.) *)
Theorem hex_scanned (pre hs rest : string) (lt : option Token) (fuel : nat) :
  all_bytes IsHexDigit hs = true -> stops number_more rest = true ->
  len (pre ++ "0x" ++ hs ++ rest) < 2 ^ 62 ->
  (String.length hs + 1 < fuel)%nat ->
  ((hs ++ rest)%string <> EmptyString ->
   consumeToken fuel (scanner_at pre ("0x" ++ hs ++ rest) lt)
   = Done (None,
           {| input := pre ++ "0x" ++ hs ++ rest;
              current := len pre + len ("0x" ++ hs);
              lastToken := Some (number_token (len pre) TokenInt 16
                                              ("0x" ++ hs)) |}))
  /\ ((hs ++ rest)%string = EmptyString ->
      consumeToken fuel (scanner_at pre ("0x" ++ hs ++ rest) lt)
      = Done (Some errInvalidNumber,
              scanner_at pre ("0x" ++ hs ++ rest) None)).
Proof.
  intros Hhs Hrest Hlen Hfuel.
  destruct fuel as [|fuel]; [lia|].
  pose proof (consumeNumber_hex pre hs rest None (S fuel) Hhs Hrest Hlen
                ltac:(lia)) as Hnum.
  assert (Hstart : token_start "0"%char = true) by reflexivity.
  assert (Henter : consumeToken (S fuel) (scanner_at pre ("0x" ++ hs ++ rest) lt)
                   = consumeNumber (S fuel)
                       (scanner_at pre ("0x" ++ hs ++ rest) None)).
  { cbn [append] in *. enter_token Hlen Hstart. dispatch. reflexivity. }
  rewrite Henter, Hnum.
  split; intros Hne.
  - destruct (hs ++ rest)%string; [congruence | reflexivity].
  - now rewrite Hne.
Qed.

Lemma hex_scanned_witness :
  (all_bytes IsHexDigit "1F" = true /\ stops number_more ")" = true
   /\ len ("(" ++ "0x" ++ "1F" ++ ")") < 2 ^ 62
   /\ (String.length "1F" + 1 < 8)%nat)
  /\ (("1F" ++ ")")%string <> EmptyString ->
      consumeToken 8 (scanner_at "(" ("0x" ++ "1F" ++ ")") None)
      = Done (None,
              {| input := "(" ++ "0x" ++ "1F" ++ ")";
                 current := len "(" + len ("0x" ++ "1F");
                 lastToken := Some (number_token (len "(") TokenInt 16
                                                 ("0x" ++ "1F")) |})).
Proof.
  assert (H1 : all_bytes IsHexDigit "1F" = true) by reflexivity.
  assert (H2 : stops number_more ")" = true) by reflexivity.
  assert (H3 : len ("(" ++ "0x" ++ "1F" ++ ")") < 2 ^ 62)
    by (vm_compute; reflexivity).
  assert (H4 : (String.length "1F" + 1 < 8)%nat) by (simpl; lia).
  split; [now repeat split|].
  exact (proj1 (hex_scanned "(" "1F" ")" None 8 H1 H2 H3 H4)).
Defined.

(** ** A number that runs into a word *)

(** After the last digit: a byte that continues an identifier. *)
Lemma after_number_letter (pre text : string) (x : byte) (rest : string)
    (lt : option Token) :
  IsIdentPart x = true ->
  len (pre ++ text ++ String x rest) < 2 ^ 62 ->
  (Done (peekOk (scanner_at pre (text ++ String x rest) lt) (len text))
   &&& peekHas (scanner_at pre (text ++ String x rest) lt) (len text)
         IsIdentPart)
  = Done true.
Proof.
  intros Hx Hlen.
  pose proof (len_nonneg pre). pose proof (len_nonneg text).
  pose proof (len_nonneg rest).
  assert (Hl : len pre + len text + len rest + 1 < 2 ^ 62)
    by (len_norm_in Hlen; lia).
  rewrite peekOk_at by (exact Hlen || lia).
  replace (len text <? len (text ++ String x rest)) with true
    by (symmetry; apply Z.ltb_lt; len_norm; lia).
  unfold peekHas. rewrite peekN_at by (exact Hlen || lia).
  rewrite index_len. cbn [and_then bind]. now rewrite Hx.
Qed.

Lemma consumeNumber_letter (pre sg : string) (c : byte) (ds : string)
    (x : byte) (rest : string) (lt : option Token) (fuel : nat) :
  is_sign sg -> IsDigit c = true -> all_bytes IsDigit ds = true ->
  IsIdentPart x = true -> loop_more 10 x = false ->
  hex_prefix (sg ++ String c ds ++ String x rest) = false ->
  len (pre ++ sg ++ String c ds ++ String x rest) < 2 ^ 62 ->
  (String.length ds + 1 < fuel)%nat ->
  consumeNumber fuel (scanner_at pre (sg ++ String c ds ++ String x rest) lt)
  = Done (Some errInvalidNumber,
          scanner_at pre (sg ++ String c ds ++ String x rest) lt).
Proof.
  intros Hsg Hc Hds Hx Hstop Hnohex Hlen Hfuel.
  pose proof (len_nonneg pre). pose proof (len_nonneg ds).
  pose proof (len_nonneg rest). pose proof (len_nonneg sg).
  assert (Hl : len pre + len sg + len ds + len rest + 2 < 2 ^ 62)
    by (len_norm_in Hlen; lia).
  pose proof (after_number_letter pre (sg ++ String c ds) x rest lt Hx)
    as Hafter.
  rewrite append_assoc_s in Hafter. specialize (Hafter Hlen).
  assert (Hall : all_bytes (digit_of 10) (String c ds) = true).
  { rewrite (all_bytes_ext _ IsDigit) by reflexivity. simpl. now rewrite Hc. }
  pose proof (consumeNumber_loop_run 10 lt (String x rest) (String c ds)
                (or_introl eq_refl) sg pre
                (S (fuel - String.length (String c ds) - 1)) false TokenInt
                false Hall Hlen) as Hrun.
  replace (String.length (String c ds)
           + S (fuel - String.length (String c ds) - 1))%nat with fuel
    in Hrun by (simpl; lia).
  pose proof (consumeNumber_loop_stop 10 lt pre (sg ++ String c ds)
                (String x rest) (fuel - String.length (String c ds) - 1)
                false TokenInt (seen (String c ds) false)
                (or_introl eq_refl)) as Hstop'.
  rewrite append_assoc_s in Hstop'.
  specialize (Hstop' ltac:(simpl; now rewrite Hstop) Hlen).
  rewrite len_append in Hstop'. rewrite Hstop' in Hrun. clear Hstop'.
  assert (Hsign : Done (match sg with
                        | EmptyString => false
                        | _ => true
                        end)
                  = peekIs (scanner_at pre (sg ++ String c ds ++ String x rest) lt)
                      0 "+"
                    ||| peekIs (scanner_at pre (sg ++ String c ds ++ String x rest)
                                  lt) 0 "-").
  { destruct Hsg as [-> | [-> | ->]]; cbn [append] in *;
      rewrite sign_test by exact Hlen; [|reflexivity|reflexivity].
    now not_that_byte IsDigit Hc. }
  assert (Hhex : Done false
                 = peekIs (scanner_at pre (sg ++ String c ds ++ String x rest) lt)
                     0 "0"
                   &&& Done (peekOk (scanner_at pre
                                       (sg ++ String c ds ++ String x rest) lt) 1)
                   &&& peekIs (scanner_at pre
                                 (sg ++ String c ds ++ String x rest) lt) 1 "x").
  { destruct Hsg as [-> | [-> | ->]]; cbn [append] in *;
      rewrite hex_test by exact Hlen; now rewrite ?Hnohex. }
  rewrite (consumeNumber_S _ _ _ _ (eq_sym Hsign) (eq_sym Hhex)).
  cbv zeta iota.
  replace (if match sg with EmptyString => false | _ => true end
           then addi 0 1 else 0) with (len sg)
    by (destruct Hsg as [-> | [-> | ->]]; reflexivity).
  rewrite Hrun. cbn [bind]. rewrite <- len_append, Hafter. reflexivity.
Qed.

(** X8. Digits that run into a letter or [_] (other than an exponent mark,
    and other than the [x] of the prefix [0x]) are not split into a number
    and a word: the scanner reports "invalid number", stays where the
    literal starts and caches no token.  So [12ab] is an error, and so is a
    signed hexadecimal literal such as [-0x1F], whose prefix is not
    recognised after the sign. *)
Theorem number_then_letter_rejected (pre sg : string) (c : byte)
    (ds : string) (x : byte) (rest : string) (lt : option Token)
    (fuel : nat) :
  is_sign sg -> IsDigit c = true -> all_bytes IsDigit ds = true ->
  IsIdentPart x = true -> loop_more 10 x = false ->
  hex_prefix (sg ++ String c ds ++ String x rest) = false ->
  len (pre ++ sg ++ String c ds ++ String x rest) < 2 ^ 62 ->
  (String.length ds + 2 < fuel)%nat ->
  consumeToken fuel (scanner_at pre (sg ++ String c ds ++ String x rest) lt)
  = Done (Some errInvalidNumber,
          scanner_at pre (sg ++ String c ds ++ String x rest) None).
Proof.
  intros Hsg Hc Hds Hx Hstop Hnohex Hlen Hfuel.
  destruct fuel as [|fuel]; [lia|].
  cbn [append] in Hlen, Hnohex |- *.
  rewrite consumeToken_number by assumption.
  apply consumeNumber_letter; (assumption || lia).
Qed.

Lemma number_then_letter_rejected_witness :
  (is_sign "-" /\ IsDigit "0"%char = true
   /\ all_bytes IsDigit EmptyString = true
   /\ IsIdentPart "x"%char = true /\ loop_more 10 "x"%char = false
   /\ hex_prefix ("-" ++ "0" ++ "x1F") = false
   /\ len ("a " ++ "-" ++ "0" ++ "x1F") < 2 ^ 62
   /\ (String.length EmptyString + 2 < 8)%nat)
  /\ consumeToken 8 (scanner_at "a " ("-" ++ "0" ++ "x1F") None)
     = Done (Some errInvalidNumber,
             scanner_at "a " ("-" ++ "0" ++ "x1F") None).
Proof.
  assert (H1 : is_sign "-") by (right; now right).
  assert (H2 : IsDigit "0"%char = true) by reflexivity.
  assert (H3 : all_bytes IsDigit EmptyString = true) by reflexivity.
  assert (H4 : IsIdentPart "x"%char = true) by reflexivity.
  assert (H5 : loop_more 10 "x"%char = false) by reflexivity.
  assert (H6 : hex_prefix ("-" ++ "0" ++ "x1F") = false) by reflexivity.
  assert (H7 : len ("a " ++ "-" ++ "0" ++ "x1F") < 2 ^ 62)
    by (vm_compute; reflexivity).
  assert (H8 : (String.length EmptyString + 2 < 8)%nat) by (simpl; lia).
  split; [now repeat split|].
  exact (number_then_letter_rejected "a " "-" "0"%char EmptyString "x"%char
           "1F" None 8
           H1 H2 H3 H4 H5 H6 H7 H8).
Defined.

(** ** Exponents *)

(** The bytes that open an exponent. *)
Definition is_exp (e : byte) : bool :=
  Ascii.eqb e "e" || Ascii.eqb e "E" || Ascii.eqb e "p" || Ascii.eqb e "P".

Definition starts_digit (s : string) : bool :=
  match s with
  | String d _ => IsDigit d
  | EmptyString => false
  end.

Definition starts_sign (s : string) : bool :=
  match s with
  | String d _ => Ascii.eqb d "+" || Ascii.eqb d "-"
  | EmptyString => false
  end.

Lemma is_exp_inv (e : byte) :
  is_exp e = true ->
  IsDigit e = false /\ Ascii.eqb e "." = false.
Proof.
  unfold is_exp. rewrite !orb_true_iff.
  intros [[[H | H] | H] | H]; apply Ascii.eqb_eq in H; subst e;
    repeat split; reflexivity.
Qed.

(** The sign test inside the exponent. *)
Lemma exp_sign_test (pre done s : string) (lt : option Token) :
  len (pre ++ done ++ s) < 2 ^ 62 ->
  Done (peekOk (scanner_at pre (done ++ s) lt) (len done))
  &&& (peekIs (scanner_at pre (done ++ s) lt) (len done) "+"
       ||| peekIs (scanner_at pre (done ++ s) lt) (len done) "-")
  = Done (starts_sign s).
Proof.
  intros Hlen.
  pose proof (len_nonneg pre). pose proof (len_nonneg done).
  pose proof (len_nonneg s).
  assert (Hl : len pre + len done + len s < 2 ^ 62) by (len_norm_in Hlen; lia).
  rewrite peekOk_at by (exact Hlen || lia).
  destruct s as [|d s].
  - rewrite append_empty_r, Z.ltb_irrefl. reflexivity.
  - replace (len done <? len (done ++ String d s)) with true
      by (symmetry; apply Z.ltb_lt; len_norm; pose proof (len_nonneg s); lia).
    unfold peekIs. rewrite !peekN_at by (exact Hlen || lia).
    rewrite index_len. cbn [and_then or_else bind starts_sign].
    now destruct (Ascii.eqb d "+").
Qed.

(** The digit test inside the exponent. *)
Lemma exp_digit_test (pre done s : string) (lt : option Token) :
  len (pre ++ done ++ s) < 2 ^ 62 ->
  Done (negb (peekOk (scanner_at pre (done ++ s) lt) (len done)))
  ||| notb (peekHas (scanner_at pre (done ++ s) lt) (len done) IsDigit)
  = Done (negb (starts_digit s)).
Proof.
  intros Hlen.
  pose proof (len_nonneg pre). pose proof (len_nonneg done).
  pose proof (len_nonneg s).
  assert (Hl : len pre + len done + len s < 2 ^ 62) by (len_norm_in Hlen; lia).
  rewrite peekOk_at by (exact Hlen || lia).
  destruct s as [|d s].
  - rewrite append_empty_r, Z.ltb_irrefl. reflexivity.
  - replace (len done <? len (done ++ String d s)) with true
      by (symmetry; apply Z.ltb_lt; len_norm; pose proof (len_nonneg s); lia).
    unfold peekHas, notb. rewrite !peekN_at by (exact Hlen || lia).
    rewrite index_len. reflexivity.
Qed.

(** The digit loop of [consumeNumber] at an exponent mark: the mark, an
    optional sign, and then a digit must follow. *)
Lemma consumeNumber_loop_exp (lt : option Token) (pre done : string)
    (e : byte) (sg s : string) (n : nat) (kind : TokenKind) (hasNum : bool) :
  is_exp e = true -> is_sign sg ->
  (sg = EmptyString -> starts_sign s = false) ->
  len (pre ++ done ++ String e (sg ++ s)) < 2 ^ 62 ->
  consumeNumber_loop (S n) (scanner_at pre (done ++ String e (sg ++ s)) lt)
    10 (len done) false kind hasNum
  = if starts_digit s
    then consumeNumber_loop n (scanner_at pre (done ++ String e (sg ++ s)) lt)
           10 (len done + 1 + len sg) true kind true
    else Done (inl errExponent).
Proof.
  intros He Hsg Hnosign Hlen.
  pose proof (len_nonneg pre). pose proof (len_nonneg done).
  pose proof (len_nonneg s). pose proof (len_nonneg sg).
  assert (Hl : len pre + len done + len sg + len s + 1 < 2 ^ 62)
    by (len_norm_in Hlen; lia).
  destruct (is_exp_inv e He) as (Hd & Hdot).
  cbn [consumeNumber_loop]. rewrite peekOk_at by (exact Hlen || lia).
  replace (len done <? len (done ++ String e (sg ++ s))) with true
    by (symmetry; apply Z.ltb_lt; len_norm; lia).
  cbn [negb]. rewrite peekN_at by (exact Hlen || lia).
  rewrite index_len. cbn [bind].
  change (10 =? 10) with true. change (10 =? 16) with false.
  rewrite Hd, Hdot. cbn [andb negb]. fold (is_exp e). rewrite He.
  rewrite addi_small by lia.
  (* the input, seen from after the mark *)
  assert (Hin1 : (done ++ String e (sg ++ s))%string
                 = ((done ++ String e EmptyString) ++ sg ++ s)%string)
    by apply append_String_assoc.
  assert (Hlen1 : len (pre ++ (done ++ String e EmptyString) ++ sg ++ s)
                  < 2 ^ 62) by (now rewrite <- Hin1).
  assert (Hi1 : len done + 1 = len (done ++ String e EmptyString))
    by (len_norm; lia).
  pose proof (exp_sign_test pre (done ++ String e EmptyString) (sg ++ s) lt
                Hlen1) as Hsign.
  rewrite <- Hin1, <- Hi1 in Hsign. rewrite Hsign. cbn [bind].
  (* and from after the sign *)
  assert (Hin2 : (done ++ String e (sg ++ s))%string
                 = ((done ++ String e sg) ++ s)%string)
    by (now rewrite append_assoc_s).
  assert (Hlen2 : len (pre ++ (done ++ String e sg) ++ s) < 2 ^ 62)
    by (now rewrite <- Hin2).
  assert (Hi2 : len done + 1 + len sg = len (done ++ String e sg))
    by (len_norm; lia).
  pose proof (exp_digit_test pre (done ++ String e sg) s lt Hlen2) as Hdigit.
  rewrite <- Hin2, <- Hi2 in Hdigit.
  destruct Hsg as [-> | [-> | ->]]; cbn [append starts_sign] in Hdigit |- *.
  - rewrite (Hnosign eq_refl). change (len EmptyString) with 0 in *.
    rewrite Z.add_0_r in *. rewrite Hdigit. cbn [bind].
    now destruct (starts_digit s).
  - change (Ascii.eqb "+" "+") with true. cbn [orb].
    rewrite addi_small by lia. change (len "+") with 1 in *.
    rewrite Hdigit. cbn [bind]. now destruct (starts_digit s).
  - change (Ascii.eqb "-" "+" || Ascii.eqb "-" "-") with true. cbv iota.
    rewrite addi_small by lia. change (len "-") with 1 in *.
    rewrite Hdigit. cbn [bind]. now destruct (starts_digit s).
Qed.

Lemma is_exp_not_x (e : byte) : is_exp e = true -> Ascii.eqb e "x" = false.
Proof.
  unfold is_exp. rewrite !orb_true_iff.
  intros [[[H | H] | H] | H]; apply Ascii.eqb_eq in H; subst e; reflexivity.
Qed.

Lemma consumeNumber_exponent (pre : string) (c : byte) (ds : string)
    (e : byte) (sg : string) (c2 : byte) (ds2 rest : string)
    (lt : option Token) (fuel : nat) :
  IsDigit c = true -> all_bytes IsDigit ds = true ->
  is_exp e = true -> is_sign sg ->
  IsDigit c2 = true -> all_bytes IsDigit ds2 = true ->
  stops number_more rest = true ->
  len (pre ++ String c ds ++ String e (sg ++ String c2 ds2 ++ rest)) < 2 ^ 62 ->
  (String.length ds + String.length ds2 + 3 < fuel)%nat ->
  consumeNumber fuel
    (scanner_at pre (String c ds ++ String e (sg ++ String c2 ds2 ++ rest)) lt)
  = Done (None,
          {| input := pre ++ String c ds
                        ++ String e (sg ++ String c2 ds2 ++ rest);
             current := len pre
                        + len (String c ds ++ String e (sg ++ String c2 ds2));
             lastToken :=
               Some (number_token (len pre) TokenInt 10
                       (String c ds ++ String e (sg ++ String c2 ds2))) |}).
Proof.
  intros Hc Hds He Hsg Hc2 Hds2 Hrest Hlen Hfuel.
  set (I := (String c ds ++ String e (sg ++ String c2 ds2 ++ rest))%string) in *.
  set (T := (String c ds ++ String e (sg ++ String c2 ds2))%string).
  pose proof (len_nonneg pre). pose proof (len_nonneg ds).
  pose proof (len_nonneg rest). pose proof (len_nonneg sg).
  pose proof (len_nonneg ds2).
  assert (HIT : I = (T ++ rest)%string).
  { unfold I, T. rewrite append_assoc_s. cbn [append].
    now rewrite append_assoc_s. }
  assert (HI2 : I = ((String c ds ++ String e sg) ++ String c2 ds2 ++ rest)%string).
  { unfold I. now rewrite append_assoc_s. }
  assert (HT2 : T = ((String c ds ++ String e sg) ++ String c2 ds2)%string).
  { unfold T. now rewrite append_assoc_s. }
  assert (HlT : len T = len ds + len sg + len ds2 + 3)
    by (unfold T; len_norm; lia).
  assert (Hl : len pre + len T + len rest < 2 ^ 62).
  { rewrite HIT in Hlen. len_norm_in Hlen. lia. }
  (* the tests at the head *)
  assert (Hsign : peekIs (scanner_at pre I lt) 0 "+"
                  ||| peekIs (scanner_at pre I lt) 0 "-" = Done false).
  { unfold I. cbn [append]. rewrite sign_test by exact Hlen.
    now not_that_byte IsDigit Hc. }
  assert (Hhex : peekIs (scanner_at pre I lt) 0 "0"
                 &&& Done (peekOk (scanner_at pre I lt) 1)
                 &&& peekIs (scanner_at pre I lt) 1 "x" = Done false).
  { unfold I. cbn [append]. rewrite hex_test by exact Hlen.
    unfold hex_prefix. destruct ds as [|d ds]; cbn [append].
    - now rewrite (is_exp_not_x e He), andb_false_r.
    - simpl in Hds. apply andb_true_iff in Hds as [Hd _].
      not_that_byte IsDigit Hd. now rewrite andb_false_r. }
  rewrite (consumeNumber_S _ _ _ _ Hsign Hhex). cbv zeta iota.
  (* the mantissa *)
  assert (Hall : all_bytes (digit_of 10) (String c ds) = true).
  { rewrite (all_bytes_ext _ IsDigit) by reflexivity. simpl. now rewrite Hc. }
  assert (Hall2 : all_bytes (digit_of 10) (String c2 ds2) = true).
  { rewrite (all_bytes_ext _ IsDigit) by reflexivity. simpl. now rewrite Hc2. }
  set (k := (fuel - String.length (String c ds) - String.length (String c2 ds2)
             - 2)%nat).
  replace fuel with (String.length (String c ds)
                     + S (String.length (String c2 ds2) + S k))%nat
    by (unfold k; simpl; lia).
  pose proof (consumeNumber_loop_run 10 lt
                (String e (sg ++ String c2 ds2 ++ rest)) (String c ds)
                (or_introl eq_refl) EmptyString pre
                (S (String.length (String c2 ds2) + S k)) false TokenInt false
                Hall Hlen) as Hrun1.
  change (len EmptyString) with 0 in Hrun1. rewrite Z.add_0_l in Hrun1.
  change (EmptyString ++ String c ds
          ++ String e (sg ++ String c2 ds2 ++ rest))%string with I in Hrun1.
  rewrite Hrun1. clear Hrun1.
  (* the exponent mark and its sign *)
  pose proof (consumeNumber_loop_exp lt pre (String c ds) e sg
                (String c2 ds2 ++ rest) (String.length (String c2 ds2) + S k)
                TokenInt (seen (String c ds) false) He Hsg
                ltac:(intros _; cbn [append starts_sign];
                      now not_that_byte IsDigit Hc2) Hlen) as Hexp.
  fold I in Hexp. cbn [append starts_digit] in Hexp. rewrite Hc2 in Hexp.
  rewrite Hexp. clear Hexp.
  (* the digits of the exponent *)
  pose proof (consumeNumber_loop_run 10 lt rest (String c2 ds2)
                (or_introl eq_refl) (String c ds ++ String e sg) pre (S k)
                true TokenInt true Hall2) as Hrun2.
  rewrite <- HI2 in Hrun2. specialize (Hrun2 Hlen).
  replace (len (String c ds ++ String e sg))
    with (len (String c ds) + 1 + len sg) in Hrun2 by (len_norm; lia).
  rewrite Hrun2. clear Hrun2.
  pose proof (consumeNumber_loop_stop 10 lt pre T rest k true TokenInt
                (seen (String c2 ds2) true) (or_introl eq_refl)
                (number_more_loop 10 rest Hrest)) as Hstop.
  rewrite <- HIT in Hstop. specialize (Hstop Hlen).
  replace (len (String c ds) + 1 + len sg + len (String c2 ds2))
    with (len T) by (rewrite HlT; len_norm; lia).
  rewrite Hstop. clear Hstop. cbn [bind seen].
  pose proof (after_number pre T rest lt Hrest) as Hafter.
  pose proof (slice_text pre T rest lt) as Hslice.
  rewrite <- HIT in Hafter, Hslice.
  rewrite (Hafter Hlen). cbn [or_else bind].
  replace (seen rest true) with true by (now destruct rest). cbn [negb].
  rewrite (Hslice Hlen). cbn [bind].
  unfold skipN, setLastToken, setCurrent, scanner_at, number_token.
  cbn [input current lastToken]. addi_simpl. reflexivity.
Qed.

(** X9. An exponent does not change the kind of a number: digits, an
    exponent mark ([e], [E], [p] or [P]), an optional sign and digits are
    scanned as one token of kind [<int>] and base 10 that spans the whole
    literal.  Only a dot makes a number a [<float>]. *)
Theorem exponent_scanned (pre : string) (c : byte) (ds : string)
    (e : byte) (sg : string) (c2 : byte) (ds2 rest : string)
    (lt : option Token) (fuel : nat) :
  IsDigit c = true -> all_bytes IsDigit ds = true ->
  is_exp e = true -> is_sign sg ->
  IsDigit c2 = true -> all_bytes IsDigit ds2 = true ->
  stops number_more rest = true ->
  len (pre ++ String c ds ++ String e (sg ++ String c2 ds2 ++ rest)) < 2 ^ 62 ->
  (String.length ds + String.length ds2 + 4 < fuel)%nat ->
  consumeToken fuel
    (scanner_at pre (String c ds ++ String e (sg ++ String c2 ds2 ++ rest)) lt)
  = Done (None,
          {| input := pre ++ String c ds
                        ++ String e (sg ++ String c2 ds2 ++ rest);
             current := len pre
                        + len (String c ds ++ String e (sg ++ String c2 ds2));
             lastToken :=
               Some (number_token (len pre) TokenInt 10
                       (String c ds ++ String e (sg ++ String c2 ds2))) |}).
Proof.
  intros Hc Hds He Hsg Hc2 Hds2 Hrest Hlen Hfuel.
  destruct fuel as [|fuel]; [lia|].
  pose proof (consumeToken_number fuel pre EmptyString c
                (ds ++ String e (sg ++ String c2 ds2 ++ rest)) lt
                (or_introl eq_refl) Hc Hlen) as Henter.
  cbn [append] in Henter |- *. rewrite Henter.
  apply (consumeNumber_exponent pre c ds e sg c2 ds2 rest None (S fuel));
    (assumption || lia).
Qed.

Lemma exponent_scanned_witness :
  (IsDigit "1"%char = true /\ all_bytes IsDigit EmptyString = true
   /\ is_exp "e"%char = true /\ is_sign "-"
   /\ IsDigit "0"%char = true /\ all_bytes IsDigit "5" = true
   /\ stops number_more " " = true
   /\ len ("=" ++ "1" ++ String "e" ("-" ++ "05" ++ " ")) < 2 ^ 62
   /\ (String.length EmptyString + String.length "5" + 4 < 8)%nat)
  /\ consumeToken 8 (scanner_at "=" ("1" ++ String "e" ("-" ++ "05" ++ " "))
                       None)
     = Done (None,
             {| input := "=" ++ "1" ++ String "e" ("-" ++ "05" ++ " ");
                current := len "=" + len ("1" ++ String "e" ("-" ++ "05"));
                lastToken :=
                  Some (number_token (len "=") TokenInt 10
                          ("1" ++ String "e" ("-" ++ "05"))) |}).
Proof.
  assert (H1 : IsDigit "1"%char = true) by reflexivity.
  assert (H2 : all_bytes IsDigit EmptyString = true) by reflexivity.
  assert (H3 : is_exp "e"%char = true) by reflexivity.
  assert (H4 : is_sign "-") by (right; now right).
  assert (H5 : IsDigit "0"%char = true) by reflexivity.
  assert (H6 : all_bytes IsDigit "5" = true) by reflexivity.
  assert (H7 : stops number_more " " = true) by reflexivity.
  assert (H8 : len ("=" ++ "1" ++ String "e" ("-" ++ "05" ++ " ")) < 2 ^ 62)
    by (vm_compute; reflexivity).
  assert (H9 : (String.length EmptyString + String.length "5" + 4 < 8)%nat)
    by (simpl; lia).
  split; [now repeat split|].
  exact (exponent_scanned "=" "1"%char EmptyString "e"%char "-" "0"%char "5" " " None 8
           H1 H2 H3 H4 H5 H6 H7 H8 H9).
Defined.

(** X10. An exponent mark must be followed by a digit, after its optional
    sign: otherwise the scanner reports "exponent part should contain at
    least one digit", stays where the literal starts and caches no token. *)
Theorem exponent_needs_digit (pre : string) (c : byte) (ds : string)
    (e : byte) (sg rest : string) (lt : option Token) (fuel : nat) :
  IsDigit c = true -> all_bytes IsDigit ds = true ->
  is_exp e = true -> is_sign sg ->
  starts_digit rest = false -> (sg = EmptyString -> starts_sign rest = false) ->
  len (pre ++ String c ds ++ String e (sg ++ rest)) < 2 ^ 62 ->
  (String.length ds + 2 < fuel)%nat ->
  consumeToken fuel (scanner_at pre (String c ds ++ String e (sg ++ rest)) lt)
  = Done (Some errExponent,
          scanner_at pre (String c ds ++ String e (sg ++ rest)) None).
Proof.
  intros Hc Hds He Hsg Hnodigit Hnosign Hlen Hfuel.
  destruct fuel as [|fuel]; [lia|].
  pose proof (consumeToken_number fuel pre EmptyString c
                (ds ++ String e (sg ++ rest)) lt
                (or_introl eq_refl) Hc Hlen) as Henter.
  cbn [append] in Henter |- *. rewrite Henter. clear Henter.
  change (String c (ds ++ String e (sg ++ rest)))
    with (String c ds ++ String e (sg ++ rest))%string.
  set (I := (String c ds ++ String e (sg ++ rest))%string) in *.
  assert (Hsign : peekIs (scanner_at pre I None) 0 "+"
                  ||| peekIs (scanner_at pre I None) 0 "-" = Done false).
  { unfold I. cbn [append]. rewrite sign_test by exact Hlen.
    now not_that_byte IsDigit Hc. }
  assert (Hhex : peekIs (scanner_at pre I None) 0 "0"
                 &&& Done (peekOk (scanner_at pre I None) 1)
                 &&& peekIs (scanner_at pre I None) 1 "x" = Done false).
  { unfold I. cbn [append]. rewrite hex_test by exact Hlen.
    unfold hex_prefix. destruct ds as [|d ds]; cbn [append].
    - now rewrite (is_exp_not_x e He), andb_false_r.
    - simpl in Hds. apply andb_true_iff in Hds as [Hd _].
      not_that_byte IsDigit Hd. now rewrite andb_false_r. }
  rewrite (consumeNumber_S _ _ _ _ Hsign Hhex). cbv zeta iota.
  assert (Hall : all_bytes (digit_of 10) (String c ds) = true).
  { rewrite (all_bytes_ext _ IsDigit) by reflexivity. simpl. now rewrite Hc. }
  replace (S fuel) with (String.length (String c ds)
                         + S (fuel - String.length (String c ds)))%nat
    by (simpl; lia).
  pose proof (consumeNumber_loop_run 10 None (String e (sg ++ rest))
                (String c ds) (or_introl eq_refl) EmptyString pre
                (S (fuel - String.length (String c ds))) false TokenInt false
                Hall Hlen) as Hrun.
  change (len EmptyString) with 0 in Hrun. rewrite Z.add_0_l in Hrun.
  change (EmptyString ++ String c ds ++ String e (sg ++ rest))%string
    with I in Hrun.
  rewrite Hrun. clear Hrun.
  pose proof (consumeNumber_loop_exp None pre (String c ds) e sg rest
                (fuel - String.length (String c ds)) TokenInt
                (seen (String c ds) false) He Hsg Hnosign Hlen) as Hexp.
  fold I in Hexp. rewrite Hnodigit in Hexp. rewrite Hexp. reflexivity.
Qed.

Lemma exponent_needs_digit_witness :
  (IsDigit "1"%char = true /\ all_bytes IsDigit "2" = true
   /\ is_exp "E"%char = true /\ is_sign "+"
   /\ starts_digit ")" = false /\ ("+" = EmptyString -> starts_sign ")" = false)
   /\ len ("(" ++ "12" ++ String "E" ("+" ++ ")")) < 2 ^ 62
   /\ (String.length "2" + 2 < 8)%nat)
  /\ consumeToken 8 (scanner_at "(" ("12" ++ String "E" ("+" ++ ")")) None)
     = Done (Some errExponent,
             scanner_at "(" ("12" ++ String "E" ("+" ++ ")")) None).
Proof.
  assert (H1 : IsDigit "1"%char = true) by reflexivity.
  assert (H2 : all_bytes IsDigit "2" = true) by reflexivity.
  assert (H3 : is_exp "E"%char = true) by reflexivity.
  assert (H4 : is_sign "+") by (right; now left).
  assert (H5 : starts_digit ")" = false) by reflexivity.
  assert (H6 : "+" = EmptyString -> starts_sign ")" = false) by reflexivity.
  assert (H7 : len ("(" ++ "12" ++ String "E" ("+" ++ ")")) < 2 ^ 62)
    by (vm_compute; reflexivity).
  assert (H8 : (String.length "2" + 2 < 8)%nat) by (simpl; lia).
  split; [now repeat split|].
  exact (exponent_needs_digit "(" "1"%char "2" "E"%char "+" ")" None 8
           H1 H2 H3 H4 H5 H6 H7 H8).
Defined.

(** ** Comments *)

(** The text starts with [*/]. *)
Definition closes (s : string) : bool :=
  match s with
  | String c (String d _) => Ascii.eqb c "*" && Ascii.eqb d "/"
  | _ => false
  end.

(** A [*/] starts inside [s], or at its last byte when [next] follows. *)
Fixpoint has_close (s next : string) : bool :=
  match s with
  | String c r => closes (String c (r ++ next)) || has_close r next
  | EmptyString => false
  end.

(** The test of the loop of [consumeMultiLineComment]. *)
Lemma close_test (pre done s : string) (lt : option Token) :
  len (pre ++ done ++ s) < 2 ^ 62 ->
  Done (peekOk (scanner_at pre (done ++ s) lt) (addi (len done) 1))
  &&& peekIs (scanner_at pre (done ++ s) lt) (len done) "*"
  &&& peekIs (scanner_at pre (done ++ s) lt) (addi (len done) 1) "/"
  = Done (closes s).
Proof.
  intros Hlen.
  pose proof (len_nonneg pre). pose proof (len_nonneg done).
  pose proof (len_nonneg s).
  assert (Hl : len pre + len done + len s < 2 ^ 62) by (len_norm_in Hlen; lia).
  rewrite addi_small by lia.
  rewrite peekOk_at by (exact Hlen || lia).
  unfold peekIs. rewrite !peekN_at by (exact Hlen || lia).
  destruct s as [|c [|d s]].
  - replace (len done + 1 <? len (done ++ EmptyString)) with false
      by (symmetry; apply Z.ltb_ge; len_norm; lia).
    reflexivity.
  - replace (len done + 1 <? len (done ++ String c EmptyString)) with false
      by (symmetry; apply Z.ltb_ge; len_norm; lia).
    reflexivity.
  - replace (len done + 1 <? len (done ++ String c (String d s))) with true
      by (symmetry; apply Z.ltb_lt; len_norm; pose proof (len_nonneg s); lia).
    rewrite index_len.
    replace (len done + 1) with (len (done ++ String c EmptyString))
      by (len_norm; lia).
    rewrite (append_String_assoc done c (String d s)), index_len.
    cbn [and_then bind closes]. now destruct (Ascii.eqb c "*").
Qed.

(** The loop of [consumeMultiLineComment] runs to the first [*/]. *)
Lemma consumeMultiLineComment_loop_closed (lt : option Token) (rest : string)
    (todo : string) :
  forall (done pre : string) (n : nat),
    has_close todo "*" = false ->
    len (pre ++ done ++ todo ++ "*/" ++ rest) < 2 ^ 62 ->
    consumeMultiLineComment_loop (String.length todo + S n)
      (scanner_at pre (done ++ todo ++ "*/" ++ rest) lt) (len done)
    = Done (len done + len todo + 2).
Proof.
  induction todo as [|c todo IH]; intros done pre n Hopen Hlen;
    pose proof (len_nonneg pre); pose proof (len_nonneg done);
    pose proof (len_nonneg rest).
  - assert (Hl : len pre + len done + len rest + 2 < 2 ^ 62)
      by (len_norm_in Hlen; lia).
    cbn [String.length Nat.add consumeMultiLineComment_loop append].
    replace (isEOF (scanner_at pre (done ++ String "*" (String "/" rest)) lt))
      with false
      by (symmetry; unfold isEOF, scanner_at; cbn [current input];
          rewrite Z.geb_leb; apply Z.leb_gt; len_norm; lia).
    cbn [negb]. rewrite close_test by exact Hlen. cbn [bind closes].
    change (Ascii.eqb "*" "*" && Ascii.eqb "/" "/") with true. cbv iota.
    rewrite addi_small by lia. change (len EmptyString) with 0. f_equal. lia.
  - pose proof (len_nonneg todo).
    assert (Hl : len pre + len done + len todo + len rest + 3 < 2 ^ 62)
      by (len_norm_in Hlen; lia).
    cbn [String.length Nat.add consumeMultiLineComment_loop].
    replace (isEOF (scanner_at pre (done ++ String c todo ++ "*/" ++ rest) lt))
      with false
      by (symmetry; unfold isEOF, scanner_at; cbn [current input];
          rewrite Z.geb_leb; apply Z.leb_gt; len_norm; lia).
    cbn [negb]. rewrite close_test by exact Hlen.
    cbn [has_close] in Hopen. apply orb_false_iff in Hopen as [Hc Hopen].
    replace (closes (String c todo ++ "*/" ++ rest)) with false.
    2:{ symmetry. cbn [append closes] in Hc |- *.
        destruct todo as [|d todo]; cbn [append] in Hc |- *; exact Hc. }
    cbn [bind]. rewrite addi_small by lia.
    replace (len done + 1) with (len (done ++ String c EmptyString))
      by (len_norm; lia).
    cbn [append]. rewrite (append_String_assoc done c).
    rewrite IH; [|exact Hopen|now rewrite <- append_String_assoc].
    f_equal. len_norm. lia.
Qed.

(** [consumeMultiLineComment] on a closed comment: the cursor is left after
    the first [*/]. *)
Lemma consumeMultiLineComment_closed (pre body rest : string)
    (lt : option Token) (fuel : nat) :
  has_close body "*" = false ->
  len (pre ++ "/*" ++ body ++ "*/" ++ rest) < 2 ^ 62 ->
  (String.length body < fuel)%nat ->
  consumeMultiLineComment fuel (scanner_at pre ("/*" ++ body ++ "*/" ++ rest) lt)
  = Done (scanner_at (pre ++ "/*" ++ body ++ "*/") rest lt).
Proof.
  intros Hopen Hlen Hfuel.
  pose proof (len_nonneg pre). pose proof (len_nonneg body).
  pose proof (len_nonneg rest).
  assert (Hl : len pre + len body + len rest + 4 < 2 ^ 62)
    by (len_norm_in Hlen; lia).
  unfold consumeMultiLineComment. cbv zeta.
  change (skipN (scanner_at pre ("/*" ++ body ++ "*/" ++ rest) lt) 2)
    with (skipN (scanner_at pre ("/*" ++ body ++ "*/" ++ rest) lt) (len "/*")).
  rewrite (skipN_at pre "/*" (body ++ "*/" ++ rest) lt Hlen).
  pose proof (consumeMultiLineComment_loop_closed lt rest body EmptyString
                (pre ++ "/*") (fuel - String.length body - 1) Hopen) as Hloop.
  replace (String.length body + S (fuel - String.length body - 1))%nat
    with fuel in Hloop by lia.
  change (EmptyString ++ body ++ "*/" ++ rest)%string
    with (body ++ "*/" ++ rest)%string in Hloop.
  change (len EmptyString) with 0 in Hloop.
  rewrite Hloop by (now rewrite append_assoc_s). cbn [bind].
  rewrite Z.add_0_l.
  replace (len body + 2) with (len (body ++ "*/")) by (len_norm; lia).
  pose proof (skipN_at (pre ++ "/*") (body ++ "*/") rest lt) as Hskip.
  rewrite (append_assoc_s body "*/" rest) in Hskip.
  rewrite Hskip by (now rewrite append_assoc_s).
  now rewrite (append_assoc_s pre "/*" (body ++ "*/")).
Qed.

(** ** White space *)

(** An ASCII white-space byte: tab, line feed, vertical tab, form feed,
    carriage return or space. *)
Definition ascii_space (c : byte) : bool := (code c <? 128) && IsSpace (code c).

(** [skipSpace] runs over ASCII white space. *)
Lemma skipSpace_run (lt : option Token) (s : string) (ws : string) :
  forall (pre : string) (n : nat),
    all_bytes ascii_space ws = true ->
    len (pre ++ ws ++ s) < 2 ^ 62 ->
    skipSpace (String.length ws + n) (scanner_at pre (ws ++ s) lt)
    = skipSpace n (scanner_at (pre ++ ws) s lt).
Proof.
  induction ws as [|c ws IH]; intros pre n Hws Hlen.
  - cbn [String.length Nat.add append]. now rewrite append_empty_r.
  - simpl in Hws. apply andb_true_iff in Hws as [Hc Hws].
    unfold ascii_space in Hc. apply andb_true_iff in Hc as [Hc1 Hc2].
    cbn [String.length Nat.add skipSpace append]. rewrite isEOF_at.
    cbn [negb]. unfold scanner_at at 1 2 3. cbn [input current].
    rewrite substr_rest. cbn [bind]. unfold DecodeRuneInString.
    rewrite Hc1, Hc2. cbn [negb].
    change (setCurrent (scanner_at pre (String c (ws ++ s)) lt)
              (addi (current (scanner_at pre (String c (ws ++ s)) lt)) 1))
      with (skipN (scanner_at pre (String c EmptyString ++ ws ++ s) lt)
              (len (String c EmptyString))).
    rewrite skipN_at by exact Hlen.
    rewrite IH; [|exact Hws|now rewrite append_assoc_s].
    now rewrite append_assoc_s.
Qed.

(** X11. White space before a token is skipped: scanning from a run of ASCII
    white space that is followed by the first byte of a token gives the
    result of scanning from that byte.  (The byte is ASCII, no white space,
    and neither [-] nor [/], which could open a comment.) *)
Theorem white_space_skipped (pre ws : string) (c : byte) (s : string)
    (lt : option Token) (fuel : nat) :
  all_bytes ascii_space ws = true -> token_start c = true ->
  len (pre ++ ws ++ String c s) < 2 ^ 62 ->
  (String.length ws < fuel)%nat ->
  consumeToken fuel (scanner_at pre (ws ++ String c s) lt)
  = consumeToken fuel (scanner_at (pre ++ ws) (String c s) None).
Proof.
  intros Hws Hstart Hlen Hfuel.
  assert (Hlen' : len ((pre ++ ws) ++ String c s) < 2 ^ 62)
    by (now rewrite append_assoc_s).
  remember (consumeToken fuel (scanner_at (pre ++ ws) (String c s) None))
    as R eqn:HR.
  destruct (token_start_inv _ Hstart) as (H1 & H2 & H3 & H4 & H5 & H6).
  unfold consumeToken.
  replace fuel with (String.length ws + S (fuel - String.length ws - 1))%nat
    at 1 by lia.
  rewrite skipSpace_run by assumption.
  rewrite skipSpace_at by assumption. cbn [bind]. rewrite setLastToken_at.
  destruct fuel as [|fuel]; [lia|].
  rewrite skipComments_at by assumption. cbn [bind].
  rewrite skipSpace_at by assumption. cbn [bind].
  subst R. unfold consumeToken.
  rewrite skipSpace_at by assumption. cbn [bind]. rewrite setLastToken_at.
  rewrite skipComments_at by assumption. cbn [bind].
  rewrite skipSpace_at by assumption. cbn [bind]. reflexivity.
Qed.

Lemma white_space_skipped_witness :
  let ws := String " " (String "009" (String "010" EmptyString)) in
  (all_bytes ascii_space ws = true /\ token_start "x"%char = true
   /\ len ("a" ++ ws ++ "x1") < 2 ^ 62
   /\ (String.length ws < 8)%nat)
  /\ consumeToken 8 (scanner_at "a" (ws ++ "x1") None)
     = consumeToken 8 (scanner_at ("a" ++ ws) "x1" None).
Proof.
  intros ws.
  assert (H1 : all_bytes ascii_space ws = true) by reflexivity.
  assert (H2 : token_start "x"%char = true) by reflexivity.
  assert (H3 : len ("a" ++ ws ++ "x1") < 2 ^ 62) by (vm_compute; reflexivity).
  assert (H4 : (String.length ws < 8)%nat) by (simpl; lia).
  split; [now repeat split|].
  exact (white_space_skipped "a" ws "x"%char "1" None 8 H1 H2 H3 H4).
Defined.

(** ** Comments before a token *)

(** [skipComments] at a closed block comment. *)
Lemma skipComments_block (pre body rest : string) (lt : option Token)
    (fuel : nat) :
  has_close body "*" = false ->
  len (pre ++ "/*" ++ body ++ "*/" ++ rest) < 2 ^ 62 ->
  (String.length body < fuel)%nat ->
  skipComments (S fuel) (scanner_at pre ("/*" ++ body ++ "*/" ++ rest) lt)
  = skipComments fuel (scanner_at (pre ++ "/*" ++ body ++ "*/") rest lt).
Proof.
  intros Hopen Hlen Hfuel.
  pose proof (consumeMultiLineComment_closed pre body rest lt fuel Hopen Hlen
                Hfuel) as Hskip.
  pose proof (len_nonneg pre). pose proof (len_nonneg body).
  pose proof (len_nonneg rest).
  assert (Hl : len pre + len body + len rest + 4 < 2 ^ 62)
    by (len_norm_in Hlen; lia).
  cbn [skipComments]. cbn [append] in Hlen, Hskip |- *.
  rewrite isEOF_at. cbn [negb].
  rewrite peekN_at by (exact Hlen || lia). rewrite index_0. cbn [bind].
  change (Ascii.eqb "/" "-") with false. change (Ascii.eqb "/" "/") with true.
  cbv iota. rewrite peekOk_at by (exact Hlen || lia).
  replace (1 <? len (String "/" (String "*" (body ++ String "*" (String "/" rest)))))
    with true by (symmetry; apply Z.ltb_lt; len_norm; lia).
  unfold peekIs. rewrite peekN_at by (exact Hlen || lia).
  change (index (String "/" (String "*" ?x)) 1) with (Done "*"%char).
  cbn [and_then bind]. change (Ascii.eqb "*" "*") with true. cbv iota.
  rewrite Hskip. reflexivity.
Qed.

(** X12. A closed block comment before a token is skipped.  The comment runs
    from [/*] to the first [*/] (comments do not nest); scanning from its
    [/*] gives the result of scanning from the byte after its [*/], when
    that byte starts a token. *)
Theorem block_comment_skipped (pre body : string) (c : byte) (s : string)
    (lt : option Token) (fuel : nat) :
  has_close body "*" = false -> token_start c = true ->
  len (pre ++ "/*" ++ body ++ "*/" ++ String c s) < 2 ^ 62 ->
  (String.length body + 2 < fuel)%nat ->
  consumeToken fuel (scanner_at pre ("/*" ++ body ++ "*/" ++ String c s) lt)
  = consumeToken fuel (scanner_at (pre ++ "/*" ++ body ++ "*/") (String c s) None).
Proof.
  intros Hopen Hstart Hlen Hfuel.
  assert (Hlen' : len ((pre ++ "/*" ++ body ++ "*/") ++ String c s) < 2 ^ 62).
  { rewrite append_assoc_s. cbn [append]. rewrite append_assoc_s. exact Hlen. }
  destruct fuel as [|[|fuel]]; [lia|lia|].
  remember (consumeToken (S (S fuel))
              (scanner_at (pre ++ "/*" ++ body ++ "*/") (String c s) None))
    as R eqn:HR.
  destruct (token_start_inv _ Hstart) as (H1 & H2 & H3 & H4 & H5 & H6).
  unfold consumeToken.
  change ("/*" ++ body ++ "*/" ++ String c s)%string
    with (String "/" (String "*" (body ++ "*/" ++ String c s))) at 1.
  rewrite skipSpace_at by (exact Hlen || (vm_compute; reflexivity)).
  cbn [bind]. rewrite setLastToken_at.
  change (String "/" (String "*" (body ++ "*/" ++ String c s)))
    with ("/*" ++ body ++ "*/" ++ String c s)%string.
  rewrite skipComments_block by (assumption || lia).
  rewrite skipComments_at by assumption. cbn [bind].
  rewrite skipSpace_at by assumption. cbn [bind].
  subst R. unfold consumeToken.
  rewrite skipSpace_at by assumption. cbn [bind]. rewrite setLastToken_at.
  rewrite skipComments_at by assumption. cbn [bind].
  rewrite skipSpace_at by assumption. cbn [bind]. reflexivity.
Qed.

Lemma block_comment_skipped_witness :
  (has_close " a /* b " "*" = false /\ token_start "x"%char = true
   /\ len ("1 " ++ "/*" ++ " a /* b " ++ "*/" ++ "x */") < 2 ^ 62
   /\ (String.length " a /* b " + 2 < 16)%nat)
  /\ consumeToken 16
       (scanner_at "1 " ("/*" ++ " a /* b " ++ "*/" ++ "x */") None)
     = consumeToken 16
         (scanner_at ("1 " ++ "/*" ++ " a /* b " ++ "*/") "x */" None).
Proof.
  assert (H1 : has_close " a /* b " "*" = false) by reflexivity.
  assert (H2 : token_start "x"%char = true) by reflexivity.
  assert (H3 : len ("1 " ++ "/*" ++ " a /* b " ++ "*/" ++ "x */") < 2 ^ 62)
    by (vm_compute; reflexivity).
  assert (H4 : (String.length " a /* b " + 2 < 16)%nat) by (simpl; lia).
  split; [now repeat split|].
  exact (block_comment_skipped "1 " " a /* b " "x"%char " */" None 16
           H1 H2 H3 H4).
Defined.

(** *** Line comments *)

(** A byte inside a line comment: neither CR nor LF. *)
Definition in_line (c : byte) : bool :=
  negb (Ascii.eqb c "013") && negb (Ascii.eqb c "010").

(** [consumeSingleLineComment] on a comment that a CR or LF ends: the
    cursor is left after that byte. *)
Lemma consumeSingleLineComment_closed (pre body : string) (nl : byte)
    (rest : string) (lt : option Token) (fuel : nat) :
  all_bytes in_line body = true -> in_line nl = false ->
  len (pre ++ "--" ++ body ++ String nl rest) < 2 ^ 62 ->
  (String.length body < fuel)%nat ->
  consumeSingleLineComment fuel
    (scanner_at pre ("--" ++ body ++ String nl rest) lt)
  = Done (scanner_at (pre ++ "--" ++ body ++ String nl EmptyString) rest lt).
Proof.
  intros Hbody Hnl Hlen Hfuel.
  pose proof (len_nonneg pre). pose proof (len_nonneg body).
  pose proof (len_nonneg rest).
  assert (Hl : len pre + len body + len rest + 3 < 2 ^ 62)
    by (len_norm_in Hlen; lia).
  unfold consumeSingleLineComment. cbv zeta.
  change (fun c : byte => negb (Ascii.eqb c "013") && negb (Ascii.eqb c "010"))
    with in_line.
  change (skipN (scanner_at pre ("--" ++ body ++ String nl rest) lt) 2)
    with (skipN (scanner_at pre ("--" ++ body ++ String nl rest) lt) (len "--")).
  rewrite (skipN_at pre "--" (body ++ String nl rest) lt Hlen).
  assert (Hlen' : len ((pre ++ "--") ++ body ++ String nl rest) < 2 ^ 62)
    by (now rewrite append_assoc_s).
  pose proof (scan_while_at in_line lt (body ++ String nl rest) EmptyString
                (pre ++ "--") fuel) as Hscan.
  change (EmptyString ++ body ++ String nl rest)%string
    with (body ++ String nl rest)%string in Hscan.
  change (len EmptyString) with 0 in Hscan.
  rewrite run_all in Hscan; [|exact Hbody|simpl; now rewrite Hnl].
  rewrite Hscan by (exact Hlen' || lia). cbn [bind]. fold (len body).
  rewrite Z.add_0_l. rewrite addi_small by lia.
  replace (len body + 1) with (len (body ++ String nl EmptyString))
    by (len_norm; lia).
  pose proof (skipN_at (pre ++ "--") (body ++ String nl EmptyString) rest lt)
    as Hskip.
  rewrite <- (append_String_assoc body nl rest) in Hskip.
  rewrite Hskip by exact Hlen'.
  now rewrite (append_assoc_s pre "--" (body ++ String nl EmptyString)).
Qed.

(** [consumeSingleLineComment] on a comment that the end of the input
    ends: the cursor is left one byte past the end. *)
Lemma consumeSingleLineComment_open (pre body : string) (lt : option Token)
    (fuel : nat) :
  all_bytes in_line body = true ->
  len (pre ++ "--" ++ body) < 2 ^ 62 ->
  (String.length body < fuel)%nat ->
  consumeSingleLineComment fuel (scanner_at pre ("--" ++ body) lt)
  = Done {| input := pre ++ "--" ++ body;
            current := len (pre ++ "--" ++ body) + 1;
            lastToken := lt |}.
Proof.
  intros Hbody Hlen Hfuel.
  pose proof (len_nonneg pre). pose proof (len_nonneg body).
  assert (Hl : len pre + len body + 2 < 2 ^ 62) by (len_norm_in Hlen; lia).
  unfold consumeSingleLineComment. cbv zeta.
  change (fun c : byte => negb (Ascii.eqb c "013") && negb (Ascii.eqb c "010"))
    with in_line.
  change (skipN (scanner_at pre ("--" ++ body) lt) 2)
    with (skipN (scanner_at pre ("--" ++ body) lt) (len "--")).
  rewrite (skipN_at pre "--" body lt Hlen).
  assert (Hlen' : len ((pre ++ "--") ++ body) < 2 ^ 62)
    by (now rewrite append_assoc_s).
  pose proof (scan_while_at in_line lt body EmptyString (pre ++ "--") fuel)
    as Hscan.
  change (EmptyString ++ body)%string with body in Hscan.
  change (len EmptyString) with 0 in Hscan.
  rewrite run_whole in Hscan by exact Hbody.
  rewrite Hscan by (exact Hlen' || lia). cbn [bind]. fold (len body).
  rewrite Z.add_0_l. rewrite addi_small by lia.
  unfold skipN, setCurrent, scanner_at. cbn [input current lastToken].
  rewrite append_assoc_s. len_norm. rewrite addi_small by lia.
  f_equal. f_equal. lia.
Qed.

(** The test of [skipComments] for a line comment. *)
Lemma line_comment_test (pre s : string) (lt : option Token) :
  len (pre ++ "--" ++ s) < 2 ^ 62 ->
  Done (peekOk (scanner_at pre ("--" ++ s) lt) 1)
  &&& peekIs (scanner_at pre ("--" ++ s) lt) 1 "-"
  = Done true.
Proof.
  intros Hlen. pose proof (len_nonneg pre). pose proof (len_nonneg s).
  rewrite peekOk_at by (exact Hlen || lia).
  replace (1 <? len ("--" ++ s)) with true
    by (symmetry; apply Z.ltb_lt; len_norm; lia).
  unfold peekIs. rewrite peekN_at by (exact Hlen || lia). reflexivity.
Qed.

Lemma skipComments_line_S (pre s : string) (lt : option Token) (fuel : nat) :
  len (pre ++ "--" ++ s) < 2 ^ 62 ->
  skipComments (S fuel) (scanner_at pre ("--" ++ s) lt)
  = (l <- consumeSingleLineComment fuel (scanner_at pre ("--" ++ s) lt) ;;
     skipComments fuel l).
Proof.
  intros Hlen. cbn [skipComments].
  change ("--" ++ s)%string with (String "-" (String "-" s)) at 1 2.
  rewrite isEOF_at. cbn [negb].
  rewrite peekN_at by (exact Hlen || lia). rewrite index_0. cbn [bind].
  change (Ascii.eqb "-" "-") with true. cbv iota.
  change (String "-" (String "-" s)) with ("--" ++ s)%string.
  now rewrite line_comment_test by exact Hlen.
Qed.

(** X13. A line comment before a token is skipped.  The comment runs from
    [--] to the first CR or LF, which is skipped too; scanning from its [--]
    gives the result of scanning from the byte after the line end, when that
    byte starts a token. *)
Theorem line_comment_skipped (pre body : string) (nl c : byte) (s : string)
    (lt : option Token) (fuel : nat) :
  all_bytes in_line body = true -> in_line nl = false ->
  token_start c = true ->
  len (pre ++ "--" ++ body ++ String nl (String c s)) < 2 ^ 62 ->
  (String.length body + 2 < fuel)%nat ->
  consumeToken fuel
    (scanner_at pre ("--" ++ body ++ String nl (String c s)) lt)
  = consumeToken fuel
      (scanner_at (pre ++ "--" ++ body ++ String nl EmptyString) (String c s)
                  None).
Proof.
  intros Hbody Hnl Hstart Hlen Hfuel.
  assert (Hlen' : len ((pre ++ "--" ++ body ++ String nl EmptyString)
                       ++ String c s) < 2 ^ 62).
  { rewrite append_assoc_s. cbn [append]. rewrite append_assoc_s.
    cbn [append]. exact Hlen. }
  destruct fuel as [|[|fuel]]; [lia|lia|].
  remember (consumeToken (S (S fuel))
              (scanner_at (pre ++ "--" ++ body ++ String nl EmptyString)
                          (String c s) None)) as R eqn:HR.
  destruct (token_start_inv _ Hstart) as (H1 & H2 & H3 & H4 & H5 & H6).
  unfold consumeToken.
  change ("--" ++ body ++ String nl (String c s))%string
    with (String "-" (String "-" (body ++ String nl (String c s)))) at 1.
  rewrite skipSpace_at by (exact Hlen || (vm_compute; reflexivity)).
  cbn [bind]. rewrite setLastToken_at.
  change (String "-" (String "-" (body ++ String nl (String c s))))
    with ("--" ++ body ++ String nl (String c s))%string.
  rewrite skipComments_line_S by exact Hlen.
  rewrite consumeSingleLineComment_closed by (assumption || lia). cbn [bind].
  rewrite skipComments_at by assumption. cbn [bind].
  rewrite skipSpace_at by assumption. cbn [bind].
  subst R. unfold consumeToken.
  rewrite skipSpace_at by assumption. cbn [bind]. rewrite setLastToken_at.
  rewrite skipComments_at by assumption. cbn [bind].
  rewrite skipSpace_at by assumption. cbn [bind]. reflexivity.
Qed.

Lemma line_comment_skipped_witness :
  (all_bytes in_line " a -- b" = true /\ in_line "010"%char = false
   /\ token_start "x"%char = true
   /\ len ("1 " ++ "--" ++ " a -- b" ++ String "010" "x") < 2 ^ 62
   /\ (String.length " a -- b" + 2 < 16)%nat)
  /\ consumeToken 16
       (scanner_at "1 " ("--" ++ " a -- b" ++ String "010" "x") None)
     = consumeToken 16
         (scanner_at ("1 " ++ "--" ++ " a -- b" ++ String "010" EmptyString)
                     "x" None).
Proof.
  assert (H1 : all_bytes in_line " a -- b" = true) by reflexivity.
  assert (H2 : in_line "010"%char = false) by reflexivity.
  assert (H3 : token_start "x"%char = true) by reflexivity.
  assert (H4 : len ("1 " ++ "--" ++ " a -- b" ++ String "010" "x") < 2 ^ 62)
    by (vm_compute; reflexivity).
  assert (H5 : (String.length " a -- b" + 2 < 16)%nat) by (simpl; lia).
  split; [now repeat split|].
  exact (line_comment_skipped "1 " " a -- b" "010"%char "x"%char EmptyString None 16
           H1 H2 H3 H4 H5).
Defined.

(** X14. A line comment that the end of the input ends: the scanner returns
    no token and no error, and leaves the cursor one byte past the end of
    the input. *)
Theorem line_comment_at_end (pre body : string) (lt : option Token)
    (fuel : nat) :
  all_bytes in_line body = true ->
  len (pre ++ "--" ++ body) < 2 ^ 62 ->
  (String.length body + 2 < fuel)%nat ->
  consumeToken fuel (scanner_at pre ("--" ++ body) lt)
  = Done (None,
          {| input := pre ++ "--" ++ body;
             current := len (pre ++ "--" ++ body) + 1;
             lastToken := None |}).
Proof.
  intros Hbody Hlen Hfuel.
  destruct fuel as [|[|fuel]]; [lia|lia|].
  unfold consumeToken.
  change ("--" ++ body)%string with (String "-" (String "-" body)) at 1.
  rewrite skipSpace_at by (exact Hlen || (vm_compute; reflexivity)).
  cbn [bind]. rewrite setLastToken_at.
  change (String "-" (String "-" body)) with ("--" ++ body)%string.
  rewrite skipComments_line_S by exact Hlen.
  rewrite consumeSingleLineComment_open by (assumption || lia). cbn [bind].
  assert (Heof : isEOF {| input := pre ++ "--" ++ body;
                          current := len (pre ++ "--" ++ body) + 1;
                          lastToken := None |} = true).
  { unfold isEOF. cbn [input current]. rewrite Z.geb_leb. apply Z.leb_le. lia. }
  cbn [skipComments]. rewrite Heof. cbn [negb bind skipSpace].
  rewrite Heof. cbn [negb bind]. now rewrite Heof.
Qed.

Lemma line_comment_at_end_witness :
  (all_bytes in_line " done" = true
   /\ len ("x " ++ "--" ++ " done") < 2 ^ 62
   /\ (String.length " done" + 2 < 16)%nat)
  /\ consumeToken 16 (scanner_at "x " ("--" ++ " done") None)
     = Done (None,
             {| input := "x " ++ "--" ++ " done";
                current := len ("x " ++ "--" ++ " done") + 1;
                lastToken := None |}).
Proof.
  assert (H1 : all_bytes in_line " done" = true) by reflexivity.
  assert (H2 : len ("x " ++ "--" ++ " done") < 2 ^ 62)
    by (vm_compute; reflexivity).
  assert (H3 : (String.length " done" + 2 < 16)%nat) by (simpl; lia).
  split; [now repeat split|].
  exact (line_comment_at_end "x " " done" None 16 H1 H2 H3).
Defined.

(** ** One-byte tokens *)

(** The token whose kind is its own text. *)
Definition symbol_token (pos : Pos) (text : string) : Token := tok pos text text.

(** The last lines of [consumeToken] at a byte that starts no identifier:
    the byte is a token of its own. *)
Lemma consumeToken_emit_byte (pre : string) (c : byte) (s : string)
    (lt : option Token) (fuel : nat) :
  IsIdentStart c = false ->
  len (pre ++ String c s) < 2 ^ 62 ->
  consumeToken_emit fuel (scanner_at pre (String c s) lt)
  = Done (None,
          {| input := pre ++ String c s;
             current := len pre + 1;
             lastToken := Some (symbol_token (len pre) (String c EmptyString)) |}).
Proof.
  intros Hc Hlen. pose proof (len_nonneg pre). pose proof (len_nonneg s).
  assert (Hl : len pre + len s + 1 < 2 ^ 62) by (len_norm_in Hlen; lia).
  unfold consumeToken_emit, peekHas.
  rewrite peekN_at by (exact Hlen || lia). rewrite index_0. cbn [bind].
  rewrite Hc. unfold scanner_at at 1 2 3. cbn [input current].
  rewrite addi_small by lia.
  pose proof (substr_at pre (String c EmptyString) s) as Hs.
  cbn [append] in Hs. change (len (String c EmptyString)) with 1 in Hs.
  rewrite Hs. cbn [bind].
  unfold skipN, setLastToken, setCurrent, scanner_at, symbol_token, tok.
  cbn [input current lastToken]. rewrite addi_small by lia. reflexivity.
Qed.

(** ** A comment after a comment *)

(** A space or a tab. *)
Definition blank (c : byte) : bool := Ascii.eqb c " " || Ascii.eqb c "009".

Lemma blank_inv (c : byte) :
  blank c = true ->
  ascii_space c = true
  /\ Ascii.eqb c "-" = false /\ Ascii.eqb c "/" = false
  /\ Ascii.eqb c "013" = false /\ Ascii.eqb c "010" = false.
Proof.
  unfold blank. rewrite orb_true_iff.
  intros [H | H]; apply Ascii.eqb_eq in H; subst c; repeat split; reflexivity.
Qed.

(** The two bytes that open a comment. *)
Definition opens_comment (o : string) : Prop := o = "--" \/ o = "/*".

(** X15. Comments are skipped once per token, before the second run of
    white space.  When a line comment is followed, on the next line, by a
    space or a tab (and more white space) and then by a second comment, the
    second comment is not skipped: the scanner returns its first byte, [-]
    or [/], as a token. *)
Theorem indented_second_comment_not_skipped (pre body : string) (nl sp : byte)
    (ws : string) (o1 o2 : byte) (rest : string) (lt : option Token)
    (fuel : nat) :
  all_bytes in_line body = true -> in_line nl = false ->
  blank sp = true -> all_bytes ascii_space ws = true ->
  opens_comment (String o1 (String o2 EmptyString)) ->
  len (pre ++ "--" ++ body ++ String nl (String sp ws ++ String o1 (String o2 rest)))
  < 2 ^ 62 ->
  (String.length body + String.length ws + 3 < fuel)%nat ->
  consumeToken fuel
    (scanner_at pre
       ("--" ++ body ++ String nl (String sp ws ++ String o1 (String o2 rest)))
       lt)
  = Done (None,
          {| input := pre ++ "--" ++ body
                        ++ String nl (String sp ws ++ String o1 (String o2 rest));
             current := len (pre ++ "--" ++ body ++ String nl (String sp ws)) + 1;
             lastToken :=
               Some (symbol_token
                       (len (pre ++ "--" ++ body ++ String nl (String sp ws)))
                       (String o1 EmptyString)) |}).
Proof.
  intros Hbody Hnl Hsp Hws Hopen Hlen Hfuel.
  destruct (blank_inv sp Hsp) as (Hsp1 & Hsp2 & Hsp3 & Hsp4 & Hsp5).
  set (O := String o1 (String o2 rest)) in *.
  set (P1 := (pre ++ "--" ++ body ++ String nl EmptyString)%string).
  set (P2 := (P1 ++ String sp ws)%string).
  assert (HI1 : (pre ++ "--" ++ body ++ String nl (String sp ws ++ O))%string
                = (P1 ++ String sp ws ++ O)%string).
  { unfold P1. now assoc_norm. }
  assert (HI2 : (P1 ++ String sp ws ++ O)%string = (P2 ++ O)%string)
    by (unfold P2; now rewrite append_assoc_s).
  assert (HP2 : (pre ++ "--" ++ body ++ String nl (String sp ws))%string = P2).
  { unfold P2, P1. now assoc_norm. }
  assert (Hlen1 : len (P1 ++ String sp ws ++ O) < 2 ^ 62) by (now rewrite <- HI1).
  assert (Hlen2 : len (P2 ++ O) < 2 ^ 62) by (now rewrite <- HI2).
  assert (Ho : code o1 < 128 /\ IsSpace (code o1) = false
               /\ IsIdentStart o1 = false).
  { destruct Hopen as [[= -> ->] | [= -> ->]]; repeat split;
      (reflexivity || (vm_compute; reflexivity)). }
  destruct Ho as (Ho1 & Ho2 & Ho3).
  destruct fuel as [|[|fuel]]; [lia|lia|].
  match goal with |- _ = ?R => remember R as res eqn:Hres end.
  rewrite HI1, HI2, HP2 in Hres.
  unfold consumeToken.
  (* the first comment *)
  change ("--" ++ body ++ String nl (String sp ws ++ O))%string
    with (String "-" (String "-" (body ++ String nl (String sp ws ++ O)))) at 1.
  rewrite skipSpace_at by (exact Hlen || (vm_compute; reflexivity)).
  cbn [bind]. rewrite setLastToken_at.
  change (String "-" (String "-" (body ++ String nl (String sp ws ++ O))))
    with ("--" ++ body ++ String nl (String sp ws ++ O))%string.
  rewrite skipComments_line_S by exact Hlen.
  rewrite consumeSingleLineComment_closed by (assumption || lia). cbn [bind].
  fold P1. cbn [append].
  rewrite skipComments_at by assumption. cbn [bind].
  (* the white space after it *)
  replace (S (S fuel))
    with (String.length (String sp ws)
          + S (S (S fuel) - String.length (String sp ws) - 1))%nat at 1
    by (cbn [String.length]; lia).
  change (String sp (ws ++ O)) with (String sp ws ++ O)%string.
  rewrite skipSpace_run;
    [|cbn [all_bytes]; now rewrite Hsp1, Hws|exact Hlen1].
  fold P2. subst O. cbv beta.
  rewrite skipSpace_at by assumption. cbn [bind].
  (* the switch, at the second comment *)
  rewrite isEOF_at.
  rewrite peekN_at by (exact Hlen2 || lia). rewrite index_0. cbn [bind].
  pose proof (consumeToken_emit_byte P2 o1 (String o2 rest) None (S (S fuel))
                Ho3 Hlen2) as Hemit.
  assert (Htail : consumeToken_tail (S (S fuel))
                    (scanner_at P2 (String o1 (String o2 rest)) None)
                  = consumeToken_emit (S (S fuel))
                      (scanner_at P2 (String o1 (String o2 rest)) None))
    by reflexivity.
  subst res. rewrite <- Hemit, <- Htail.
  destruct Hopen as [[= -> ->] | [= -> ->]].
  - dispatch.
    assert (Hlook : forall P,
               Done (peekOk (scanner_at P2 (String "-" (String "-" rest)) None) 1)
               &&& peekHas (scanner_at P2 (String "-" (String "-" rest)) None)
                     1 P
               = Done (P "-"%char)).
    { intros P. rewrite peekOk_at by (exact Hlen2 || lia).
      replace (1 <? len (String "-" (String "-" rest))) with true
        by (symmetry; apply Z.ltb_lt; len_norm;
            pose proof (len_nonneg rest); lia).
      unfold peekHas. rewrite peekN_at by (exact Hlen2 || lia). reflexivity. }
    rewrite (Hlook IsDigit). cbn [bind]. change (IsDigit "-"%char) with false.
    cbv iota.
    change (peekIs (scanner_at P2 (String "-" (String "-" rest)) None) 1 ">")
      with (peekHas (scanner_at P2 (String "-" (String "-" rest)) None) 1
              (fun x => Ascii.eqb x ">")).
    rewrite Hlook. reflexivity.
  - dispatch. reflexivity.
Qed.

(** Two line comments, the second one indented on the next line. *)
Lemma indented_second_comment_not_skipped_witness :
  (all_bytes in_line " a" = true /\ in_line "010"%char = false
   /\ blank " "%char = true /\ all_bytes ascii_space " " = true
   /\ opens_comment (String "-" (String "-" EmptyString))
   /\ len ("x" ++ "--" ++ " a"
           ++ String "010" (String " " " " ++ String "-" (String "-" " b")))
      < 2 ^ 62
   /\ (String.length " a" + String.length " " + 3 < 16)%nat)
  /\ consumeToken 16
       (scanner_at "x"
          ("--" ++ " a"
           ++ String "010" (String " " " " ++ String "-" (String "-" " b")))
          None)
     = Done (None,
             {| input := "x" ++ "--" ++ " a"
                           ++ String "010"
                                (String " " " " ++ String "-" (String "-" " b"));
                current := len ("x" ++ "--" ++ " a"
                                ++ String "010" (String " " " ")) + 1;
                lastToken :=
                  Some (symbol_token
                          (len ("x" ++ "--" ++ " a"
                                ++ String "010" (String " " " ")))
                          (String "-" EmptyString)) |}).
Proof.
  assert (H1 : all_bytes in_line " a" = true) by reflexivity.
  assert (H2 : in_line "010"%char = false) by reflexivity.
  assert (H3 : blank " "%char = true) by reflexivity.
  assert (H4 : all_bytes ascii_space " " = true) by reflexivity.
  assert (H5 : opens_comment (String "-" (String "-" EmptyString)))
    by (now left).
  assert (H6 : len ("x" ++ "--" ++ " a"
                    ++ String "010"
                         (String " " " " ++ String "-" (String "-" " b")))
               < 2 ^ 62) by (vm_compute; reflexivity).
  assert (H7 : (String.length " a" + String.length " " + 3 < 16)%nat)
    by (simpl; lia).
  split; [now repeat split|].
  exact (indented_second_comment_not_skipped "x" " a" "010"%char " "%char " "
           "-"%char "-"%char " b" None 16 H1 H2 H3 H4 H5 H6 H7).
Defined.

(** ** Two-byte tokens *)

(** The kind of the two-byte tokens: the comparison operators and [||] are
    their own kind. *)
Definition two_byte_kind (op : string) : option TokenKind :=
  if Contains [">="; "<="; "!="; "=="; "<>"; "||"] op then Some op
  else if String.eqb op "->" then Some TokenArrow
  else if String.eqb op "::" then Some TokenCast
  else None.

(** The first two bytes under the cursor. *)
Lemma peekIs_first (pre : string) (c : byte) (s : string) (lt : option Token)
    (x : byte) :
  len (pre ++ String c s) < 2 ^ 62 ->
  peekIs (scanner_at pre (String c s) lt) 0 x = Done (Ascii.eqb c x).
Proof.
  intros Hlen. unfold peekIs. rewrite peekN_at by (exact Hlen || lia).
  reflexivity.
Qed.

Lemma peekIs_second (pre : string) (c d : byte) (s : string)
    (lt : option Token) (x : byte) :
  len (pre ++ String c (String d s)) < 2 ^ 62 ->
  peekIs (scanner_at pre (String c (String d s)) lt) 1 x = Done (Ascii.eqb d x).
Proof.
  intros Hlen. unfold peekIs. rewrite peekN_at by (exact Hlen || lia).
  reflexivity.
Qed.

Lemma peekHas_second (pre : string) (c d : byte) (s : string)
    (lt : option Token) (P : byte -> bool) :
  len (pre ++ String c (String d s)) < 2 ^ 62 ->
  peekHas (scanner_at pre (String c (String d s)) lt) 1 P = Done (P d).
Proof.
  intros Hlen. unfold peekHas. rewrite peekN_at by (exact Hlen || lia).
  reflexivity.
Qed.

Lemma peekOk_second (pre : string) (c d : byte) (s : string)
    (lt : option Token) :
  len (pre ++ String c (String d s)) < 2 ^ 62 ->
  peekOk (scanner_at pre (String c (String d s)) lt) 1 = true.
Proof.
  intros Hlen. rewrite peekOk_at by (exact Hlen || lia).
  apply Z.ltb_lt. len_norm. pose proof (len_nonneg s). lia.
Qed.

(** Decides a test of [consumeToken] on known bytes. *)
Ltac decide_bind :=
  match goal with
  | |- bind ?e _ = _ =>
    let v := eval vm_compute in e in
    change e with v; cbn [bind]
  end.

(** Decides the tests on known bytes, wherever they are. *)
Ltac decide_ifs :=
  repeat match goal with
         | |- context [if ?b then _ else _] =>
           let v := eval vm_compute in b in
           first [ constr_eq v true | constr_eq v false ];
           change b with v; cbv iota
         end.

(** Rewrites the peeks at the first two bytes, which are known. *)
Ltac peek_two Hlen :=
  rewrite ?(peekOk_second _ _ _ _ _ Hlen);
  repeat rewrite (peekIs_first _ _ _ _ _ Hlen);
  repeat rewrite (peekIs_second _ _ _ _ _ _ Hlen);
  repeat rewrite (peekHas_second _ _ _ _ _ _ Hlen).

Lemma two_byte_kind_inv (op : string) (k : TokenKind) :
  two_byte_kind op = Some k ->
  (op = ">=" /\ k = ">=") \/ (op = "<=" /\ k = "<=")
  \/ (op = "!=" /\ k = "!=") \/ (op = "==" /\ k = "==")
  \/ (op = "<>" /\ k = "<>") \/ (op = "||" /\ k = "||")
  \/ (op = "->" /\ k = TokenArrow) \/ (op = "::" /\ k = TokenCast).
Proof.
  unfold two_byte_kind, Contains. cbn [existsb].
  repeat match goal with
         | |- context [String.eqb op ?s] =>
           destruct (String.eqb_spec op s) as [-> | _];
             [cbn; intros [= <-]; tauto|]; cbn [orb]
         end.
  discriminate.
Qed.

(** X16. The two-byte tokens.  Each of [>=], [<=], [!=], [==], [<>] and [||]
    is scanned as one token whose kind is its own text; [->] is one token
    of kind [<arrow>] and [::] one token of kind [<cast>]. *)
Theorem two_byte_token_scanned (pre op rest : string) (k : TokenKind)
    (lt : option Token) (fuel : nat) :
  two_byte_kind op = Some k ->
  len (pre ++ op ++ rest) < 2 ^ 62 ->
  (0 < fuel)%nat ->
  consumeToken fuel (scanner_at pre (op ++ rest) lt)
  = Done (None,
          {| input := pre ++ op ++ rest;
             current := len pre + 2;
             lastToken := Some {| TokPos := len pre; TokEnd := len pre + 2;
                                  Kind := k; TokString := op;
                                  Base := 0; Unquoted := false |} |}).
Proof.
  intros Hk Hlen Hfuel.
  destruct fuel as [|fuel]; [lia|].
  pose proof (len_nonneg pre). pose proof (len_nonneg rest).
  pose proof (slice_text pre op rest None Hlen) as Hslice0.
  assert (Hl : len pre + len op + len rest < 2 ^ 62)
    by (len_norm_in Hlen; lia).
  assert (Hop : len op = 2).
  { destruct (two_byte_kind_inv op k Hk)
      as [[-> _] | [[-> _] | [[-> _] | [[-> _] | [[-> _] | [[-> _]
          | [[-> _] | [-> _]]]]]]]]; reflexivity. }
  rewrite Hop in Hslice0, Hl.
  destruct (two_byte_kind_inv op k Hk)
    as [[-> ->] | [[-> ->] | [[-> ->] | [[-> ->] | [[-> ->] | [[-> ->]
        | [[-> ->] | [-> ->]]]]]]]];
    cbn [append] in Hlen, Hslice0 |- *.
  all: unfold consumeToken.
  all: rewrite skipSpace_at by (reflexivity || (vm_compute; reflexivity)).
  all: cbn [bind]; rewrite setLastToken_at.
  all: cbn [skipComments]; rewrite isEOF_at; cbn [negb].
  all: rewrite (peekN_at _ _ _ Hlen) by lia; rewrite index_0; cbn [bind].
  all: peek_two Hlen; cbn [and_then bind]; decide_ifs; cbn [bind].
  all: rewrite skipSpace_at by (reflexivity || (vm_compute; reflexivity)).
  all: cbn [bind]; rewrite isEOF_at.
  all: rewrite (peekN_at _ _ _ Hlen) by lia; rewrite index_0; cbn [bind].
  all: peek_two Hlen; cbn [and_then bind]; decide_ifs.
  all: try decide_bind; decide_ifs; try decide_bind; decide_ifs.
  all: unfold twoByteToken; rewrite Hslice0; cbn [bind].
  all: unfold skipN, setLastToken, setCurrent, scanner_at.
  all: cbn [input current lastToken]; addi_simpl; reflexivity.
Qed.

Lemma two_byte_token_scanned_witness :
  (two_byte_kind "->" = Some TokenArrow
   /\ len ("m " ++ "->" ++ "> 1") < 2 ^ 62 /\ (0 < 1)%nat)
  /\ consumeToken 1 (scanner_at "m " ("->" ++ "> 1") None)
     = Done (None,
             {| input := "m " ++ "->" ++ "> 1";
                current := len "m " + 2;
                lastToken := Some {| TokPos := len "m "; TokEnd := len "m " + 2;
                                     Kind := TokenArrow; TokString := "->";
                                     Base := 0; Unquoted := false |} |}).
Proof.
  assert (H1 : two_byte_kind "->" = Some TokenArrow) by reflexivity.
  assert (H2 : len ("m " ++ "->" ++ "> 1") < 2 ^ 62)
    by (vm_compute; reflexivity).
  assert (H3 : (0 < 1)%nat) by lia.
  split; [now repeat split|].
  exact (two_byte_token_scanned "m " "->" "> 1" TokenArrow None 1 H1 H2 H3).
Defined.

(** * The cursor and the spans of the tokens *)

(** ** Short-circuit tests that hold *)

Lemma and_then_true (a b : outcome bool) :
  a &&& b = Done true -> a = Done true /\ b = Done true.
Proof.
  unfold and_then. destruct a as [[|]| |]; simpl; intros H;
    (discriminate || now split).
Qed.

Lemma or_else_true (a b : outcome bool) :
  a ||| b = Done true -> a = Done true \/ b = Done true.
Proof.
  unfold or_else. destruct a as [[|]| |]; simpl; intros H;
    (discriminate || tauto).
Qed.

Lemma or_else_false (a b : outcome bool) :
  a ||| b = Done false -> a = Done false /\ b = Done false.
Proof.
  unfold or_else. destruct a as [[|]| |]; simpl; intros H;
    (discriminate || now split).
Qed.

Lemma Done_inj {A : Type} (x y : A) : Done x = Done y -> x = y.
Proof. now intros [= ->]. Qed.

(** ** Reads inside the input *)

(** The scanner state is in range: the cursor is a position of the input,
    its end, or one byte past the end (after a line comment that the end of
    the input ends), and the input is far from the largest [int]. *)
Definition in_range (l : Lexer) : Prop :=
  0 <= current l <= len (input l) + 1 /\ len (input l) < 2 ^ 62.

Section Reads.

Variable l : Lexer.
Hypothesis Hl : in_range l.

Lemma addi_cur (i : Z) :
  - 2 ^ 62 <= i < 2 ^ 62 -> addi (current l) i = current l + i.
Proof. intros Hi. destruct Hl as [[? ?] ?]. apply addi_small. lia. Qed.

Lemma peekOk_spec (i : Z) :
  - 2 ^ 62 <= i < 2 ^ 62 ->
  peekOk l i = (current l + i <? len (input l)).
Proof. intros Hi. unfold peekOk. now rewrite addi_cur. Qed.

Lemma peekOk_true (i : Z) :
  - 2 ^ 62 <= i < 2 ^ 62 -> peekOk l i = true ->
  current l + i < len (input l).
Proof. intros Hi. rewrite peekOk_spec by exact Hi. apply Z.ltb_lt. Qed.

Lemma isEOF_false : isEOF l = false -> current l < len (input l).
Proof. unfold isEOF. rewrite Z.geb_leb. apply Z.leb_gt. Qed.

Lemma isEOF_true : isEOF l = true -> len (input l) <= current l.
Proof. unfold isEOF. rewrite Z.geb_leb. apply Z.leb_le. Qed.

End Reads.

(** A slice that is read is a slice of the input. *)
Lemma slice_spec (l : Lexer) (i j : Z) (s : string) :
  in_range l -> - 2 ^ 62 <= i < 2 ^ 62 -> - 2 ^ 62 <= j < 2 ^ 62 ->
  slice l i j = Done s ->
  substr (input l) (current l + i) (current l + j) = Done s
  /\ 0 <= current l + i <= current l + j /\ current l + j <= len (input l).
Proof.
  intros Hl Hi Hj. unfold slice. rewrite !(addi_cur l Hl) by assumption.
  intros H. split; [exact H|]. unfold substr in H.
  destruct ((0 <=? current l + i) && (current l + i <=? current l + j)
            && (current l + j <=? len (input l))) eqn:E; [|discriminate].
  rewrite !andb_true_iff, !Z.leb_le in E. lia.
Qed.

(** ** The loops stay inside the input *)

Lemma scan_while_bound (n : nat) (l : Lexer) (P : byte -> bool) :
  in_range l ->
  forall i, 0 <= i -> current l + i <= len (input l) ->
    post (scan_while n l P i)
         (fun j => i <= j /\ current l + j <= len (input l)
                   /\ (peekOk l j = true -> peekHas l j P = Done false)).
Proof.
  intros Hl. pose proof Hl as [[Hc0 Hc1] Hlen].
  induction n as [|n IH]; intros i Hi Hle; cbn [scan_while];
    [apply post_Timeout|].
  apply post_bind_eq. intros b Hb. destruct b.
  - apply and_then_true in Hb as [Hok _]. apply Done_inj in Hok.
    apply (peekOk_true l Hl) in Hok; [|lia].
    rewrite addi_small by lia.
    eapply post_weaken; [apply IH; lia|].
    intros j (? & ? & ?). repeat split; (lia || assumption).
  - apply post_Done. repeat split; try lia.
    intros Hok. unfold and_then in Hb. rewrite Hok in Hb. exact Hb.
Qed.

(** The digit loop of [consumeNumber]: when it leaves with an index, the
    index has not gone back and is inside the input. *)
Lemma consumeNumber_loop_bound (n : nat) (l : Lexer) (base : Z) :
  in_range l ->
  forall i hasExp kind hasNum,
    0 <= i -> current l + i <= len (input l) ->
    post (consumeNumber_loop n l base i hasExp kind hasNum)
         (fun r => match r with
                   | inl _ => True
                   | inr (j, _, _) => i <= j /\ current l + j <= len (input l)
                   end).
Proof.
  intros Hl. pose proof Hl as [[Hc0 Hc1] Hlen].
  induction n as [|n IH]; intros i hasExp kind hasNum Hi Hle;
    cbn [consumeNumber_loop]; [apply post_Timeout|].
  destruct (peekOk l i) eqn:Hok; cbn [negb];
    [|apply post_Done; lia].
  apply (peekOk_true l Hl) in Hok; [|lia].
  assert (Hstep : forall e k h,
    post (consumeNumber_loop n l base (addi i 1) e k h)
         (fun r => match r with
                   | inl _ => True
                   | inr (j, _, _) => i <= j /\ current l + j <= len (input l)
                   end)).
  { intros e k h. rewrite addi_small by lia.
    eapply post_weaken; [apply IH; lia|].
    intros [e'|[[j k'] h']]; [trivial|]. lia. }
  apply post_bind_eq. intros c Hc.
  destruct ((base =? 10) && IsDigit c); [apply Hstep|].
  destruct ((base =? 16) && IsHexDigit c); [apply Hstep|].
  destruct (Ascii.eqb c "."); [apply Hstep|].
  destruct (negb (base =? 16) && _); [|apply post_Done; lia].
  destruct hasExp; [now apply post_Done|].
  rewrite addi_small by lia.
  apply post_bind_eq. intros sign Hsign.
  assert (Hi2 : forall i2, i2 = (if sign then addi (i + 1) 1 else i + 1) ->
                           peekOk l i2 = true ->
                           i + 1 <= i2 /\ current l + i2 < len (input l)).
  { intros i2 -> Hok2. destruct sign.
    - apply and_then_true in Hsign as [Hs _]. apply Done_inj in Hs.
      apply (peekOk_true l Hl) in Hs; [|lia].
      rewrite addi_small in * by lia.
      apply (peekOk_true l Hl) in Hok2; lia.
    - apply (peekOk_true l Hl) in Hok2; lia. }
  apply post_bind_eq. intros bad Hbad. destruct bad; [now apply post_Done|].
  apply or_else_false in Hbad as [Hok2 _]. apply Done_inj in Hok2.
  apply negb_false_iff in Hok2.
  destruct (Hi2 _ eq_refl Hok2) as [? ?].
  eapply post_weaken; [apply IH; lia|].
  intros [e'|[[j k'] h']]; [trivial|]. lia.
Qed.

(** ** What each scanning method leaves *)

(** The token [t] cached by a call that found the scanner in the state [l]
    and left it in the state [l']: the text of [t] is the slice of the
    input that its span names; the span starts at or after the cursor of
    [l] and ends at or before the cursor of [l'], which is inside the input
    and further than the cursor of [l]. *)
Definition token_ok (l l' : Lexer) (t : Token) : Prop :=
  substr (input l) (TokPos t) (TokEnd t) = Done (TokString t)
  /\ current l <= TokPos t /\ TokPos t <= TokEnd t
  /\ TokEnd t <= current l' /\ current l' <= len (input l)
  /\ current l < current l'.

(** A method that reads one token: the input is kept, the cursor stays
    inside the input and does not go back, and without an error a token is
    cached that satisfies [token_ok]. *)
Definition emit_ok (l : Lexer) (r : option error * Lexer) : Prop :=
  input (snd r) = input l
  /\ current l <= current (snd r) <= len (input l)
  /\ (fst r = None ->
      exists t, lastToken (snd r) = Some t /\ token_ok l (snd r) t).

(** Closes a goal [emit_ok] on the state built by a method. *)
Ltac emit_done :=
  unfold emit_ok, token_ok, skipN, setLastToken, setCurrent;
  cbn [fst snd input current lastToken TokPos TokEnd TokString];
  repeat match goal with
         | |- context [addi ?a ?b] => rewrite (addi_small a b) by lia
         end;
  repeat split; try lia; try discriminate;
  try (intros _; eexists; split; [reflexivity|];
       cbn [TokPos TokEnd TokString]; repeat split; (assumption || lia)).

Lemma consumeString_ok (n : nat) (l : Lexer) (q : bool) :
  in_range l -> current l < len (input l) ->
  post (consumeString n l q) (emit_ok l).
Proof.
  intros Hl Hlt. pose proof Hl as [[Hc0 Hc1] Hlen].
  unfold consumeString. cbv zeta.
  eapply post_bind; [apply (scan_while_bound n l _ Hl 1); lia|].
  intros i (Hi & Hle & _).
  destruct (peekOk l i) eqn:Hok; cbn [negb]; [|apply post_Done; emit_done].
  apply (peekOk_true l Hl) in Hok; [|lia].
  apply post_bind_eq. intros s Hs.
  apply (slice_spec l 1 i s Hl) in Hs as (Hs & _); [|lia|lia].
  apply post_Done. emit_done.
Qed.

Lemma twoByteToken_ok (l : Lexer) (k : option TokenKind) :
  in_range l -> peekOk l 1 = true -> post (twoByteToken l k) (emit_ok l).
Proof.
  intros Hl Hok. pose proof Hl as [[Hc0 Hc1] Hlen].
  apply (peekOk_true l Hl) in Hok; [|lia].
  unfold twoByteToken. apply post_bind_eq. intros s Hs.
  apply (slice_spec l 0 2 s Hl) in Hs as (Hs & _); [|lia|lia].
  rewrite Z.add_0_r in Hs. apply post_Done. emit_done.
Qed.

(** The byte under the cursor. *)
Lemma peekIs_byte (l : Lexer) (c x : byte) :
  peekN l 0 = Done c -> peekIs l 0 x = Done (Ascii.eqb c x).
Proof. intros H. unfold peekIs. now rewrite H. Qed.

Lemma peekHas_byte (l : Lexer) (c : byte) (P : byte -> bool) :
  peekN l 0 = Done c -> peekHas l 0 P = Done (P c).
Proof. intros H. unfold peekHas. now rewrite H. Qed.

Lemma consumeIdent_ok (n : nat) (l : Lexer) (c : byte) :
  in_range l -> current l < len (input l) ->
  peekN l 0 = Done c ->
  Ascii.eqb c "`" = true \/ Ascii.eqb c "$" = true \/ IsIdentPart c = true ->
  post (consumeIdent n l) (emit_ok l).
Proof.
  intros Hl Hlt Hc Hstart. pose proof Hl as [[Hc0 Hc1] Hlen].
  assert (Hok0 : peekOk l 0 = true).
  { rewrite (peekOk_spec l Hl) by lia. apply Z.ltb_lt. lia. }
  unfold consumeIdent. rewrite Hok0, (peekIs_byte l c _ Hc).
  cbn [and_then bind]. cbv zeta.
  destruct (Ascii.eqb c "`") eqn:Hbt; cbn [negb andb].
  - (* between backticks *)
    assert (Hl1 : in_range (skipN l 1)).
    { unfold in_range, skipN, setCurrent. cbn [input current].
      rewrite addi_small by lia. lia. }
    assert (Hcur1 : current (skipN l 1) = current l + 1).
    { unfold skipN, setCurrent. cbn [current]. apply addi_small. lia. }
    apply post_bind_assoc.
    eapply post_bind;
      [apply (scan_while_bound n (skipN l 1) _ Hl1 0);
       [lia|rewrite Hcur1; change (input (skipN l 1)) with (input l); lia]|].
    intros i (Hi & Hle & _). change (input (skipN l 1)) with (input l) in Hle.
    apply post_bind_assoc. apply post_bind_eq. intros bad Hbad.
    destruct bad.
    + apply post_bind_assoc. apply post_bind_eq. intros s Hs. cbn [bind].
      apply post_Done. unfold emit_ok. cbn [fst snd input].
      rewrite Hcur1. repeat split; (lia || discriminate).
    + cbn [bind]. apply or_else_false in Hbad as [Hok _].
      apply Done_inj in Hok. apply negb_false_iff in Hok.
      apply (peekOk_true _ Hl1) in Hok; [|lia].
      change (input (skipN l 1)) with (input l) in Hok.
      apply post_bind_eq. intros s Hs.
      apply (slice_spec _ 0 i s Hl1) in Hs as (Hs & _); [|lia|lia].
      change (input (skipN l 1)) with (input l) in Hs.
      rewrite Z.add_0_r in Hs.
      apply post_Done. rewrite Hcur1 in *.
      unfold emit_ok, token_ok, skipN, setLastToken, setCurrent.
      cbn [fst snd input current lastToken TokPos TokEnd TokString].
      rewrite !(addi_small (current l) 1) by lia.
      repeat match goal with
             | |- context [addi ?a ?b] => rewrite (addi_small a b) by lia
             end.
      repeat split; try lia.
      intros _. eexists. split; [reflexivity|].
      cbn [TokPos TokEnd TokString]. repeat split; (assumption || lia).
  - (* a word *)
    rewrite (peekIs_byte l c _ Hc). cbn [bind].
    apply post_bind_assoc.
    eapply post_bind;
      [apply (scan_while_bound n l _ Hl (if Ascii.eqb c "$" then addi 0 1 else 0));
       destruct (Ascii.eqb c "$"); change (addi 0 1) with 1; lia|].
    intros i (Hi & Hle & Hstop). cbn [bind].
    assert (Hi1 : 1 <= i).
    { destruct (Ascii.eqb c "$") eqn:Hd; [change (addi 0 1) with 1 in Hi; lia|].
      destruct Hstart as [H | [H | H]]; try congruence.
      destruct (Z.eq_dec i 0) as [-> | Hne]; [|lia].
      specialize (Hstop Hok0). rewrite (peekHas_byte l c _ Hc) in Hstop.
      congruence. }
    apply post_bind_eq. intros s Hs.
    apply (slice_spec l 0 i s Hl) in Hs as (Hs & _); [|lia|lia].
    rewrite Z.add_0_r in Hs. apply post_Done. emit_done.
Qed.

(** The digit loop of [consumeNumber] started on a digit or a dot steps
    over it. *)
Lemma consumeNumber_loop_first (n : nat) (l : Lexer) (c : byte) :
  in_range l -> current l < len (input l) ->
  peekN l 0 = Done c -> IsDigit c = true \/ Ascii.eqb c "." = true ->
  forall hasExp kind hasNum,
    post (consumeNumber_loop n l 10 0 hasExp kind hasNum)
         (fun r => match r with
                   | inl _ => True
                   | inr (j, _, _) => 1 <= j /\ current l + j <= len (input l)
                   end).
Proof.
  intros Hl Hlt Hc Hstart hasExp kind hasNum.
  pose proof Hl as [[Hc0 Hc1] Hlen].
  destruct n as [|n]; cbn [consumeNumber_loop]; [apply post_Timeout|].
  replace (peekOk l 0) with true
    by (symmetry; rewrite (peekOk_spec l Hl) by lia; apply Z.ltb_lt; lia).
  cbn [negb]. rewrite Hc. cbn [bind].
  change (10 =? 10) with true. change (10 =? 16) with false. cbn [andb].
  change (addi 0 1) with 1.
  assert (Hstep : forall e k h,
    post (consumeNumber_loop n l 10 1 e k h)
         (fun r => match r with
                   | inl _ => True
                   | inr (j, _, _) => 1 <= j /\ current l + j <= len (input l)
                   end)).
  { intros e k h. apply (consumeNumber_loop_bound n l 10 Hl); lia. }
  destruct (IsDigit c); [apply Hstep|].
  destruct Hstart as [H | H]; [discriminate|]. rewrite H. apply Hstep.
Qed.

Lemma consumeNumber_ok (n : nat) (l : Lexer) (c : byte) :
  in_range l -> current l < len (input l) ->
  peekN l 0 = Done c ->
  IsDigit c = true \/ Ascii.eqb c "." = true
  \/ Ascii.eqb c "+" = true \/ Ascii.eqb c "-" = true ->
  post (consumeNumber n l) (emit_ok l).
Proof.
  intros Hl Hlt Hc Hstart. pose proof Hl as [[Hc0 Hc1] Hlen].
  unfold consumeNumber. rewrite !(peekIs_byte l c _ Hc).
  cbn [or_else and_then bind].
  set (sign := if Ascii.eqb c "+" then true else Ascii.eqb c "-").
  replace (if Ascii.eqb c "+" then Done true else Done (Ascii.eqb c "-"))
    with (Done sign) by (unfold sign; now destruct (Ascii.eqb c "+")).
  cbn [bind].
  apply post_bind_eq. intros hex Hhex.
  (* the index and the base at the start of the loop *)
  assert (Hstart' :
    post (consumeNumber_loop n l (if hex then 16 else 10)
            (if hex then addi (if sign then addi 0 1 else 0) 2
             else if sign then addi 0 1 else 0) false TokenInt false)
         (fun r => match r with
                   | inl _ => True
                   | inr (j, _, _) => 1 <= j /\ current l + j <= len (input l)
                   end)).
  { change (addi 0 1) with 1.
    destruct hex.
    - (* the text starts with 0x *)
      destruct (Ascii.eqb c "0") eqn:E0; [|discriminate].
      apply Ascii.eqb_eq in E0. subst c.
      replace sign with false by reflexivity.
      change (addi 0 2) with 2.
      apply and_then_true in Hhex as [Hok _]. apply Done_inj in Hok.
      apply (peekOk_true l Hl) in Hok; [|lia].
      eapply post_weaken;
        [apply (consumeNumber_loop_bound n l 16 Hl); lia|].
      intros [e|[[j k] h]]; [trivial|]. lia.
    - destruct sign eqn:Hsign.
      + eapply post_weaken;
          [apply (consumeNumber_loop_bound n l 10 Hl); lia|].
        intros [e|[[j k] h]]; [trivial|]. lia.
      + apply (consumeNumber_loop_first n l c Hl Hlt Hc).
        unfold sign in Hsign.
        destruct (Ascii.eqb c "+"); [discriminate|].
        destruct Hstart as [H | [H | [H | H]]]; auto; congruence. }
  eapply post_bind; [exact Hstart'|].
  intros [e|[[j k] h]] Hj; [apply post_Done; emit_done|].
  destruct Hj as [Hj1 Hj2].
  apply post_bind_eq. intros bad _. destruct bad; [apply post_Done; emit_done|].
  apply post_bind_eq. intros s Hs.
  apply (slice_spec l 0 j s Hl) in Hs as (Hs & _); [|lia|lia].
  rewrite Z.add_0_r in Hs. apply post_Done. emit_done.
Qed.

(** The last lines of [consumeToken]. *)
Lemma consumeToken_emit_ok (n : nat) (l : Lexer) :
  in_range l -> current l < len (input l) ->
  post (consumeToken_emit n l) (emit_ok l).
Proof.
  intros Hl Hlt. pose proof Hl as [[Hc0 Hc1] Hlen].
  unfold consumeToken_emit. unfold peekHas at 1.
  apply post_bind_assoc. apply post_bind_eq. intros c Hc. cbn [bind].
  destruct (IsIdentStart c) eqn:Hstart.
  - apply (consumeIdent_ok n l c Hl Hlt Hc).
    right; right. unfold IsIdentPart. now rewrite Hstart.
  - apply post_bind_eq. intros s Hs.
    assert (Hs' : slice l 0 1 = Done s).
    { unfold slice. rewrite (addi_cur l Hl 0) by lia.
      now rewrite Z.add_0_r. }
    apply (slice_spec l 0 1 s Hl) in Hs' as (Hs' & _); [|lia|lia].
    rewrite Z.add_0_r in Hs'. apply post_Done. emit_done.
Qed.

Lemma consumeToken_tail_ok (n : nat) (l : Lexer) :
  in_range l -> current l < len (input l) ->
  post (consumeToken_tail n l) (emit_ok l).
Proof.
  intros Hl Hlt. unfold consumeToken_tail.
  destruct (lastToken l) as [t|]; [|now apply consumeToken_emit_ok].
  apply post_bind_eq. intros bad _.
  destruct bad; [apply post_Done; emit_done|now apply consumeToken_emit_ok].
Qed.

(** ** What each skipping method leaves *)

(** A skipping method keeps the input and the cached token, does not move
    the cursor back and leaves the state in range. *)
Definition skip_ok (l l' : Lexer) : Prop :=
  input l' = input l /\ lastToken l' = lastToken l
  /\ current l <= current l' /\ in_range l'.

Lemma skip_ok_refl (l : Lexer) : in_range l -> skip_ok l l.
Proof. intros Hl. unfold skip_ok. repeat split; (apply Hl || lia). Qed.

Lemma skip_ok_trans (l1 l2 l3 : Lexer) :
  skip_ok l1 l2 -> skip_ok l2 l3 -> skip_ok l1 l3.
Proof.
  intros (Hi & Ht & Hc & _) (Hi' & Ht' & Hc' & Hr).
  unfold skip_ok. repeat split; try apply Hr; (congruence || lia).
Qed.

(** A rune that is decoded is no wider than the text. *)
Lemma decode_size (s : string) :
  s <> EmptyString -> 1 <= snd (DecodeRuneInString s) <= len s.
Proof.
  intros Hs. destruct s as [|c0 r0]; [congruence|].
  unfold DecodeRuneInString.
  repeat match goal with
         | |- context [if ?b then _ else _] => destruct b eqn:?
         | |- context [match ?r with EmptyString => _ | String _ _ => _ end] =>
           destruct r
         end;
  cbn [snd]; rewrite ?len_String;
  repeat match goal with |- context [len ?s] => pose proof (len_nonneg s);
                                                 generalize dependent (len s); intros end;
  lia.
Qed.

Lemma substr_len (s r : string) (a b : Z) :
  substr s a b = Done r -> len r = b - a.
Proof.
  unfold substr.
  destruct ((0 <=? a) && (a <=? b) && (b <=? len s)) eqn:E; [|discriminate].
  rewrite !andb_true_iff, !Z.leb_le in E. intros [= <-].
  unfold len in *. rewrite substring_length; lia.
Qed.

Lemma skipSpace_ok (n : nat) :
  forall l, in_range l -> post (skipSpace n l) (skip_ok l).
Proof.
  induction n as [|n IH]; intros l Hl; cbn [skipSpace]; [apply post_Timeout|].
  pose proof Hl as [[Hc0 Hc1] Hlen].
  destruct (isEOF l) eqn:Heof; cbn [negb];
    [apply post_Done; now apply skip_ok_refl|].
  apply isEOF_false in Heof.
  apply post_bind_eq. intros rest Hrest. apply substr_len in Hrest.
  pose proof (decode_size rest) as Hsize.
  destruct (DecodeRuneInString rest) as [r size]. cbn [snd] in Hsize.
  destruct (IsSpace r); cbn [negb];
    [|apply post_Done; now apply skip_ok_refl].
  assert (Hne : rest <> EmptyString).
  { intros ->. change (len EmptyString) with 0 in Hrest. lia. }
  specialize (Hsize Hne).
  assert (Hl' : in_range (setCurrent l (addi (current l) size))).
  { unfold in_range, setCurrent. cbn [input current].
    rewrite addi_small by lia. lia. }
  assert (Hstep : skip_ok l (setCurrent l (addi (current l) size))).
  { unfold skip_ok. repeat split; try apply Hl'.
    unfold setCurrent. cbn [current]. rewrite addi_small by lia. lia. }
  eapply post_weaken; [apply (IH _ Hl')|].
  intros l' H. exact (skip_ok_trans _ _ _ Hstep H).
Qed.

(** A comment that is skipped moves the cursor. *)
Definition skip_more (l l' : Lexer) : Prop :=
  skip_ok l l' /\ current l < current l'.

Lemma consumeSingleLineComment_ok (n : nat) (l : Lexer) :
  in_range l -> peekOk l 1 = true ->
  post (consumeSingleLineComment n l) (skip_more l).
Proof.
  intros Hl Hok. pose proof Hl as [[Hc0 Hc1] Hlen].
  apply (peekOk_true l Hl) in Hok; [|lia].
  assert (Hcur : current (skipN l 2) = current l + 2).
  { unfold skipN, setCurrent. cbn [current]. apply addi_small. lia. }
  assert (Hl2 : in_range (skipN l 2)).
  { unfold in_range. rewrite Hcur. change (input (skipN l 2)) with (input l).
    lia. }
  unfold consumeSingleLineComment. cbv zeta.
  eapply post_bind;
    [apply (scan_while_bound n (skipN l 2) _ Hl2 0);
     [lia|rewrite Hcur; change (input (skipN l 2)) with (input l); lia]|].
  intros i (Hi & Hle & _). rewrite Hcur in Hle.
  change (input (skipN l 2)) with (input l) in Hle.
  apply post_Done.
  unfold skip_more, skip_ok, in_range, skipN, setCurrent.
  cbn [input current lastToken].
  rewrite (addi_small i 1) by lia. rewrite (addi_small (current l) 2) by lia.
  rewrite addi_small by lia. repeat split; lia.
Qed.

(** The loop of [consumeMultiLineComment]: when it leaves with an index,
    the index is inside the input. *)
Lemma consumeMultiLineComment_loop_bound (n : nat) (l : Lexer) :
  in_range l -> current l <= len (input l) ->
  forall i, 0 <= i -> current l + i <= 2 ^ 63 - 1 ->
    (isEOF l = true -> i = 0) ->
    post (consumeMultiLineComment_loop n l i)
         (fun j => 0 <= j /\ current l + j <= len (input l)).
Proof.
  intros Hl Hle. pose proof Hl as [[Hc0 Hc1] Hlen].
  induction n as [|n IH]; intros i Hi Hmax Hend;
    cbn [consumeMultiLineComment_loop]; [apply post_Timeout|].
  destruct (isEOF l) eqn:Heof; cbn [negb];
    [apply post_Done; rewrite (Hend eq_refl); lia|].
  apply isEOF_false in Heof.
  destruct (Z.eq_dec (current l + i) (2 ^ 63 - 1)) as [Hlast | Hnot].
  - (* the index cannot be read *)
    assert (Hok : peekOk l (addi i 1) = true).
    { unfold peekOk, addi. rewrite <- (Z.add_0_r (wrap64 (i + 1))).
      pose proof (wrap64_range (current l + (wrap64 (i + 1) + 0))) as Hr.
      apply Z.ltb_lt.
      destruct (wrap64_cases (i + 1)) as [k Hk].
      destruct (wrap64_cases (current l + (wrap64 (i + 1) + 0))) as [k' Hk'].
      pose proof (wrap64_range (i + 1)) as Hr'.
      rewrite Hk in *. lia. }
    rewrite Hok.
    assert (Hread : peekIs l i "*" = Panic).
    { unfold peekIs, peekN. rewrite addi_small by lia.
      rewrite index_beyond by lia. reflexivity. }
    unfold and_then at 2. cbn [bind]. rewrite Hread.
    apply post_Panic.
  - rewrite (addi_small i 1) by lia.
    apply post_bind_eq. intros close Hclose. destruct close.
    + apply and_then_true in Hclose as [Hclose _].
      apply and_then_true in Hclose as [Hok _]. apply Done_inj in Hok.
      unfold peekOk in Hok. rewrite addi_small in Hok by lia.
      apply Z.ltb_lt in Hok.
      apply post_Done. rewrite addi_small by lia. lia.
    + apply IH; lia.
Qed.

Lemma consumeMultiLineComment_ok (n : nat) (l : Lexer) :
  in_range l -> peekOk l 1 = true ->
  post (consumeMultiLineComment n l) (skip_more l).
Proof.
  intros Hl Hok. pose proof Hl as [[Hc0 Hc1] Hlen].
  apply (peekOk_true l Hl) in Hok; [|lia].
  assert (Hcur : current (skipN l 2) = current l + 2).
  { unfold skipN, setCurrent. cbn [current]. apply addi_small. lia. }
  assert (Hl2 : in_range (skipN l 2)).
  { unfold in_range. rewrite Hcur. change (input (skipN l 2)) with (input l).
    lia. }
  unfold consumeMultiLineComment. cbv zeta.
  eapply post_bind;
    [apply (consumeMultiLineComment_loop_bound n (skipN l 2) Hl2);
     rewrite ?Hcur; change (input (skipN l 2)) with (input l);
     (lia || reflexivity || trivial)|].
  intros i (Hi & Hle). rewrite Hcur in Hle.
  change (input (skipN l 2)) with (input l) in Hle.
  apply post_Done.
  unfold skip_more, skip_ok, in_range, skipN, setCurrent.
  cbn [input current lastToken].
  rewrite (addi_small (current l) 2) by lia.
  rewrite addi_small by lia. repeat split; lia.
Qed.

Lemma skipComments_ok (n : nat) :
  forall l, in_range l -> post (skipComments n l) (skip_ok l).
Proof.
  induction n as [|n IH]; intros l Hl; cbn [skipComments];
    [apply post_Timeout|].
  pose proof Hl as [[Hc0 Hc1] Hlen].
  destruct (isEOF l) eqn:Heof; cbn [negb];
    [apply post_Done; now apply skip_ok_refl|].
  apply isEOF_false in Heof.
  apply post_bind_eq. intros c Hc.
  assert (Hcomment : forall m : outcome Lexer,
    post m (skip_more l) ->
    post (bind m (fun l0 => skipComments n l0)) (skip_ok l)).
  { intros m Hm. eapply post_bind; [exact Hm|].
    intros l1 [H1 _]. eapply post_weaken; [apply IH, H1|].
    intros l2 H2. exact (skip_ok_trans _ _ _ H1 H2). }
  destruct (Ascii.eqb c "-").
  { apply post_bind_eq. intros b Hb.
    destruct b; [|apply post_Done; now apply skip_ok_refl].
    apply and_then_true in Hb as [Hok _]. apply Done_inj in Hok.
    apply Hcomment. now apply consumeSingleLineComment_ok. }
  destruct (Ascii.eqb c "/").
  { apply post_bind_eq. intros b Hb.
    destruct b; [|apply post_Done; now apply skip_ok_refl].
    apply and_then_true in Hb as [Hok _]. apply Done_inj in Hok.
    apply Hcomment. now apply consumeMultiLineComment_ok. }
  destruct (Ascii.eqb c "013" || Ascii.eqb c "010");
    [|apply post_Done; now apply skip_ok_refl].
  assert (Hl1 : skip_ok l (skipN l 1)).
  { unfold skip_ok, in_range, skipN, setCurrent.
    cbn [input current lastToken]. rewrite addi_small by lia.
    repeat split; lia. }
  eapply post_weaken; [apply IH, Hl1|].
  intros l2 H2. exact (skip_ok_trans _ _ _ Hl1 H2).
Qed.

(** ** What [consumeToken] leaves *)

(** A call of [consumeToken] that returns: the input is kept, the cursor
    has not gone back and the state is in range; without an error, the
    cached token satisfies [token_ok], and no token is cached only at the
    end of the input. *)
Definition scan_ok (l : Lexer) (r : option error * Lexer) : Prop :=
  input (snd r) = input l
  /\ current l <= current (snd r)
  /\ in_range (snd r)
  /\ (fst r = None ->
      match lastToken (snd r) with
      | Some t => token_ok l (snd r) t
      | None => len (input l) <= current (snd r)
      end).

Lemma emit_scan_ok (l0 l : Lexer) (r : option error * Lexer) :
  input l = input l0 -> current l0 <= current l -> in_range l ->
  emit_ok l r -> scan_ok l0 r.
Proof.
  intros Hin Hcur [[Hc0 Hc1] Hlen] (Hi & Hc & Ht).
  unfold scan_ok, in_range. rewrite Hi, Hin in *.
  repeat split; try lia.
  intros Hnone. destruct (Ht Hnone) as (t & -> & Hs & ?).
  unfold token_ok in *. rewrite Hin in *. repeat split; (assumption || lia).
Qed.

(** The second byte is there when a test of it holds. *)
Lemma second_byte (l : Lexer) (a b : outcome bool) :
  a &&& Done (peekOk l 1) &&& b = Done true -> peekOk l 1 = true.
Proof.
  intros H. apply and_then_true in H as [H _].
  apply and_then_true in H as [_ H]. now apply Done_inj in H.
Qed.

Lemma second_byte' (l : Lexer) (b : outcome bool) :
  Done (peekOk l 1) &&& b = Done true -> peekOk l 1 = true.
Proof. intros H. apply and_then_true in H as [H _]. now apply Done_inj in H. Qed.

Lemma consumeToken_ok (n : nat) (l : Lexer) :
  in_range l -> post (consumeToken n l) (scan_ok l).
Proof.
  intros Hl. unfold consumeToken.
  eapply post_bind; [apply (skipSpace_ok n l Hl)|].
  intros l1 (Hi1 & _ & Hc1 & Hr1).
  eapply post_bind; [apply (skipComments_ok n (setLastToken l1 None) Hr1)|].
  intros l2 (Hi2 & Ht2 & Hc2 & Hr2).
  eapply post_bind; [apply (skipSpace_ok n l2 Hr2)|].
  intros l3 (Hi3 & Ht3 & Hc3 & Hr3).
  cbn [input current lastToken setLastToken] in *.
  assert (Hin : input l3 = input l) by congruence.
  assert (Hcur : current l <= current l3) by lia.
  destruct (isEOF l3) eqn:Heof.
  { apply post_Done. unfold scan_ok. cbn [fst snd].
    rewrite Ht3, Ht2. pose proof (isEOF_true l3 Heof) as Hend.
    rewrite Hin in Hend.
    split; [exact Hin|]. split; [exact Hcur|]. split; [exact Hr3|].
    intros _. exact Hend. }
  apply isEOF_false in Heof.
  apply (post_weaken _ (emit_ok l3));
    [|intros r Hr; now apply (emit_scan_ok l l3 r)].
  clear Hl Hi1 Hc1 Hr1 Hi2 Ht2 Hc2 Hr2 Hi3 Ht3 Hc3 Hin Hcur l1 l2.
  apply post_bind_eq. intros c Hc.
  destruct (Ascii.eqb c ">" || Ascii.eqb c "<" || Ascii.eqb c "!"
            || Ascii.eqb c "=" || Ascii.eqb c "|").
  { apply post_bind_eq. intros two Htwo.
    destruct two; [|now apply consumeToken_tail_ok].
    apply twoByteToken_ok; [exact Hr3|].
    repeat (apply or_else_true in Htwo as [Htwo | Htwo]);
      exact (second_byte _ _ _ Htwo). }
  destruct (Ascii.eqb c "+" || Ascii.eqb c "-") eqn:Hsign.
  { apply post_bind_eq. intros digit _.
    destruct digit.
    - apply (consumeNumber_ok n l3 c Hr3 Heof Hc).
      apply orb_true_iff in Hsign. tauto.
    - apply post_bind_eq. intros arrow Harrow.
      destruct arrow; [|now apply consumeToken_tail_ok].
      apply twoByteToken_ok; [exact Hr3|exact (second_byte' _ _ Harrow)]. }
  destruct (IsDigit c) eqn:Hdigit.
  { apply (consumeNumber_ok n l3 c Hr3 Heof Hc). now left. }
  destruct (Ascii.eqb c "`" || Ascii.eqb c "$") eqn:Hquote.
  { apply (consumeIdent_ok n l3 c Hr3 Heof Hc).
    apply orb_true_iff in Hquote. tauto. }
  destruct (Ascii.eqb c "'"); [now apply consumeString_ok|].
  destruct (Ascii.eqb c "034"); [now apply consumeString_ok|].
  destruct (Ascii.eqb c ":").
  { apply post_bind_eq. intros cast Hcast.
    destruct cast; [|now apply consumeToken_tail_ok].
    apply twoByteToken_ok; [exact Hr3|exact (second_byte' _ _ Hcast)]. }
  destruct (Ascii.eqb c ".") eqn:Hdot; [|now apply consumeToken_tail_ok].
  apply post_bind_eq. intros digit _.
  destruct digit.
  { apply (consumeNumber_ok n l3 c Hr3 Heof Hc). tauto. }
  destruct (lastToken l3) as [t|]; [|now apply consumeToken_tail_ok].
  destruct (negb (String.eqb (Kind t) TokenIdent));
    [|now apply consumeToken_tail_ok].
  apply post_Done. emit_done.
Qed.

(** ** The scanner over a whole input *)

Lemma NewLexer_in_range (buf : string) :
  len buf < 2 ^ 62 -> in_range (NewLexer buf).
Proof.
  intros H. unfold in_range, NewLexer. cbn [input current].
  pose proof (len_nonneg buf). lia.
Qed.

(** X17. The cursor stays in range: from a state whose cursor is between 0
    and one byte past the end of the input, a call of [consumeToken] that
    returns, with or without an error, leaves such a state again; it keeps
    the input and does not move the cursor back. *)
Theorem consumeToken_stays_in_range (n : nat) (l l' : Lexer)
    (e : option error) :
  in_range l -> consumeToken n l = Done (e, l') ->
  in_range l' /\ input l' = input l /\ current l <= current l'.
Proof.
  intros Hl H. destruct (consumeToken_ok n l Hl _ H) as (Hi & Hc & Hr & _).
  cbn [snd] in Hi, Hc, Hr. split; [exact Hr|]. split; assumption.
Qed.

Lemma consumeToken_stays_in_range_witness :
  (in_range (NewLexer "ab -- c")
   /\ consumeToken 9 (NewLexer "ab -- c")
      = Done (None, {| input := "ab -- c"; current := 2;
                       lastToken := Some {| TokPos := 0; TokEnd := 2;
                                            Kind := TokenIdent;
                                            TokString := "ab"; Base := 0;
                                            Unquoted := false |} |}))
  /\ in_range {| input := "ab -- c"; current := 2;
                 lastToken := Some {| TokPos := 0; TokEnd := 2;
                                      Kind := TokenIdent;
                                      TokString := "ab"; Base := 0;
                                      Unquoted := false |} |}
  /\ "ab -- c" = "ab -- c" /\ 0 <= 2.
Proof.
  assert (H1 : in_range (NewLexer "ab -- c"))
    by (apply NewLexer_in_range; vm_compute; reflexivity).
  assert (H2 : consumeToken 9 (NewLexer "ab -- c")
      = Done (None, {| input := "ab -- c"; current := 2;
                       lastToken := Some {| TokPos := 0; TokEnd := 2;
                                            Kind := TokenIdent;
                                            TokString := "ab"; Base := 0;
                                            Unquoted := false |} |}))
    by (vm_compute; reflexivity).
  split; [exact (conj H1 H2)|].
  exact (consumeToken_stays_in_range 9 (NewLexer "ab -- c") _ None H1 H2).
Defined.

(** X18. The span of a token: when [consumeToken] returns without an error
    and caches a token, the text of the token is the slice of the input
    from its [Pos] to its [End]; the span starts at or after the cursor
    before the call and ends at or before the cursor after the call, which
    is inside the input. *)
Theorem token_text_is_input_slice (n : nat) (l l' : Lexer) (t : Token) :
  in_range l -> consumeToken n l = Done (None, l') ->
  lastToken l' = Some t ->
  substr (input l) (TokPos t) (TokEnd t) = Done (TokString t)
  /\ current l <= TokPos t /\ TokPos t <= TokEnd t
  /\ TokEnd t <= current l' /\ current l' <= len (input l).
Proof.
  intros Hl H Ht. destruct (consumeToken_ok n l Hl _ H) as (_ & _ & _ & Hok).
  specialize (Hok eq_refl). cbn [snd] in Hok. rewrite Ht in Hok.
  destruct Hok as (? & ? & ? & ? & ? & _). now repeat split.
Qed.

Lemma token_text_is_input_slice_witness :
  (in_range {| input := "a `b c` d"; current := 1; lastToken := None |}
   /\ consumeToken 9 {| input := "a `b c` d"; current := 1; lastToken := None |}
      = Done (None, {| input := "a `b c` d"; current := 7;
                       lastToken := Some {| TokPos := 3; TokEnd := 6;
                                            Kind := TokenIdent;
                                            TokString := "b c"; Base := 0;
                                            Unquoted := true |} |})
   /\ Some {| TokPos := 3; TokEnd := 6; Kind := TokenIdent;
              TokString := "b c"; Base := 0; Unquoted := true |}
      = Some {| TokPos := 3; TokEnd := 6; Kind := TokenIdent;
                TokString := "b c"; Base := 0; Unquoted := true |})
  /\ substr "a `b c` d" 3 6 = Done "b c"
  /\ 1 <= 3 /\ 3 <= 6 /\ 6 <= 7 /\ 7 <= len "a `b c` d".
Proof.
  assert (H1 : in_range {| input := "a `b c` d"; current := 1;
                           lastToken := None |})
    by (unfold in_range; vm_compute; repeat split; discriminate).
  assert (H2 : consumeToken 9 {| input := "a `b c` d"; current := 1;
                                 lastToken := None |}
      = Done (None, {| input := "a `b c` d"; current := 7;
                       lastToken := Some {| TokPos := 3; TokEnd := 6;
                                            Kind := TokenIdent;
                                            TokString := "b c"; Base := 0;
                                            Unquoted := true |} |}))
    by (vm_compute; reflexivity).
  split; [exact (conj H1 (conj H2 eq_refl))|].
  exact (token_text_is_input_slice 9 _ _ _ H1 H2 eq_refl).
Defined.

(** X19. Progress: a call of [consumeToken] that returns without an error
    and caches a token has moved the cursor forward. *)
Theorem consumeToken_progress (n : nat) (l l' : Lexer) (t : Token) :
  in_range l -> consumeToken n l = Done (None, l') ->
  lastToken l' = Some t -> current l < current l'.
Proof.
  intros Hl H Ht. destruct (consumeToken_ok n l Hl _ H) as (_ & _ & _ & Hok).
  specialize (Hok eq_refl). cbn [snd] in Hok. rewrite Ht in Hok.
  apply Hok.
Qed.

Lemma consumeToken_progress_witness :
  (in_range (NewLexer "  ,x")
   /\ consumeToken 9 (NewLexer "  ,x")
      = Done (None, {| input := "  ,x"; current := 3;
                       lastToken := Some {| TokPos := 2; TokEnd := 3;
                                            Kind := ","; TokString := ",";
                                            Base := 0; Unquoted := false |} |})
   /\ Some {| TokPos := 2; TokEnd := 3; Kind := ","; TokString := ",";
              Base := 0; Unquoted := false |}
      = Some {| TokPos := 2; TokEnd := 3; Kind := ","; TokString := ",";
                Base := 0; Unquoted := false |})
  /\ 0 < 3.
Proof.
  assert (H1 : in_range (NewLexer "  ,x"))
    by (apply NewLexer_in_range; vm_compute; reflexivity).
  assert (H2 : consumeToken 9 (NewLexer "  ,x")
      = Done (None, {| input := "  ,x"; current := 3;
                       lastToken := Some {| TokPos := 2; TokEnd := 3;
                                            Kind := ","; TokString := ",";
                                            Base := 0; Unquoted := false |} |}))
    by (vm_compute; reflexivity).
  split; [exact (conj H1 (conj H2 eq_refl))|].
  exact (consumeToken_progress 9 _ _ _ H1 H2 eq_refl).
Defined.

(** At the end of the input, [consumeToken] returns at once. *)
Lemma consumeToken_at_end (m : nat) (l : Lexer) :
  isEOF l = true ->
  consumeToken (S m) l = Done (None, setLastToken l None).
Proof.
  intros Heof. unfold consumeToken. cbn [skipSpace].
  rewrite Heof. cbn [negb bind].
  assert (Heof' : isEOF (setLastToken l None) = true) by exact Heof.
  cbn [skipComments]. rewrite Heof'. cbn [negb bind].
  rewrite Heof'. cbn [negb bind]. now rewrite Heof'.
Qed.

(** X20. The end of the input: when [consumeToken] returns without an error
    and without a token, the cursor is at or past the end of the input, and
    every later call returns the same, without an error, a token or a
    move. *)
Theorem no_token_only_at_end (n : nat) (l l' : Lexer) :
  in_range l -> consumeToken n l = Done (None, l') ->
  lastToken l' = None ->
  isEOF l' = true
  /\ forall m, consumeToken (S m) l' = Done (None, l').
Proof.
  intros Hl H Ht. destruct (consumeToken_ok n l Hl _ H) as (Hi & _ & _ & Hok).
  specialize (Hok eq_refl). cbn [snd] in Hok, Hi. rewrite Ht in Hok.
  assert (Heof : isEOF l' = true).
  { unfold isEOF. rewrite Z.geb_leb. apply Z.leb_le. now rewrite Hi. }
  split; [exact Heof|]. intros m. rewrite (consumeToken_at_end m l' Heof).
  destruct l' as [i c lt]. cbn [lastToken] in Ht. subst lt. reflexivity.
Qed.

Lemma no_token_only_at_end_witness :
  (in_range (NewLexer "  -- x")
   /\ consumeToken 9 (NewLexer "  -- x")
      = Done (None, {| input := "  -- x"; current := 7; lastToken := None |})
   /\ @None Token = None)
  /\ isEOF {| input := "  -- x"; current := 7; lastToken := None |} = true
  /\ forall m,
       consumeToken (S m) {| input := "  -- x"; current := 7; lastToken := None |}
       = Done (None, {| input := "  -- x"; current := 7; lastToken := None |}).
Proof.
  assert (H1 : in_range (NewLexer "  -- x"))
    by (apply NewLexer_in_range; vm_compute; reflexivity).
  assert (H2 : consumeToken 9 (NewLexer "  -- x")
      = Done (None, {| input := "  -- x"; current := 7; lastToken := None |}))
    by (vm_compute; reflexivity).
  split; [exact (conj H1 (conj H2 eq_refl))|].
  exact (no_token_only_at_end 9 _ _ H1 H2 eq_refl).
Defined.

(** * The scanner returns *)

(** The call returns: it neither panics nor runs out of fuel. *)
Definition returns {A : Type} (m : outcome A) : Prop := exists x, m = Done x.

Lemma returns_Done {A : Type} (x : A) : returns (Done x).
Proof. now exists x. Qed.

Lemma returns_bind {A B : Type} (m : outcome A) (k : A -> outcome B) :
  returns m -> (forall x, m = Done x -> returns (k x)) -> returns (bind m k).
Proof. intros [x ->] Hk. cbn [bind]. now apply Hk. Qed.

Lemma and_then_returns (a b : outcome bool) :
  returns a -> (a = Done true -> returns b) -> returns (a &&& b).
Proof.
  intros [x ->] Hb. unfold and_then. cbn [bind].
  destruct x; [now apply Hb|apply returns_Done].
Qed.

Lemma or_else_returns (a b : outcome bool) :
  returns a -> (a = Done false -> returns b) -> returns (a ||| b).
Proof.
  intros [x ->] Hb. unfold or_else. cbn [bind].
  destruct x; [apply returns_Done|now apply Hb].
Qed.

Lemma notb_returns (a : outcome bool) : returns a -> returns (notb a).
Proof. intros [x ->]. apply returns_Done. Qed.

(** ** Reads inside the input return *)

Lemma get_within (s : string) :
  forall n, (n < String.length s)%nat -> exists c, String.get n s = Some c.
Proof.
  induction s as [|d s IH]; intros n Hn; simpl in Hn; [lia|].
  destruct n as [|n]; [now exists d|]. simpl. apply IH. lia.
Qed.

Lemma get_length (s : string) :
  forall n c, String.get n s = Some c -> (n < String.length s)%nat.
Proof.
  induction s as [|d s IH]; intros n c H; [discriminate|].
  destruct n as [|n]; simpl in *; [lia|]. apply IH in H. lia.
Qed.

Lemma index_returns (s : string) (k : Z) :
  0 <= k < len s -> returns (index s k).
Proof.
  intros Hk. unfold index. replace (0 <=? k) with true by (symmetry; apply Z.leb_le; lia).
  destruct (get_within s (Z.to_nat k)) as [c Hc]; [unfold len in Hk; lia|].
  rewrite Hc. apply returns_Done.
Qed.

Lemma index_get (s : string) (k : Z) (c : byte) :
  index s k = Done c <-> 0 <= k /\ String.get (Z.to_nat k) s = Some c.
Proof.
  unfold index. destruct (0 <=? k) eqn:E.
  - apply Z.leb_le in E. destruct (String.get (Z.to_nat k) s) as [d|].
    + split; [intros [= ->]; now split|intros [_ [= ->]]; reflexivity].
    + split; [discriminate|intros [_ [=]]].
  - apply Z.leb_gt in E. split; [discriminate|intros [? _]; lia].
Qed.

Lemma index_inside (s : string) (k : Z) (c : byte) :
  index s k = Done c -> 0 <= k < len s.
Proof.
  intros H. apply index_get in H as [H0 H]. apply get_length in H.
  unfold len. lia.
Qed.

Section ReadsReturn.

Variable l : Lexer.
Hypothesis Hl : in_range l.

Lemma peekN_returns (i : Z) :
  - 2 ^ 62 <= i < 2 ^ 62 -> 0 <= current l + i < len (input l) ->
  returns (peekN l i).
Proof.
  intros Hi Hin. unfold peekN. rewrite (addi_cur l Hl) by exact Hi.
  now apply index_returns.
Qed.

Lemma peekIs_returns (i : Z) (c : byte) :
  - 2 ^ 62 <= i < 2 ^ 62 -> 0 <= current l + i < len (input l) ->
  returns (peekIs l i c).
Proof.
  intros Hi Hin. unfold peekIs. apply returns_bind;
    [now apply peekN_returns|intros; apply returns_Done].
Qed.

Lemma peekHas_returns (i : Z) (P : byte -> bool) :
  - 2 ^ 62 <= i < 2 ^ 62 -> 0 <= current l + i < len (input l) ->
  returns (peekHas l i P).
Proof.
  intros Hi Hin. unfold peekHas. apply returns_bind;
    [now apply peekN_returns|intros; apply returns_Done].
Qed.

(** A test behind [l.peekOk(i) &&]. *)
Lemma guarded_returns (i : Z) (k : outcome bool) :
  - 2 ^ 62 <= i < 2 ^ 62 ->
  (current l + i < len (input l) -> returns k) ->
  returns (Done (peekOk l i) &&& k).
Proof.
  intros Hi Hk. apply and_then_returns; [apply returns_Done|].
  intros H. apply Done_inj in H. apply Hk. now apply (peekOk_true l Hl).
Qed.

(** A test behind [!l.peekOk(i) ||]. *)
Lemma unguarded_returns (i : Z) (k : outcome bool) :
  - 2 ^ 62 <= i < 2 ^ 62 ->
  (current l + i < len (input l) -> returns k) ->
  returns (Done (negb (peekOk l i)) ||| k).
Proof.
  intros Hi Hk. apply or_else_returns; [apply returns_Done|].
  intros H. apply Done_inj in H. apply negb_false_iff in H.
  apply Hk. now apply (peekOk_true l Hl).
Qed.

Lemma slice_returns (i j : Z) :
  - 2 ^ 62 <= i < 2 ^ 62 -> - 2 ^ 62 <= j < 2 ^ 62 ->
  0 <= current l + i -> current l + i <= current l + j ->
  current l + j <= len (input l) ->
  returns (slice l i j).
Proof.
  intros Hi Hj H0 H1 H2. unfold slice.
  rewrite !(addi_cur l Hl) by assumption. unfold substr.
  replace ((0 <=? current l + i) && (current l + i <=? current l + j)
           && (current l + j <=? len (input l))) with true;
    [apply returns_Done|].
  symmetry. rewrite !andb_true_iff, !Z.leb_le. lia.
Qed.

End ReadsReturn.

(** ** The loops return *)

(** What is left of the input, in bytes. *)
Definition remaining (l : Lexer) (i : Z) : nat :=
  Z.to_nat (len (input l) - current l - i).

Lemma scan_while_returns (n : nat) (l : Lexer) (P : byte -> bool) :
  in_range l ->
  forall i, 0 <= i -> current l + i <= len (input l) ->
    (remaining l i < n)%nat -> returns (scan_while n l P i).
Proof.
  intros Hl. pose proof Hl as [[Hc0 Hc1] Hlen]. unfold remaining.
  induction n as [|n IH]; intros i Hi Hle Hn; [lia|]. cbn [scan_while].
  apply returns_bind.
  - apply (guarded_returns l Hl); [lia|]. intros Hin.
    apply (peekHas_returns l Hl); lia.
  - intros b Hb. destruct b; [|apply returns_Done].
    apply and_then_true in Hb as [Hok _]. apply Done_inj in Hok.
    apply (peekOk_true l Hl) in Hok; [|lia].
    rewrite addi_small by lia. apply IH; lia.
Qed.

Lemma consumeNumber_loop_returns (n : nat) (l : Lexer) (base : Z) :
  in_range l ->
  forall i hasExp kind hasNum,
    0 <= i -> current l + i <= len (input l) -> (remaining l i < n)%nat ->
    returns (consumeNumber_loop n l base i hasExp kind hasNum).
Proof.
  intros Hl. pose proof Hl as [[Hc0 Hc1] Hlen]. unfold remaining.
  induction n as [|n IH]; intros i hasExp kind hasNum Hi Hle Hn; [lia|].
  cbn [consumeNumber_loop].
  destruct (peekOk l i) eqn:Hok; cbn [negb]; [|apply returns_Done].
  apply (peekOk_true l Hl) in Hok; [|lia].
  apply returns_bind; [apply (peekN_returns l Hl); lia|]. intros c _.
  rewrite (addi_small i 1) by lia.
  destruct ((base =? 10) && IsDigit c); [apply IH; lia|].
  destruct ((base =? 16) && IsHexDigit c); [apply IH; lia|].
  destruct (Ascii.eqb c "."); [apply IH; lia|].
  destruct (negb (base =? 16)
            && (Ascii.eqb c "e" || Ascii.eqb c "E"
                || Ascii.eqb c "p" || Ascii.eqb c "P"));
    [|apply returns_Done].
  destruct hasExp; [apply returns_Done|]. cbv zeta.
  apply returns_bind.
  { apply (guarded_returns l Hl); [lia|]. intros Hin.
    apply or_else_returns; intros; apply (peekIs_returns l Hl); lia. }
  intros sign Hsign.
  assert (Hi' : i + 1 <= (if sign then addi (i + 1) 1 else i + 1)
                /\ current l + (if sign then addi (i + 1) 1 else i + 1)
                   <= len (input l)).
  { destruct sign; [|lia].
    apply and_then_true in Hsign as [H _]. apply Done_inj in H.
    apply (peekOk_true l Hl) in H; [|lia]. rewrite addi_small by lia. lia. }
  set (i' := if sign then addi (i + 1) 1 else i + 1) in *.
  apply returns_bind.
  { apply (unguarded_returns l Hl); [lia|]. intros Hin.
    apply notb_returns. apply (peekHas_returns l Hl); lia. }
  intros bad Hbad. destruct bad; [apply returns_Done|].
  apply or_else_false in Hbad as [H _]. apply Done_inj in H.
  apply negb_false_iff in H. apply (peekOk_true l Hl) in H; [|lia].
  apply IH; lia.
Qed.

(** ** The scanning methods return *)

Lemma consumeString_returns (n : nat) (l : Lexer) (q : bool) :
  in_range l -> current l < len (input l) -> (remaining l 0 < n)%nat ->
  returns (consumeString n l q).
Proof.
  intros Hl Hlt Hn. pose proof Hl as [[Hc0 Hc1] Hlen]. unfold remaining in Hn.
  unfold consumeString. cbv zeta.
  apply returns_bind;
    [apply (scan_while_returns n l _ Hl 1); unfold remaining; lia|].
  intros i Hscan.
  destruct (scan_while_bound n l _ Hl 1 ltac:(lia) ltac:(lia) i Hscan)
    as (Hi & Hle & _).
  destruct (peekOk l i) eqn:Hok; cbn [negb]; [|apply returns_Done].
  apply (peekOk_true l Hl) in Hok; [|lia].
  apply returns_bind; [apply (slice_returns l Hl); lia|].
  intros; apply returns_Done.
Qed.

Lemma twoByteToken_returns (l : Lexer) (k : option TokenKind) :
  in_range l -> 0 <= current l -> peekOk l 1 = true ->
  returns (twoByteToken l k).
Proof.
  intros Hl H0 Hok. pose proof Hl as [[Hc0 Hc1] Hlen].
  apply (peekOk_true l Hl) in Hok; [|lia].
  unfold twoByteToken. apply returns_bind;
    [apply (slice_returns l Hl); lia|intros; apply returns_Done].
Qed.

Lemma consumeIdent_returns (n : nat) (l : Lexer) :
  in_range l -> current l < len (input l) -> (remaining l 0 < n)%nat ->
  returns (consumeIdent n l).
Proof.
  intros Hl Hlt Hn. pose proof Hl as [[Hc0 Hc1] Hlen]. unfold remaining in Hn.
  unfold consumeIdent.
  apply returns_bind.
  { apply (guarded_returns l Hl); [lia|]. intros _.
    apply (peekIs_returns l Hl); lia. }
  intros bt _. cbv zeta. destruct bt; cbn [negb andb].
  - (* between backticks *)
    assert (Hcur1 : current (skipN l 1) = current l + 1).
    { unfold skipN, setCurrent. cbn [current]. apply addi_small. lia. }
    assert (Hl1 : in_range (skipN l 1)).
    { unfold in_range. rewrite Hcur1.
      change (input (skipN l 1)) with (input l). lia. }
    assert (Hin1 : input (skipN l 1) = input l) by reflexivity.
    apply returns_bind.
    + apply returns_bind;
        [apply (scan_while_returns n _ _ Hl1 0); unfold remaining;
         rewrite ?Hcur1, ?Hin1; lia|].
      intros i Hscan.
      destruct (scan_while_bound n _ _ Hl1 0 ltac:(lia)
                  ltac:(rewrite Hcur1, Hin1; lia) i Hscan) as (Hi & Hle & _).
      rewrite Hcur1, Hin1 in Hle.
      apply returns_bind.
      { apply (unguarded_returns _ Hl1); [lia|]. rewrite Hcur1, Hin1.
        intros Hin. apply notb_returns.
        apply (peekIs_returns _ Hl1); rewrite ?Hcur1, ?Hin1; lia. }
      intros bad _. destruct bad; [|apply returns_Done].
      apply returns_bind;
        [apply (slice_returns _ Hl1); rewrite ?Hcur1, ?Hin1; lia|].
      intros; apply returns_Done.
    + intros [e|i] Hr; [apply returns_Done|].
      (* the index is the one the loop left *)
      assert (Hi : 0 <= i /\ current l + 1 + i <= len (input l)).
      { destruct (scan_while n (skipN l 1)
                    (fun c => negb (Ascii.eqb c "`")) 0) as [j| |] eqn:Hscan;
          cbn [bind] in Hr; try discriminate.
        destruct (scan_while_bound n _ _ Hl1 0 ltac:(lia)
                    ltac:(rewrite Hcur1, Hin1; lia) j Hscan) as (Hj & Hle & _).
        rewrite Hcur1, Hin1 in Hle.
        destruct (Done (negb (peekOk (skipN l 1) j))
                  ||| notb (peekIs (skipN l 1) j "`")) as [[|]| |];
          cbn [bind] in Hr; try discriminate.
        - destruct (slice (skipN l 1) 0 j); cbn [bind] in Hr; discriminate.
        - injection Hr as <-. lia. }
      apply returns_bind;
        [apply (slice_returns _ Hl1); rewrite ?Hcur1, ?Hin1; lia|].
      intros; apply returns_Done.
  - (* a word *)
    apply returns_bind.
    + apply returns_bind; [apply (peekIs_returns l Hl); lia|].
      intros dollar _.
      apply returns_bind;
        [|intros; apply returns_Done].
      apply (scan_while_returns n l _ Hl); unfold remaining;
        destruct dollar; change (addi 0 1) with 1; lia.
    + intros [e|i] Hr; [apply returns_Done|].
      assert (Hi : 0 <= i /\ current l + i <= len (input l)).
      { destruct (peekIs l 0 "$") as [d| |]; cbn [bind] in Hr;
          try discriminate.
        destruct (scan_while n l IsIdentPart (if d then addi 0 1 else 0))
          as [j| |] eqn:Hscan; cbn [bind] in Hr; try discriminate.
        injection Hr as <-.
        assert (Hd : 0 <= (if d then addi 0 1 else 0) <= 1)
          by (destruct d; change (addi 0 1) with 1; lia).
        destruct (scan_while_bound n l IsIdentPart Hl
                    (if d then addi 0 1 else 0)
                    ltac:(lia) ltac:(lia) j Hscan) as (Hj & Hle & _).
        lia. }
      apply returns_bind; [apply (slice_returns l Hl); lia|].
      intros; apply returns_Done.
Qed.

Lemma consumeNumber_returns (n : nat) (l : Lexer) (c : byte) :
  in_range l -> current l < len (input l) -> peekN l 0 = Done c ->
  (remaining l 0 < n)%nat -> returns (consumeNumber n l).
Proof.
  intros Hl Hlt Hc Hn. pose proof Hl as [[Hc0 Hc1] Hlen]. unfold remaining in Hn.
  unfold consumeNumber. rewrite !(peekIs_byte l c _ Hc).
  cbn [or_else and_then bind].
  set (sign := if Ascii.eqb c "+" then true else Ascii.eqb c "-").
  replace (if Ascii.eqb c "+" then Done true else Done (Ascii.eqb c "-"))
    with (Done sign) by (unfold sign; now destruct (Ascii.eqb c "+")).
  cbn [bind]. change (addi 0 1) with 1.
  apply returns_bind.
  { destruct (Ascii.eqb c "0"); [|apply returns_Done].
    apply (guarded_returns l Hl); [lia|]. intros Hin.
    apply (peekIs_returns l Hl); lia. }
  intros hex Hhex.
  set (i0 := if hex then addi (if sign then 1 else 0) 2
             else if sign then 1 else 0).
  assert (Hi0 : 0 <= i0 /\ current l + i0 <= len (input l)).
  { unfold i0. destruct hex.
    - destruct (Ascii.eqb c "0") eqn:E0; [|discriminate].
      apply Ascii.eqb_eq in E0. subst c.
      replace sign with false by reflexivity. change (addi 0 2) with 2.
      apply and_then_true in Hhex as [Hok _]. apply Done_inj in Hok.
      apply (peekOk_true l Hl) in Hok; lia.
    - destruct sign; lia. }
  apply returns_bind;
    [apply (consumeNumber_loop_returns n l _ Hl); unfold remaining; lia|].
  intros [e|[[j k] h]] Hloop; [apply returns_Done|].
  pose proof (consumeNumber_loop_bound n l _ Hl i0 false TokenInt false
                (proj1 Hi0) (proj2 Hi0) _ Hloop) as [Hj Hle].
  cbv beta iota in Hj, Hle.
  apply returns_bind.
  { apply or_else_returns; [|intros; apply returns_Done].
    apply (guarded_returns l Hl); [lia|]. intros Hin.
    apply (peekHas_returns l Hl); lia. }
  intros bad _. destruct bad; [apply returns_Done|].
  apply returns_bind; [apply (slice_returns l Hl); lia|].
  intros; apply returns_Done.
Qed.

Lemma consumeToken_emit_returns (n : nat) (l : Lexer) :
  in_range l -> current l < len (input l) -> (remaining l 0 < n)%nat ->
  returns (consumeToken_emit n l).
Proof.
  intros Hl Hlt Hn. pose proof Hl as [[Hc0 Hc1] Hlen].
  unfold consumeToken_emit.
  apply returns_bind; [apply (peekHas_returns l Hl); lia|].
  intros start _. destruct start; [now apply consumeIdent_returns|].
  apply returns_bind; [|intros; apply returns_Done].
  pose proof (slice_returns l Hl 0 1 ltac:(lia) ltac:(lia) ltac:(lia)
                ltac:(lia) ltac:(lia)) as H.
  unfold slice in H. rewrite (addi_cur l Hl 0) in H by lia.
  now rewrite Z.add_0_r in H.
Qed.

Lemma consumeToken_tail_returns (n : nat) (l : Lexer) :
  in_range l -> current l < len (input l) -> (remaining l 0 < n)%nat ->
  returns (consumeToken_tail n l).
Proof.
  intros Hl Hlt Hn. pose proof Hl as [[Hc0 Hc1] Hlen].
  unfold consumeToken_tail.
  destruct (lastToken l) as [t|]; [|now apply consumeToken_emit_returns].
  apply returns_bind.
  { apply and_then_returns; [apply returns_Done|]. intros _.
    apply notb_returns. apply (peekHas_returns l Hl); lia. }
  intros bad _.
  destruct bad; [apply returns_Done|now apply consumeToken_emit_returns].
Qed.

(** ** The skipping methods return *)

(** What is left of the input for a skipping method, whose cursor may be one
    byte past the end. *)
Definition ahead (l : Lexer) : nat :=
  Z.to_nat (len (input l) + 1 - current l).

Lemma skipSpace_returns (n : nat) :
  forall l, in_range l -> (ahead l < n)%nat -> returns (skipSpace n l).
Proof.
  unfold ahead.
  induction n as [|n IH]; intros l Hl Hn; [lia|]. cbn [skipSpace].
  pose proof Hl as [[Hc0 Hc1] Hlen].
  destruct (isEOF l) eqn:Heof; cbn [negb]; [apply returns_Done|].
  apply isEOF_false in Heof.
  assert (Hrest : returns (substr (input l) (current l) (len (input l)))).
  { pose proof (slice_returns l Hl 0 (len (input l) - current l)
                  ltac:(lia) ltac:(lia) ltac:(lia) ltac:(lia) ltac:(lia)) as H.
    unfold slice in H. rewrite !(addi_cur l Hl) in H by lia.
    rewrite Z.add_0_r in H.
    now replace (current l + (len (input l) - current l))
      with (len (input l)) in H by lia. }
  apply returns_bind; [exact Hrest|]. intros rest Hr.
  apply substr_len in Hr.
  pose proof (decode_size rest) as Hsize.
  destruct (DecodeRuneInString rest) as [r size]. cbn [snd] in Hsize.
  destruct (IsSpace r); cbn [negb]; [|apply returns_Done].
  assert (Hne : rest <> EmptyString).
  { intros ->. change (len EmptyString) with 0 in Hr. lia. }
  specialize (Hsize Hne).
  apply IH.
  - unfold in_range, setCurrent. cbn [input current].
    rewrite addi_small by lia. lia.
  - unfold setCurrent. cbn [input current]. rewrite addi_small by lia. lia.
Qed.

Lemma consumeSingleLineComment_returns (n : nat) (l : Lexer) :
  in_range l -> peekOk l 1 = true -> (remaining l 0 < n)%nat ->
  returns (consumeSingleLineComment n l).
Proof.
  intros Hl Hok Hn. pose proof Hl as [[Hc0 Hc1] Hlen]. unfold remaining in Hn.
  apply (peekOk_true l Hl) in Hok; [|lia].
  assert (Hcur : current (skipN l 2) = current l + 2).
  { unfold skipN, setCurrent. cbn [current]. apply addi_small. lia. }
  assert (Hin : input (skipN l 2) = input l) by reflexivity.
  assert (Hl2 : in_range (skipN l 2)).
  { unfold in_range. rewrite Hcur, Hin. lia. }
  unfold consumeSingleLineComment. cbv zeta.
  apply returns_bind; [|intros; apply returns_Done].
  apply (scan_while_returns n _ _ Hl2 0); unfold remaining;
    rewrite ?Hcur, ?Hin; lia.
Qed.

(** *** Closed block comments *)

(** The text holds [*/]. *)
Fixpoint has_end (s : string) : bool :=
  match s with
  | String a r =>
    (Ascii.eqb a "*"
     && match r with
        | String b _ => Ascii.eqb b "/"
        | EmptyString => false
        end)
    || has_end r
  | EmptyString => false
  end.

(** Every [/*] of the text is followed, after its two bytes, by a [*/]. *)
Fixpoint comments_closed (s : string) : bool :=
  match s with
  | String a r =>
    match r with
    | String b t =>
      if Ascii.eqb a "/" && Ascii.eqb b "*" then has_end t else true
    | EmptyString => true
    end
    && comments_closed r
  | EmptyString => true
  end.

Lemma has_end_pos (t : string) :
  has_end t = true ->
  exists m, String.get m t = Some "*"%char
            /\ String.get (S m) t = Some "/"%char.
Proof.
  induction t as [|a r IH]; [discriminate|]. cbn [has_end].
  intros H. apply orb_true_iff in H as [H | H].
  - apply andb_true_iff in H as [Ha Hb]. apply Ascii.eqb_eq in Ha. subst a.
    destruct r as [|b r']; [discriminate|]. apply Ascii.eqb_eq in Hb. subst b.
    now exists 0%nat.
  - destruct (IH H) as (m & H1 & H2). now exists (S m).
Qed.

Lemma comments_closed_pos (s : string) :
  comments_closed s = true ->
  forall n, String.get n s = Some "/"%char ->
            String.get (S n) s = Some "*"%char ->
    exists m, (n + 2 <= m)%nat /\ String.get m s = Some "*"%char
              /\ String.get (S m) s = Some "/"%char.
Proof.
  induction s as [|a r IH]; intros Hs n H1 H2; [discriminate|].
  cbn [comments_closed] in Hs. apply andb_true_iff in Hs as [Hhere Hr].
  destruct n as [|n].
  - destruct r as [|b t]; [discriminate|]. simpl in H1, H2.
    injection H1 as ->. injection H2 as ->. cbn in Hhere.
    destruct (has_end_pos t Hhere) as (m & Hm1 & Hm2).
    exists (S (S m)). split; [lia|]. now split.
  - destruct (IH Hr n H1 H2) as (m & Hm & Hm1 & Hm2).
    exists (S m). split; [lia|]. now split.
Qed.

(** The loop of [consumeMultiLineComment] returns when a [*/] lies ahead. *)
Lemma consumeMultiLineComment_loop_returns (n : nat) (l : Lexer) (q : Z) :
  in_range l ->
  index (input l) q = Done "*"%char -> index (input l) (q + 1) = Done "/"%char ->
  forall i, 0 <= i -> current l + i <= q ->
    (Z.to_nat (q - current l - i) < n)%nat ->
    returns (consumeMultiLineComment_loop n l i).
Proof.
  intros Hl Hq1 Hq2. pose proof Hl as [[Hc0 Hc1] Hlen].
  pose proof (index_inside _ _ _ Hq2) as Hq.
  induction n as [|n IH]; intros i Hi Hle Hn; [lia|].
  cbn [consumeMultiLineComment_loop].
  destruct (isEOF l); cbn [negb]; [apply returns_Done|].
  rewrite (addi_small i 1) by lia.
  apply returns_bind.
  { apply and_then_returns;
      [apply (guarded_returns l Hl); [lia|]; intros _|intros _];
      apply (peekIs_returns l Hl); lia. }
  intros close Hclose. destruct close; [apply returns_Done|].
  destruct (Z.eq_dec (current l + i) q) as [Heq | Hne]; [|apply IH; lia].
  exfalso. revert Hclose.
  assert (Hok : peekOk l (i + 1) = true).
  { rewrite (peekOk_spec l Hl) by lia. apply Z.ltb_lt. lia. }
  unfold peekIs, peekN. rewrite !(addi_cur l Hl) by lia.
  rewrite Hok, Z.add_assoc, Heq, Hq1, Hq2. discriminate.
Qed.

Lemma consumeMultiLineComment_returns (n : nat) (l : Lexer) :
  in_range l -> comments_closed (input l) = true ->
  peekN l 0 = Done "/"%char -> peekN l 1 = Done "*"%char ->
  (remaining l 0 < n)%nat ->
  returns (consumeMultiLineComment n l).
Proof.
  intros Hl Hclosed H0 H1 Hn. pose proof Hl as [[Hc0 Hc1] Hlen].
  unfold remaining in Hn. unfold peekN in H0, H1.
  rewrite (addi_cur l Hl) in H0, H1 by lia. rewrite Z.add_0_r in H0.
  pose proof (index_inside _ _ _ H1) as Hin1.
  apply index_get in H0 as [_ H0]. apply index_get in H1 as [_ H1].
  replace (Z.to_nat (current l + 1)) with (S (Z.to_nat (current l))) in H1
    by lia.
  destruct (comments_closed_pos _ Hclosed _ H0 H1) as (m & Hm & Hm1 & Hm2).
  assert (Hq1 : index (input l) (Z.of_nat m) = Done "*"%char).
  { apply index_get. rewrite Nat2Z.id. split; [lia|exact Hm1]. }
  assert (Hq2 : index (input l) (Z.of_nat m + 1) = Done "/"%char).
  { apply index_get. replace (Z.to_nat (Z.of_nat m + 1)) with (S m) by lia.
    split; [lia|exact Hm2]. }
  pose proof (index_inside _ _ _ Hq2) as Hq.
  assert (Hcur : current (skipN l 2) = current l + 2).
  { unfold skipN, setCurrent. cbn [current]. apply addi_small. lia. }
  assert (Hin : input (skipN l 2) = input l) by reflexivity.
  assert (Hl2 : in_range (skipN l 2)).
  { unfold in_range. rewrite Hcur, Hin. lia. }
  unfold consumeMultiLineComment. cbv zeta.
  apply returns_bind; [|intros; apply returns_Done].
  apply (consumeMultiLineComment_loop_returns n _ (Z.of_nat m) Hl2);
    rewrite ?Hcur, ?Hin; (assumption || lia).
Qed.

Lemma skipComments_returns (n : nat) :
  forall l, in_range l -> comments_closed (input l) = true ->
            (ahead l < n)%nat -> returns (skipComments n l).
Proof.
  unfold ahead.
  induction n as [|n IH]; intros l Hl Hclosed Hn; [lia|].
  cbn [skipComments]. pose proof Hl as [[Hc0 Hc1] Hlen].
  destruct (isEOF l) eqn:Heof; cbn [negb]; [apply returns_Done|].
  apply isEOF_false in Heof.
  apply returns_bind; [apply (peekN_returns l Hl); lia|]. intros c Hc.
  assert (Htest : forall x, returns (Done (peekOk l 1) &&& peekIs l 1 x)).
  { intros x. apply (guarded_returns l Hl); [lia|]. intros Hin.
    apply (peekIs_returns l Hl); lia. }
  assert (Hnext : forall m : outcome Lexer,
    returns m -> post m (skip_more l) ->
    returns (bind m (fun l0 => skipComments n l0))).
  { intros m Hm Hpost. apply returns_bind; [exact Hm|]. intros l1 Hl1.
    destruct (Hpost l1 Hl1) as [(Hi & _ & _ & Hr) Hlt].
    apply IH; [exact Hr|now rewrite Hi|rewrite Hi; lia]. }
  destruct (Ascii.eqb c "-").
  { apply returns_bind; [apply Htest|]. intros b Hb.
    destruct b; [|apply returns_Done].
    apply and_then_true in Hb as [Hok _]. apply Done_inj in Hok.
    apply Hnext; [|now apply consumeSingleLineComment_ok].
    apply consumeSingleLineComment_returns; unfold remaining; (assumption || lia). }
  destruct (Ascii.eqb c "/") eqn:Hslash.
  { apply Ascii.eqb_eq in Hslash. subst c.
    apply returns_bind; [apply Htest|]. intros b Hb.
    destruct b; [|apply returns_Done].
    apply and_then_true in Hb as [Hok Hstar]. apply Done_inj in Hok.
    apply Hnext; [|now apply consumeMultiLineComment_ok].
    apply consumeMultiLineComment_returns; unfold remaining; try (assumption || lia).
    unfold peekIs in Hstar. destruct (peekN l 1) as [d| |];
      cbn [bind] in Hstar; try discriminate.
    apply Done_inj, Ascii.eqb_eq in Hstar. now subst d. }
  destruct (Ascii.eqb c "013" || Ascii.eqb c "010"); [|apply returns_Done].
  assert (Hcur : current (skipN l 1) = current l + 1).
  { unfold skipN, setCurrent. cbn [current]. apply addi_small. lia. }
  apply IH.
  - unfold in_range. rewrite Hcur. change (input (skipN l 1)) with (input l).
    lia.
  - exact Hclosed.
  - rewrite Hcur. change (input (skipN l 1)) with (input l). lia.
Qed.

(** ** [consumeToken] returns *)

Lemma consumeToken_terminates (n : nat) (l : Lexer) :
  in_range l -> comments_closed (input l) = true -> (ahead l < n)%nat ->
  returns (consumeToken n l).
Proof.
  intros Hl Hclosed Hn. unfold ahead in Hn. unfold consumeToken.
  apply returns_bind; [now apply skipSpace_returns|]. intros l1 H1.
  destruct (skipSpace_ok n l Hl l1 H1) as (Hi1 & _ & Hc1 & Hr1).
  apply returns_bind.
  { apply skipComments_returns; [exact Hr1| |unfold ahead];
      cbn [input current setLastToken]; rewrite Hi1; (assumption || lia). }
  intros l2 H2.
  destruct (skipComments_ok n (setLastToken l1 None) Hr1 l2 H2)
    as (Hi2 & _ & Hc2 & Hr2).
  cbn [input current setLastToken] in Hi2, Hc2.
  apply returns_bind.
  { apply skipSpace_returns; [exact Hr2|]. unfold ahead.
    rewrite Hi2, Hi1. lia. }
  intros l3 H3.
  destruct (skipSpace_ok n l2 Hr2 l3 H3) as (Hi3 & _ & Hc3 & Hr3).
  destruct (isEOF l3) eqn:Heof; [apply returns_Done|].
  apply isEOF_false in Heof.
  pose proof Hl as [[Hc0 _] _]. pose proof Hr3 as [[Hc0' _] Hlen].
  assert (Hleft : (remaining l3 0 < n)%nat).
  { unfold remaining. rewrite Hi3, Hi2, Hi1. lia. }
  clear Hl Hclosed Hn H1 Hi1 Hc1 Hr1 H2 Hi2 Hc2 Hr2 H3 Hi3 Hc3 Hc0 l l1 l2.
  assert (Htest : forall k, (current l3 + 1 < len (input l3) -> returns k) ->
                            returns (Done (peekOk l3 1) &&& k)).
  { intros k Hk. apply (guarded_returns l3 Hr3); [lia|exact Hk]. }
  assert (Hsecond : forall x, returns (Done (peekOk l3 1) &&& peekIs l3 1 x)).
  { intros x. apply Htest. intros Hin. apply (peekIs_returns l3 Hr3); lia. }
  assert (Hdigit : returns (Done (peekOk l3 1) &&& peekHas l3 1 IsDigit)).
  { apply Htest. intros Hin. apply (peekHas_returns l3 Hr3); lia. }
  apply returns_bind; [apply (peekN_returns l3 Hr3); lia|]. intros c Hc.
  assert (Hpair : forall (a : outcome bool) x,
                    returns a ->
                    returns (a &&& Done (peekOk l3 1) &&& peekIs l3 1 x)).
  { intros a x Ha. apply and_then_returns.
    - apply and_then_returns; [exact Ha|intros; apply returns_Done].
    - intros H. apply and_then_true in H as [_ H]. apply Done_inj in H.
      apply (peekOk_true l3 Hr3) in H; [|lia].
      apply (peekIs_returns l3 Hr3); lia. }
  assert (Hfirst : forall x, returns (peekIs l3 0 x)).
  { intros x. rewrite (peekIs_byte l3 c x Hc). apply returns_Done. }
  destruct (Ascii.eqb c ">" || Ascii.eqb c "<" || Ascii.eqb c "!"
            || Ascii.eqb c "=" || Ascii.eqb c "|").
  { apply returns_bind.
    { repeat (apply or_else_returns; [|intros _]);
        apply Hpair; try apply notb_returns; apply Hfirst. }
    intros two Htwo.
    destruct two; [|now apply consumeToken_tail_returns].
    apply twoByteToken_returns; [exact Hr3|exact Hc0'|].
    repeat (apply or_else_true in Htwo as [Htwo | Htwo]);
      exact (second_byte _ _ _ Htwo). }
  destruct (Ascii.eqb c "+" || Ascii.eqb c "-").
  { apply returns_bind; [exact Hdigit|]. intros digit _.
    destruct digit; [now apply (consumeNumber_returns n l3 c)|].
    apply returns_bind; [apply Hsecond|]. intros arrow Harrow.
    destruct arrow; [|now apply consumeToken_tail_returns].
    apply twoByteToken_returns;
      [exact Hr3|exact Hc0'|exact (second_byte' _ _ Harrow)]. }
  destruct (IsDigit c); [now apply (consumeNumber_returns n l3 c)|].
  destruct (Ascii.eqb c "`" || Ascii.eqb c "$");
    [now apply consumeIdent_returns|].
  destruct (Ascii.eqb c "'"); [now apply consumeString_returns|].
  destruct (Ascii.eqb c "034"); [now apply consumeString_returns|].
  destruct (Ascii.eqb c ":").
  { apply returns_bind; [apply Hsecond|]. intros cast Hcast.
    destruct cast; [|now apply consumeToken_tail_returns].
    apply twoByteToken_returns;
      [exact Hr3|exact Hc0'|exact (second_byte' _ _ Hcast)]. }
  destruct (Ascii.eqb c "."); [|now apply consumeToken_tail_returns].
  apply returns_bind; [exact Hdigit|]. intros digit _.
  destruct digit; [now apply (consumeNumber_returns n l3 c)|].
  destruct (lastToken l3) as [t|]; [|now apply consumeToken_tail_returns].
  destruct (negb (String.eqb (Kind t) TokenIdent));
    [apply returns_Done|now apply consumeToken_tail_returns].
Qed.

(** X21. The scanner returns.  On an input in which every [/*] is followed,
    after its two bytes, by a [*/], a call of [consumeToken] from a state in
    range returns a result, an error or none: it does not panic (no read
    outside the input) and it needs no more steps of any of its loops than
    the input has bytes, plus two. *)
Theorem consumeToken_returns (n : nat) (l : Lexer) :
  in_range l -> comments_closed (input l) = true ->
  (String.length (input l) + 1 < n)%nat ->
  exists e l', consumeToken n l = Done (e, l').
Proof.
  intros Hl Hclosed Hn.
  destruct (consumeToken_terminates n l Hl Hclosed) as [[e l'] H].
  - unfold ahead. destruct Hl as [[Hc0 _] _]. unfold len. lia.
  - now exists e, l'.
Qed.

Lemma consumeToken_returns_witness :
  (in_range (NewLexer "/* a */ 1e+ -- b")
   /\ comments_closed "/* a */ 1e+ -- b" = true
   /\ (String.length "/* a */ 1e+ -- b" + 1 < 18)%nat)
  /\ exists e l', consumeToken 18 (NewLexer "/* a */ 1e+ -- b") = Done (e, l').
Proof.
  assert (H1 : in_range (NewLexer "/* a */ 1e+ -- b"))
    by (apply NewLexer_in_range; vm_compute; reflexivity).
  assert (H2 : comments_closed "/* a */ 1e+ -- b" = true) by reflexivity.
  assert (H3 : (String.length "/* a */ 1e+ -- b" + 1 < 18)%nat)
    by (simpl; lia).
  split; [now repeat split|].
  exact (consumeToken_returns 18 (NewLexer "/* a */ 1e+ -- b") H1 H2 H3).
Defined.

(** * The kinds of the tokens *)

(** What [consumeToken] caches: a reserved word, which is not quoted and
    whose upper-cased text is in the keyword table; an identifier; a number
    in base 10 or 16; a string; an arrow or a cast, of two bytes; or a token
    of one or two bytes whose kind is its own text. *)
Definition kind_ok (t : Token) : Prop :=
  (Kind t = TokenKeyword /\ Unquoted t = false
   /\ isKeyword (ToUpper (TokString t)) = true)
  \/ (Kind t = TokenIdent
      /\ (Unquoted t = false -> isKeyword (ToUpper (TokString t)) = false))
  \/ ((Kind t = TokenInt \/ Kind t = TokenFloat)
      /\ (Base t = 10 \/ Base t = 16))
  \/ Kind t = TokenString
  \/ ((Kind t = TokenArrow \/ Kind t = TokenCast)
      /\ String.length (TokString t) = 2%nat)
  \/ (Kind t = TokString t
      /\ (String.length (TokString t) = 1%nat
          \/ String.length (TokString t) = 2%nat)).

(** The token cached by a call, if any, is of one of these kinds. *)
Definition kinds_ok (r : option error * Lexer) : Prop :=
  forall t, lastToken (snd r) = Some t -> kind_ok t.

Lemma kinds_ok_none (e : option error) (l : Lexer) :
  lastToken l = None -> kinds_ok (e, l).
Proof. intros H t Ht. cbn [snd] in Ht. congruence. Qed.

Lemma consumeNumber_kinds (n : nat) (l : Lexer) :
  lastToken l = None -> post (consumeNumber n l) kinds_ok.
Proof.
  intros Hnone. unfold consumeNumber.
  apply post_bind_eq. intros sign _. cbv zeta.
  apply post_bind_eq. intros hex _.
  eapply post_bind; [apply consumeNumber_loop_kind; now left|].
  intros [e|[[i k] h]] Hk; [apply post_Done; now apply kinds_ok_none|].
  apply post_bind_eq. intros bad _.
  destruct bad; [apply post_Done; now apply kinds_ok_none|].
  apply post_bind_eq. intros s _. apply post_Done.
  intros t [= <-]. unfold kind_ok. cbn [Kind Base].
  right. right. left. split; [exact Hk|]. destruct hex; auto.
Qed.

Lemma consumeString_kinds (n : nat) (l : Lexer) (q : bool) :
  lastToken l = None -> post (consumeString n l q) kinds_ok.
Proof.
  intros Hnone. unfold consumeString. cbv zeta.
  apply post_bind_eq. intros i _.
  destruct (negb (peekOk l i)); [apply post_Done; now apply kinds_ok_none|].
  apply post_bind_eq. intros s _. apply post_Done.
  intros t [= <-]. unfold kind_ok. cbn [Kind]. tauto.
Qed.

Lemma consumeIdent_kinds (n : nat) (l : Lexer) :
  lastToken l = None -> post (consumeIdent n l) kinds_ok.
Proof.
  intros Hnone. unfold consumeIdent.
  apply post_bind_eq. intros bt _. cbv zeta.
  apply post_bind_eq. intros [e|i] _.
  - apply post_Done. apply kinds_ok_none. now destruct bt.
  - apply post_bind_eq. intros s _. apply post_Done.
    intros t Ht.
    assert (Ht' : t = {| TokPos := current (if bt then skipN l 1 else l);
                         TokEnd := addi (current (if bt then skipN l 1 else l)) i;
                         Kind := if negb bt && isKeyword (ToUpper s)
                                 then TokenKeyword else TokenIdent;
                         TokString := s; Base := 0; Unquoted := bt |}).
    { destruct bt; cbn in Ht; now injection Ht as <-. }
    subst t. unfold kind_ok. cbn [Kind Unquoted TokString].
    destruct bt; cbn [negb andb].
    + right. left. split; [reflexivity|discriminate].
    + destruct (isKeyword (ToUpper s)) eqn:Hk; [left|right; left]; auto.
Qed.

Lemma twoByteToken_kinds (l : Lexer) (k : option TokenKind) :
  match k with
  | Some k => k = TokenArrow \/ k = TokenCast
  | None => True
  end ->
  post (twoByteToken l k) kinds_ok.
Proof.
  intros Hk. unfold twoByteToken, slice.
  apply post_bind_eq. intros s Hs. apply post_Done.
  apply substr_two in Hs.
  intros t [= <-]. unfold kind_ok. cbn [Kind TokString].
  destruct k as [k|]; [|repeat right; auto].
  right. right. right. right. left. auto.
Qed.

Lemma consumeToken_emit_kinds (n : nat) (l : Lexer) :
  lastToken l = None -> post (consumeToken_emit n l) kinds_ok.
Proof.
  intros Hnone. unfold consumeToken_emit.
  apply post_bind_eq. intros start Hstart.
  destruct start; [now apply consumeIdent_kinds|].
  apply post_bind_eq. intros s Hs. apply post_Done.
  unfold peekHas in Hstart.
  destruct (peekN l 0) as [c| |] eqn:Hc; try discriminate.
  pose proof (substr_one _ _ _ _ Hs Hc) as ->.
  intros t [= <-]. unfold kind_ok. cbn [Kind TokString].
  repeat right. auto.
Qed.

Lemma consumeToken_kinds (n : nat) (l : Lexer) :
  post (consumeToken n l) kinds_ok.
Proof.
  unfold consumeToken.
  eapply post_bind; [apply skipSpace_post|]. intros l1 [_ _].
  eapply post_bind; [apply skipComments_post|]. intros l2 [_ Hl2].
  eapply post_bind; [apply skipSpace_post|]. intros l3 [_ Hl3].
  simpl in Hl2.
  assert (Hlast : lastToken l3 = None) by congruence.
  destruct (isEOF l3); [apply post_Done; now apply kinds_ok_none|].
  apply post_bind_eq. intros c Hc. rewrite Hlast.
  unfold consumeToken_tail. rewrite Hlast.
  post_auto_eq.
  all: first [ now apply consumeNumber_kinds
             | now apply consumeIdent_kinds
             | now apply consumeString_kinds
             | now apply consumeToken_emit_kinds
             | apply twoByteToken_kinds; first [exact I | now left | now right] ].
Qed.

(** X22. The kinds of the tokens.  Whatever the scanner state, the token that
    a call of [consumeToken] caches is a reserved word (a word that is not
    quoted and whose upper-cased text is in the keyword table), an
    identifier (quoted, or a word that is not reserved), a number of base 10
    or 16, a string, a two-byte arrow or cast, or a token of one or two
    bytes whose kind is its own text. *)
Theorem token_kinds (n : nat) (l l' : Lexer) (e : option error) (t : Token) :
  consumeToken n l = Done (e, l') -> lastToken l' = Some t -> kind_ok t.
Proof. intros H Ht. exact (consumeToken_kinds n l _ H t Ht). Qed.

Lemma token_kinds_witness :
  (consumeToken 9 (NewLexer "x->y")
   = Done (None, {| input := "x->y"; current := 1;
                    lastToken := Some {| TokPos := 0; TokEnd := 1;
                                         Kind := TokenIdent; TokString := "x";
                                         Base := 0; Unquoted := false |} |})
   /\ Some {| TokPos := 0; TokEnd := 1; Kind := TokenIdent; TokString := "x";
              Base := 0; Unquoted := false |}
      = Some {| TokPos := 0; TokEnd := 1; Kind := TokenIdent; TokString := "x";
                Base := 0; Unquoted := false |})
  /\ kind_ok {| TokPos := 0; TokEnd := 1; Kind := TokenIdent; TokString := "x";
                Base := 0; Unquoted := false |}.
Proof.
  assert (H1 : consumeToken 9 (NewLexer "x->y")
   = Done (None, {| input := "x->y"; current := 1;
                    lastToken := Some {| TokPos := 0; TokEnd := 1;
                                         Kind := TokenIdent; TokString := "x";
                                         Base := 0; Unquoted := false |} |}))
    by (vm_compute; reflexivity).
  split; [now split|].
  exact (token_kinds 9 _ _ _ _ H1 eq_refl).
Defined.

(** * What the grammar keeps of the scanner *)

(** A property of the scanner state that every call of [consumeToken]
    keeps, and that the two collaborators keep, is kept by every method of
    the grammar. *)

Create HintDb inv.

(** One step through the body of a method, for a property of the state. *)
Ltac inv_step :=
  lazymatch goal with
  | |- post (Done _) _ => apply post_Done; cbn [snd]; assumption
  | |- post Panic _ => apply post_Panic
  | |- post Timeout _ => apply post_Timeout
  | |- post (bind (Done _) _) _ => cbn [bind]
  | |- post (bind (bind _ _) _) _ => apply post_bind_assoc
  | |- post (bind (match ?x with _ => _ end) _) _ => destruct x; cbn [snd] in *
  | |- post (bind _ _) _ =>
    eapply post_bind; [ solve [eauto with inv] | intros ? ?; cbn [snd] in * ]
  | |- post (match ?x with _ => _ end) _ => destruct x; cbn [snd] in *
  | |- post _ _ => solve [eauto with inv]
  end.

Ltac inv_auto := cbv zeta; repeat inv_step.

Section Keeps.

Context {External : Type} (ext : Collaborators External).

Variable Inv : Lexer -> Prop.

Hypothesis Inv_scan :
  forall n l, Inv l -> post (consumeToken n l) (fun r => Inv (snd r)).
Hypothesis Inv_select :
  forall l pos, Inv l -> post (parseSelectQuery ext l pos) (fun r => Inv (snd r)).
Hypothesis Inv_columns :
  forall l, Inv l -> post (parseTableColumns ext l) (fun r => Inv (snd r)).

Lemma advance_keeps (n : nat) (l : Lexer) :
  Inv l -> post (advance n l) Inv.
Proof.
  intros Hl. unfold advance.
  eapply post_bind; [apply (Inv_scan n l Hl)|].
  intros [e l1] H1. now apply post_Done.
Qed.

Lemma peekToken_keeps (n : nat) (l : Lexer) :
  Inv l -> post (peekToken n l) (fun r => Inv (snd r)).
Proof.
  intros Hl [[t e] l'] H. cbn [snd]. destruct e as [e|].
  - unfold peekToken in H.
    destruct (consumeToken n l) as [[e1 l1]| |] eqn:E; cbn [bind] in H;
      try discriminate.
    destruct e1 as [e1|]; [|discriminate]. injection H as _ _ <-.
    exact (Inv_scan n l Hl _ E).
  - apply peekToken_ok_restores in H as [-> _]. exact Hl.
Qed.

#[local] Hint Resolve advance_keeps peekToken_keeps Inv_select Inv_columns : inv.

Lemma tryConsumeTokenKind_keeps (n : nat) (l : Lexer) (k : TokenKind) :
  Inv l -> post (tryConsumeTokenKind n l k) (fun r => Inv (snd r)).
Proof. intros Hl. unfold tryConsumeTokenKind, last. inv_auto. Qed.

Lemma tryConsumeKeyword_keeps (n : nat) (l : Lexer) (k : string) :
  Inv l -> post (tryConsumeKeyword n l k) (fun r => Inv (snd r)).
Proof. intros Hl. unfold tryConsumeKeyword. inv_auto. Qed.

#[local] Hint Resolve tryConsumeTokenKind_keeps tryConsumeKeyword_keeps : inv.

Lemma consumeTokenKind_keeps (n : nat) (l : Lexer) (k : TokenKind) :
  Inv l -> post (consumeTokenKind n l k) (fun r => Inv (snd r)).
Proof. intros Hl. unfold consumeTokenKind. inv_auto. Qed.

Lemma consumeKeyword_keeps (n : nat) (l : Lexer) (k : string) :
  Inv l -> post (consumeKeyword n l k) (fun r => Inv (snd r)).
Proof. intros Hl. unfold consumeKeyword. inv_auto. Qed.

#[local] Hint Resolve consumeTokenKind_keeps consumeKeyword_keeps : inv.

Lemma parseIdent_keeps (n : nat) (l : Lexer) :
  Inv l -> post (parseIdent n l) (fun r => Inv (snd r)).
Proof. intros Hl. unfold parseIdent. inv_auto. Qed.

Lemma parseNumber_keeps (n : nat) (l : Lexer) (pos : Pos) :
  Inv l -> post (parseNumber n l pos) (fun r => Inv (snd r)).
Proof. intros Hl. unfold parseNumber. inv_auto. Qed.

Lemma parseString_keeps (n : nat) (l : Lexer) (pos : Pos) :
  Inv l -> post (parseString n l pos) (fun r => Inv (snd r)).
Proof. intros Hl. unfold parseString. inv_auto. Qed.

#[local] Hint Resolve parseIdent_keeps parseNumber_keeps parseString_keeps : inv.

Lemma parseLiteral_keeps (n : nat) (l : Lexer) (pos : Pos) :
  Inv l -> post (parseLiteral n l pos) (fun r => Inv (snd r)).
Proof. intros Hl. unfold parseLiteral. inv_auto. Qed.

Lemma parseNestedType_keeps (n : nat) (l : Lexer) (name : Ident) (pos : Pos) :
  Inv l -> post (parseNestedType ext n l name pos) (fun r => Inv (snd r)).
Proof. intros Hl. unfold parseNestedType. inv_auto. Qed.

Lemma parseEnumValueExpr_keeps (n : nat) (l : Lexer) (pos : Pos) :
  Inv l -> post (parseEnumValueExpr n l pos) (fun r => Inv (snd r)).
Proof. intros Hl. unfold parseEnumValueExpr. inv_auto. Qed.

#[local] Hint Resolve parseLiteral_keeps parseNestedType_keeps
  parseEnumValueExpr_keeps : inv.

Lemma parseEnumExpr_loop_keeps (n : nat) :
  forall l enums,
    Inv l -> post (parseEnumExpr_loop n l enums) (fun r => Inv (snd r)).
Proof.
  induction n as [|n IH]; intros l enums Hl; simpl; [apply post_Timeout|].
  inv_auto.
Qed.

Lemma parseColumnTypeWithParams_loop_keeps (n : nat) :
  forall l ps,
    Inv l ->
    post (parseColumnTypeWithParams_loop n l ps) (fun r => Inv (snd r)).
Proof.
  induction n as [|n IH]; intros l ps Hl; simpl; [apply post_Timeout|].
  inv_auto.
Qed.

#[local] Hint Resolve parseEnumExpr_loop_keeps
  parseColumnTypeWithParams_loop_keeps : inv.

Lemma parseEnumExpr_keeps (n : nat) (l : Lexer) (pos : Pos) :
  Inv l ->
  post (parseEnumExpr (External := External) n l pos) (fun r => Inv (snd r)).
Proof. intros Hl. unfold parseEnumExpr. inv_auto. Qed.

Lemma parseColumnTypeWithParams_keeps (n : nat) (l : Lexer) (name : Ident)
    (pos : Pos) :
  Inv l ->
  post (parseColumnTypeWithParams (External := External) n l name pos)
       (fun r => Inv (snd r)).
Proof. intros Hl. unfold parseColumnTypeWithParams. inv_auto. Qed.

#[local] Hint Resolve parseEnumExpr_keeps parseColumnTypeWithParams_keeps : inv.

Lemma type_grammar_keeps (n : nat) :
  (forall l, Inv l -> post (parseColumnType ext n l) (fun r => Inv (snd r)))
  /\ (forall l name pos,
        Inv l -> post (parseComplexType ext n l name pos) (fun r => Inv (snd r)))
  /\ (forall l ts,
        Inv l -> post (parseComplexType_loop ext n l ts) (fun r => Inv (snd r))).
Proof.
  induction n as [|n (IH1 & IH2 & IH3)];
    [repeat split; intros; apply post_Timeout|].
  repeat split; intros; simpl; inv_auto.
Qed.

Lemma parseColumnType_keeps (n : nat) (l : Lexer) :
  Inv l -> post (parseColumnType ext n l) (fun r => Inv (snd r)).
Proof. apply (type_grammar_keeps n). Qed.

Lemma parseColumnStar_keeps (n : nat) (l : Lexer) (pos : Pos) :
  Inv l ->
  post (parseColumnStar (External := External) n l pos) (fun r => Inv (snd r)).
Proof. intros Hl. unfold parseColumnStar. inv_auto. Qed.

#[local] Hint Resolve parseColumnType_keeps parseColumnStar_keeps : inv.

(** A method keeps the property. *)
Definition keeps {A B : Type} (f : Lexer -> A -> parsing B) : Prop :=
  forall l a, Inv l -> post (f l a) (fun r => Inv (snd r)).

Definition keeps2 {A1 A2 B : Type} (f : Lexer -> A1 -> A2 -> parsing B) : Prop :=
  forall l a1 a2, Inv l -> post (f l a1 a2) (fun r => Inv (snd r)).

Definition keeps3 {A1 A2 A3 B : Type}
    (f : Lexer -> A1 -> A2 -> A3 -> parsing B) : Prop :=
  forall l a1 a2 a3, Inv l -> post (f l a1 a2 a3) (fun r => Inv (snd r)).

(** Every method of the expression grammar, run with fuel [n]. *)
Definition expr_grammar_keeps (n : nat) : Prop :=
  keeps (parseExpr ext n)
  /\ keeps (parseOrExpr ext n)
  /\ keeps (parseAndExpr ext n)
  /\ keeps (parseNotExpr ext n)
  /\ keeps (parseIsOrNotNull ext n)
  /\ keeps (parseCompareExpr ext n)
  /\ keeps (parseAddSubExpr ext n)
  /\ keeps (parseMulDivModExpr ext n)
  /\ keeps (parseColumnExtractExpr ext n)
  /\ keeps (parseUnaryExpr ext n)
  /\ keeps (parseColumnExpr ext n)
  /\ keeps (parseIdentOrFunction ext n)
  /\ keeps (parseColumnCastExpr ext n)
  /\ keeps (parseColumnExprInterval ext n)
  /\ keeps (parseColumnArgList ext n)
  /\ keeps (parseFunctionParams ext n)
  /\ keeps (parseArrayParams ext n)
  /\ keeps (parseColumnCaseExpr ext n)
  /\ keeps (parseOrExpr_loop ext n)
  /\ keeps (parseAndExpr_loop ext n)
  /\ keeps (parseAddSubExpr_loop ext n)
  /\ keeps (parseTernaryExpr ext n)
  /\ keeps (parseMulDivModExpr_loop ext n)
  /\ keeps2 (parseColumnExprListWithTerm ext n)
  /\ keeps3 (parseColumnExprListWithTerm_loop ext n)
  /\ keeps (parseColumnArgList_loop ext n)
  /\ keeps (parseColumnCaseExpr_loop ext n).

Lemma expr_grammar_kept (n : nat) : expr_grammar_keeps n.
Proof.
  induction n as [|n IH];
    [unfold expr_grammar_keeps, keeps, keeps2, keeps3; repeat split; intros;
     apply post_Timeout|].
  unfold expr_grammar_keeps, keeps, keeps2, keeps3 in IH.
  repeat match goal with H : _ /\ _ |- _ => destruct H end.
  unfold expr_grammar_keeps, keeps, keeps2, keeps3; repeat split; intros;
    simpl; inv_auto.
Qed.

Lemma parseExpr_keeps (n : nat) (l : Lexer) (pos : Pos) :
  Inv l -> post (parseExpr ext n l pos) (fun r => Inv (snd r)).
Proof. apply (expr_grammar_kept n). Qed.

End Keeps.

(** ** The lookahead token is a token of the scanner *)

(** The lookahead of the driver, if any, is of one of the kinds that the
    scanner caches. *)
Definition lookahead_ok (l : Lexer) : Prop :=
  forall t, lastToken l = Some t -> kind_ok t.

Lemma consumeToken_lookahead (n : nat) (l : Lexer) :
  post (consumeToken n l) (fun r => lookahead_ok (snd r)).
Proof. exact (consumeToken_kinds n l). Qed.

(** A keyword that the lookahead matches is in the keyword table. *)
Lemma matchKeyword_reserved (l : Lexer) (k : string) :
  lookahead_ok l -> matchKeyword l k = true -> isKeyword (ToUpper k) = true.
Proof.
  intros Hl. unfold matchKeyword, matchTokenKind, lastTokenKind, last.
  destruct (lastToken l) as [t|] eqn:Ht;
    [|rewrite andb_false_r; discriminate].
  intros H. apply andb_true_iff in H as [Hk Hfold].
  apply String.eqb_eq in Hk. unfold EqualFold in Hfold.
  apply String.eqb_eq in Hfold. rewrite <- Hfold.
  destruct (Hl t Ht) as [(_ & _ & H) | [[H _] | [[[H | H] _] | [H | [[[H | H] _] | [H Hlen]]]]]];
    try exact H; try (rewrite Hk in H; discriminate).
  rewrite <- H, Hk in Hlen. destruct Hlen; discriminate.
Qed.

Lemma consumeKeyword_unreserved {External : Type} (n : nat) (l : Lexer)
    (k : string) (u : unit) (l' : Lexer) :
  lookahead_ok l -> isKeyword (ToUpper k) = false ->
  consumeKeyword n l k <> Done (Ok u, l').
Proof.
  intros Hl Hk. unfold consumeKeyword, tryConsumeKeyword.
  destruct (matchKeyword l k) eqn:Hm.
  - apply (matchKeyword_reserved l k Hl) in Hm. congruence.
  - cbn [bind]. discriminate.
Qed.

Section Extract.

Context {External : Type} (ext : Collaborators External).

Hypothesis select_ok :
  forall l pos, lookahead_ok l ->
    post (parseSelectQuery ext l pos) (fun r => lookahead_ok (snd r)).
Hypothesis columns_ok :
  forall l, lookahead_ok l ->
    post (parseTableColumns ext l) (fun r => lookahead_ok (snd r)).

Lemma parseExpr_lookahead (n : nat) (l : Lexer) (pos : Pos) :
  lookahead_ok l -> post (parseExpr ext n l pos) (fun r => lookahead_ok (snd r)).
Proof.
  apply (parseExpr_keeps ext lookahead_ok);
    [intros; apply consumeToken_lookahead|exact select_ok|exact columns_ok].
Qed.

Lemma parseColumnExtractExpr_fails (n : nat) (l : Lexer) (pos : Pos)
    (e : Expr External) (l' : Lexer) :
  lookahead_ok l -> parseColumnExtractExpr ext n l pos <> Done (Ok e, l').
Proof.
  intros Hl. destruct n as [|n]; [discriminate|]. simpl.
  assert (Hscan : forall m l0, lookahead_ok l0 ->
            post (consumeToken m l0) (fun r => lookahead_ok (snd r)))
    by (intros; apply consumeToken_lookahead).
  destruct (consumeKeyword n l KeywordExtract) as [[[u1|e1] l1]| |] eqn:E1;
    cbn [bind]; try discriminate.
  pose proof (consumeKeyword_keeps lookahead_ok Hscan n l _ Hl _ E1) as Hl1.
  destruct (consumeTokenKind n l1 "(") as [[[t2|e2] l2]| |] eqn:E2;
    cbn [bind]; try discriminate.
  pose proof (consumeTokenKind_keeps lookahead_ok Hscan n l1 _ Hl1 _ E2) as Hl2.
  destruct (parseIdent n l2) as [[[i3|e3] l3]| |] eqn:E3;
    cbn [bind]; try discriminate.
  pose proof (parseIdent_keeps lookahead_ok Hscan n l2 Hl2 _ E3) as Hl3.
  match goal with
  | |- (if ?b then _ else _) <> _ => destruct b; [discriminate|]
  end.
  destruct (consumeKeyword n l3 KeywordFrom) as [[[u4|e4] l4]| |] eqn:E4;
    cbn [bind]; try discriminate.
  pose proof (consumeKeyword_keeps lookahead_ok Hscan n l3 _ Hl3 _ E4) as Hl4.
  destruct (parseExpr ext n l4 (ParserPos l4)) as [[[x5|e5] l5]| |] eqn:E5;
    cbn [bind]; try discriminate.
  pose proof (parseExpr_lookahead n l4 _ Hl4 _ E5) as Hl5.
  cbn [snd] in *.
  destruct (consumeKeyword n l5 ")") as [[[u6|e6] l6]| |] eqn:E6;
    cbn [bind]; try discriminate.
  exfalso. revert E6.
  apply (consumeKeyword_unreserved (External := External));
    [exact Hl5|reflexivity].
Qed.

End Extract.

(** X23. EXTRACT is never parsed.  [parseColumnExtractExpr] asks for its
    closing parenthesis with [consumeKeyword], which takes only a token of
    kind [<keyword>], and the scanner gives that kind only to words of the
    keyword table.  So, when the lookahead is a token of the scanner (and
    the two collaborators leave such a lookahead), the method never returns
    a node, whatever the text: it returns an error, or does not return. *)
Theorem extract_never_parsed {External : Type} (ext : Collaborators External)
    (n : nat) (l : Lexer) (pos : Pos) :
  (forall l0 pos0, lookahead_ok l0 ->
     post (parseSelectQuery ext l0 pos0) (fun r => lookahead_ok (snd r))) ->
  (forall l0, lookahead_ok l0 ->
     post (parseTableColumns ext l0) (fun r => lookahead_ok (snd r))) ->
  lookahead_ok l ->
  forall e l', parseColumnExtractExpr ext n l pos <> Done (Ok e, l').
Proof.
  intros Hsel Hcol Hl e l'.
  now apply (parseColumnExtractExpr_fails ext Hsel Hcol).
Qed.

Lemma extract_never_parsed_witness :
  ((forall l0 pos0, lookahead_ok l0 ->
      post (parseSelectQuery noCollaborators l0 pos0)
           (fun r => lookahead_ok (snd r)))
   /\ (forall l0, lookahead_ok l0 ->
         post (parseTableColumns noCollaborators l0)
              (fun r => lookahead_ok (snd r)))
   /\ lookahead_ok (at_token "EXTRACT(DAY FROM d)" 7
                             (tok 0 TokenKeyword "EXTRACT")))
  /\ forall e l',
       parseColumnExtractExpr noCollaborators 40
         (at_token "EXTRACT(DAY FROM d)" 7 (tok 0 TokenKeyword "EXTRACT")) 0
       <> Done (Ok e, l').
Proof.
  assert (H1 : forall l0 pos0, lookahead_ok l0 ->
      post (parseSelectQuery noCollaborators l0 pos0)
           (fun r => lookahead_ok (snd r)))
    by (intros l0 pos0 H0; apply post_Done; exact H0).
  assert (H2 : forall l0, lookahead_ok l0 ->
      post (parseTableColumns noCollaborators l0)
           (fun r => lookahead_ok (snd r)))
    by (intros l0 H0; apply post_Done; exact H0).
  assert (H3 : lookahead_ok (at_token "EXTRACT(DAY FROM d)" 7
                               (tok 0 TokenKeyword "EXTRACT")))
    by (intros t [= <-]; left; repeat split; reflexivity).
  split; [now repeat split|].
  exact (extract_never_parsed noCollaborators 40 _ 0 H1 H2 H3).
Defined.

(** ** The grammar does not move the scanner back *)

(** The state [l] comes after the state [l0]: the same input, the cursor
    not further back, and in range. *)
Definition follows (l0 l : Lexer) : Prop :=
  input l = input l0 /\ current l0 <= current l /\ in_range l.

Lemma follows_refl (l : Lexer) : in_range l -> follows l l.
Proof. intros H. unfold follows. repeat split; (apply H || lia). Qed.

Lemma follows_trans (l1 l2 l3 : Lexer) :
  follows l1 l2 -> follows l2 l3 -> follows l1 l3.
Proof.
  intros (Hi & Hc & _) (Hi' & Hc' & Hr). unfold follows.
  split; [congruence|]. split; [lia|exact Hr].
Qed.

Lemma consumeToken_follows (n : nat) (l0 l : Lexer) :
  follows l0 l -> post (consumeToken n l) (fun r => follows l0 (snd r)).
Proof.
  intros Hl r Hr. pose proof Hl as (_ & _ & Hin).
  destruct (consumeToken_ok n l Hin r Hr) as (Hi & Hc & Hrange & _).
  apply (follows_trans _ _ _ Hl).
  split; [exact Hi|]. split; [exact Hc|exact Hrange].
Qed.

(** X24. The grammar does not move the scanner back.  When [parseExpr] or
    [parseColumnType] returns, a node or an error, from a scanner state in
    range, the scanner has the same input, its cursor is not further back
    than before the call, and its state is in range again; this holds when
    the two collaborators (the sub-query parser and the column-list parser)
    do the same. *)
Theorem grammar_keeps_scanner {External : Type} (ext : Collaborators External)
    (n : nat) (l : Lexer) (pos : Pos) :
  (forall l0 pos0, in_range l0 ->
     post (parseSelectQuery ext l0 pos0) (fun r => follows l0 (snd r))) ->
  (forall l0, in_range l0 ->
     post (parseTableColumns ext l0) (fun r => follows l0 (snd r))) ->
  in_range l ->
  (forall r l', parseExpr ext n l pos = Done (r, l') -> follows l l')
  /\ (forall r l', parseColumnType ext n l = Done (r, l') -> follows l l').
Proof.
  intros Hsel Hcol Hl.
  assert (Hscan : forall m l1, follows l l1 ->
            post (consumeToken m l1) (fun r => follows l (snd r)))
    by (intros; now apply consumeToken_follows).
  assert (Hsel' : forall l1 pos1, follows l l1 ->
            post (parseSelectQuery ext l1 pos1) (fun r => follows l (snd r))).
  { intros l1 pos1 H1 r Hr. apply (follows_trans _ _ _ H1).
    apply (Hsel l1 pos1 (proj2 (proj2 H1)) r Hr). }
  assert (Hcol' : forall l1, follows l l1 ->
            post (parseTableColumns ext l1) (fun r => follows l (snd r))).
  { intros l1 H1 r Hr. apply (follows_trans _ _ _ H1).
    apply (Hcol l1 (proj2 (proj2 H1)) r Hr). }
  split; intros r l' H.
  - exact (parseExpr_keeps ext (follows l) Hscan Hsel' Hcol' n l pos
             (follows_refl l Hl) _ H).
  - exact (parseColumnType_keeps ext (follows l) Hscan Hcol' n l
             (follows_refl l Hl) _ H).
Qed.

Lemma grammar_keeps_scanner_witness :
  ((forall l0 pos0, in_range l0 ->
      post (parseSelectQuery noCollaborators l0 pos0)
           (fun r => follows l0 (snd r)))
   /\ (forall l0, in_range l0 ->
         post (parseTableColumns noCollaborators l0)
              (fun r => follows l0 (snd r)))
   /\ in_range (at_token "a + b" 1 (tok 0 TokenIdent "a")))
  /\ (forall r l',
        parseExpr noCollaborators 40
          (at_token "a + b" 1 (tok 0 TokenIdent "a")) 0 = Done (r, l') ->
        follows (at_token "a + b" 1 (tok 0 TokenIdent "a")) l')
  /\ (forall r l',
        parseColumnType noCollaborators 40
          (at_token "a + b" 1 (tok 0 TokenIdent "a")) = Done (r, l') ->
        follows (at_token "a + b" 1 (tok 0 TokenIdent "a")) l').
Proof.
  assert (H1 : forall l0 pos0, in_range l0 ->
      post (parseSelectQuery noCollaborators l0 pos0)
           (fun r => follows l0 (snd r)))
    by (intros l0 pos0 H0; apply post_Done; now apply follows_refl).
  assert (H2 : forall l0, in_range l0 ->
      post (parseTableColumns noCollaborators l0)
           (fun r => follows l0 (snd r)))
    by (intros l0 H0; apply post_Done; now apply follows_refl).
  assert (H3 : in_range (at_token "a + b" 1 (tok 0 TokenIdent "a")))
    by (unfold in_range; vm_compute; repeat split; discriminate).
  split; [split; [exact H1|split; [exact H2|exact H3]]|].
  exact (grammar_keeps_scanner noCollaborators 40 _ 0 H1 H2 H3).
Defined.

(** * Chains of binary operators *)

(** The chains of the two arithmetic tiers, each as a property of its
    own. *)


(** X25. The additive tier nests to the left.  When [parseMulDivModExpr]
    reads the operand [x] and the text goes on with any number of operators
    [+] or [-], each followed by an operand that [parseMulDivModExpr] reads,
    [parseAddSubExpr] returns the binary nodes nested to the left, in the
    order of the text: [a - b - c] is [(a - b) - c]. *)
Theorem additive_chain_left_nested {External : Type}
    (ext : Collaborators External) (f : nat) (l : Lexer) (pos : Pos)
    (x : Expr External) (l1 : Lexer)
    (ops : list (TokenKind * Expr External)) (l' : Lexer) :
  parseMulDivModExpr ext f l pos = Done (Ok x, l1) ->
  add_chain ext f l1 ops l' ->
  forall fuel, (f + List.length ops + 2 <= fuel)%nat ->
    parseAddSubExpr ext fuel l pos = Done (Ok (left_nested x ops), l').
Proof.
  intros Hx Hchain fuel Hfuel. destruct fuel as [|fuel]; [lia|].
  rewrite parseAddSubExpr_S.
  rewrite (parseMulDivModExpr_fuel ext _ fuel _ _ _ Hx) by lia. cbn [bind].
  apply (parseAddSubExpr_loop_chain ext f); [exact Hchain|lia].
Qed.

(** X26. The multiplicative tier nests to the left.  When [parseUnaryExpr]
    reads the operand [x] and the text goes on with any number of operators
    [*], [/], [%], [->] or [::], each followed by an operand that
    [parseUnaryExpr] reads, [parseMulDivModExpr] returns the binary nodes
    nested to the left, in the order of the text: [a / b * c] is
    [(a / b) * c]. *)
Theorem multiplicative_chain_left_nested {External : Type}
    (ext : Collaborators External) (f : nat) (l : Lexer) (pos : Pos)
    (x : Expr External) (l1 : Lexer)
    (ops : list (TokenKind * Expr External)) (l' : Lexer) :
  parseUnaryExpr ext f l pos = Done (Ok x, l1) ->
  mul_chain ext f l1 ops l' ->
  forall fuel, (f + List.length ops + 2 <= fuel)%nat ->
    parseMulDivModExpr ext fuel l pos = Done (Ok (left_nested x ops), l').
Proof.
  intros Hx Hchain fuel Hfuel. destruct fuel as [|fuel]; [lia|].
  rewrite parseMulDivModExpr_S.
  rewrite (parseUnaryExpr_fuel ext _ fuel _ _ _ Hx) by lia. cbn [bind].
  apply (parseMulDivModExpr_loop_chain ext f); [exact Hchain|lia].
Qed.

Lemma additive_chain_left_nested_witness :
  (parseMulDivModExpr noCollaborators 20
     (at_token "a - b + c" 1 (tok 0 TokenIdent "a")) 0
   = Done (Ok (ident 0 "a"), at_token "a - b + c" 3 (tok 2 "-" "-"))
   /\ add_chain noCollaborators 20
        (at_token "a - b + c" 3 (tok 2 "-" "-"))
        [("-", ident 4 "b"); ("+", ident 8 "c")]
        (atEnd "a - b + c"))
  /\ forall fuel, (20 + 2 + 2 <= fuel)%nat ->
       parseAddSubExpr noCollaborators fuel
         (at_token "a - b + c" 1 (tok 0 TokenIdent "a")) 0
       = Done (Ok (BinaryExpr
                     (BinaryExpr (ident 0 "a") false false "-" (ident 4 "b"))
                     false false "+" (ident 8 "c")),
               atEnd "a - b + c").
Proof.
  assert (H1 : parseMulDivModExpr noCollaborators 20
                 (at_token "a - b + c" 1 (tok 0 TokenIdent "a")) 0
               = Done (Ok (ident 0 "a"),
                       at_token "a - b + c" 3 (tok 2 "-" "-")))
    by (vm_compute; reflexivity).
  assert (H2 : add_chain noCollaborators 20
                 (at_token "a - b + c" 3 (tok 2 "-" "-"))
                 [("-", ident 4 "b"); ("+", ident 8 "c")]
                 (atEnd "a - b + c")).
  { apply (add_chain_more noCollaborators 20
             (at_token "a - b + c" 3 (tok 2 "-" "-"))
             (at_token "a - b + c" 5 (tok 4 TokenIdent "b"))
             (at_token "a - b + c" 7 (tok 6 "+" "+")));
      try (vm_compute; reflexivity).
    apply (add_chain_more noCollaborators 20
             (at_token "a - b + c" 7 (tok 6 "+" "+"))
             (at_token "a - b + c" 9 (tok 8 TokenIdent "c"))
             (atEnd "a - b + c"));
      try (vm_compute; reflexivity).
    apply add_chain_end. vm_compute; reflexivity. }
  split; [now split|].
  exact (additive_chain_left_nested noCollaborators 20 _ 0 _ _ _ _ H1 H2).
Defined.

Lemma multiplicative_chain_left_nested_witness :
  (parseUnaryExpr noCollaborators 20
     (at_token "a / b * c" 1 (tok 0 TokenIdent "a")) 0
   = Done (Ok (ident 0 "a"), at_token "a / b * c" 3 (tok 2 "/" "/"))
   /\ mul_chain noCollaborators 20
        (at_token "a / b * c" 3 (tok 2 "/" "/"))
        [("/", ident 4 "b"); ("*", ident 8 "c")]
        (atEnd "a / b * c"))
  /\ forall fuel, (20 + 2 + 2 <= fuel)%nat ->
       parseMulDivModExpr noCollaborators fuel
         (at_token "a / b * c" 1 (tok 0 TokenIdent "a")) 0
       = Done (Ok (BinaryExpr
                     (BinaryExpr (ident 0 "a") false false "/" (ident 4 "b"))
                     false false "*" (ident 8 "c")),
               atEnd "a / b * c").
Proof.
  assert (H1 : parseUnaryExpr noCollaborators 20
                 (at_token "a / b * c" 1 (tok 0 TokenIdent "a")) 0
               = Done (Ok (ident 0 "a"),
                       at_token "a / b * c" 3 (tok 2 "/" "/")))
    by (vm_compute; reflexivity).
  assert (H2 : mul_chain noCollaborators 20
                 (at_token "a / b * c" 3 (tok 2 "/" "/"))
                 [("/", ident 4 "b"); ("*", ident 8 "c")]
                 (atEnd "a / b * c")).
  { apply (mul_chain_more noCollaborators 20
             (at_token "a / b * c" 3 (tok 2 "/" "/"))
             (at_token "a / b * c" 5 (tok 4 TokenIdent "b"))
             (at_token "a / b * c" 7 (tok 6 "*" "*")));
      try (vm_compute; reflexivity).
    apply (mul_chain_more noCollaborators 20
             (at_token "a / b * c" 7 (tok 6 "*" "*"))
             (at_token "a / b * c" 9 (tok 8 TokenIdent "c"))
             (atEnd "a / b * c"));
      try (vm_compute; reflexivity).
    apply mul_chain_end. vm_compute; reflexivity. }
  split; [now split|].
  exact (multiplicative_chain_left_nested noCollaborators 20 _ 0 _ _ _ _ H1 H2).
Defined.

(** * Tokens that are consumed twice *)

(** The lookahead is of the kind [k]. *)
Lemma matchTokenKind_inv (l : Lexer) (k : TokenKind) :
  matchTokenKind l k = true -> k <> TokenEOF ->
  exists t, last l = Some t /\ Kind t = k.
Proof.
  unfold matchTokenKind, lastTokenKind. intros H Hk.
  apply String.eqb_eq in H. destruct (last l) as [t|]; [now exists t|].
  congruence.
Qed.

Lemma matchTokenKind_last (l : Lexer) (t : Token) (k : TokenKind) :
  last l = Some t -> matchTokenKind l k = String.eqb (Kind t) k.
Proof. intros H. unfold matchTokenKind, lastTokenKind. now rewrite H. Qed.

(** [consumeTokenKind] on a lookahead of another kind. *)
Lemma consumeTokenKind_other (n : nat) (l : Lexer) (t : Token)
    (k : TokenKind) :
  last l = Some t -> Kind t <> k ->
  consumeTokenKind n l k = Done (Err (errExpectedTokenKind k (Kind t)), l).
Proof.
  intros Ht Hk. unfold consumeTokenKind, tryConsumeTokenKind, lastTokenKind.
  rewrite Ht. apply String.eqb_neq in Hk. rewrite Hk. cbn [bind].
  now rewrite Ht.
Qed.

(** [consumeTokenKind] on a lookahead of the kind: the token is returned and
    the next one is read. *)
Lemma consumeTokenKind_same (n : nat) (l : Lexer) (t : Token)
    (k : TokenKind) :
  last l = Some t -> Kind t = k ->
  consumeTokenKind n l k = (l1 <- advance n l ;; Done (Ok t, l1)).
Proof.
  intros Ht <-. unfold consumeTokenKind, tryConsumeTokenKind.
  rewrite Ht, String.eqb_refl.
  destruct (advance n l) as [l1| |]; reflexivity.
Qed.

(** The token that [advance] finds is the token that [peekToken] saw. *)
Lemma advance_after_peek (n m : nat) (l : Lexer) (p : option Token)
    (l' l1 : Lexer) :
  peekToken n l = Done (p, None, l') -> (m <= n)%nat ->
  advance m l = Done l1 -> lastToken l1 = p.
Proof.
  intros Hpeek Hmn Hadv.
  apply peekToken_ok_restores in Hpeek as (_ & l2 & Hscan & Hp).
  unfold advance in Hadv.
  destruct (consumeToken m l) as [[e l3]| |] eqn:E; cbn [bind] in Hadv;
    try discriminate.
  injection Hadv as <-.
  pose proof (approx_Done _ _ _ (consumeToken_mono l m n Hmn) E) as H.
  rewrite Hscan in H. injection H as _ <-. exact Hp.
Qed.

Section EnumValues.

Context {External : Type} (ext : Collaborators External).

Lemma parseColumnType_S (n : nat) (l : Lexer) :
  parseColumnType ext (S n) l
  = (try (ident, l) <- parseIdent n l ;;
     '(paren, l) <- tryConsumeTokenKind n l "(" ;;
     match paren with
     | Some _ =>
       if matchTokenKind l TokenIdent then
         if String.eqb (Name ident) "Nested"
         then parseNestedType ext n l ident (ParserPos l)
         else parseComplexType ext n l ident (ParserPos l)
       else if matchTokenKind l TokenString then
         '(peek, err, l) <- peekToken n l ;;
         match err with
         | None =>
           match peek with
           | None => Panic
           | Some t =>
             if String.eqb (Kind t) "="
             then parseEnumExpr n l (ParserPos l)
             else parseColumnTypeWithParams n l ident (ParserPos l)
           end
         | Some _ => parseColumnTypeWithParams n l ident (ParserPos l)
         end
       else if matchTokenKind l TokenInt then
         parseColumnTypeWithParams n l ident (ParserPos l)
       else Done (Err (errUnexpectedTokenKind (lastTokenKind l)), l)
     | None => Done (Ok (ScalarTypeExpr ident), l)
     end).
Proof. reflexivity. Qed.

(** An enum value whose label is followed by [=]: the label is consumed,
    and [parseString] finds the [=]. *)
Lemma parseEnumValueExpr_label (n m : nat) (l : Lexer) (pos : Pos)
    (p : Token) (l' : Lexer) :
  matchTokenKind l TokenString = true ->
  peekToken n l = Done (Some p, None, l') -> Kind p = "=" -> (m <= n)%nat ->
  forall v l1, parseEnumValueExpr m l pos <> Done (Ok v, l1).
Proof.
  intros Hstr Hpeek Hp Hmn v l1.
  destruct (matchTokenKind_inv l _ Hstr ltac:(discriminate)) as (t & Ht & Hk).
  unfold parseEnumValueExpr.
  rewrite (consumeTokenKind_same m l t TokenString Ht Hk).
  destruct (advance m l) as [l2| |] eqn:Hadv; cbn [bind]; try discriminate.
  pose proof (advance_after_peek n m l _ _ _ Hpeek Hmn Hadv) as Hlast.
  unfold parseString.
  rewrite (consumeTokenKind_other m l2 p TokenString Hlast)
    by (rewrite Hp; discriminate).
  cbn [bind]. discriminate.
Qed.

Lemma parseEnumExpr_label (n m : nat) (l : Lexer) (pos : Pos) (p : Token)
    (l' : Lexer) :
  matchTokenKind l TokenString = true ->
  peekToken n l = Done (Some p, None, l') -> Kind p = "=" -> (m <= n)%nat ->
  forall e l1, parseEnumExpr (External := External) m l pos <> Done (Ok e, l1).
Proof.
  intros Hstr Hpeek Hp Hmn e l1.
  destruct (matchTokenKind_inv l _ Hstr ltac:(discriminate)) as (t & Ht & Hk).
  assert (Hparen : matchTokenKind l ")" = false).
  { rewrite (matchTokenKind_last l t _ Ht), Hk. reflexivity. }
  unfold parseEnumExpr. destruct m as [|m]; [discriminate|].
  cbn [parseEnumExpr_loop]. rewrite Hparen. cbn [negb].
  destruct (isEOF l); cbn [negb andb].
  - cbn [bind].
    rewrite (consumeTokenKind_other (S m) l t ")" Ht)
      by (rewrite Hk; discriminate).
    cbn [bind]. discriminate.
  - destruct (parseEnumValueExpr m l (ParserPos l)) as [[[v|err] l2]| |] eqn:E;
      cbn [bind]; try discriminate.
    exfalso. revert E.
    apply (parseEnumValueExpr_label n m l _ p l' Hstr Hpeek Hp). lia.
Qed.

End EnumValues.

(** X27. An enum type with values is never parsed.  [parseColumnType] takes
    its enum branch when the lookahead after [(] is a string and the token
    after it is [=].  There [parseEnumValueExpr] consumes the string with
    [consumeTokenKind] and then asks [parseString] for it, which finds the
    [=]: the call returns an error, or does not return, and never a
    node. *)
Theorem enum_type_never_parsed {External : Type} (ext : Collaborators External)
    (n : nat) (l : Lexer) (name : Ident) (l1 : Lexer) (t : Token)
    (l2 : Lexer) (p : Token) (l2' : Lexer) :
  parseIdent n l = Done (Ok name, l1) ->
  tryConsumeTokenKind n l1 "(" = Done (Some t, l2) ->
  matchTokenKind l2 TokenString = true ->
  peekToken n l2 = Done (Some p, None, l2') -> Kind p = "=" ->
  forall e l', parseColumnType ext (S n) l <> Done (Ok e, l').
Proof.
  intros Hname Hparen Hstr Hpeek Hp e l'.
  rewrite parseColumnType_S, Hname. cbn [bind]. rewrite Hparen. cbn [bind].
  destruct (matchTokenKind_inv l2 _ Hstr ltac:(discriminate)) as (t2 & Ht2 & Hk).
  rewrite (matchTokenKind_last l2 t2 TokenIdent Ht2), Hk.
  change (String.eqb TokenString TokenIdent) with false. cbv iota.
  rewrite Hstr, Hpeek. cbn [bind]. rewrite Hp.
  change (String.eqb "=" "=") with true. cbv iota.
  pose proof Hpeek as Hsame. apply peekToken_ok_restores in Hsame as [-> _].
  apply (parseEnumExpr_label n n l2 _ p l2 Hstr Hpeek Hp (le_n n)).
Qed.

Lemma enum_type_never_parsed_witness :
  (parseIdent 20 (at_token "Enum8('a'=1)" 5 (tok 0 TokenIdent "Enum8"))
   = Done (Ok (mkIdent 0 5 "Enum8"), at_token "Enum8('a'=1)" 6 (tok 5 "(" "("))
   /\ tryConsumeTokenKind 20 (at_token "Enum8('a'=1)" 6 (tok 5 "(" "(")) "("
      = Done (Some (tok 5 "(" "("),
              at_token "Enum8('a'=1)" 9 (tok 7 TokenString "a"))
   /\ matchTokenKind (at_token "Enum8('a'=1)" 9 (tok 7 TokenString "a"))
        TokenString = true
   /\ peekToken 20 (at_token "Enum8('a'=1)" 9 (tok 7 TokenString "a"))
      = Done (Some (tok 9 "=" "="), None,
              at_token "Enum8('a'=1)" 9 (tok 7 TokenString "a"))
   /\ Kind (tok 9 "=" "=") = "=")
  /\ forall e l',
       parseColumnType noCollaborators 21
         (at_token "Enum8('a'=1)" 5 (tok 0 TokenIdent "Enum8"))
       <> Done (Ok e, l').
Proof.
  assert (H1 : parseIdent 20
                 (at_token "Enum8('a'=1)" 5 (tok 0 TokenIdent "Enum8"))
               = Done (Ok (mkIdent 0 5 "Enum8"),
                       at_token "Enum8('a'=1)" 6 (tok 5 "(" "(")))
    by (vm_compute; reflexivity).
  assert (H2 : tryConsumeTokenKind 20
                 (at_token "Enum8('a'=1)" 6 (tok 5 "(" "(")) "("
               = Done (Some (tok 5 "(" "("),
                       at_token "Enum8('a'=1)" 9 (tok 7 TokenString "a")))
    by (vm_compute; reflexivity).
  assert (H3 : matchTokenKind
                 (at_token "Enum8('a'=1)" 9 (tok 7 TokenString "a"))
                 TokenString = true) by reflexivity.
  assert (H4 : peekToken 20
                 (at_token "Enum8('a'=1)" 9 (tok 7 TokenString "a"))
               = Done (Some (tok 9 "=" "="), None,
                       at_token "Enum8('a'=1)" 9 (tok 7 TokenString "a")))
    by (vm_compute; reflexivity).
  assert (H5 : Kind (tok 9 "=" "=") = "=") by reflexivity.
  split; [now repeat split|].
  exact (enum_type_never_parsed noCollaborators 20 _ _ _ _ _ _ _
           H1 H2 H3 H4 H5).
Defined.

(** * Function calls and compression codecs *)

(** What a successful [consumeTokenKind] has done. *)
Lemma consumeTokenKind_inv (n : nat) (l : Lexer) (k : TokenKind) (t : Token)
    (l' : Lexer) :
  consumeTokenKind n l k = Done (Ok t, l') ->
  last l = Some t /\ Kind t = k /\ advance n l = Done l'.
Proof.
  unfold consumeTokenKind, tryConsumeTokenKind.
  destruct (last l) as [t0|]; [|cbn [bind]; discriminate].
  destruct (String.eqb (Kind t0) k) eqn:Hk; [|cbn [bind]; discriminate].
  apply String.eqb_eq in Hk.
  destruct (advance n l) as [l1| |]; cbn [bind]; try discriminate.
  intros [= <- <-]. now repeat split.
Qed.

(** X28. [parseFunctionExpr] takes the second of two identifiers as the
    function name.  It consumes an identifier with [consumeTokenKind] and
    then asks [parseIdent] for the name: when it returns a node, the
    lookahead was an identifier, the token after it was an identifier too,
    and the node is named after that second token.  A call such as [f(x)],
    whose name is followed by [(], is an error. *)
Theorem function_name_is_second_identifier {External : Type}
    (ext : Collaborators External) (n : nat) (l : Lexer) (pos : Pos)
    (e : Expr External) (l' : Lexer) :
  parseFunctionExpr ext n l pos = Done (Ok e, l') ->
  exists t1 l1 t2 params,
    last l = Some t1 /\ Kind t1 = TokenIdent /\ advance n l = Done l1
    /\ last l1 = Some t2 /\ Kind t2 = TokenIdent
    /\ e = FunctionExpr {| NamePos := TokPos t2; NameEnd := TokEnd t2;
                           Name := TokString t2 |} params.
Proof.
  unfold parseFunctionExpr. intros H.
  destruct (consumeTokenKind n l TokenIdent) as [[[t1|e1] l1]| |] eqn:E1;
    cbn [bind] in H; try discriminate.
  apply consumeTokenKind_inv in E1 as (Ht1 & Hk1 & Hadv).
  unfold parseIdent in H.
  destruct (consumeTokenKind n l1 TokenIdent) as [[[t2|e2] l2]| |] eqn:E2;
    cbn [bind] in H; try discriminate.
  apply consumeTokenKind_inv in E2 as (Ht2 & Hk2 & _).
  destruct (parseFunctionParams ext n l2 (ParserPos l2))
    as [[[params|e3] l3]| |]; cbn [bind] in H; try discriminate.
  injection H as <- _.
  exists t1, l1, t2, params. now repeat split.
Qed.

Lemma function_name_is_second_identifier_witness :
  parseFunctionExpr noCollaborators 20
    (at_token "f g(x)" 1 (tok 0 TokenIdent "f")) 0
  = Done (Ok (FunctionExpr (mkIdent 2 3 "g")
                (mkParamExprList 3 5
                   (mkColumnExprList 4 0 false [EIdent (mkIdent 4 5 "x")])
                   None)),
          atEnd "f g(x)")
  /\ exists t1 l1 t2 params,
       last (at_token "f g(x)" 1 (tok 0 TokenIdent "f")) = Some t1
       /\ Kind t1 = TokenIdent
       /\ advance 20 (at_token "f g(x)" 1 (tok 0 TokenIdent "f")) = Done l1
       /\ last l1 = Some t2 /\ Kind t2 = TokenIdent
       /\ @FunctionExpr Empty_set (mkIdent 2 3 "g")
            (mkParamExprList 3 5
               (mkColumnExprList 4 0 false [EIdent (mkIdent 4 5 "x")]) None)
          = FunctionExpr {| NamePos := TokPos t2; NameEnd := TokEnd t2;
                            Name := TokString t2 |} params.
Proof.
  assert (H : parseFunctionExpr noCollaborators 20
                (at_token "f g(x)" 1 (tok 0 TokenIdent "f")) 0
              = Done (Ok (FunctionExpr (mkIdent 2 3 "g")
                            (mkParamExprList 3 5
                               (mkColumnExprList 4 0 false
                                  [EIdent (mkIdent 4 5 "x")])
                               None)),
                      atEnd "f g(x)")) by (vm_compute; reflexivity).
  split; [exact H|].
  exact (function_name_is_second_identifier noCollaborators 20 _ 0 _ _ H).
Defined.

(** The text is ASCII.  On such a text [ToUpper] is Go's
    [strings.ToUpper]. *)
Definition is_ascii (s : string) : bool :=
  all_bytes (fun c => code c <? 128) s.

(** X29. The end of a CODEC clause, for a codec name in ASCII.  After the
    codec name, and its level when the name takes one,
    [tryParseCompressionCodecs] reads the end of the lookahead token before
    it checks that the token is [)].  With no lookahead token, at the end
    of the input, this is a nil dereference: the call panics instead of
    returning an error.  With a lookahead [)], the codec is returned and its
    [RightParenPos] is the end of the [)], not its start; with another
    lookahead the error is "expected [)]".  (A name between backticks may
    hold letters outside ASCII, which Go upper-cases too before it compares
    the name with ZSTD and LZ4HC; such names are left out.) *)
Theorem codec_closing_parenthesis (n : nat) (l : Lexer) (pos : Pos)
    (t : Token) (l1 : Lexer) (t' : Token) (l2 : Lexer) (name : Ident)
    (l3 : Lexer) (level : option NumberLiteral) (l4 : Lexer) :
  tryConsumeKeyword n l KeywordCodec = Done (Some t, l1) ->
  consumeTokenKind n l1 "(" = Done (Ok t', l2) ->
  parseIdent n l2 = Done (Ok name, l3) ->
  is_ascii (Name name) = true ->
  (if String.eqb (ToUpper (Name name)) "ZSTD"
      || String.eqb (ToUpper (Name name)) "LZ4HC"
   then tryParseCompressionLevel n l3 (ParserPos l3)
   else Done (Ok None, l3)) = Done (Ok level, l4) ->
  (last l4 = None -> tryParseCompressionCodecs n l pos = Panic)
  /\ (forall t4 l5,
        last l4 = Some t4 -> Kind t4 = ")" -> advance n l4 = Done l5 ->
        tryParseCompressionCodecs n l pos
        = Done (Ok (Some {| CodecPos := pos;
                            CodecRightParenPos := TokEnd t4;
                            CodecName := name;
                            CodecLevel := level |}), l5))
  /\ (forall t4,
        last l4 = Some t4 -> Kind t4 <> ")" ->
        tryParseCompressionCodecs n l pos
        = Done (Err (errExpectedTokenKind ")" (Kind t4)), l4)).
Proof.
  intros Hkw Hparen Hname _ Hlevel.
  assert (Hbody : tryParseCompressionCodecs n l pos
    = match last l4 with
      | None => Panic
      | Some t4 =>
        try (_t, l5) <- consumeTokenKind n l4 ")" ;;
        Done (Ok (Some {| CodecPos := pos;
                          CodecRightParenPos := TokEnd t4;
                          CodecName := name;
                          CodecLevel := level |}), l5)
      end).
  { unfold tryParseCompressionCodecs. rewrite Hkw. cbn [bind].
    rewrite Hparen. cbn [bind]. rewrite Hname. cbn [bind].
    revert Hlevel.
    destruct (String.eqb (ToUpper (Name name)) "ZSTD"
              || String.eqb (ToUpper (Name name)) "LZ4HC");
      intros ->; reflexivity. }
  rewrite Hbody. repeat split.
  - intros ->. reflexivity.
  - intros t4 l5 Ht4 Hk Hadv. rewrite Ht4.
    rewrite (consumeTokenKind_same n l4 t4 ")" Ht4 Hk), Hadv. reflexivity.
  - intros t4 Ht4 Hk. rewrite Ht4.
    rewrite (consumeTokenKind_other n l4 t4 ")" Ht4 Hk). reflexivity.
Qed.

Lemma codec_closing_parenthesis_witness :
  (tryConsumeKeyword 20 (at_token "CODEC(LZ4" 5 (tok 0 TokenKeyword "CODEC"))
     KeywordCodec
   = Done (Some (tok 0 TokenKeyword "CODEC"),
           at_token "CODEC(LZ4" 6 (tok 5 "(" "("))
   /\ consumeTokenKind 20 (at_token "CODEC(LZ4" 6 (tok 5 "(" "(")) "("
      = Done (Ok (tok 5 "(" "("), at_token "CODEC(LZ4" 9 (tok 6 TokenIdent "LZ4"))
   /\ parseIdent 20 (at_token "CODEC(LZ4" 9 (tok 6 TokenIdent "LZ4"))
      = Done (Ok (mkIdent 6 9 "LZ4"), atEnd "CODEC(LZ4")
   /\ is_ascii (Name (mkIdent 6 9 "LZ4")) = true
   /\ (if String.eqb (ToUpper (Name (mkIdent 6 9 "LZ4"))) "ZSTD"
          || String.eqb (ToUpper (Name (mkIdent 6 9 "LZ4"))) "LZ4HC"
       then tryParseCompressionLevel 20 (atEnd "CODEC(LZ4")
              (ParserPos (atEnd "CODEC(LZ4"))
       else Done (Ok None, atEnd "CODEC(LZ4"))
      = Done (Ok None, atEnd "CODEC(LZ4"))
  /\ (last (atEnd "CODEC(LZ4") = None ->
      tryParseCompressionCodecs 20
        (at_token "CODEC(LZ4" 5 (tok 0 TokenKeyword "CODEC")) 0 = Panic)
  /\ (forall t4 l5,
        last (atEnd "CODEC(LZ4") = Some t4 -> Kind t4 = ")" ->
        advance 20 (atEnd "CODEC(LZ4") = Done l5 ->
        tryParseCompressionCodecs 20
          (at_token "CODEC(LZ4" 5 (tok 0 TokenKeyword "CODEC")) 0
        = Done (Ok (Some {| CodecPos := 0;
                            CodecRightParenPos := TokEnd t4;
                            CodecName := mkIdent 6 9 "LZ4";
                            CodecLevel := None |}), l5))
  /\ (forall t4,
        last (atEnd "CODEC(LZ4") = Some t4 -> Kind t4 <> ")" ->
        tryParseCompressionCodecs 20
          (at_token "CODEC(LZ4" 5 (tok 0 TokenKeyword "CODEC")) 0
        = Done (Err (errExpectedTokenKind ")" (Kind t4)), atEnd "CODEC(LZ4")).
Proof.
  assert (H1 : tryConsumeKeyword 20
                 (at_token "CODEC(LZ4" 5 (tok 0 TokenKeyword "CODEC"))
                 KeywordCodec
               = Done (Some (tok 0 TokenKeyword "CODEC"),
                       at_token "CODEC(LZ4" 6 (tok 5 "(" "(")))
    by (vm_compute; reflexivity).
  assert (H2 : consumeTokenKind 20 (at_token "CODEC(LZ4" 6 (tok 5 "(" "(")) "("
               = Done (Ok (tok 5 "(" "("),
                       at_token "CODEC(LZ4" 9 (tok 6 TokenIdent "LZ4")))
    by (vm_compute; reflexivity).
  assert (H3 : parseIdent 20 (at_token "CODEC(LZ4" 9 (tok 6 TokenIdent "LZ4"))
               = Done (Ok (mkIdent 6 9 "LZ4"), atEnd "CODEC(LZ4"))
    by (vm_compute; reflexivity).
  assert (H4 : (if String.eqb (ToUpper (Name (mkIdent 6 9 "LZ4"))) "ZSTD"
                   || String.eqb (ToUpper (Name (mkIdent 6 9 "LZ4"))) "LZ4HC"
                then tryParseCompressionLevel 20 (atEnd "CODEC(LZ4")
                       (ParserPos (atEnd "CODEC(LZ4"))
                else Done (Ok None, atEnd "CODEC(LZ4"))
               = Done (Ok None, atEnd "CODEC(LZ4")) by reflexivity.
  assert (H5 : is_ascii (Name (mkIdent 6 9 "LZ4")) = true) by reflexivity.
  split; [exact (conj H1 (conj H2 (conj H3 (conj H5 H4))))|].
  exact (codec_closing_parenthesis 20 _ 0 _ _ _ _ _ _ _ _ H1 H2 H3 H5 H4).
Defined.
